(** * The Codex app-server bridge of [server.js]

    A shallow embedding of the [CodexAppServer] class of [src/server.js]
    (lines 325-764) together with the promise queue of [sendCodexPrompt],
    and the properties of the agent process bridge proved over it.  The
    helpers of the HTTP endpoints (data URLs, mime types, card candidates,
    the feedback store, paths inside the workspace) and the relay of the
    language server follow the bridge, with their properties at the end.

    The bridge is asynchronous JavaScript.  Its synchronous pieces (the
    methods, the event handlers, and the segments of the [async] functions
    between two [await]s) are state transformers over a [world]: the fields
    of the [codexApp] object, the module-level variables, and the part of the
    runtime the bridge relies on (promises with their reactions, timers, the
    microtask queue, the spawned children).  Every observable action is also
    appended to a [trace]. *)

From Stdlib Require Import ZArith Lia List Bool Ascii String DecimalString.
From stdpp Require Import base option list strings gmap.

Local Open Scope string_scope.
Local Open Scope Z_scope.

(** ** JavaScript values

    Protocol messages are what [JSON.parse] returns.  [undefined] is not a
    JSON value: a value that may be [undefined] is an [option json].  Numbers
    are the integers, the only numbers the protocol uses as identifiers.

    An object or an array is a reference: it carries the address it was
    allocated at, and [===], [Set] and [Map] compare addresses.
    [JSON.parse] allocates every object anew, so in a run of the server two
    objects read from different lines have different addresses.  The objects
    the server builds itself are never compared; they are written [JObj] and
    [JArr], at address 0. *)

Abbreviation address := nat.

Unset Elimination Schemes.
Inductive json : Type :=
| JNull
| JBool (b : bool)
| JNum (n : Z)
| JStr (s : string)
| JArrAt (at_ : address) (items : list json)
| JObjAt (at_ : address) (fields : list (string * json)).
Set Elimination Schemes.

Abbreviation JArr := (JArrAt 0).
Abbreviation JObj := (JObjAt 0).

Abbreviation jsval := (option json).
Abbreviation undefined := (@None json).

Module Js.

(** ToBoolean: [undefined], [null], [false], [0] and [''] are falsy. *)
Definition truthy (v : jsval) : bool :=
  match v with
  | None | Some JNull | Some (JBool false) => false
  | Some (JNum n) => negb (n =? 0)
  | Some (JStr s) => negb (String.eqb s "")
  | Some _ => true
  end.

(** [a || b] *)
Definition or (a b : jsval) : jsval := if truthy a then a else b.

(** [a || d] for a default [d] that is a value. *)
Definition or_else (a : jsval) (d : json) : json :=
  match a with
  | Some v => if truthy a then v else d
  | None => d
  end.

(** A parsed object keeps its fields in source order; a repeated key is
    overridden by its last occurrence. *)
Fixpoint lookup_field (k : string) (fields : list (string * json)) : jsval :=
  match fields with
  | [] => None
  | (k', v) :: rest =>
      match lookup_field k rest with
      | Some v' => Some v'
      | None => if String.eqb k k' then Some v else None
      end
  end.

(** [v.k] for a [v] that is neither [null] nor [undefined].  None of the
    names the bridge reads is a built-in property of a string, a number, a
    boolean or an array, so only objects answer. *)
Definition get (v : json) (k : string) : jsval :=
  match v with
  | JObjAt _ fields => lookup_field k fields
  | _ => None
  end.

(** [v?.k] *)
Definition get_opt (v : jsval) (k : string) : jsval :=
  match v with
  | None | Some JNull => None
  | Some o => get o k
  end.

(** SameValueZero, which [Set] and [Map] compare with: primitives by
    value, objects and arrays by address. *)
Definition same_value (a b : json) : bool :=
  match a, b with
  | JNull, JNull => true
  | JBool x, JBool y => Bool.eqb x y
  | JNum x, JNum y => x =? y
  | JStr x, JStr y => String.eqb x y
  | JArrAt x _, JArrAt y _ => Nat.eqb x y
  | JObjAt x _, JObjAt y _ => Nat.eqb x y
  | _, _ => false
  end.

(** [a === b]; on the integers it is SameValueZero. *)
Definition strict_eq (a b : jsval) : bool :=
  match a, b with
  | None, None => true
  | Some x, Some y => same_value x y
  | _, _ => false
  end.

(** Whether two values are the same tree, addresses included. *)
Fixpoint equal (a b : json) {struct a} : bool :=
  match a, b with
  | JNull, JNull => true
  | JBool x, JBool y => Bool.eqb x y
  | JNum x, JNum y => x =? y
  | JStr x, JStr y => String.eqb x y
  | JArrAt i xs, JArrAt j ys =>
      Nat.eqb i j &&
      (fix go (xs ys : list json) {struct xs} : bool :=
         match xs, ys with
         | [], [] => true
         | x :: xs', y :: ys' => equal x y && go xs' ys'
         | _, _ => false
         end) xs ys
  | JObjAt i xs, JObjAt j ys =>
      Nat.eqb i j &&
      (fix go (xs ys : list (string * json)) {struct xs} : bool :=
         match xs, ys with
         | [], [] => true
         | (k, x) :: xs', (k', y) :: ys' => String.eqb k k' && equal x y && go xs' ys'
         | _, _ => false
         end) xs ys
  | _, _ => false
  end.

(** [Array.prototype.join] on strings *)
Definition join (sep : string) (parts : list string) : string :=
  String.concat sep parts.

Definition rev_string (s : string) : string :=
  string_of_list_ascii (List.rev (list_ascii_of_string s)).

(** *** Number::toString

    A [JNum n] is the double whose value is the integer [n].  Below [2^53]
    every integer is a double and prints as its digits.  From [2^53] on,
    the doubles around [n] are [2^e] apart, with [e = log2 n - 52], and
    JavaScript prints the decimal with the fewest significant digits that
    reads back as [n] (the closest to [n] when there are several): as plain
    digits when there are at most 21 of them, in exponent notation
    beyond. *)
Definition digits (n : Z) : string := NilZero.string_of_int (Z.to_int n).

Definition two53 : Z := 9007199254740992.

(** Whether the integer [v] reads back as the double [n]: it lies within
    half a step of [n], the ends included when the mantissa of [n] is
    even.  Below a power of two the step is half as long. *)
Definition reads_back (n v : Z) : bool :=
  let e := Z.log2 n - 52 in
  let m := n / 2 ^ e in
  let below := if m =? 2 ^ 52 then 2 ^ (e - 1) else 2 ^ e in
  let above := 2 ^ e in
  if Z.even m
  then (2 * n - below <=? 2 * v) && (2 * v <=? 2 * n + above)
  else (2 * n - below <? 2 * v) && (2 * v <? 2 * n + above).

(** The shortest decimal that reads back as [n], trying the multiples of
    [10^j] next to [n] for [j] from the number of digits down. *)
Fixpoint shortest (j : nat) (n : Z) : Z :=
  let scale := 10 ^ Z.of_nat j in
  let lo := n / scale * scale in
  let hi := lo + scale in
  let found :=
    match reads_back n lo, reads_back n hi with
    | true, true =>
        Some (if n - lo <? hi - n then lo
              else if hi - n <? n - lo then hi
              else if Z.even (n / scale) then lo else hi)
    | true, false => Some lo
    | false, true => Some hi
    | false, false => None
    end in
  match found, j with
  | Some v, _ => v
  | None, S j' => shortest j' n
  | None, O => n
  end.

Fixpoint drop_zeros (s : string) : string :=
  match s with
  | String "0" rest => drop_zeros rest
  | _ => s
  end.

(** [d.ddde+x] for the digits of a decimal with more than 21 digits. *)
Definition exponent_form (d : string) : string :=
  match rev_string (drop_zeros (rev_string d)) with
  | String c EmptyString => String c "e+" ++ digits (Z.of_nat (String.length d) - 1)
  | String c rest => String c ("." ++ rest) ++ "e+" ++ digits (Z.of_nat (String.length d) - 1)
  | EmptyString => d
  end.

Definition number_to_string (n : Z) : string :=
  if Z.abs n <? two53 then digits n
  else
    let d := digits (shortest (String.length (digits (Z.abs n)) - 1) (Z.abs n)) in
    (if n <? 0 then "-" else "") ++
    (if (String.length d <=? 21)%nat then d else exponent_form d).

(** *** ToString

    As applied by [String(v)], [new Error(v)], template strings and
    [join]; [None] when it throws a [TypeError].  An array prints its
    members joined by commas, [null] among them as the empty string.  An
    object prints through [Object.prototype.toString], unless it has a
    [toString] key of its own: a parsed value is never callable, the
    inherited [valueOf] returns the object itself, and the conversion
    throws. *)
Fixpoint to_string (v : json) : option string :=
  match v with
  | JNull => Some "null"
  | JBool true => Some "true"
  | JBool false => Some "false"
  | JNum n => Some (number_to_string n)
  | JStr s => Some s
  | JArrAt _ items =>
      option_map (join ",")
        ((fix members (l : list json) : option (list string) :=
            match l with
            | [] => Some []
            | x :: l' =>
                match (match x with JNull => Some "" | _ => to_string x end) with
                | Some s => option_map (cons s) (members l')
                | None => None
                end
            end) items)
  | JObjAt _ fields =>
      match lookup_field "toString" fields with
      | Some _ => None
      | None => Some "[object Object]"
      end
  end.

(** [Array.prototype.join] on values: every member goes through ToString,
    [null] and [undefined] as the empty string; the first member that does
    not convert throws. *)
Fixpoint member_strings (l : list json) : option (list string) :=
  match l with
  | [] => Some []
  | x :: l' =>
      match (match x with JNull => Some "" | _ => to_string x end) with
      | Some s => option_map (cons s) (member_strings l')
      | None => None
      end
  end.

Definition join_values (sep : string) (l : list json) : option string :=
  option_map (join sep) (member_strings l).

(** A [string] lists the code units of a JavaScript string, for strings
    whose code units are below 256.  The one literal of the source outside
    that range, the ellipsis that ends a long summary, is written in its
    UTF-8 encoding.

    White space in the sense of [String.prototype.trim] and of the regular
    expression class [\s], among those code units. *)
Definition is_space (c : ascii) : bool :=
  let n := nat_of_ascii c in
  ((9 <=? n) && (n <=? 13) || (n =? 32) || (n =? 160))%nat.

Fixpoint trim_start (s : string) : string :=
  match s with
  | String c rest => if is_space c then trim_start rest else s
  | EmptyString => EmptyString
  end.

Definition trim (s : string) : string :=
  rev_string (trim_start (rev_string (trim_start s))).

(** [s.replace(/\s+/g, ' ')] *)
Fixpoint collapse_spaces (in_run : bool) (s : string) : string :=
  match s with
  | EmptyString => EmptyString
  | String c rest =>
      if is_space c
      then (if in_run then collapse_spaces true rest
            else String " " (collapse_spaces true rest))
      else String c (collapse_spaces false rest)
  end.

Definition length (s : string) : Z := Z.of_nat (String.length s).

(** [s.slice(0, n)] for [0 <= n] *)
Definition slice0 (n : nat) (s : string) : string := String.substring 0 n s.

Definition starts_with (p s : string) : bool := String.prefix p s.

End Js.

(** [json] is nested through [list]: its induction principle carries the
    hypotheses for the members of an array and of an object. *)
Section JsonInd.
Variable P : json -> Prop.
Hypothesis Hnull : P JNull.
Hypothesis Hbool : forall b, P (JBool b).
Hypothesis Hnum : forall n, P (JNum n).
Hypothesis Hstr : forall s, P (JStr s).
Hypothesis Harr : forall a items, Forall P items -> P (JArrAt a items).
Hypothesis Hobj : forall a fields, Forall (fun kv => P (snd kv)) fields -> P (JObjAt a fields).

Fixpoint json_ind (v : json) : P v :=
  match v with
  | JNull => Hnull
  | JBool b => Hbool b
  | JNum n => Hnum n
  | JStr s => Hstr s
  | JArrAt a items =>
      Harr a items
        ((fix all (l : list json) : Forall P l :=
            match l with
            | [] => Forall_nil_2 P
            | x :: l' => Forall_cons_2 P x l' (json_ind x) (all l')
            end) items)
  | JObjAt a fields =>
      Hobj a fields
        ((fix all (l : list (string * json)) : Forall (fun kv => P (snd kv)) l :=
            match l with
            | [] => Forall_nil_2 _
            | kv :: l' => Forall_cons_2 _ kv l' (json_ind (snd kv)) (all l')
            end) fields)
  end.
End JsonInd.

(** ** The [Map] of JavaScript

    A [Map] iterates in insertion order, and [reset] rejects the pending
    requests in that order: the table is an association list. *)
Module JsMap.
Section Ops.
Context {K V : Type} `{EqDecision K}.

Fixpoint get (k : K) (m : list (K * V)) : option V :=
  match m with
  | [] => None
  | (k', v) :: rest => if decide (k = k') then Some v else get k rest
  end.

(** [set] keeps the position of a key that is already present. *)
Fixpoint set (k : K) (v : V) (m : list (K * V)) : list (K * V) :=
  match m with
  | [] => [(k, v)]
  | (k', v') :: rest =>
      if decide (k = k') then (k, v) :: rest else (k', v') :: set k v rest
  end.

Fixpoint delete (k : K) (m : list (K * V)) : list (K * V) :=
  match m with
  | [] => []
  | (k', v') :: rest =>
      if decide (k = k') then delete k rest else (k', v') :: delete k rest
  end.

Definition keys (m : list (K * V)) : list K := List.map fst m.
Definition values (m : list (K * V)) : list V := List.map snd m.
End Ops.
End JsMap.

(** ** Errors, promises, timers *)

(** An [Error] object: its message and, on a turn time-out, the [events]
    property the bridge attaches to it. *)
Record error : Type := {
  error_message : string;
  error_events : option (list string);
}.

Definition Error (m : string) : error :=
  {| error_message := m; error_events := None |}.

Abbreviation promise := nat.
Abbreviation timer := nat.

Inductive settled : Type :=
| Fulfilled (v : jsval)
| Rejected (e : error).

(** The code that runs after an [await] or inside a [then]/[catch]
    handler, named by the place in [server.js] where it resumes. *)
Inductive kont : Type :=
| KAdopt                                 (* a promise returned from an async function *)
| KEnsureStartedJoined                   (* ensureStarted, after line 384 *)
| KEnsureStartedOwner                    (* ensureStarted, after line 389 *)
| KStartInitialized (startp : promise)   (* start, after line 423 *)
| KStartLoggedIn (startp : promise)      (* start, after line 435 *)
| KAccountRead                           (* ensureLoggedIn, after line 649 *)
| KLoginStarted                          (* ensureLoggedIn, after line 666 *)
| KLoginCompleted                        (* ensureLoggedIn, after line 671 *)
| KThreadStarted (cwd : string)          (* getThreadId, after line 577 *)
| KRunTurnStarted (prompt : json) (cwd : string)   (* runTurn, after line 591 *)
| KRunTurnThread (prompt : json)         (* runTurn, after line 592 *)
| KRunTurnTurnStarted                    (* runTurn, after line 594 *)
| KQueueThen (prompt : json) (cwd : string)        (* sendCodexPrompt, line 754 *)
| KQueueCatch.                           (* sendCodexPrompt, line 755 *)

(** A suspended activation: the promise it will settle and where it resumes. *)
Definition frame : Type := promise * kont.

Inductive pstate : Type :=
| Pending (reactions : list frame)
| Settled (o : settled).

(** The callbacks handed to [setTimeout]. *)
Inductive timer_callback : Type :=
| RpcTimedOut (id : Z) (method : string) (p : promise)   (* sendRpc, line 480 *)
| TurnTimedOut (p : promise)                             (* runTurn, line 603 *)
| LoginTimedOut (p : promise).                           (* ensureLoggedIn, line 672 *)

(** The pair of closures [{ resolve, reject }] stored in the pending table,
    in [currentTurn] and in [loginWaiter]: each clears the time-out it
    captured and then settles the promise it captured. *)
Record waiter : Type := {
  w_promise : promise;
  w_timer : timer;
}.

Inductive effect : Type :=
| ESpawn (n : nat)                                       (* spawn('codex', ['app-server']) *)
| EWrite (message : json)                                (* proc.stdin.write(JSON.stringify(message) + '\n') *)
| ESetTimeout (t : timer) (cb : timer_callback) (ms : Z)
| EClearTimeout (t : timer)
| EResolve (p : promise) (v : jsval)
| EReject (p : promise) (e : error)
| ERlClose
| ELog (s : string)
| EWarn (s : string).

(** ** The state *)

Record child : Type := {
  child_id : nat;
  killed : bool;
}.

Record turn : Type := {
  turnId : jsval;
  stdout : string;
  stderr : string;
  events : list string;
  turn_waiter : waiter;
}.

(** The fields of [class CodexAppServer] (constructor, lines 366-377).

    [nextId] is a JavaScript number that starts at 1 and only ever changes
    by [this.nextId++]; the increment is exact below [2^53], which no
    bridge lifetime reaches, and the counter is an integer here. *)
Record CodexAppServer : Type := {
  proc : option child;
  rl : option nat;
  nextId : Z;
  pending : list (Z * waiter);
  threadByCwd : gmap string json;
  seededThreads : list json;
  currentTurn : option turn;
  starting : option promise;
  startupStderr : string;
  loginWaiter : option waiter;
}.

(** What the runtime knows of a spawned child: the promise of the [start]
    call that spawned it, whose [resolve] and [reject] its handlers hold. *)
Record child_state : Type := {
  c_start : promise;
  c_spawned : bool;
}.

Record world : Type := {
  codexApp : CodexAppServer;
  codexQueue : promise;
  codexContextWarningLogged : bool;
  promises : list pstate;
  timers : list (option timer_callback);
  microtasks : list (frame * settled);
  children : list child_state;
  callers : list promise;
  trace : list effect;
}.

Definition set_proc v a := {| proc := v; rl := rl a; nextId := nextId a; pending := pending a;
  threadByCwd := threadByCwd a; seededThreads := seededThreads a; currentTurn := currentTurn a;
  starting := starting a; startupStderr := startupStderr a; loginWaiter := loginWaiter a |}.
Definition set_rl v a := {| proc := proc a; rl := v; nextId := nextId a; pending := pending a;
  threadByCwd := threadByCwd a; seededThreads := seededThreads a; currentTurn := currentTurn a;
  starting := starting a; startupStderr := startupStderr a; loginWaiter := loginWaiter a |}.
Definition set_nextId v a := {| proc := proc a; rl := rl a; nextId := v; pending := pending a;
  threadByCwd := threadByCwd a; seededThreads := seededThreads a; currentTurn := currentTurn a;
  starting := starting a; startupStderr := startupStderr a; loginWaiter := loginWaiter a |}.
Definition set_pending v a := {| proc := proc a; rl := rl a; nextId := nextId a; pending := v;
  threadByCwd := threadByCwd a; seededThreads := seededThreads a; currentTurn := currentTurn a;
  starting := starting a; startupStderr := startupStderr a; loginWaiter := loginWaiter a |}.
Definition set_threadByCwd v a := {| proc := proc a; rl := rl a; nextId := nextId a; pending := pending a;
  threadByCwd := v; seededThreads := seededThreads a; currentTurn := currentTurn a;
  starting := starting a; startupStderr := startupStderr a; loginWaiter := loginWaiter a |}.
Definition set_seededThreads v a := {| proc := proc a; rl := rl a; nextId := nextId a; pending := pending a;
  threadByCwd := threadByCwd a; seededThreads := v; currentTurn := currentTurn a;
  starting := starting a; startupStderr := startupStderr a; loginWaiter := loginWaiter a |}.
Definition set_currentTurn v a := {| proc := proc a; rl := rl a; nextId := nextId a; pending := pending a;
  threadByCwd := threadByCwd a; seededThreads := seededThreads a; currentTurn := v;
  starting := starting a; startupStderr := startupStderr a; loginWaiter := loginWaiter a |}.
Definition set_starting v a := {| proc := proc a; rl := rl a; nextId := nextId a; pending := pending a;
  threadByCwd := threadByCwd a; seededThreads := seededThreads a; currentTurn := currentTurn a;
  starting := v; startupStderr := startupStderr a; loginWaiter := loginWaiter a |}.
Definition set_startupStderr v a := {| proc := proc a; rl := rl a; nextId := nextId a; pending := pending a;
  threadByCwd := threadByCwd a; seededThreads := seededThreads a; currentTurn := currentTurn a;
  starting := starting a; startupStderr := v; loginWaiter := loginWaiter a |}.
Definition set_loginWaiter v a := {| proc := proc a; rl := rl a; nextId := nextId a; pending := pending a;
  threadByCwd := threadByCwd a; seededThreads := seededThreads a; currentTurn := currentTurn a;
  starting := starting a; startupStderr := startupStderr a; loginWaiter := v |}.

Definition set_events v t := {| turnId := turnId t; stdout := stdout t; stderr := stderr t;
  events := v; turn_waiter := turn_waiter t |}.
Definition set_stdout v t := {| turnId := turnId t; stdout := v; stderr := stderr t;
  events := events t; turn_waiter := turn_waiter t |}.
Definition set_stderr v t := {| turnId := turnId t; stdout := stdout t; stderr := v;
  events := events t; turn_waiter := turn_waiter t |}.

Definition set_codexApp v w := {| codexApp := v; codexQueue := codexQueue w;
  codexContextWarningLogged := codexContextWarningLogged w; promises := promises w;
  timers := timers w; microtasks := microtasks w; children := children w;
  callers := callers w; trace := trace w |}.
Definition set_codexQueue v w := {| codexApp := codexApp w; codexQueue := v;
  codexContextWarningLogged := codexContextWarningLogged w; promises := promises w;
  timers := timers w; microtasks := microtasks w; children := children w;
  callers := callers w; trace := trace w |}.
Definition set_codexContextWarningLogged v w := {| codexApp := codexApp w; codexQueue := codexQueue w;
  codexContextWarningLogged := v; promises := promises w;
  timers := timers w; microtasks := microtasks w; children := children w;
  callers := callers w; trace := trace w |}.
Definition set_promises v w := {| codexApp := codexApp w; codexQueue := codexQueue w;
  codexContextWarningLogged := codexContextWarningLogged w; promises := v;
  timers := timers w; microtasks := microtasks w; children := children w;
  callers := callers w; trace := trace w |}.
Definition set_timers v w := {| codexApp := codexApp w; codexQueue := codexQueue w;
  codexContextWarningLogged := codexContextWarningLogged w; promises := promises w;
  timers := v; microtasks := microtasks w; children := children w;
  callers := callers w; trace := trace w |}.
Definition set_microtasks v w := {| codexApp := codexApp w; codexQueue := codexQueue w;
  codexContextWarningLogged := codexContextWarningLogged w; promises := promises w;
  timers := timers w; microtasks := v; children := children w;
  callers := callers w; trace := trace w |}.
Definition set_children v w := {| codexApp := codexApp w; codexQueue := codexQueue w;
  codexContextWarningLogged := codexContextWarningLogged w; promises := promises w;
  timers := timers w; microtasks := microtasks w; children := v;
  callers := callers w; trace := trace w |}.
Definition set_callers v w := {| codexApp := codexApp w; codexQueue := codexQueue w;
  codexContextWarningLogged := codexContextWarningLogged w; promises := promises w;
  timers := timers w; microtasks := microtasks w; children := children w;
  callers := v; trace := trace w |}.
Definition set_trace v w := {| codexApp := codexApp w; codexQueue := codexQueue w;
  codexContextWarningLogged := codexContextWarningLogged w; promises := promises w;
  timers := timers w; microtasks := microtasks w; children := children w;
  callers := callers w; trace := v |}.

(** [new CodexAppServer()], [let codexQueue = Promise.resolve()] and
    [let codexContextWarningLogged = false]: promise 0 is the fulfilled
    promise the queue starts from. *)
Definition new_CodexAppServer : CodexAppServer :=
  {| proc := None; rl := None; nextId := 1; pending := []; threadByCwd := ∅;
     seededThreads := []; currentTurn := None; starting := None;
     startupStderr := ""; loginWaiter := None |}.

Definition initial_world : world :=
  {| codexApp := new_CodexAppServer; codexQueue := 0%nat;
     codexContextWarningLogged := false;
     promises := [Settled (Fulfilled undefined)]; timers := []; microtasks := [];
     children := []; callers := []; trace := [] |}.

(** ** The monad of synchronous code

    A piece of synchronous code transforms the world and either completes
    normally or throws; what it did before throwing stays done. *)

Inductive completion (A : Type) : Type :=
| Normal (a : A)
| Thrown (e : error).
Arguments Normal {A} a.
Arguments Thrown {A} e.

(** ToString in a piece of code: a value that does not convert throws a
    [TypeError]. *)
Definition not_primitive : error := Error "Cannot convert object to primitive value".

Definition ToString (v : json) : completion string :=
  match Js.to_string v with
  | Some s => Normal s
  | None => Thrown not_primitive
  end.

Definition M (A : Type) : Type := world -> completion A * world.

Definition ret {A} (a : A) : M A := fun w => (Normal a, w).

Definition bind {A B} (m : M A) (k : A -> M B) : M B := fun w =>
  match m w with
  | (Normal a, w') => k a w'
  | (Thrown e, w') => (Thrown e, w')
  end.

Definition throw {A} (e : error) : M A := fun w => (Thrown e, w).

(** A computation that does not touch the world. *)
Definition lift {A} (c : completion A) : M A := fun w => (c, w).

(** Code that only computes: the first exception ends it. *)
#[global] Instance completion_ret : MRet completion := @Normal.
#[global] Instance completion_bind : MBind completion := fun A B k c =>
  match c with
  | Normal a => k a
  | Thrown e => Thrown e
  end.

Definition try_catch {A} (m : M A) (handler : error -> M A) : M A := fun w =>
  match m w with
  | (Normal a, w') => (Normal a, w')
  | (Thrown e, w') => handler e w'
  end.

#[global] Instance M_ret : MRet M := @ret.
#[global] Instance M_bind : MBind M := fun A B k m => bind m k.

Definition this : M CodexAppServer := fun w => (Normal (codexApp w), w).
Definition the_world : M world := fun w => (Normal w, w).
Definition update (f : CodexAppServer -> CodexAppServer) : M unit :=
  fun w => (Normal tt, set_codexApp (f (codexApp w)) w).
Definition update_world (f : world -> world) : M unit :=
  fun w => (Normal tt, f w).
Definition emit (e : effect) : M unit :=
  update_world (fun w => set_trace (trace w ++ [e]) w).
Definition skip : M unit := ret tt.

Fixpoint for_each {A} (l : list A) (f : A -> M unit) : M unit :=
  match l with
  | [] => skip
  | x :: rest => f x;; for_each rest f
  end.

Definition exec {A} (m : M A) (w : world) : world := snd (m w).
Definition result {A} (m : M A) (w : world) : completion A := fst (m w).

(** *** Promises and timers *)

(** [new Promise(...)]: a fresh pending promise. *)
Definition new_promise : M promise := fun w =>
  (Normal (List.length (promises w)), set_promises (promises w ++ [Pending []]) w).

(** Settling a promise queues its reactions as microtasks; settling a
    promise that is already settled does nothing. *)
Definition settle (p : promise) (o : settled) : M unit := fun w =>
  match promises w !! p with
  | Some (Pending reactions) =>
      (Normal tt,
       set_microtasks (microtasks w ++ List.map (fun f => (f, o)) reactions)
         (set_promises (<[p := Settled o]> (promises w)) w))
  | _ => (Normal tt, w)
  end.

Definition resolve (p : promise) (v : jsval) : M unit :=
  emit (EResolve p v);; settle p (Fulfilled v).

Definition reject (p : promise) (e : error) : M unit :=
  emit (EReject p e);; settle p (Rejected e).

(** [await p] (or [p.then]) from the activation [f]. *)
Definition on_settled (p : promise) (f : frame) : M unit := fun w =>
  match promises w !! p with
  | Some (Pending reactions) =>
      (Normal tt, set_promises (<[p := Pending (reactions ++ [f])]> (promises w)) w)
  | Some (Settled o) =>
      (Normal tt, set_microtasks (microtasks w ++ [(f, o)]) w)
  | None => (Normal tt, w)
  end.

Definition setTimeout (cb : timer_callback) (ms : Z) : M timer :=
  w ← the_world;
  let t := List.length (timers w) in
  update_world (fun w => set_timers (timers w ++ [Some cb]) w);;
  emit (ESetTimeout t cb ms);;
  mret t.

Definition clearTimeout (t : timer) : M unit :=
  update_world (fun w => set_timers (<[t := None]> (timers w)) w);;
  emit (EClearTimeout t).

Definition waiter_resolve (wt : waiter) (v : jsval) : M unit :=
  clearTimeout (w_timer wt);; resolve (w_promise wt) v.

Definition waiter_reject (wt : waiter) (e : error) : M unit :=
  clearTimeout (w_timer wt);; reject (w_promise wt) e.

(** *** Async functions

    The body of an async function runs until it returns, throws, or
    awaits; [run_async] settles or suspends the function's promise
    accordingly. *)

Inductive async_step : Type :=
| Return (v : jsval)
| Await (p : promise) (k : kont).

Definition run_async (self : promise) (body : M async_step) : M unit := fun w =>
  match body w with
  | (Normal (Return v), w') => resolve self v w'
  | (Normal (Await p k), w') => on_settled p (self, k) w'
  | (Thrown e, w') => reject self e w'
  end.

Definition call_async (body : M async_step) : M promise :=
  self ← new_promise;
  run_async self body;;
  mret self.

(** ** Configuration and environment (lines 325-363)

    The constants read from [process.env] when the module loads, and the
    parts of the operating system the bridge consults. *)
Record env : Type := {
  CODEX_INIT_TIMEOUT_MS : Z;
  CODEX_RPC_TIMEOUT_MS : Z;
  CODEX_LOGIN_TIMEOUT_MS : Z;
  CODEX_TURN_TIMEOUT_MS : Z;
  CODEX_SANDBOX : string;
  CODEX_APPROVAL_POLICY : string;
  CODEX_CONTEXT_PATH : string;
  CODEX_CONTEXT_TEXT : string;
  CODEX_DEBUG : bool;
  CODEX_SYSTEM_MESSAGE : string;
  OPENAI_API_KEY : option string;          (* process.env.OPENAI_API_KEY *)
  homedir : string;                        (* os.homedir() *)
  path_join : string -> string -> string;  (* path.join *)
  readFileSync : string -> option string;  (* fs.readFileSync(_, 'utf8'), [None] when it throws *)
}.

Definition exited : error := Error "Codex app-server exited.".

Section Bridge.
Context (E : env).

(** *** Helpers outside the class *)

(** [expandHome], lines 82-89 ([path.sep] is ['/']). *)
Definition expandHome (value : string) : string :=
  if String.eqb value "" then value
  else if String.eqb value "~" then homedir E
  else if Js.starts_with "~/" value
       then path_join E (homedir E) (String.substring 2 (String.length value - 2) value)
       else value.

(** [extractTextFromParams], lines 692-707.  The text blocks of an item
    are joined: a block whose text does not convert throws. *)
Definition block_text (block : json) : json := Js.or_else (Js.get block "text") (JStr "").

Definition extractTextFromParams (params : json) : completion string :=
  if negb (Js.truthy (Some params)) then Normal ""
  else
    let delta := Js.get params "delta" in
    match (if Js.truthy delta then Js.get_opt delta "text" else None) with
    | Some (JStr text) => Normal text
    | _ =>
        match Js.get params "item" with
        | Some item =>
            if negb (Js.truthy (Some item)) then Normal ""
            else match Js.get item "text" with
                 | Some (JStr text) => Normal text
                 | _ =>
                     match Js.get item "content" with
                     | Some (JArrAt _ content) =>
                         match Js.join_values ""
                                 (List.map block_text
                                    (List.filter
                                       (fun block =>
                                          Js.truthy (Some block) &&
                                          Js.strict_eq (Js.get block "type") (Some (JStr "text")))
                                       content)) with
                         | Some text => Normal text
                         | None => Thrown not_primitive
                         end
                     | _ => Normal ""
                     end
                 end
        | None => Normal ""
        end
    end.

(** The summary of an [item/...] notification with the text [text],
    lines 715-719. *)
Definition item_summary (text : string) : string :=
  if negb (String.eqb text "") then
    let snippet := Js.trim (Js.collapse_spaces false text) in
    "item: " ++ (if 120 <? Js.length snippet then Js.slice0 117 snippet ++ "…" else snippet)
  else "item: (non-text)".

(** [summarizeCodexNotification], lines 709-729.  A [method] that is not
    a string has no [startsWith]: the call throws. *)
Definition summarizeCodexNotification (method params : json) : completion (option string) :=
  if Js.strict_eq (Some method) (Some (JStr "turn/completed")) then Normal (Some "turn/completed")
  else
    match method with
    | JStr m =>
        if Js.starts_with "item/" m then
          match extractTextFromParams params with
          | Thrown e => Thrown e
          | Normal text => Normal (Some (item_summary text))
          end
        else if Js.starts_with "tool/" m then
          let name :=
            Js.or_else (Js.or (Js.get_opt (Js.get params "tool") "name") (Js.get params "name"))
                       (JStr "tool") in
          match ToString name with
          | Thrown e => Thrown e
          | Normal printed => Normal (Some (Js.trim (m ++ " " ++ printed)))
          end
        else if Js.starts_with "thread/" m then Normal (Some m)
        else Normal None
    | _ => Thrown (Error "method.startsWith is not a function")
    end.

(** [readCodexContext], lines 731-747. *)
Definition readCodexContext : M string :=
  if negb (String.eqb (Js.trim (CODEX_CONTEXT_TEXT E)) "") then mret (Js.trim (CODEX_CONTEXT_TEXT E))
  else if String.eqb (CODEX_CONTEXT_PATH E) "" then mret ""
  else
    let resolvedPath := expandHome (CODEX_CONTEXT_PATH E) in
    match readFileSync E resolvedPath with
    | Some text => mret (Js.trim text)
    | None =>
        w ← the_world;
        (if negb (codexContextWarningLogged w)
         then emit (EWarn ("Codex context file not found: " ++ resolvedPath));;
              update_world (set_codexContextWarningLogged true)
         else skip);;
        mret ""
    end.

(** *** [reset], lines 444-464 *)
Definition reset : M unit :=
  update (set_proc None);;
  a ← this;
  (match rl a with Some _ => emit ERlClose | None => skip end);;
  update (set_rl None);;
  update (set_startupStderr "");;
  update (set_threadByCwd ∅);;
  update (set_seededThreads []);;
  a ← this;
  let waiters := JsMap.values (pending a) in
  update (set_pending []);;
  for_each waiters (fun wt => waiter_reject wt exited);;
  a ← this;
  (match currentTurn a with
   | Some t => waiter_reject (turn_waiter t) exited;; update (set_currentTurn None)
   | None => skip
   end);;
  a ← this;
  match loginWaiter a with
  | Some lw => waiter_reject lw exited;; update (set_loginWaiter None)
  | None => skip
  end.

(** *** [write] and [sendNotification], lines 466-475 *)
Definition write (message : json) : M unit :=
  a ← this;
  match proc a with
  | None => throw (Error "Codex app-server not running.")
  | Some _ => emit (EWrite message)
  end.

Definition sendNotification (method : string) (params : json) : M unit :=
  write (JObj [("method", JStr method); ("params", params)]).

(** *** [sendRpc], lines 477-504

    An exception thrown inside the executor of [new Promise] rejects the
    promise. *)
Definition sendRpc (method : string) (params : json) (timeoutMs : Z) : M promise :=
  p ← new_promise;
  try_catch
    (a ← this;
     let id := nextId a in
     update (set_nextId (id + 1));;
     timeout ← setTimeout (RpcTimedOut id method p) timeoutMs;
     update (fun a => set_pending
               (JsMap.set id {| w_promise := p; w_timer := timeout |} (pending a)) a);;
     write (JObj [("method", JStr method); ("id", JNum id); ("params", params)]))
    (fun e => reject p e);;
  mret p.

(** The time-out callback of [sendRpc], lines 480-491. *)
Definition rpc_timed_out (id : Z) (method : string) (p : promise) : M unit :=
  update (fun a => set_pending (JsMap.delete id (pending a)) a);;
  a ← this;
  if String.eqb method "initialize" && negb (String.eqb (Js.trim (startupStderr a)) "")
  then reject p (Error ("Codex app-server timeout on " ++ method ++ ". Stderr: "
                        ++ Js.trim (startupStderr a)))
  else reject p (Error ("Codex app-server timeout on " ++ method)).

(** *** [finishTurn], lines 567-572 *)
Definition turn_payload (out err : string) (evs : list string) : json :=
  JObj [("stdout", JStr out); ("stderr", JStr err); ("events", JArr (List.map JStr evs))].

Definition finishTurn : M unit :=
  a ← this;
  match currentTurn a with
  | None => skip
  | Some t =>
      update (set_currentTurn None);;
      waiter_resolve (turn_waiter t)
        (Some (turn_payload (Js.trim (stdout t)) (Js.trim (stderr t)) (events t)))
  end.

(** *** [handleNotification], lines 531-565 *)
Definition update_turn (f : turn -> turn) : M unit :=
  update (fun a => set_currentTurn (f <$> currentTurn a) a).

Definition notification_turnId (params : json) : jsval :=
  Js.or (Js.or (Js.get params "turnId") (Js.get_opt (Js.get params "turn") "id"))
        (Js.get params "turn_id").

Definition handleNotification (method params : json) : M unit :=
  a ← this;
  match (if Js.strict_eq (Some method) (Some (JStr "account/login/completed"))
         then loginWaiter a else None) with
  | Some lw =>
      update (set_loginWaiter None);;
      if Js.truthy (Js.get params "success")
      then waiter_resolve lw (Some params)
      else
        message ← lift (ToString (Js.or_else (Js.get params "error") (JStr "Codex login failed.")));
        waiter_reject lw (Error message)
  | None =>
      match currentTurn a with
      | None => skip
      | Some _ =>
          match summarizeCodexNotification method params with
          | Thrown e => throw e
          | Normal summary =>
              (match summary with
               | Some s =>
                   if negb (String.eqb s "")
                   then update_turn (fun t => set_events (events t ++ [s]) t);;
                        (if CODEX_DEBUG E then emit (ELog ("[codex] " ++ s)) else skip)
                   else skip
               | None => skip
               end);;
              let notified := notification_turnId params in
              a ← this;
              let current := match currentTurn a with Some t => turnId t | None => None end in
              if Js.truthy notified && Js.truthy current && negb (Js.strict_eq notified current)
              then skip
              else if Js.strict_eq (Some method) (Some (JStr "turn/completed"))
              then finishTurn
              else
                match method with
                | JStr m =>
                    if Js.starts_with "item/" m then
                      text ← lift (extractTextFromParams params);
                      if negb (String.eqb text "")
                      then update_turn (fun t => set_stdout (stdout t ++ text) t)
                      else skip
                    else skip
                | _ => throw (Error "method.startsWith is not a function")
                end
          end
      end
  end.

(** *** [handleLine], lines 506-529

    The argument is the line after [JSON.parse]: [None] when the parse
    throws.  Reading a property of [null] throws.  [new Error(...)] is
    evaluated before [pending.reject] is called: when the message of the
    error payload does not convert, the entry is gone and its waiter is
    left alone. *)
Definition handleLine (parsed : option json) : M unit :=
  match parsed with
  | None => skip
  | Some JNull => throw (Error "Cannot read properties of null (reading 'id')")
  | Some message =>
      match Js.get message "id" with
      | Some (JNum id) =>
          a ← this;
          match JsMap.get id (pending a) with
          | None => skip
          | Some entry =>
              update (fun a => set_pending (JsMap.delete id (pending a)) a);;
              let error := Js.get message "error" in
              if Js.truthy error
              then
                text ← lift (ToString (Js.or_else (Js.get_opt error "message") (JStr "Codex error")));
                waiter_reject entry (Error text)
              else waiter_resolve entry (Js.or (Js.get message "result") (Some (JObj [])))
          end
      | _ =>
          match Js.get message "method" with
          | Some method =>
              if Js.truthy (Some method)
              then handleNotification method
                     (match Js.or (Js.get message "params") (Some (JObj [])) with
                      | Some params => params
                      | None => JObj []
                      end)
              else skip
          | None => skip
          end
      end
  end.

(** The [data] handler of the child's stderr, lines 413-419. *)
Definition on_stderr_data (message : string) : M unit :=
  update (fun a => set_startupStderr (startupStderr a ++ message) a);;
  update_turn (fun t => set_stderr (stderr t ++ message) t).

(** *** [buildTurnInput], lines 630-646 *)
Definition text_item (text : json) : json :=
  JObj [("type", JStr "text"); ("text", text)].

Definition seed_text (context : string) : string :=
  Js.join (String (ascii_of_nat 10) (String (ascii_of_nat 10) ""))
    (Js.trim (CODEX_SYSTEM_MESSAGE E) ::
     (if negb (String.eqb context "")
      then ["Anki Card Spec (follow strictly):" ++ String (ascii_of_nat 10) context]
      else [])).

Definition set_has (x : json) (s : list json) : bool := existsb (Js.same_value x) s.
Definition set_add (x : json) (s : list json) : list json :=
  if set_has x s then s else s ++ [x].

Definition buildTurnInput (prompt threadId : json) : M (list json) :=
  context ← readCodexContext;
  a ← this;
  seed ← (if negb (set_has threadId (seededThreads a))
          then update (fun a => set_seededThreads (set_add threadId (seededThreads a)) a);;
               mret [text_item (JStr (seed_text context))]
          else mret []);
  mret (seed ++ [text_item prompt])%list.

(** *** [ensureStarted] and [start], lines 379-442 *)

(** [this.proc && !this.proc.killed] *)
Definition running (a : CodexAppServer) : bool :=
  match proc a with
  | Some c => negb (killed c)
  | None => false
  end.

(** [start] up to the registration of the handlers: the child is the
    next entry of [children], whose events arrive later. *)
Definition start : M promise :=
  p ← new_promise;
  w ← the_world;
  let n := List.length (children w) in
  update_world (fun w => set_children (children w ++ [{| c_start := p; c_spawned := false |}]) w);;
  emit (ESpawn n);;
  mret p.

Definition ensureStarted : M async_step :=
  a ← this;
  if running a then mret (Return undefined)
  else
    match starting a with
    | Some p => mret (Await p KEnsureStartedJoined)
    | None =>
        p ← start;
        update (set_starting (Some p));;
        mret (Await p KEnsureStartedOwner)
    end.

(** After [await this.starting] at line 384. *)
Definition ensureStarted_joined (o : settled) : M async_step :=
  match o with
  | Fulfilled _ => mret (Return undefined)
  | Rejected e => throw e
  end.

(** After [await this.starting] at line 389, with the [finally] block. *)
Definition ensureStarted_owner (o : settled) : M async_step :=
  update (set_starting None);;
  match o with
  | Fulfilled _ => mret (Return undefined)
  | Rejected e => throw e
  end.

(** *** [ensureLoggedIn], lines 648-689 *)

(** Reading a property of [undefined] or [null] throws. *)
Definition object_of (v : jsval) : M json :=
  match v with
  | Some JNull | None => throw (Error "Cannot read properties of undefined")
  | Some o => mret o
  end.

Definition ensureLoggedIn : M async_step :=
  p ← sendRpc "account/read" (JObj [("refreshToken", JBool false)]) (CODEX_LOGIN_TIMEOUT_MS E);
  mret (Await p KAccountRead).

Definition missing_credential : error :=
  Error "OPENAI_API_KEY is not set. Codex app-server requires authentication.".

(** After the answer to [account/read], lines 654-670. *)
Definition ensureLoggedIn_account_read (o : settled) : M async_step :=
  match o with
  | Rejected e => throw e
  | Fulfilled v =>
      authInfo ← object_of v;
      if negb (Js.truthy (Js.get authInfo "requiresOpenaiAuth")) then mret (Return undefined)
      else if Js.truthy (Js.get authInfo "account") then mret (Return undefined)
      else
        match OPENAI_API_KEY E with
        | Some apiKey =>
            if String.eqb apiKey "" then throw missing_credential
            else
              p ← sendRpc "account/login/start"
                    (JObj [("type", JStr "apiKey"); ("apiKey", JStr apiKey)])
                    (CODEX_LOGIN_TIMEOUT_MS E);
              mret (Await p KLoginStarted)
        | None => throw missing_credential
        end
  end.

(** After the answer to [account/login/start], lines 671-688. *)
Definition ensureLoggedIn_login_started (o : settled) : M async_step :=
  match o with
  | Rejected e => throw e
  | Fulfilled _ =>
      p ← new_promise;
      timeout ← setTimeout (LoginTimedOut p) (CODEX_LOGIN_TIMEOUT_MS E);
      update (set_loginWaiter (Some {| w_promise := p; w_timer := timeout |}));;
      mret (Await p KLoginCompleted)
  end.

Definition ensureLoggedIn_completed (o : settled) : M async_step :=
  match o with
  | Rejected e => throw e
  | Fulfilled _ => mret (Return undefined)
  end.

(** The time-out callback of the login waiter, lines 672-677. *)
Definition login_timed_out (p : promise) : M unit :=
  a ← this;
  (match loginWaiter a with
   | Some _ => update (set_loginWaiter None)
   | None => skip
   end);;
  reject p (Error "Codex login timed out.").

(** *** The handlers [start] registers on the child, lines 405-440 *)

Definition on_child_error (n : nat) (e : error) : M unit :=
  w ← the_world;
  match children w !! n with
  | Some c => reject (c_start c) e
  | None => skip
  end.

Definition client_info : json :=
  JObj [("clientInfo",
         JObj [("name", JStr "anki_ide"); ("title", JStr "Anki IDE"); ("version", JStr "0.1.0")])].

Definition on_child_spawn (n : nat) : M unit :=
  w ← the_world;
  match children w !! n with
  | Some c =>
      update_world (fun w =>
        set_children (<[n := {| c_start := c_start c; c_spawned := true |}]> (children w)) w);;
      update (set_proc (Some {| child_id := n; killed := false |}));;
      update (set_rl (Some n));;
      call_async
        (p ← sendRpc "initialize" client_info (CODEX_INIT_TIMEOUT_MS E);
         mret (Await p (KStartInitialized (c_start c))));;
      skip
  | None => skip
  end.

(** After [await this.sendRpc('initialize', ...)], inside the [try]. *)
Definition start_initialized (startp : promise) (o : settled) : M async_step :=
  match o with
  | Fulfilled _ =>
      try_catch
        (sendNotification "initialized" (JObj []);;
         p ← call_async ensureLoggedIn;
         mret (Await p (KStartLoggedIn startp)))
        (fun e => reject startp e;; mret (Return undefined))
  | Rejected e => reject startp e;; mret (Return undefined)
  end.

(** After [await this.ensureLoggedIn()], inside the [try]. *)
Definition start_logged_in (startp : promise) (o : settled) : M async_step :=
  match o with
  | Fulfilled _ => resolve startp undefined;; mret (Return undefined)
  | Rejected e => reject startp e;; mret (Return undefined)
  end.

(** The [close] handler exists once the [spawn] handler has run. *)
Definition on_child_close (n : nat) : M unit :=
  w ← the_world;
  match children w !! n with
  | Some c => if c_spawned c then reset else skip
  | None => skip
  end.

(** *** [getThreadId], lines 574-588 *)

Definition thread_start_params (cwd : string) : json :=
  JObj [("cwd", JStr cwd);
        ("approvalPolicy", JStr (CODEX_APPROVAL_POLICY E));
        ("sandbox", JStr (CODEX_SANDBOX E))].

Definition getThreadId (cwd : string) : M async_step :=
  a ← this;
  let cached := threadByCwd a !! cwd in
  if Js.truthy cached then mret (Return cached)
  else
    p ← sendRpc "thread/start" (thread_start_params cwd) (CODEX_RPC_TIMEOUT_MS E);
    mret (Await p (KThreadStarted cwd)).

Definition no_thread_id : error := Error "Codex app-server did not return a thread id.".

(** After the answer to [thread/start], lines 582-587. *)
Definition getThreadId_started (cwd : string) (o : settled) : M async_step :=
  match o with
  | Rejected e => throw e
  | Fulfilled v =>
      result ← object_of v;
      match Js.get_opt (Js.get result "thread") "id" with
      | Some threadId =>
          if negb (Js.truthy (Some threadId)) then throw no_thread_id
          else
            update (fun a => set_threadByCwd (<[cwd := threadId]> (threadByCwd a)) a);;
            mret (Return (Some threadId))
      | None => throw no_thread_id
      end
  end.

(** *** [runTurn], lines 590-628 *)

Definition runTurn (prompt : json) (cwd : string) : M async_step :=
  p ← call_async ensureStarted;
  mret (Await p (KRunTurnStarted prompt cwd)).

Definition runTurn_started (prompt : json) (cwd : string) (o : settled) : M async_step :=
  match o with
  | Rejected e => throw e
  | Fulfilled _ =>
      p ← call_async (getThreadId cwd);
      mret (Await p (KRunTurnThread prompt))
  end.

(** After [await this.getThreadId(cwd)], lines 593-597.  [getThreadId]
    only ever returns a truthy identifier. *)
Definition runTurn_thread (prompt : json) (o : settled) : M async_step :=
  match o with
  | Rejected e => throw e
  | Fulfilled v =>
      threadId ← object_of v;
      input ← buildTurnInput prompt threadId;
      p ← sendRpc "turn/start" (JObj [("threadId", threadId); ("input", JArr input)])
            (CODEX_RPC_TIMEOUT_MS E);
      mret (Await p KRunTurnTurnStarted)
  end.

Definition turn_in_progress : error := Error "Codex turn already in progress.".

(** After the answer to [turn/start], lines 598-627. *)
Definition runTurn_turn_started (o : settled) : M async_step :=
  match o with
  | Rejected e => throw e
  | Fulfilled v =>
      result ← object_of v;
      let turnId := Js.or (Js.get_opt (Js.get result "turn") "id") (Some JNull) in
      a ← this;
      match currentTurn a with
      | Some _ => throw turn_in_progress
      | None =>
          p ← new_promise;
          timeout ← setTimeout (TurnTimedOut p) (CODEX_TURN_TIMEOUT_MS E);
          update (set_currentTurn
                    (Some {| turnId := turnId; stdout := ""; stderr := ""; events := [];
                             turn_waiter := {| w_promise := p; w_timer := timeout |} |}));;
          mret (Await p KAdopt)
      end
  end.

(** The time-out callback of the turn, lines 603-612. *)
Definition turn_timed_out (p : promise) : M unit :=
  a ← this;
  match currentTurn a with
  | Some t =>
      update (set_currentTurn None);;
      reject p {| error_message := "Codex turn timed out."; error_events := Some (events t) |}
  | None => reject p (Error "Codex turn timed out.")
  end.

(** *** [sendCodexPrompt], lines 750-764 *)

(** [Promise.resolve()] *)
Definition Promise_resolve (v : jsval) : M promise :=
  p ← new_promise;
  settle p (Fulfilled v);;
  mret p.

(** [p.then(handler)] and [p.catch(handler)]: a new promise settled by
    the handler [k]. *)
Definition then_ (p : promise) (k : kont) : M promise :=
  q ← new_promise;
  on_settled p (q, k);;
  mret q.

Definition sendCodexPrompt (prompt : json) (cwd : string) : M async_step :=
  w ← the_world;
  p ← then_ (codexQueue w) (KQueueThen prompt cwd);
  q ← then_ p KQueueCatch;
  update_world (set_codexQueue q);;
  w ← the_world;
  mret (Await (codexQueue w) KAdopt).

(** [() => codexApp.runTurn(prompt, cwd)] *)
Definition queue_then (prompt : json) (cwd : string) (o : settled) : M async_step :=
  match o with
  | Rejected e => throw e
  | Fulfilled _ =>
      p ← call_async (runTurn prompt cwd);
      mret (Await p KAdopt)
  end.

(** What the [catch] handler returns: [error.message || String(error)]
    and [error.events || []]. *)
Definition error_payload (e : error) : json :=
  turn_payload ""
    (if String.eqb (error_message e) "" then "Error" else error_message e)
    (match error_events e with Some evs => evs | None => [] end).

(** The [catch] handler, lines 755-762; a fulfilled promise passes
    through a [catch]. *)
Definition queue_catch (o : settled) : M async_step :=
  match o with
  | Fulfilled v => mret (Return v)
  | Rejected e =>
      p ← Promise_resolve undefined;
      update_world (set_codexQueue p);;
      mret (Return (Some (error_payload e)))
  end.

(** *** The event loop *)

Definition resume (k : kont) (o : settled) : M async_step :=
  match k with
  | KAdopt => match o with Fulfilled v => mret (Return v) | Rejected e => throw e end
  | KEnsureStartedJoined => ensureStarted_joined o
  | KEnsureStartedOwner => ensureStarted_owner o
  | KStartInitialized startp => start_initialized startp o
  | KStartLoggedIn startp => start_logged_in startp o
  | KAccountRead => ensureLoggedIn_account_read o
  | KLoginStarted => ensureLoggedIn_login_started o
  | KLoginCompleted => ensureLoggedIn_completed o
  | KThreadStarted cwd => getThreadId_started cwd o
  | KRunTurnStarted prompt cwd => runTurn_started prompt cwd o
  | KRunTurnThread prompt => runTurn_thread prompt o
  | KRunTurnTurnStarted => runTurn_turn_started o
  | KQueueThen prompt cwd => queue_then prompt cwd o
  | KQueueCatch => queue_catch o
  end.

Definition run_callback (cb : timer_callback) : M unit :=
  match cb with
  | RpcTimedOut id method p => rpc_timed_out id method p
  | TurnTimedOut p => turn_timed_out p
  | LoginTimedOut p => login_timed_out p
  end.

(** A timer fires once, unless it was cleared. *)
Definition fire_timer (t : timer) : M unit :=
  w ← the_world;
  match timers w !! t with
  | Some (Some cb) =>
      update_world (fun w => set_timers (<[t := None]> (timers w)) w);;
      run_callback cb
  | _ => skip
  end.

Definition run_microtask : M unit :=
  w ← the_world;
  match microtasks w with
  | [] => skip
  | (self, k, o) :: rest =>
      update_world (set_microtasks rest);;
      run_async self (resume k o)
  end.

(** What can happen to the bridge: a caller submits a prompt or asks for
    the subprocess, the child or its streams emit an event, a timer
    fires, or the first queued microtask runs. *)
Inductive op : Type :=
| OpSendCodexPrompt (prompt : json) (cwd : string)
| OpEnsureStarted
| OpChildSpawn (n : nat)
| OpChildError (n : nat) (e : error)
| OpChildClose (n : nat)
| OpStdoutLine (parsed : option json)
| OpStderrData (chunk : string)
| OpTimer (t : timer)
| OpMicrotask.

Definition called (p : promise) : M unit :=
  update_world (fun w => set_callers (callers w ++ [p]) w).

Definition step (o : op) : M unit :=
  match o with
  | OpSendCodexPrompt prompt cwd => p ← call_async (sendCodexPrompt prompt cwd); called p
  | OpEnsureStarted => p ← call_async ensureStarted; called p
  | OpChildSpawn n => on_child_spawn n
  | OpChildError n e => on_child_error n e
  | OpChildClose n => on_child_close n
  | OpStdoutLine parsed =>
      a ← this;
      match rl a with Some _ => handleLine parsed | None => skip end
  | OpStderrData chunk =>
      a ← this;
      match proc a with Some _ => on_stderr_data chunk | None => skip end
  | OpTimer t => fire_timer t
  | OpMicrotask => run_microtask
  end.

(** An exception that leaves a handler of the child, of a stream or of a
    timer is caught by nobody ([server.js] registers no handler for
    uncaught exceptions): the process ends there.  [steps] goes on from
    the world the handler left; what it says of the steps after a throwing
    handler is about a process that stayed alive. *)
Definition steps (os : list op) (w : world) : world :=
  fold_left (fun w o => exec (step o) w) os w.

(** The event loop runs every queued microtask, oldest first, before the
    next event.  [fuel] bounds the microtasks run after one event;
    [quiescent] below tells whether it was enough. *)
Fixpoint drain (fuel : nat) (w : world) : world :=
  match fuel with
  | O => w
  | S fuel' =>
      match microtasks w with
      | [] => w
      | _ => drain fuel' (exec run_microtask w)
      end
  end.

Definition dispatch (fuel : nat) (w : world) (o : op) : world :=
  drain fuel (exec (step o) w).

Definition run (fuel : nat) (os : list op) (w : world) : world :=
  fold_left (dispatch fuel) os w.

(** The microtask queue was empty after every event of the run: [run]
    followed the event loop and did not stop short. *)
Fixpoint quiescent (fuel : nat) (os : list op) (w : world) : bool :=
  match os with
  | [] => true
  | o :: os' =>
      match microtasks (dispatch fuel w o) with
      | [] => quiescent fuel os' (dispatch fuel w o)
      | _ => false
      end
  end.

End Bridge.

(** * The HTTP helpers of [server.js] *)

(** ** More of JavaScript's strings *)

(** [String.prototype.toLowerCase] on the code units below 256: the
    letters [A]-[Z] and the capital letters of Latin-1 (U+00C0-U+00DE but
    the multiplication sign) move up by 32. *)
Definition lower_char (c : ascii) : ascii :=
  let n := nat_of_ascii c in
  if ((65 <=? n) && (n <=? 90) || (192 <=? n) && (n <=? 222) && negb (n =? 215))%nat
  then ascii_of_nat (n + 32) else c.

Fixpoint to_lower (s : string) : string :=
  match s with
  | EmptyString => EmptyString
  | String c rest => String (lower_char c) (to_lower rest)
  end.

(** The canonical form a regular expression with the [i] flag compares:
    among the code units below 256 only the ASCII letters fold onto ASCII
    letters. *)
Definition fold_char (c : ascii) : ascii :=
  let n := nat_of_ascii c in
  if ((65 <=? n) && (n <=? 90))%nat then ascii_of_nat (n + 32) else c.

(** [s.includes(p)] *)
Fixpoint includes (p s : string) : bool :=
  Js.starts_with p s ||
  match s with
  | EmptyString => false
  | String _ rest => includes p rest
  end.

(** [s.split(c)[0]]: the text before the first [c], all of [s] when it has
    none. *)
Fixpoint before_first (c : ascii) (s : string) : string :=
  match s with
  | EmptyString => EmptyString
  | String x rest => if Ascii.eqb x c then EmptyString else String x (before_first c rest)
  end.

(** The text before and the text after the first [c]. *)
Fixpoint split_first (c : ascii) (s : string) : option (string * string) :=
  match s with
  | EmptyString => None
  | String x rest =>
      if Ascii.eqb x c then Some (EmptyString, rest)
      else match split_first c rest with
           | Some (a, b) => Some (String x a, b)
           | None => None
           end
  end.

Fixpoint all_chars (P : ascii -> bool) (s : string) : bool :=
  match s with
  | EmptyString => true
  | String c rest => P c && all_chars P rest
  end.

(** [String(v || '')] *)
Definition string_or_empty (v : jsval) : completion string :=
  ToString (Js.or_else v (JStr "")).

(** ** The audio of a transcription request (lines 140-187) *)

Record data_url : Type := {
  du_mimeType : option string;   (* [null] is [None] *)
  du_base64 : string;
}.

Definition audio_required : error := Error "audioBase64 is required".
Definition not_base64 : error := Error "Audio data URL must be base64-encoded".

(** The line terminators, which [.] does not match, among the code units
    below 256. *)
Definition is_line_terminator (c : ascii) : bool :=
  let n := nat_of_ascii c in ((n =? 10) || (n =? 13))%nat.

(** [input.match(/^data:([^,]*?),(.+)$/)]: the two groups.  The first
    group cannot hold a comma and must be followed by one, so it ends at
    the first comma; the second must reach the end of the input without
    meeting a line terminator. *)
Definition match_data_url (input : string) : option (string * string) :=
  if Js.starts_with "data:" input then
    match split_first "," (String.substring 5 (String.length input - 5) input) with
    | Some (meta, payload) =>
        if negb (String.eqb payload "") && all_chars (fun c => negb (is_line_terminator c)) payload
        then Some (meta, payload)
        else None
    | None => None
    end
  else None.

(** The rest of [s] after a prefix that matches [p] up to the case of
    the ASCII letters; [p] is in lower case. *)
Fixpoint after_prefix_fold (p s : string) : option string :=
  match p, s with
  | EmptyString, _ => Some s
  | String a p', String b s' =>
      if Ascii.eqb a (fold_char b) then after_prefix_fold p' s' else None
  | String _ _, EmptyString => None
  end.

(** [/;base64(?:;|$)/i.test(meta)] *)
Fixpoint has_base64_flag (meta : string) : bool :=
  match after_prefix_fold ";base64" meta with
  | Some EmptyString => true
  | Some (String x _) => Ascii.eqb x ";"
  | None => false
  end ||
  match meta with
  | EmptyString => false
  | String _ rest => has_base64_flag rest
  end.

(** [parseDataUrlBase64], lines 140-155. *)
Definition parseDataUrlBase64 (input : jsval) : completion data_url :=
  match input with
  | Some (JStr s) =>
      if String.eqb s "" then Thrown audio_required
      else
        match match_data_url s with
        | Some (meta, payload) =>
            if negb (has_base64_flag meta) then Thrown not_base64
            else
              let mimeType := Js.trim (before_first ";" meta) in
              Normal {| du_mimeType := if String.eqb mimeType "" then None else Some mimeType;
                        du_base64 := payload |}
        | None => Normal {| du_mimeType := None; du_base64 := s |}
        end
  | _ => Thrown audio_required
  end.

(** What the server reads from its environment and from Node besides the
    bridge's configuration (lines 12-13 and 127-131). *)
Record host : Type := {
  WORKSPACE_ROOT : string;
  ALLOW_OUTSIDE_WORKSPACE : bool;
  OPENAI_TRANSCRIBE_MODEL : string;
  VOICE_POC_MAX_AUDIO_BYTES : option Z;           (* [Number(...)], [None] when it is NaN *)
  path_resolve : list json -> completion string;  (* path.resolve(...paths) *)
  Buffer_from_base64 : string -> list ascii;      (* Buffer.from(_, 'base64') *)
  string_to_number : string -> option Z;          (* Number(_) of a string, [None] when it is NaN *)
}.

(** [const OPENAI_API_KEY = process.env.OPENAI_API_KEY || ''], line 127. *)
Definition server_api_key (E : env) : string :=
  match OPENAI_API_KEY E with Some key => key | None => "" end.

Definition key_not_set : error := Error "OPENAI_API_KEY is not set on the server".

(** [requireOpenAIKey], lines 134-138. *)
Definition requireOpenAIKey (E : env) : completion unit :=
  if String.eqb (server_api_key E) "" then Thrown key_not_set else Normal tt.

Record audio : Type := {
  au_bytes : list ascii;
  au_mimeType : jsval;
}.

Definition audio_empty : error := Error "Audio payload is empty".
Definition audio_too_large (n : nat) : error :=
  Error ("Audio payload too large (" ++ Js.number_to_string (Z.of_nat n) ++ " bytes)").

(** [decodeBase64Audio], lines 157-170. *)
Definition decodeBase64Audio (H : host) (input fallbackMimeType : jsval) : completion audio :=
  match parseDataUrlBase64 input with
  | Thrown e => Thrown e
  | Normal parsed =>
      let bytes := Buffer_from_base64 H (du_base64 parsed) in
      if (List.length bytes =? 0)%nat then Thrown audio_empty
      else if match VOICE_POC_MAX_AUDIO_BYTES H with
              | Some limit => limit <? Z.of_nat (List.length bytes)
              | None => false
              end
      then Thrown (audio_too_large (List.length bytes))
      else Normal {| au_bytes := bytes;
                     au_mimeType :=
                       Js.or (Js.or (JStr <$> du_mimeType parsed) fallbackMimeType)
                             (Some (JStr "audio/webm")) |}
  end.

(** [extForMimeType], lines 172-180: the conversion of line 173, which
    throws on a value that does not convert, and the tests on its result. *)
Definition ext_of (printed : string) : string :=
  let clean := to_lower printed in
  if includes "wav" clean then "wav"
  else if includes "mpeg" clean || includes "mp3" clean then "mp3"
  else if includes "mp4" clean || includes "m4a" clean then "m4a"
  else if includes "ogg" clean then "ogg"
  else if includes "webm" clean then "webm"
  else "bin".

Definition extForMimeType (mimeType : jsval) : completion string :=
  printed ← string_or_empty mimeType;
  mret (ext_of printed).

(** [normalizeMimeType], lines 182-187: the conversion of line 183,
    which throws on a value that does not convert, and what is made of its
    result. *)
Definition mime_of (printed : string) : string :=
  let raw := to_lower (Js.trim printed) in
  if String.eqb raw "" then "audio/webm"
  else
    let base := Js.trim (before_first ";" raw) in
    if String.eqb base "" then "audio/webm" else base.

Definition normalizeMimeType (mimeType : jsval) : completion string :=
  printed ← string_or_empty mimeType;
  mret (mime_of printed).

(** What [callOpenAITranscription] has put together when it calls
    [fetch], lines 190-199: the text fields of the form and the file. *)
Record upload : Type := {
  up_fields : list (string * string);
  up_bytes : list ascii;
  up_type : string;
  up_filename : string;
}.

(** [if (v) form.append(name, String(v))] *)
Definition text_field (name : string) (v : jsval) : completion (list (string * string)) :=
  match v with
  | Some x => if Js.truthy v then printed ← ToString x; mret [(name, printed)] else mret []
  | None => mret []
  end.

(** The [type] of [new Blob(parts, { type })]: a type that holds a
    character outside U+0020-U+007E becomes the empty string, any other
    type is put in lower case. *)
Definition printable (c : ascii) : bool :=
  let n := nat_of_ascii c in ((32 <=? n) && (n <=? 126))%nat.

Definition Blob_type (type : string) : string :=
  if all_chars printable type then to_lower type else "".

Definition transcription_upload (E : env) (H : host)
    (audioBase64 mimeType language prompt : jsval) : completion upload :=
  requireOpenAIKey E;;
  decoded ← decodeBase64Audio H audioBase64 mimeType;
  normalizedMimeType ← normalizeMimeType (au_mimeType decoded);
  ext ← extForMimeType (Some (JStr normalizedMimeType));
  language_field ← text_field "language" language;
  prompt_field ← text_field "prompt" prompt;
  mret {| up_fields := ([("model", OPENAI_TRANSCRIBE_MODEL H)] ++ language_field ++ prompt_field)%list;
          up_bytes := au_bytes decoded;
          up_type := Blob_type normalizedMimeType;
          up_filename := "clip." ++ ext |}.

(** ** Card candidates (lines 243-264) *)

(** [Number(v)]; [None] is NaN.  An array is converted through its
    string; an object prints as [[object Object]], which is not a number,
    unless it does not convert at all. *)
Definition to_number (H : host) (v : jsval) : completion (option Z) :=
  match v with
  | None => mret None
  | Some JNull => mret (Some 0)
  | Some (JBool b) => mret (Some (if b then 1 else 0))
  | Some (JNum n) => mret (Some n)
  | Some (JStr s) => mret (string_to_number H s)
  | Some (JArrAt a items) => printed ← ToString (JArrAt a items); mret (string_to_number H printed)
  | Some (JObjAt a fields) => ToString (JObjAt a fields);; mret None
  end.

(** [Math.max(1, Math.min(10, Number(n) || 1))] *)
Definition requested_count (H : host) (n : jsval) : completion Z :=
  number ← to_number H n;
  mret (Z.max 1 (Z.min 10 (match number with
                           | Some x => if x =? 0 then 1 else x
                           | None => 1
                           end))).

Inductive card_kind : Type := Basic | Cloze.

Record card : Type := {
  candidate_id : string;
  card_type : card_kind;
  front : option string;        (* [null] is [None] *)
  back : option string;
  cloze_text : option string;
  rationale : string;
  tags : list string;
}.

(** [v == null ? null : String(v)] *)
Definition nullable_string (v : jsval) : completion (option string) :=
  match v with
  | None | Some JNull => mret None
  | Some x => printed ← ToString x; mret (Some printed)
  end.

(** [Boolean(s)] for a string or [null]. *)
Definition present (s : option string) : bool :=
  match s with
  | Some x => negb (String.eqb x "")
  | None => false
  end.

Definition no_candidates : error := Error "Model returned no valid card candidates".

(** [ts.map((t) => String(t))] *)
Fixpoint strings (ts : list json) : completion (list string) :=
  match ts with
  | [] => mret []
  | x :: rest => printed ← ToString x; others ← strings rest; mret (printed :: others)
  end.

(** [Array.isArray(card.tags) ? card.tags.map((t) => String(t)).slice(0, 12) : []] *)
Definition card_tags (c : json) : completion (list string) :=
  match Js.get c "tags" with
  | Some (JArrAt _ ts) => printed ← strings ts; mret (List.firstn 12 printed)
  | _ => mret []
  end.

(** The callback of [map], lines 247-255.  Reading a property of a card
    that is [null] throws, and so does a field that does not convert. *)
Definition normalize_card (index : nat) (c : json) : completion card :=
  match c with
  | JNull => Thrown (Error "Cannot read properties of null (reading 'candidate_id')")
  | _ =>
      id ← ToString (Js.or_else (Js.get c "candidate_id")
                       (JStr ("cand_" ++ Js.number_to_string (Z.of_nat index + 1))));
      front ← nullable_string (Js.get c "front");
      back ← nullable_string (Js.get c "back");
      cloze_text ← nullable_string (Js.get c "cloze_text");
      rationale ← string_or_empty (Js.get c "rationale");
      tags ← card_tags c;
      mret {| candidate_id := id;
              card_type :=
                if Js.strict_eq (Js.get c "card_type") (Some (JStr "cloze")) then Cloze else Basic;
              front := front;
              back := back;
              cloze_text := cloze_text;
              rationale := rationale;
              tags := tags |}
  end.

(** [Array.prototype.map] with a callback that may throw: the first
    exception ends the loop. *)
Fixpoint map_indexed {A B} (f : nat -> A -> completion B) (index : nat) (l : list A)
    : completion (list B) :=
  match l with
  | [] => Normal []
  | x :: rest =>
      match f index x with
      | Thrown e => Thrown e
      | Normal y =>
          match map_indexed f (S index) rest with
          | Thrown e => Thrown e
          | Normal ys => Normal (y :: ys)
          end
      end
  end.

(** The callback of [filter], lines 256-259. *)
Definition usable (c : card) : bool :=
  match card_type c with
  | Cloze => present (cloze_text c)
  | Basic => present (front c) && present (back c)
  end.

(** [normalizeCardCandidates], lines 243-264. *)
Definition normalizeCardCandidates (H : host) (parsed : json) (requestedN : jsval)
    : completion (list card) :=
  let cards := match Js.get_opt (Some parsed) "cards" with
               | Some (JArrAt _ cs) => cs
               | _ => []
               end in
  count ← requested_count H requestedN;
  mapped ← map_indexed normalize_card 0 (List.firstn (Z.to_nat count) cards);
  let safe := List.filter usable mapped in
  match safe with
  | [] => Thrown no_candidates
  | _ => Normal safe
  end.

(** What every returned candidate satisfies. *)
Definition well_formed (c : card) : Prop :=
  match card_type c with
  | Cloze => exists text, cloze_text c = Some text /\ text <> ""
  | Basic => exists f b, front c = Some f /\ f <> "" /\ back c = Some b /\ b <> ""
  end /\
  (List.length (tags c) <= 12)%nat.

(** ** The feedback store (lines 862-884) *)

Record http_response : Type := {
  status : Z;
  payload : json;
}.

(** An entry of [voicePocFeedback]. *)
Record feedback : Type := {
  fb_id : string;
  fb_clipId : option string;            (* [null] is [None] *)
  fb_transcript : string;
  fb_chosenCandidateId : option string;
  fb_chosenCard : json;
  fb_allCandidates : list json;
  fb_userReason : string;
  fb_createdAt : string;
}.

(** [v ? String(v) : null] *)
Definition string_or_null (v : jsval) : completion (option string) :=
  match v with
  | Some x => if Js.truthy v then printed ← ToString x; mret (Some printed) else mret None
  | None => mret None
  end.

(** [v ? String(v) : ''] *)
Definition string_if_truthy (v : jsval) : completion string :=
  match v with
  | Some x => if Js.truthy v then ToString x else mret ""
  | None => mret ""
  end.

(** The item of lines 863-872, for a body that is not [null]; [uuid] is
    what [crypto.randomUUID()] returns and [now] what
    [new Date().toISOString()] returns.  A field that does not convert
    throws. *)
Definition feedback_item (uuid now : string) (body : json) : completion feedback :=
  clipId ← string_or_null (Js.get body "clipId");
  transcript ← string_if_truthy (Js.get body "transcript");
  chosenCandidateId ← string_or_null (Js.get body "chosenCandidateId");
  userReason ← string_if_truthy (Js.get body "userReason");
  mret {| fb_id := "fb_" ++ uuid;
          fb_clipId := clipId;
          fb_transcript := transcript;
          fb_chosenCandidateId := chosenCandidateId;
          fb_chosenCard := Js.or_else (Js.get body "chosenCard") JNull;
          fb_allCandidates := match Js.get body "allCandidates" with
                              | Some (JArrAt _ l) => l
                              | _ => []
                              end;
          fb_userReason := userReason;
          fb_createdAt := now |}.

(** The test of line 873, negated. *)
Definition complete (item : feedback) : bool :=
  present (fb_chosenCandidateId item) && Js.truthy (Some (fb_chosenCard item)).

(** [push], then [shift] when the store holds more than 200 entries. *)
Definition remember (item : feedback) (store : list feedback) : list feedback :=
  let grown := (store ++ [item])%list in
  if (200 <? List.length grown)%nat then List.tl grown else grown.

(** What the [catch] of [handleApi] answers, line 959:
    [{ error: err.message || 'Server error' }] with status 500. *)
Definition server_error (e : error) : http_response :=
  {| status := 500;
     payload := JObj [("error", JStr (if String.eqb (error_message e) "" then "Server error"
                                      else error_message e))] |}.

(** The branch of [handleApi] for [/api/voice/feedback], with the
    [catch] of the handler: the response and the store afterwards. *)
Definition post_feedback (uuid now : string) (body : json) (store : list feedback)
    : http_response * list feedback :=
  match body with
  | JNull => (server_error (Error "Cannot read properties of null (reading 'clipId')"), store)
  | _ =>
      match feedback_item uuid now body with
      | Thrown e => (server_error e, store)
      | Normal item =>
          if negb (complete item)
          then ({| status := 400;
                   payload := JObj [("error", JStr "chosenCandidateId and chosenCard are required")] |},
                store)
          else
            let store' := remember item store in
            ({| status := 200;
                payload := JObj [("ok", JBool true); ("feedbackId", JStr (fb_id item));
                                 ("count", JNum (Z.of_nat (List.length store')))] |},
             store')
      end
  end.

(** A sequence of feedback requests, each with its [uuid], its [now] and
    its body. *)
Definition feedback_run (requests : list (string * string * json)) (store : list feedback)
    : list feedback :=
  fold_left (fun st r => snd (post_feedback (fst (fst r)) (snd (fst r)) (snd r) st))
    requests store.

(** The item a request stores, if it is accepted. *)
Definition accepted (r : string * string * json) : option feedback :=
  match snd r with
  | JNull => None
  | body =>
      match feedback_item (fst (fst r)) (snd (fst r)) body with
      | Normal item => if complete item then Some item else None
      | Thrown _ => None
      end
  end.

(** The last [n] elements. *)
Definition last_n {A} (n : nat) (l : list A) : list A :=
  List.skipn (List.length l - n) l.
(** ** Paths inside the workspace (lines 70-94 and 927-951) *)

Definition escapes_root : error := Error "Path escapes workspace root".

(** The test of line 76, negated: [target] is [base] or lies below it. *)
Definition within (base target : string) : bool :=
  Js.starts_with (base ++ "/") target || String.eqb target base.

(** [safeResolve], lines 70-80; [path.sep] is ['/']. *)
Definition safeResolve (H : host) (baseDir targetPath : json) : completion string :=
  match path_resolve H [baseDir] with
  | Thrown e => Thrown e
  | Normal resolvedBase =>
      match path_resolve H [JStr resolvedBase; targetPath] with
      | Thrown e => Thrown e
      | Normal resolvedTarget =>
          if ALLOW_OUTSIDE_WORKSPACE H then Normal resolvedTarget
          else if negb (within resolvedBase resolvedTarget) then Thrown escapes_root
          else Normal resolvedTarget
      end
  end.

(** [expandHome] applied to a value of the request body: a truthy value
    that is not a string has no [startsWith]. *)
Definition expandHome_value (E : env) (value : json) : completion json :=
  if negb (Js.truthy (Some value)) then Normal value
  else match value with
       | JStr s => Normal (JStr (expandHome E s))
       | _ => Thrown (Error "value.startsWith is not a function")
       end.

(** [resolveWorkspaceCwd], lines 91-94. *)
Definition resolveWorkspaceCwd (E : env) (H : host) (inputCwd : jsval) : completion string :=
  match expandHome_value E
          (match Js.or inputCwd (Some (JStr (WORKSPACE_ROOT H))) with
           | Some v => v
           | None => JStr (WORKSPACE_ROOT H)
           end) with
  | Thrown e => Thrown e
  | Normal expanded => safeResolve H (JStr (WORKSPACE_ROOT H)) expanded
  end.

(** [body.cwd || WORKSPACE_ROOT] *)
Definition body_cwd (H : host) (body : json) : jsval :=
  Js.or (Js.get body "cwd") (Some (JStr (WORKSPACE_ROOT H))).

(** The path that [/api/file/read] reads and [/api/file/save] writes,
    lines 928-935 and 942-950; [None] when the request is refused for want
    of a [path].  A body that is [null] has no properties to read. *)
Definition file_target (E : env) (H : host) (body : json) : completion (option string) :=
  match body with
  | JNull => Thrown (Error "Cannot read properties of null (reading 'path')")
  | _ =>
  match Js.get body "path" with
  | Some filePath =>
      if negb (Js.truthy (Some filePath)) then Normal None
      else
        match resolveWorkspaceCwd E H (body_cwd H body) with
        | Thrown e => Thrown e
        | Normal resolvedDir =>
            match safeResolve H (JStr resolvedDir) filePath with
            | Thrown e => Thrown e
            | Normal resolvedPath => Normal (Some resolvedPath)
            end
        end
  | None => Normal None
  end
  end.

(** The data URL of a base64 payload of the given media type. *)
Definition data_url_of (mime payload : string) : string :=
  "data:" ++ mime ++ ";base64," ++ payload.

(** ** The language-server relay (lines 1029-1052)

    The [data] handler of [pylsp.stdout] keeps a buffer of bytes and
    forwards complete messages to the WebSocket.  Bytes are code units
    here; the header is matched on the bytes, which for a pattern of ASCII
    characters is the same as matching the decoded text. *)

(** [buffer.indexOf(p)]: the first position where [p] occurs. *)
Fixpoint index_of (p s : string) : option nat :=
  if Js.starts_with p s then Some 0%nat
  else match s with
       | EmptyString => None
       | String _ rest => S <$> index_of p rest
       end.

Definition CRLF2 : string :=
  String (ascii_of_nat 13) (String (ascii_of_nat 10)
    (String (ascii_of_nat 13) (String (ascii_of_nat 10) EmptyString))).

(** [s.slice(n)] *)
Fixpoint drop_chars (n : nat) (s : string) : string :=
  match n, s with
  | O, _ => s
  | S n', String _ rest => drop_chars n' rest
  | S _, EmptyString => EmptyString
  end.

(** [s.slice(0, n)] *)
Fixpoint take_chars (n : nat) (s : string) : string :=
  match n, s with
  | S n', String c rest => String c (take_chars n' rest)
  | _, _ => EmptyString
  end.

(** Whether [p], in lower case, occurs in [s] up to the case of the ASCII
    letters. *)
Fixpoint includes_fold (p s : string) : bool :=
  match after_prefix_fold p s with Some _ => true | None => false end ||
  match s with
  | EmptyString => false
  | String _ rest => includes_fold p rest
  end.

(** The pattern of line 1037, [/Content-Length: (\\d+)/i]: in a regular
    expression literal [\\] is a backslash and [d+] is one or more letters
    [d], so the header must hold the text [Content-Length: ], a backslash
    and a [d]. *)
Definition content_length_pattern : string :=
  "content-length: " ++ String (ascii_of_nat 92) "d".

(** The loop of lines 1031-1051 on the buffer: the messages sent and the
    buffer left when the handler returns, [None] when [fuel] iterations
    were not enough.  A header that matches captures a text that starts
    with a backslash: its [Number] is NaN, the comparison of line 1045 is
    false, [slice(messageStart, NaN)] is empty and [slice(NaN)] is the
    whole buffer, so an empty message is sent and the loop goes round
    with the buffer unchanged. *)
Fixpoint relay (fuel : nat) (buffer : string) : option (list string * string) :=
  match fuel with
  | O => None
  | S fuel' =>
      match index_of CRLF2 buffer with
      | None => Some ([], buffer)
      | Some headerEnd =>
          if includes_fold content_length_pattern (take_chars headerEnd buffer)
          then match relay fuel' buffer with
               | Some (sent, remaining) => Some (EmptyString :: sent, remaining)
               | None => None
               end
          else relay fuel' (drop_chars (headerEnd + 4) buffer)
      end
  end.

(** The handler over the chunks of a stream: each chunk is appended to
    the buffer and the loop runs. *)
Fixpoint relay_chunks (fuel : nat) (buffer : string) (chunks : list string)
    : option (list string * string) :=
  match chunks with
  | [] => Some ([], buffer)
  | chunk :: rest =>
      match relay fuel (buffer ++ chunk) with
      | None => None
      | Some (sent, remaining) =>
          match relay_chunks fuel remaining rest with
          | None => None
          | Some (sent', remaining') => Some ((sent ++ sent')%list, remaining')
          end
      end
  end.

(** * Vocabulary of the properties

    The predicates and the auxiliary functions the statements below are
    written with. *)

(** ** Specifications of synchronous code, and how the bookkeeping evolves *)

(** [aspec m a Q]: from any world whose bridge object is [a], [m] ends
    with a completion and a bridge object that [Q] relates. *)
Definition aspec {A} (m : M A) (a : CodexAppServer)
    (Q : completion A -> CodexAppServer -> Prop) : Prop :=
  forall w, codexApp w = a -> Q (fst (m w)) (codexApp (snd (m w))).

(** [runtime_only m]: [m] completes normally and leaves the bridge object alone. *)
Definition runtime_only {A} (m : M A) : Prop :=
  forall w, exists x w', m w = (Normal x, w') /\ codexApp w' = codexApp w.

(** The bookkeeping the invariants are about. *)
Definition core (a : CodexAppServer) :=
  (nextId a, pending a, threadByCwd a, seededThreads a).

(** [a'] is [a] after some allocations of request identifiers and some
    seedings of threads. *)
Record evolves (a a' : CodexAppServer) : Prop := {
  ev_nextId : nextId a <= nextId a';
  ev_pending_old : forall k, k < nextId a -> JsMap.get k (pending a') = JsMap.get k (pending a);
  ev_pending_new : forall k, nextId a' <= k -> JsMap.get k (pending a') = JsMap.get k (pending a);
  ev_threads : threadByCwd a' = threadByCwd a;
  ev_seeded : forall t, set_has t (seededThreads a) = true -> set_has t (seededThreads a') = true;
}.

(** [keeps m]: whatever the bridge evolved from, it still evolved from it
    after [m]. *)
Definition keeps {A} (m : M A) : Prop :=
  forall a0 a, evolves a0 a -> aspec m a (fun _ a' => evolves a0 a').

(** A response or a time-out removes one pending entry. *)
Definition removes (k : Z) (a a' : CodexAppServer) : Prop :=
  nextId a' = nextId a /\ threadByCwd a' = threadByCwd a /\
  seededThreads a' = seededThreads a /\ pending a' = JsMap.delete k (pending a).

(** [reset] empties the tables and the slots; the counter stays. *)
Definition cleared (a a' : CodexAppServer) : Prop :=
  nextId a' = nextId a /\ pending a' = [] /\ threadByCwd a' = ∅ /\ seededThreads a' = [] /\
  currentTurn a' = None /\ loginWaiter a' = None /\ proc a' = None.

(** The answer to [thread/start] binds a working directory. *)
Definition binds (cwd : string) (t : json) (a a' : CodexAppServer) : Prop :=
  nextId a' = nextId a /\ pending a' = pending a /\ seededThreads a' = seededThreads a /\
  threadByCwd a' = <[cwd := t]> (threadByCwd a) /\ Js.truthy (Some t) = true.

(** What one step does to the bookkeeping: it evolves it, or it is one of
    the four events that remove or bind. *)
Inductive step_kind (w : world) (o : op) (a a' : CodexAppServer) : Prop :=
| StepEvolves :
    evolves a a' -> step_kind w o a a'
| StepResponse message k :
    o = OpStdoutLine (Some message) -> Js.get message "id" = Some (JNum k) ->
    removes k a a' -> step_kind w o a a'
| StepRpcTimeout t k method p :
    o = OpTimer t -> timers w !! t = Some (Some (RpcTimedOut k method p)) ->
    removes k a a' -> step_kind w o a a'
| StepClose n :
    o = OpChildClose n -> cleared a a' -> step_kind w o a a'
| StepThread self cwd v rest t :
    o = OpMicrotask -> microtasks w = (self, KThreadStarted cwd, Fulfilled v) :: rest ->
    binds cwd t a a' -> step_kind w o a a'.

(** Every pending identifier was allocated: it is below the counter. *)
Definition well_numbered (a : CodexAppServer) : Prop :=
  forall k, nextId a <= k -> JsMap.get k (pending a) = None.


(** The worlds the bridge can be in: any interleaving of events and
    microtasks from the initial world. *)
Definition reachable (E : env) (w : world) : Prop :=
  exists os, w = steps E os initial_world.

(** ** What [reset] does, as a function *)

Definition reject_effects (e : error) (wt : waiter) : list effect :=
  [EClearTimeout (w_timer wt); EReject (w_promise wt) e].

Definition reject_all (l : list waiter) (e : error) : M unit :=
  for_each l (fun wt => waiter_reject wt e).

(** The runtime operations do not look at the bridge object. *)
Definition app_blind {A} (m : M A) : Prop :=
  forall a w, m (set_codexApp a w) = (fst (m w), set_codexApp a (snd (m w))).

(** Every waiter the bridge holds: the pending requests in insertion
    order, then the active turn, then the login waiter. *)
Definition all_waiters (a : CodexAppServer) : list waiter :=
  (JsMap.values (pending a) ++ option_list (turn_waiter <$> currentTurn a)
     ++ option_list (loginWaiter a))%list.

Definition reset_app (a : CodexAppServer) : CodexAppServer :=
  {| proc := None; rl := None; nextId := nextId a; pending := []; threadByCwd := ∅;
     seededThreads := []; currentTurn := None; starting := starting a;
     startupStderr := ""; loginWaiter := None |}.

Definition close_rl (w : world) : world :=
  match rl (codexApp w) with
  | Some _ => set_trace (trace w ++ [ERlClose]) w
  | None => w
  end.

(** ** Requests and responses *)

(** What the waiter of a matched response is settled with. *)
Definition settle_response (message : json) (entry : waiter) : M unit :=
  let error := Js.get message "error" in
  if Js.truthy error
  then
    text ← lift (ToString (Js.or_else (Js.get_opt error "message") (JStr "Codex error")));
    waiter_reject entry (Error text)
  else waiter_resolve entry (Js.or (Js.get message "result") (Some (JObj []))).

(** A timer that fires is disarmed first. *)
Definition disarm (t : timer) (w : world) : world :=
  set_timers (<[t := None]> (timers w)) w.

Definition remove_pending (k : Z) (w : world) : world :=
  set_codexApp (set_pending (JsMap.delete k (pending (codexApp w))) (codexApp w)) w.

Definition timeout_error (method : string) (a : CodexAppServer) : error :=
  if String.eqb method "initialize" && negb (String.eqb (Js.trim (startupStderr a)) "")
  then Error ("Codex app-server timeout on " ++ method ++ ". Stderr: "
              ++ Js.trim (startupStderr a))
  else Error ("Codex app-server timeout on " ++ method).

(** The effects of a request written to a running subprocess. *)
Definition request_effects (w : world) (method : string) (params : json) (ms : Z) : list effect :=
  [ ESetTimeout (List.length (timers w))
      (RpcTimedOut (nextId (codexApp w)) method (List.length (promises w))) ms;
    EWrite (JObj [("method", JStr method); ("id", JNum (nextId (codexApp w)));
                  ("params", params)]) ].

(** ** Turn input, login, notifications and the trace *)

(** What [readCodexContext] returns. *)
Definition codex_context (E : env) : string :=
  if negb (String.eqb (Js.trim (CODEX_CONTEXT_TEXT E)) "") then Js.trim (CODEX_CONTEXT_TEXT E)
  else if String.eqb (CODEX_CONTEXT_PATH E) "" then ""
  else match readFileSync E (expandHome E (CODEX_CONTEXT_PATH E)) with
       | Some text => Js.trim text
       | None => ""
       end.

(** The reference document the environment configures: the literal text
    when there is one; else the content of the file at the configured
    path; trimmed in both cases.  There is none (the empty string) when no
    path is configured or the file cannot be read. *)
Inductive configured_document (E : env) : string -> Prop :=
| DocumentText :
    Js.trim (CODEX_CONTEXT_TEXT E) <> "" ->
    configured_document E (Js.trim (CODEX_CONTEXT_TEXT E))
| DocumentFile text :
    Js.trim (CODEX_CONTEXT_TEXT E) = "" -> CODEX_CONTEXT_PATH E <> "" ->
    readFileSync E (expandHome E (CODEX_CONTEXT_PATH E)) = Some text ->
    configured_document E (Js.trim text)
| DocumentNoPath :
    Js.trim (CODEX_CONTEXT_TEXT E) = "" -> CODEX_CONTEXT_PATH E = "" ->
    configured_document E ""
| DocumentUnreadable :
    Js.trim (CODEX_CONTEXT_TEXT E) = "" -> CODEX_CONTEXT_PATH E <> "" ->
    readFileSync E (expandHome E (CODEX_CONTEXT_PATH E)) = None ->
    configured_document E "".

(** The seed block in the words of the claim: the system guidance,
    trimmed, and after it, when there is a reference document, a blank
    line, the heading of line 636 and the document. *)
Definition seed_block (guidance document : string) : string :=
  if String.eqb document "" then Js.trim guidance
  else Js.trim guidance ++ String (ascii_of_nat 10) (String (ascii_of_nat 10) "")
         ++ "Anki Card Spec (follow strictly):" ++ String (ascii_of_nat 10) document.

Definition login_start_params (apiKey : string) : json :=
  JObj [("type", JStr "apiKey"); ("apiKey", JStr apiKey)].

(** What the answer to [account/read] asks for. *)
Definition needs_login (authInfo : json) : bool :=
  Js.truthy (Js.get authInfo "requiresOpenaiAuth") && negb (Js.truthy (Js.get authInfo "account")).

Definition deliver_to_turn (method params : json) : M unit :=
  let notified := notification_turnId params in
  a ← this;
  let current := match currentTurn a with Some t => turnId t | None => None end in
  if Js.truthy notified && Js.truthy current && negb (Js.strict_eq notified current)
  then skip
  else if Js.strict_eq (Some method) (Some (JStr "turn/completed"))
  then finishTurn
  else
    match method with
    | JStr m =>
        if Js.starts_with "item/" m then
          text ← lift (extractTextFromParams params);
          if negb (String.eqb text "")
          then update_turn (fun t => set_stdout (stdout t ++ text) t)
          else skip
        else skip
    | _ => throw (Error "method.startsWith is not a function")
    end.

(** A notification that the login flow consumes never reaches the turn. *)
Definition consumed_by_login (method : json) (a : CodexAppServer) : bool :=
  Js.strict_eq (Some method) (Some (JStr "account/login/completed")) &&
  match loginWaiter a with Some _ => true | None => false end.

(** What the summary adds to the event log. *)
Definition logged (summary : option string) : list string :=
  match summary with
  | Some s => if negb (String.eqb s "") then [s] else []
  | None => []
  end.

(** The identifiers of the [turn/start] requests written so far, with
    the text of the last input item. *)
Definition turn_starts (tr : list effect) : list (Z * jsval) :=
  List.flat_map
    (fun e =>
       match e with
       | EWrite (JObjAt _ [("method", JStr "turn/start"); ("id", JNum id); ("params", params)]) =>
           [(id, match Js.get params "input" with
                 | Some (JArrAt _ items) => Js.get_opt (List.last (List.map Some items) None) "text"
                 | _ => None
                 end)]
       | _ => []
       end) tr.

Definition count_spawns (tr : list effect) : nat :=
  List.length (List.filter (fun e => match e with ESpawn _ => true | _ => false end) tr).

(** [process.env.OPENAI_API_KEY] when it is truthy. *)
Definition credential (E : env) : option string :=
  match OPENAI_API_KEY E with
  | Some apiKey => if String.eqb apiKey "" then None else Some apiKey
  | None => None
  end.

(** The two halves of [handleNotification] once the notification reaches
    an active turn: lines 545-550 and lines 551-564. *)
Definition log_summary (E : env) (summary : option string) : M unit :=
  match summary with
  | Some s =>
      if negb (String.eqb s "")
      then update_turn (fun t => set_events (events t ++ [s]) t);;
           (if CODEX_DEBUG E then emit (ELog ("[codex] " ++ s)) else skip)
      else skip
  | None => skip
  end.

(** ** A concrete environment and runs

    The defaults of lines 325-363, with a credential and no reference
    document on disk, and the runs the examples and the witnesses
    evaluate. *)

Definition newline : string := String (ascii_of_nat 10) "".

Definition default_system_message : string :=
  Js.join newline
    ["You are Codex running inside Anki IDE.";
     "Behave normally and answer user prompts.";
     "If the user asks about Anki, Anki cards, or AnkiConnect, follow the Anki Card Spec and include the connection steps:";
     "- Anki app running, AnkiConnect installed/enabled.";
     "- AnkiConnect uses http://127.0.0.1:8765 with JSON POST.";
     "- Use AnkiConnect API actions (e.g., deckNames, findNotes, notesInfo) rather than direct DB writes."].

Definition example_env : env :=
  {| CODEX_INIT_TIMEOUT_MS := 30000;
     CODEX_RPC_TIMEOUT_MS := 10000;
     CODEX_LOGIN_TIMEOUT_MS := 30000;
     CODEX_TURN_TIMEOUT_MS := 1200000;
     CODEX_SANDBOX := "workspace-write";
     CODEX_APPROVAL_POLICY := "never";
     CODEX_CONTEXT_PATH := "/home/user/code/alt2/openai/personal/morgan/anki/anki-card-spec.md";
     CODEX_CONTEXT_TEXT := "";
     CODEX_DEBUG := false;
     CODEX_SYSTEM_MESSAGE := default_system_message;
     OPENAI_API_KEY := Some "sk-example";
     homedir := "/home/user";
     path_join := fun a b => a ++ "/" ++ b;
     readFileSync := fun _ => None |}.

(** The same environment with a reference document given as text. *)
Definition example_env_with_document : env :=
  {| CODEX_INIT_TIMEOUT_MS := 30000;
     CODEX_RPC_TIMEOUT_MS := 10000;
     CODEX_LOGIN_TIMEOUT_MS := 30000;
     CODEX_TURN_TIMEOUT_MS := 1200000;
     CODEX_SANDBOX := "workspace-write";
     CODEX_APPROVAL_POLICY := "never";
     CODEX_CONTEXT_PATH := "/home/user/code/alt2/openai/personal/morgan/anki/anki-card-spec.md";
     CODEX_CONTEXT_TEXT := "  Prefer cloze deletions.  ";
     CODEX_DEBUG := false;
     CODEX_SYSTEM_MESSAGE := " Answer briefly. ";
     OPENAI_API_KEY := Some "sk-example";
     homedir := "/home/user";
     path_join := fun a b => a ++ "/" ++ b;
     readFileSync := fun _ => None |}.

(** The same environment without a credential. *)
Definition example_env_no_key : env :=
  {| CODEX_INIT_TIMEOUT_MS := 30000;
     CODEX_RPC_TIMEOUT_MS := 10000;
     CODEX_LOGIN_TIMEOUT_MS := 30000;
     CODEX_TURN_TIMEOUT_MS := 1200000;
     CODEX_SANDBOX := "workspace-write";
     CODEX_APPROVAL_POLICY := "never";
     CODEX_CONTEXT_PATH := "/home/user/code/alt2/openai/personal/morgan/anki/anki-card-spec.md";
     CODEX_CONTEXT_TEXT := "";
     CODEX_DEBUG := false;
     CODEX_SYSTEM_MESSAGE := default_system_message;
     OPENAI_API_KEY := None;
     homedir := "/home/user";
     path_join := fun a b => a ++ "/" ++ b;
     readFileSync := fun _ => None |}.

(** A response line [{ id, result }] and a notification line
    [{ method, params }], after [JSON.parse]. *)
Definition response (id : Z) (result : json) : op :=
  OpStdoutLine (Some (JObj [("id", JNum id); ("result", result)])).

Definition notification (method : string) (params : json) : op :=
  OpStdoutLine (Some (JObj [("method", JStr method); ("params", params)])).

(** The subprocess starts, needs no login, and opens thread [T1] for
    [/work/a]: the bridge has sent [turn/start] as request 4. *)
Definition up_to_turn_start : list op :=
  [ OpSendCodexPrompt (JStr "summarize this file") "/work/a";
    OpChildSpawn 0;
    response 1 (JObj []);
    response 2 (JObj [("requiresOpenaiAuth", JBool false)]);
    response 3 (JObj [("thread", JObj [("id", JStr "T1")])]) ].

(** The turn [U1] is then active. *)
Definition up_to_active_turn : list op :=
  (up_to_turn_start ++ [ response 4 (JObj [("turn", JObj [("id", JStr "U1")])]) ])%list.

Definition fuel : nat := 64.

Definition world_turn_requested : world := run example_env fuel up_to_turn_start initial_world.
Definition world_active_turn : world := run example_env fuel up_to_active_turn initial_world.

(** The subprocess has answered [initialize]; [account/read] is request 2. *)
Definition starting_ops : list op :=
  [ OpEnsureStarted; OpChildSpawn 0; response 1 (JObj []) ].

Definition world_account_read : world := run example_env fuel starting_ops initial_world.

Definition spawn_failure : error := Error "spawn codex ENOENT".

(** Two prompts submitted up front: the second [turn/start] goes out only
    after the first turn completed. *)
Definition fifo_ops : list op :=
  [ OpSendCodexPrompt (JStr "one") "/work/a";
    OpSendCodexPrompt (JStr "two") "/work/a";
    OpChildSpawn 0;
    response 1 (JObj []);
    response 2 (JObj [("requiresOpenaiAuth", JBool false)]);
    response 3 (JObj [("thread", JObj [("id", JStr "T1")])]);
    response 4 (JObj [("turn", JObj [("id", JStr "U1")])]) ].

(** The first prompt is in its turn when a second is submitted; the first
    turn then times out, and a third prompt is submitted while the second
    is waiting for the answer to its [turn/start]. *)
Definition overlap_ops : list op :=
  (up_to_active_turn ++
   [ OpSendCodexPrompt (JStr "two") "/work/a";
     OpTimer 4;
     OpSendCodexPrompt (JStr "three") "/work/a" ])%list.

(** The same overlap for a working directory with no thread yet: the
    second and the third prompt each ask for a thread of [/work/b]
    (requests 5 and 6). *)
Definition racing_ops : list op :=
  (up_to_active_turn ++
   [ OpSendCodexPrompt (JStr "two") "/work/b";
     OpTimer 4;
     OpSendCodexPrompt (JStr "three") "/work/b" ])%list.

(** The first of the two answers has arrived: [/work/b] is bound to [T2]. *)
Definition world_first_thread_bound : world :=
  run example_env fuel
    (racing_ops ++ [ response 5 (JObj [("thread", JObj [("id", JStr "T2")])]) ]) initial_world.

(** A caller arrives after the [spawn] event, while [initialize] is
    unanswered.  The theorem extends the run: [initialize] times out
    (timer 0), then a third caller arrives. *)
Definition late_caller_ops : list op :=
  [ OpEnsureStarted; OpChildSpawn 0; OpEnsureStarted ].

(** * Vocabulary of the further properties *)

(** ** Notifications of a turn *)

(** The test of line 552 lets the notification through: it names no turn,
    or the active turn has no identifier, or the two agree. *)
Definition for_turn (params : json) (t : turn) : bool :=
  negb (Js.truthy (notification_turnId params) && Js.truthy (turnId t)
        && negb (Js.strict_eq (notification_turnId params) (turnId t))).

(** What a notification adds to the event log of the active turn. *)
Definition summary_of (method params : json) : list string :=
  match summarizeCodexNotification method params with
  | Normal summary => logged summary
  | Thrown _ => []
  end.

(** The line [{ method, params }] of an [item/...] notification. *)
Definition item_line (m : string * json) : op := notification (fst m) (snd m).

(** The text of a notification, when it converts. *)
Definition converts (params : json) : Prop :=
  exists text, extractTextFromParams params = Normal text.

Definition item_text (params : json) : string :=
  match extractTextFromParams params with
  | Normal text => text
  | Thrown _ => ""
  end.

(** The texts and the summaries of a list of [item/...] notifications,
    in the order of the list. *)
Definition item_texts (msgs : list (string * json)) : string :=
  Js.join "" (List.map (fun m => item_text (snd m)) msgs).

Definition item_summaries (msgs : list (string * json)) : list string :=
  List.flat_map (fun m => summary_of (JStr (fst m)) (snd m)) msgs.

(** What the waiter of a turn is resolved with when [turn/completed]
    arrives for it: the summary of that notification is already in the log. *)
Definition completed_payload (t : turn) : jsval :=
  Some (turn_payload (Js.trim (stdout t)) (Js.trim (stderr t)) (events t ++ ["turn/completed"])).

(** The error of lines 605-606: the time-out of a turn, carrying the
    events of the turn. *)
Definition turn_timeout_error (t : turn) : error :=
  {| error_message := "Codex turn timed out."; error_events := Some (events t) |}.

(** What [write] throws at line 468. *)
Definition not_running : error := Error "Codex app-server not running.".

(** What the time-out of the login waiter rejects with, line 675. *)
Definition login_timeout_error : error := Error "Codex login timed out.".

(** The subprocess required a login and answered [account/login/start]:
    the login waiter is installed. *)
Definition awaiting_login_ops : list op :=
  (starting_ops ++ [ response 2 (JObj [("requiresOpenaiAuth", JBool true)]);
                     response 3 (JObj []) ])%list.

Definition world_awaiting_login : world := run example_env fuel awaiting_login_ops initial_world.

(** ** The warning about the reference document *)

(** The warnings written with [console.warn] so far. *)
Definition warnings (w : world) : list string :=
  List.flat_map (fun e => match e with EWarn s => [s] | _ => [] end) (trace w).

(** The one warning of the bridge, line 742. *)
Definition context_warning (E : env) : string :=
  "Codex context file not found: " ++ expandHome E (CODEX_CONTEXT_PATH E).

(** From [w] to [w']: nothing was warned, or the flag went up with the
    one warning. *)
Definition warn_step (E : env) (w w' : world) : Prop :=
  (codexContextWarningLogged w' = codexContextWarningLogged w /\ warnings w' = warnings w) \/
  (codexContextWarningLogged w = false /\ codexContextWarningLogged w' = true /\
   warnings w' = (warnings w ++ [context_warning E])%list).

Definition tame (E : env) {A} (m : M A) : Prop := forall w, warn_step E w (snd (m w)).

(** [m] neither warns nor touches the flag. *)
Definition quiet {A} (m : M A) : Prop :=
  forall w, codexContextWarningLogged (snd (m w)) = codexContextWarningLogged w /\
            warnings (snd (m w)) = warnings w.

(** ** Strings as lists of code units

    [trim] is stated on the list of the code units of a string. *)

Abbreviation chars := list_ascii_of_string.

(** The spaces at the start removed. *)
Fixpoint drop_spaces (l : list ascii) : list ascii :=
  match l with
  | c :: rest => if Js.is_space c then drop_spaces rest else l
  | [] => []
  end.

(** What [Js.trim] leaves, on lists. *)
Definition trimmed (l : list ascii) : list ascii :=
  List.rev (drop_spaces (List.rev (drop_spaces l))).

(** What [drop_spaces] leaves starts with something that is not a space. *)
Definition starts_solid (l : list ascii) : Prop :=
  match l with c :: _ => Js.is_space c = false | [] => True end.

(** ** A host for the examples

    Stand-ins for the functions of Node the helpers call: [path.resolve]
    on POSIX with the working directory [/srv/app], the base64 decoding
    of [Buffer.from], and [Number] on the decimal integers. *)

Fixpoint split_on (c : ascii) (s : string) : list string :=
  match s with
  | EmptyString => [EmptyString]
  | String x rest =>
      if Ascii.eqb x c then EmptyString :: split_on c rest
      else match split_on c rest with
           | seg :: segs => String x seg :: segs
           | [] => [String x EmptyString]
           end
  end.

Definition normalize_segments (segs : list string) : list string :=
  fold_left
    (fun acc seg =>
       if String.eqb seg "" || String.eqb seg "." then acc
       else if String.eqb seg ".." then List.removelast acc
       else (acc ++ [seg])%list)
    segs [].

(** The arguments are read from the right until one is absolute. *)
Fixpoint resolve_from_right (cwd : string) (reversed : list json) (acc : string)
    : completion string :=
  match reversed with
  | [] => Normal (cwd ++ "/" ++ acc)
  | JStr p :: rest =>
      if String.eqb p "" then resolve_from_right cwd rest acc
      else if Js.starts_with "/" p then Normal (p ++ "/" ++ acc)
      else resolve_from_right cwd rest (p ++ "/" ++ acc)
  | _ :: _ => Thrown (Error "ERR_INVALID_ARG_TYPE")
  end.

Definition posix_resolve (cwd : string) (paths : list json) : completion string :=
  match resolve_from_right cwd (List.rev paths) "" with
  | Thrown e => Thrown e
  | Normal joined => Normal ("/" ++ Js.join "/" (normalize_segments (split_on "/" joined)))
  end.

Definition base64_value (c : ascii) : option N :=
  let n := N_of_ascii c in
  (if (65 <=? n) && (n <=? 90) then Some (n - 65)
   else if (97 <=? n) && (n <=? 122) then Some (n - 71)
   else if (48 <=? n) && (n <=? 57) then Some (n + 4)
   else if (n =? 43) || (n =? 45) then Some 62
   else if (n =? 47) || (n =? 95) then Some 63
   else None)%N.

(** The 6-bit values up to the padding; other characters are skipped. *)
Fixpoint sextets (s : string) : list N :=
  match s with
  | EmptyString => []
  | String c rest =>
      if Ascii.eqb c "=" then []
      else match base64_value c with
           | Some v => v :: sextets rest
           | None => sextets rest
           end
  end.

Fixpoint octets (l : list N) : list ascii :=
  match l with
  | a :: b :: c :: d :: rest =>
      ascii_of_N (a * 4 + b / 16) :: ascii_of_N ((b mod 16) * 16 + c / 4)
        :: ascii_of_N ((c mod 4) * 64 + d) :: octets rest
  | [a; b; c] => [ascii_of_N (a * 4 + b / 16); ascii_of_N ((b mod 16) * 16 + c / 4)]
  | [a; b] => [ascii_of_N (a * 4 + b / 16)]
  | _ => []
  end%N.

Definition decimal_number (s : string) : option Z :=
  if String.eqb (Js.trim s) "" then Some 0
  else Z.of_int <$> NilZero.int_of_string (Js.trim s).

Definition example_host : host :=
  {| WORKSPACE_ROOT := "/work";
     ALLOW_OUTSIDE_WORKSPACE := false;
     OPENAI_TRANSCRIBE_MODEL := "whisper-1";
     VOICE_POC_MAX_AUDIO_BYTES := Some 8000000;
     path_resolve := posix_resolve "/srv/app";
     Buffer_from_base64 := fun s => octets (sextets s);
     string_to_number := decimal_number |}.

(** ** Who may settle a promise *)

(** [m] never deallocates a promise. *)
Definition grows {A} (m : M A) : Prop :=
  forall w, (List.length (promises w) <= List.length (promises (exec m w)))%nat.

(** The promises a piece of code holds the [resolve] or [reject] of: those
    a resumption captured, the one a time-out callback captured, and
    those of the waiters stored in the bridge object. *)
Definition kont_promises (k : kont) : list promise :=
  match k with
  | KStartInitialized p | KStartLoggedIn p => [p]
  | _ => []
  end.

Definition callback_promise (cb : timer_callback) : promise :=
  match cb with
  | RpcTimedOut _ _ p | TurnTimedOut p | LoginTimedOut p => p
  end.

Section Free.
Context (free : promise -> Prop).

Definition kont_free (k : kont) : Prop := Forall free (kont_promises k).

Definition async_free (s : async_step) : Prop :=
  match s with
  | Return _ => True
  | Await _ k => kont_free k
  end.

Definition app_free (a : CodexAppServer) : Prop :=
  Forall (fun wt => free (w_promise wt)) (all_waiters a).

Definition timers_free (w : world) : Prop :=
  forall t cb, timers w !! t = Some (Some cb) -> free (callback_promise cb).

Definition children_free (w : world) : Prop :=
  forall n c, children w !! n = Some c -> free (c_start c).
End Free.

(** Two worlds with the same bridge object, promises, timers, microtasks
    and children. *)
Definition same_runtime (w w' : world) : Prop :=
  codexApp w' = codexApp w /\ promises w' = promises w /\ timers w' = timers w /\
  microtasks w' = microtasks w /\ children w' = children w.

(** A discipline of ownership: the code may settle the promises that are
    [free], and register activations that settle free promises; [Inv] is
    what then holds of every world.  [past] worlds are those the
    discipline says nothing about. *)
Record discipline (free : promise -> Prop) (Inv past : world -> Prop) : Prop := {
  d_past : forall w, past w -> Inv w;
  d_past_grows : forall w w',
    (List.length (promises w) <= List.length (promises w'))%nat -> past w -> past w';
  d_same : forall w w', same_runtime w w' -> Inv w -> Inv w';
  d_app : forall w, Inv w -> past w \/ app_free free (codexApp w);
  d_timers : forall w, Inv w -> past w \/ timers_free free w;
  d_children : forall w, Inv w -> past w \/ children_free free w;
  d_new_promise : forall w, Inv w ->
    Inv (set_promises (promises w ++ [Pending []]) w) /\
    (past (set_promises (promises w ++ [Pending []]) w) \/ free (List.length (promises w)));
  d_settle : forall w p o, Inv w -> free p -> Inv (exec (settle p o) w);
  d_on_settled : forall w p self k,
    Inv w -> free self -> kont_free free k -> Inv (exec (on_settled p (self, k)) w);
  d_set_app : forall w a, Inv w -> app_free free a -> Inv (set_codexApp a w);
  d_add_timer : forall w cb,
    Inv w -> free (callback_promise cb) -> Inv (set_timers (timers w ++ [Some cb]) w);
  d_clear_timer : forall w t, Inv w -> Inv (set_timers (<[t := None]> (timers w)) w);
  d_add_child : forall w p,
    Inv w -> free p ->
    Inv (set_children (children w ++ [{| c_start := p; c_spawned := false |}]) w);
  d_spawned : forall w n p,
    Inv w -> free p ->
    Inv (set_children (<[n := {| c_start := p; c_spawned := true |}]> (children w)) w);
  d_pop : forall w self k o rest,
    Inv w -> microtasks w = (self, k, o) :: rest -> free self -> kont_free free k ->
    Inv (set_microtasks rest w);
}.

(** [safe Inv past m R]: [m] keeps [Inv], and what it returns satisfies
    [R] unless the world is [past]. *)
Definition safe (Inv past : world -> Prop) {A} (m : M A) (R : A -> Prop) : Prop :=
  forall w, Inv w ->
    Inv (exec m w) /\ (past (exec m w) \/ forall x, result m w = Normal x -> R x).

(** The bridge object, the timers and the children hold free promises
    only. *)
Record handles_free (free : promise -> Prop) (w : world) : Prop := {
  hf_app : app_free free (codexApp w);
  hf_timers : timers_free free w;
  hf_children : children_free free w;
}.

(** ** Every promise the world holds is allocated *)

Definition other (n : promise) (p : promise) : Prop := p <> n.

(** The promise [n] occurs nowhere in the world: the bridge object, the
    timers and the children do not hold it, and no activation, waiting on
    a pending promise or queued as a microtask, settles it. *)
Record scoped_at (n : promise) (w : world) : Prop := {
  sc_handles : handles_free (other n) w;
  sc_reactions : forall p rs self k,
    promises w !! p = Some (Pending rs) -> (self, k) ∈ rs ->
    self <> n /\ kont_free (other n) k;
  sc_microtasks : forall self k o,
    (self, k, o) ∈ microtasks w -> self <> n /\ kont_free (other n) k;
}.

Definition beyond (n : promise) (w : world) : Prop := (n < List.length (promises w))%nat.

Definition well_scoped (w : world) : Prop :=
  forall n, (List.length (promises w) <= n)%nat -> scoped_at n w.

(** ** The promise of a caller

    A submission allocates three promises in a row: the one of the call
    of [sendCodexPrompt], which the caller holds, the one of
    [codexQueue.then(...)], which settles as the turn of the submission
    does, and the one of [.catch(...)], which becomes [codexQueue]. *)
Definition then_promise (caller : promise) : promise := S caller.
Definition catch_promise (caller : promise) : promise := S (S caller).

(** What the [catch] handler makes of the outcome of the turn. *)
Definition caught (o : settled) : jsval :=
  match o with
  | Fulfilled v => v
  | Rejected e => Some (error_payload e)
  end.

(** The promises the rest of the code has no hand on. *)
Definition unowned (caller : promise) (p : promise) : Prop :=
  p <> caller /\ p <> catch_promise caller.

(** The chain from the turn to the caller, with [h] the activations taken
    off the microtask queue and running: the caller's promise is settled
    only by the activation that adopts the promise of the [catch], and
    that one only by the [catch] handler, run on the outcome of the
    promise of the [then]. *)
Record chained (caller : promise) (h : list (frame * settled)) (w : world) : Prop := {
  ch_handles : handles_free (unowned caller) w;
  ch_reactions : forall p rs self k,
    promises w !! p = Some (Pending rs) -> (self, k) ∈ rs ->
    kont_free (unowned caller) k /\
    (self = catch_promise caller -> k = KQueueCatch /\ p = then_promise caller) /\
    (self = caller -> k = KAdopt /\ p = catch_promise caller);
  ch_microtasks : forall self k o,
    (self, k, o) ∈ (h ++ microtasks w)%list ->
    kont_free (unowned caller) k /\
    (self = catch_promise caller ->
       k = KQueueCatch /\ promises w !! then_promise caller = Some (Settled o)) /\
    (self = caller ->
       k = KAdopt /\ promises w !! catch_promise caller = Some (Settled o));
  ch_allocated : (catch_promise caller < List.length (promises w))%nat;
  ch_catch_pending : forall rsq,
    promises w !! catch_promise caller = Some (Pending rsq) ->
    (exists rs, promises w !! then_promise caller = Some (Pending rs) /\
                (catch_promise caller, KQueueCatch) ∈ rs) \/
    (exists o, promises w !! then_promise caller = Some (Settled o) /\
               (catch_promise caller, KQueueCatch, o) ∈ (h ++ microtasks w)%list);
  ch_catch_settled : forall oq,
    promises w !! catch_promise caller = Some (Settled oq) ->
    exists o, promises w !! then_promise caller = Some (Settled o) /\ oq = Fulfilled (caught o);
  ch_adopt_pending : forall rsc,
    promises w !! caller = Some (Pending rsc) ->
    (exists rs, promises w !! catch_promise caller = Some (Pending rs) /\ (caller, KAdopt) ∈ rs) \/
    (exists o, promises w !! catch_promise caller = Some (Settled o) /\
               (caller, KAdopt, o) ∈ (h ++ microtasks w)%list);
  ch_adopt_settled : forall oc,
    promises w !! caller = Some (Settled oc) ->
    promises w !! catch_promise caller = Some (Settled oc);
}.

(** [new Promise(...)], as a function on worlds. *)
Definition allocate (w : world) : world := set_promises (promises w ++ [Pending []]) w.

(** * Properties *)

(** ** JSON values *)

Example trim_example : Js.trim "  a b  " = "a b".
Proof. reflexivity. Qed.

Example to_string_example :
  Js.to_string (JArr [JNum 1; JNull; JStr "x"; JArr [JBool true; JNum (-2)]]) = Some "1,,x,true,-2" /\
  Js.to_string (JArr [JObj [("a", JNum 1)]; JNum (10 ^ 21)]) = Some "[object Object],1e+21" /\
  Js.to_string (JArr [JStr "x"; JObj [("toString", JNum 1)]]) = None.
Proof. repeat split; vm_compute; reflexivity. Qed.

Lemma same_value_refl (v : json) : Js.same_value v v = true.
Proof.
  destruct v as [|b|n|s|a items|a fields]; simpl.
  - reflexivity.
  - by destruct b.
  - apply Z.eqb_refl.
  - apply String.eqb_refl.
  - apply Nat.eqb_refl.
  - apply Nat.eqb_refl.
Qed.

Lemma equal_refl (v : json) : Js.equal v v = true.
Proof.
  induction v using json_ind; simpl.
  - reflexivity.
  - by destruct b.
  - apply Z.eqb_refl.
  - apply String.eqb_refl.
  - rewrite Nat.eqb_refl. simpl.
    induction H as [|x l Hx _ IH]; [reflexivity|]. by rewrite Hx, IH.
  - rewrite Nat.eqb_refl. simpl.
    induction H as [|[k x] l Hx _ IH]; [reflexivity|].
    simpl in Hx. by rewrite String.eqb_refl, Hx, IH.
Qed.

Lemma equal_eq (a b : json) : Js.equal a b = true -> a = b.
Proof.
  revert b. induction a using json_ind; intros [] Hab; simpl in Hab; try discriminate.
  - reflexivity.
  - f_equal. by apply Bool.eqb_prop.
  - f_equal. by apply Z.eqb_eq.
  - f_equal. by apply String.eqb_eq.
  - apply andb_prop in Hab as [Ha Hab]. apply Nat.eqb_eq in Ha. subst. f_equal.
    revert items0 Hab.
    induction H as [|x l Hx _ IH]; intros [|y l'] Hab; try discriminate; [reflexivity|].
    apply andb_prop in Hab as [Hxy Hl]. f_equal; auto.
  - apply andb_prop in Hab as [Ha Hab]. apply Nat.eqb_eq in Ha. subst. f_equal.
    revert fields0 Hab.
    induction H as [|[k x] l Hx _ IH]; intros [|[k' y] l'] Hab; try discriminate; [reflexivity|].
    apply andb_prop in Hab as [Hxy Hl]. apply andb_prop in Hxy as [Hk Hxy].
    apply String.eqb_eq in Hk. simpl in Hx. f_equal; [f_equal|]; auto.
Qed.

Lemma json_eq_dec : EqDecision json.
Proof.
  intros a b. destruct (Js.equal a b) eqn:Hab.
  - left. by apply equal_eq.
  - right. intros ->. by rewrite equal_refl in Hab.
Qed.
#[global] Existing Instance json_eq_dec.

(** ** The pending table *)

Section JsMapFacts.
Context {K V : Type} `{EqDecision K}.
Implicit Types (m : list (K * V)) (k : K) (v : V).

Lemma get_set_eq k v m : JsMap.get k (JsMap.set k v m) = Some v.
Proof.
  induction m as [|[k' v'] m IH]; simpl.
  - by rewrite decide_True.
  - destruct (decide (k = k')) as [->|Hne]; simpl.
    + by rewrite decide_True.
    + by rewrite decide_False.
Qed.

Lemma get_set_ne k k' v m : k ≠ k' -> JsMap.get k' (JsMap.set k v m) = JsMap.get k' m.
Proof.
  intros Hne. induction m as [|[k0 v0] m IH]; simpl.
  - rewrite decide_False; [done|congruence].
  - destruct (decide (k = k0)) as [->|Hk]; simpl.
    + by rewrite !decide_False by congruence.
    + destruct (decide (k' = k0)); [done|apply IH].
Qed.

Lemma get_delete_eq k m : JsMap.get k (JsMap.delete k m) = None.
Proof.
  induction m as [|[k' v'] m IH]; simpl; [done|].
  destruct (decide (k = k')) as [->|Hne]; simpl; [done|].
  by rewrite decide_False.
Qed.

Lemma get_delete_ne k k' m : k ≠ k' -> JsMap.get k' (JsMap.delete k m) = JsMap.get k' m.
Proof.
  intros Hne. induction m as [|[k0 v0] m IH]; simpl; [done|].
  destruct (decide (k = k0)) as [->|Hk]; simpl.
  - by rewrite decide_False by congruence.
  - destruct (decide (k' = k0)); [done|apply IH].
Qed.

Lemma get_None_keys k m : JsMap.get k m = None <-> ~ In k (JsMap.keys m).
Proof.
  induction m as [|[k' v'] m IH]; simpl; [tauto|].
  destruct (decide (k = k')) as [->|Hne]; [split; [done|tauto]|].
  rewrite IH. split; [intros Hn [Heq|Hin]; [congruence|tauto] | tauto].
Qed.

Lemma keys_set_fresh k v m :
  JsMap.get k m = None -> JsMap.keys (JsMap.set k v m) = (JsMap.keys m ++ [k])%list.
Proof.
  induction m as [|[k' v'] m IH]; simpl; [done|].
  destruct (decide (k = k')); [done|]. intros Hm. simpl. by rewrite IH.
Qed.
End JsMapFacts.

(** ** Reasoning about synchronous code

    [aspec m a Q]: run from any world whose bridge object is [a], the code
    [m] ends with a completion and a bridge object related by [Q].  The
    rules below follow the structure of the code; the runtime operations
    (promises, timers, the trace) do not touch the bridge object. *)

Section Rules.
Context {A B : Type}.

Lemma aspec_ret (x : A) a Q : Q (Normal x) a -> aspec (mret x) a Q.
Proof. intros HQ w <-. exact HQ. Qed.

Lemma aspec_throw (e : error) a (Q : completion A -> _) : Q (Thrown e) a -> aspec (throw e) a Q.
Proof. intros HQ w <-. exact HQ. Qed.

Lemma aspec_bind (m : M A) (k : A -> M B) a Q :
  aspec m a (fun r a' =>
               match r with
               | Normal x => aspec (k x) a' Q
               | Thrown e => Q (Thrown e) a'
               end) ->
  aspec (m ≫= k) a Q.
Proof.
  intros Hm w Hw. specialize (Hm w Hw).
  unfold mbind, M_bind, bind. destruct (m w) as [[x|e] w']; simpl in *.
  - by apply Hm.
  - exact Hm.
Qed.

Lemma aspec_try_catch (m : M A) (h : error -> M A) a Q :
  aspec m a (fun r a' =>
               match r with
               | Normal x => Q (Normal x) a'
               | Thrown e => aspec (h e) a' Q
               end) ->
  aspec (try_catch m h) a Q.
Proof.
  intros Hm w Hw. specialize (Hm w Hw).
  unfold try_catch. destruct (m w) as [[x|e] w']; simpl in *.
  - exact Hm.
  - by apply Hm.
Qed.

Lemma aspec_conseq (m : M A) a (Q Q' : completion A -> CodexAppServer -> Prop) :
  aspec m a Q' -> (forall r a', Q' r a' -> Q r a') -> aspec m a Q.
Proof. intros Hm HQ w Hw. apply HQ, Hm, Hw. Qed.

Lemma aspec_runtime (m : M A) a Q :
  runtime_only m -> (forall x, Q (Normal x) a) -> aspec m a Q.
Proof.
  intros Hm HQ w <-. destruct (Hm w) as (x & w' & Hmw & Hw').
  rewrite Hmw. simpl. rewrite Hw'. apply HQ.
Qed.

Lemma runtime_only_bind (m : M A) (k : A -> M B) :
  runtime_only m -> (forall x, runtime_only (k x)) -> runtime_only (m ≫= k).
Proof.
  intros Hm Hk w. destruct (Hm w) as (x & w1 & Hx & H1).
  destruct (Hk x w1) as (y & w2 & Hy & H2).
  exists y, w2. unfold mbind, M_bind, bind. rewrite Hx, Hy. split; [done|congruence].
Qed.

Lemma runtime_only_ret (x : A) : runtime_only (mret x).
Proof. intros w. by exists x, w. Qed.
End Rules.

Lemma aspec_this a Q : Q (Normal a) a -> aspec this a Q.
Proof. intros HQ w <-. exact HQ. Qed.

Lemma aspec_update f a Q : Q (Normal tt) (f a) -> aspec (update f) a Q.
Proof. intros HQ w <-. exact HQ. Qed.

Lemma aspec_lift {A} (c : completion A) a Q : Q c a -> aspec (lift c) a Q.
Proof. intros HQ w <-. exact HQ. Qed.

Lemma runtime_only_update_world f :
  (forall w, codexApp (f w) = codexApp w) -> runtime_only (update_world f).
Proof. intros Hf w. by exists tt, (f w). Qed.

Lemma runtime_only_the_world : runtime_only the_world.
Proof. intros w. by exists w, w. Qed.

Lemma runtime_only_emit e : runtime_only (emit e).
Proof. by apply runtime_only_update_world. Qed.

Lemma runtime_only_new_promise : runtime_only new_promise.
Proof. intros w. by eexists _, _. Qed.

Lemma runtime_only_settle p o : runtime_only (settle p o).
Proof.
  intros w. unfold settle.
  destruct (promises w !! p) as [[rs|s]|]; by eexists _, _.
Qed.

Lemma runtime_only_on_settled p f : runtime_only (on_settled p f).
Proof.
  intros w. unfold on_settled.
  destruct (promises w !! p) as [[rs|s]|]; by eexists _, _.
Qed.

Lemma runtime_only_resolve p v : runtime_only (resolve p v).
Proof. apply runtime_only_bind; [apply runtime_only_emit | intros; apply runtime_only_settle]. Qed.

Lemma runtime_only_reject p e : runtime_only (reject p e).
Proof. apply runtime_only_bind; [apply runtime_only_emit | intros; apply runtime_only_settle]. Qed.

Lemma runtime_only_setTimeout cb ms : runtime_only (setTimeout cb ms).
Proof.
  apply runtime_only_bind; [apply runtime_only_the_world | intros w].
  apply runtime_only_bind; [by apply runtime_only_update_world | intros _].
  apply runtime_only_bind; [apply runtime_only_emit | intros _; apply runtime_only_ret].
Qed.

Lemma runtime_only_clearTimeout t : runtime_only (clearTimeout t).
Proof.
  apply runtime_only_bind; [by apply runtime_only_update_world | intros _; apply runtime_only_emit].
Qed.

Lemma runtime_only_waiter_resolve wt v : runtime_only (waiter_resolve wt v).
Proof.
  apply runtime_only_bind; [apply runtime_only_clearTimeout | intros _; apply runtime_only_resolve].
Qed.

Lemma runtime_only_waiter_reject wt e : runtime_only (waiter_reject wt e).
Proof.
  apply runtime_only_bind; [apply runtime_only_clearTimeout | intros _; apply runtime_only_reject].
Qed.

Lemma runtime_only_for_each {A} (l : list A) f :
  (forall x, runtime_only (f x)) -> runtime_only (for_each l f).
Proof.
  intros Hf. induction l as [|x l IH]; simpl.
  - apply runtime_only_ret.
  - apply runtime_only_bind; [apply Hf | intros _; apply IH].
Qed.

Lemma runtime_only_called p : runtime_only (called p).
Proof. by apply runtime_only_update_world. Qed.

Lemma aspec_run_async self body a Q :
  aspec body a (fun _ a' => Q (Normal tt) a') -> aspec (run_async self body) a Q.
Proof.
  intros Hb w Hw. specialize (Hb w Hw). unfold run_async.
  destruct (body w) as [[[v|p k]|e] w']; simpl in *.
  - destruct (runtime_only_resolve self v w') as ([] & w'' & -> & Hw''). simpl. by rewrite Hw''.
  - destruct (runtime_only_on_settled p (self, k) w') as ([] & w'' & -> & Hw''). simpl. by rewrite Hw''.
  - destruct (runtime_only_reject self e w') as ([] & w'' & -> & Hw''). simpl. by rewrite Hw''.
Qed.

Lemma aspec_call_async body a Q :
  aspec body a (fun _ a' => forall p, Q (Normal p) a') -> aspec (call_async body) a Q.
Proof.
  intros Hb. unfold call_async.
  apply aspec_bind, aspec_runtime; [apply runtime_only_new_promise|intros self].
  apply aspec_bind, aspec_run_async.
  eapply aspec_conseq; [exact Hb|]. intros r a' Hr. simpl. by apply aspec_ret.
Qed.

Create HintDb runtime discriminated.
#[global] Hint Resolve runtime_only_emit runtime_only_new_promise runtime_only_settle
  runtime_only_on_settled runtime_only_resolve runtime_only_reject runtime_only_setTimeout
  runtime_only_clearTimeout runtime_only_waiter_resolve runtime_only_waiter_reject
  runtime_only_called runtime_only_ret runtime_only_the_world : runtime.

(** One step of symbolic execution along the structure of the code. *)
Ltac aspec_step :=
  lazymatch goal with
  | |- aspec (mret _) _ _ => apply aspec_ret
  | |- aspec (ret _) _ _ => apply aspec_ret
  | |- aspec skip _ _ => apply aspec_ret
  | |- aspec (throw _) _ _ => apply aspec_throw
  | |- aspec this _ _ => apply aspec_this
  | |- aspec (update _) _ _ => apply aspec_update
  | |- aspec (try_catch _ _) _ _ => apply aspec_try_catch
  | |- aspec (run_async _ _) _ _ => apply aspec_run_async
  | |- aspec (call_async _) _ _ => apply aspec_call_async
  | |- aspec (lift ?c ≫= _) _ _ => apply aspec_bind, aspec_lift; destruct c eqn:?
  | |- aspec (lift ?c) _ _ => apply aspec_lift
  | |- aspec (_ ≫= _) _ _ => apply aspec_bind
  | |- aspec (let _ := _ in _) _ _ => idtac
  | |- aspec (match ?x with _ => _ end) _ _ => destruct x eqn:?
  | |- aspec _ _ _ => apply aspec_runtime; [solve [auto with runtime]|intros ?]
  end; cbv beta iota zeta.

(** ** How the bookkeeping of the bridge evolves

    Four fields carry the properties below: the identifier counter, the
    pending table, the thread bindings and the seeded threads.  Most of
    the code either leaves them alone or goes through [sendRpc] and
    [buildTurnInput], which only add: [evolves a a'] says that [a'] is [a]
    after some allocations of request identifiers and some seedings. *)

Lemma evolves_refl a : evolves a a.
Proof. by split. Qed.

Lemma evolves_trans a b c : evolves a b -> evolves b c -> evolves a c.
Proof.
  intros [] []. split.
  - lia.
  - intros k Hk. rewrite ev_pending_old1 by lia. auto.
  - intros k Hk. rewrite ev_pending_new1 by lia. apply ev_pending_new0. lia.
  - congruence.
  - auto.
Qed.

Lemma evolves_core a b c : evolves a b -> core c = core b -> evolves a c.
Proof.
  intros [] Hc. unfold core in Hc. injection Hc as Hn Hp Ht Hs.
  split; rewrite ?Hn, ?Hp, ?Ht, ?Hs; auto.
Qed.

Lemma set_has_add t x s : set_has t s = true -> set_has t (set_add x s) = true.
Proof.
  intros Ht. unfold set_add. destruct (set_has x s); [done|].
  unfold set_has in *. rewrite existsb_app, Ht. done.
Qed.

Lemma set_has_add_same t s : set_has t (set_add t s) = true.
Proof.
  unfold set_add. destruct (set_has t s) eqn:Ht; [done|].
  unfold set_has. rewrite existsb_app. simpl. rewrite same_value_refl.
  by rewrite orb_true_r.
Qed.

Lemma evolves_allocate a wt :
  evolves a (set_pending (JsMap.set (nextId a) wt (pending a)) (set_nextId (nextId a + 1) a)).
Proof.
  split; simpl; try done.
  - lia.
  - intros k Hk. apply get_set_ne. lia.
  - intros k Hk. apply get_set_ne. lia.
Qed.

Lemma evolves_seed a t :
  evolves a (set_seededThreads (set_add t (seededThreads a)) a).
Proof. split; simpl; try done. intros t'. apply set_has_add. Qed.

Section KeepsRules.
Context {A B : Type}.

Lemma keeps_aspec (m : M A) a : keeps m -> aspec m a (fun _ a' => evolves a a').
Proof. intros Hm. apply Hm, evolves_refl. Qed.

Lemma keeps_runtime (m : M A) : runtime_only m -> keeps m.
Proof. intros Hm a0 a Hev. apply aspec_runtime; auto. Qed.

Lemma keeps_ret (x : A) : keeps (mret x).
Proof. intros a0 a Hev. by apply aspec_ret. Qed.

Lemma keeps_throw (e : error) : keeps (throw (A := A) e).
Proof. intros a0 a Hev. by apply aspec_throw. Qed.

Lemma keeps_bind (m : M A) (k : A -> M B) :
  keeps m -> (forall x, keeps (k x)) -> keeps (m ≫= k).
Proof.
  intros Hm Hk a0 a Hev. apply aspec_bind.
  eapply aspec_conseq; [by apply Hm|]. intros [x|e] a' Hev'; [by apply Hk|done].
Qed.

Lemma keeps_try_catch (m : M A) (h : error -> M A) :
  keeps m -> (forall e, keeps (h e)) -> keeps (try_catch m h).
Proof.
  intros Hm Hh a0 a Hev. apply aspec_try_catch.
  eapply aspec_conseq; [by apply Hm|]. intros [x|e] a' Hev'; [done|by apply Hh].
Qed.
End KeepsRules.

Lemma keeps_this : keeps this.
Proof. intros a0 a Hev. by apply aspec_this. Qed.

Lemma keeps_update f : (forall a, evolves a (f a)) -> keeps (update f).
Proof.
  intros Hf a0 a Hev. apply aspec_update. eapply evolves_trans; [exact Hev|apply Hf].
Qed.

Lemma keeps_update_core f : (forall a, core (f a) = core a) -> keeps (update f).
Proof.
  intros Hf. apply keeps_update. intros a. eapply evolves_core; [apply evolves_refl|apply Hf].
Qed.

Lemma keeps_run_async self body : keeps body -> keeps (run_async self body).
Proof. intros Hb a0 a Hev. apply aspec_run_async. by apply Hb. Qed.

Lemma keeps_call_async body : keeps body -> keeps (call_async body).
Proof.
  intros Hb a0 a Hev. apply aspec_call_async.
  eapply aspec_conseq; [by apply Hb|]. by intros.
Qed.

Create HintDb keeps discriminated.
#[global] Hint Resolve keeps_ret keeps_throw keeps_this keeps_run_async keeps_call_async : keeps.
#[global] Hint Extern 1 (keeps (update _)) => apply keeps_update_core; reflexivity : keeps.
#[global] Hint Extern 5 (keeps _) => apply keeps_runtime; solve [auto with runtime] : keeps.

(** Following the structure of a function body. *)
Ltac keeps_step :=
  lazymatch goal with
  | |- keeps (_ ≫= _) => apply keeps_bind; [|intros ?]
  | |- keeps (try_catch _ _) => apply keeps_try_catch; [|intros ?]
  | |- keeps (call_async _) => apply keeps_call_async
  | |- keeps (run_async _ _) => apply keeps_run_async
  | |- keeps (match ?x with _ => _ end) => destruct x
  | |- keeps (let _ := _ in _) => cbv zeta
  | |- keeps skip => apply keeps_ret
  | |- keeps _ => solve [eauto with keeps]
  end.
Ltac keeps_go := repeat keeps_step.

Section Keeps.
Context (E : env).

Lemma write_keeps message : keeps (write message).
Proof. unfold write. keeps_go. Qed.
Hint Resolve write_keeps : keeps.

Lemma sendRpc_keeps method params ms : keeps (sendRpc method params ms).
Proof.
  intros a0 a Hev. unfold sendRpc.
  repeat aspec_step. simpl.
  eapply aspec_conseq; [apply write_keeps|].
  { eapply evolves_trans; [exact Hev|apply evolves_allocate]. }
  intros [[]|e] a' Hev'; simpl; repeat aspec_step; exact Hev'.
Qed.
Hint Resolve sendRpc_keeps : keeps.

Lemma sendNotification_keeps method params : keeps (sendNotification method params).
Proof. apply write_keeps. Qed.
Hint Resolve sendNotification_keeps : keeps.

Lemma finishTurn_keeps : keeps finishTurn.
Proof. unfold finishTurn. keeps_go. Qed.
Hint Resolve finishTurn_keeps : keeps.

Lemma update_turn_keeps f : keeps (update_turn f).
Proof. unfold update_turn. keeps_go. Qed.
Hint Resolve update_turn_keeps : keeps.

Lemma handleNotification_keeps method params : keeps (handleNotification E method params).
Proof. unfold handleNotification. keeps_go. Qed.
Hint Resolve handleNotification_keeps : keeps.

Lemma on_stderr_data_keeps message : keeps (on_stderr_data message).
Proof. unfold on_stderr_data. keeps_go. Qed.

Lemma readCodexContext_keeps : keeps (readCodexContext E).
Proof.
  unfold readCodexContext. keeps_go.
Qed.
Hint Resolve readCodexContext_keeps : keeps.

Lemma buildTurnInput_keeps prompt threadId : keeps (buildTurnInput E prompt threadId).
Proof.
  unfold buildTurnInput. keeps_go.
  all: try (apply keeps_update; intros a; apply evolves_seed).
Qed.
Hint Resolve buildTurnInput_keeps : keeps.

Lemma start_keeps : keeps start.
Proof.
  unfold start. keeps_go.
  all: try (apply keeps_runtime; by apply runtime_only_update_world).
Qed.
Hint Resolve start_keeps : keeps.

Lemma ensureStarted_keeps : keeps ensureStarted.
Proof. unfold ensureStarted. keeps_go. Qed.
Hint Resolve ensureStarted_keeps : keeps.

Lemma ensureLoggedIn_keeps : keeps (ensureLoggedIn E).
Proof. unfold ensureLoggedIn. keeps_go. Qed.
Hint Resolve ensureLoggedIn_keeps : keeps.

Lemma getThreadId_keeps cwd : keeps (getThreadId E cwd).
Proof. unfold getThreadId. keeps_go. Qed.
Hint Resolve getThreadId_keeps : keeps.

Lemma runTurn_keeps prompt cwd : keeps (runTurn prompt cwd).
Proof. unfold runTurn. keeps_go. Qed.
Hint Resolve runTurn_keeps : keeps.

Lemma sendCodexPrompt_keeps prompt cwd : keeps (sendCodexPrompt prompt cwd).
Proof.
  unfold sendCodexPrompt, then_. keeps_go.
  all: try (apply keeps_runtime; by apply runtime_only_update_world).
Qed.

Lemma on_child_error_keeps n e : keeps (on_child_error n e).
Proof. unfold on_child_error. keeps_go. Qed.

Lemma on_child_spawn_keeps n : keeps (on_child_spawn E n).
Proof.
  unfold on_child_spawn. keeps_go.
  all: try (apply keeps_runtime; by apply runtime_only_update_world).
Qed.

Lemma login_timed_out_keeps p : keeps (login_timed_out p).
Proof. unfold login_timed_out. keeps_go. Qed.

Lemma turn_timed_out_keeps p : keeps (turn_timed_out p).
Proof. unfold turn_timed_out. keeps_go. Qed.

(** Every resumption but the one of [getThreadId]. *)
Lemma resume_keeps k o :
  (forall cwd, k <> KThreadStarted cwd) -> keeps (resume E k o).
Proof.
  intros Hk. destruct k; simpl;
    unfold ensureStarted_joined, ensureStarted_owner, start_initialized, start_logged_in,
      ensureLoggedIn_account_read, ensureLoggedIn_login_started, ensureLoggedIn_completed,
      runTurn_started, runTurn_thread, runTurn_turn_started, queue_then, queue_catch,
      object_of, Promise_resolve;
    try (by destruct (Hk cwd)); keeps_go.
  all: try (apply keeps_runtime; by apply runtime_only_update_world).
Qed.
End Keeps.

(** ** The four pieces of code that do more than [evolves] *)

#[global] Hint Resolve runtime_only_for_each : runtime.

Section Special.
Context (E : env).

Lemma reset_cleared a : aspec reset a (fun r a' => r = Normal tt /\ cleared a a').
Proof.
  unfold reset. repeat aspec_step; unfold cleared; simpl in *; repeat split; done.
Qed.

Lemma rpc_timed_out_removes id method p a :
  aspec (rpc_timed_out id method p) a (fun r a' => r = Normal tt /\ removes id a a').
Proof.
  unfold rpc_timed_out. repeat aspec_step; unfold removes; simpl in *;
    repeat match goal with x : unit |- _ => destruct x end; repeat split; done.
Qed.

Lemma handleLine_core parsed a :
  aspec (handleLine E parsed) a (fun _ a' =>
    evolves a a' \/
    exists message k, parsed = Some message /\ Js.get message "id" = Some (JNum k) /\
                      removes k a a').
Proof.
  unfold handleLine.
  destruct parsed as [message|]; [|aspec_step; left; apply evolves_refl].
  destruct (decide (message = JNull)) as [->|Hnn].
  { aspec_step. left. apply evolves_refl. }
  assert (forall k, Js.get message "id" = Some (JNum k) ->
    aspec
      (a1 ← this;
       match JsMap.get k (pending a1) with
       | Some entry =>
           update (fun a2 => set_pending (JsMap.delete k (pending a2)) a2);;
           (let error := Js.get message "error" in
            if Js.truthy error
            then
              text ← lift (ToString (Js.or_else (Js.get_opt error "message") (JStr "Codex error")));
              waiter_reject entry (Error text)
            else waiter_resolve entry (Js.or (Js.get message "result") (Some (JObj []))))
       | None => skip
       end) a
      (fun _ a' => evolves a a' \/
         exists message0 k0, Some message = Some message0 /\
           Js.get message0 "id" = Some (JNum k0) /\ removes k0 a a')) as Hresp.
  { intros k Hk. repeat aspec_step; simpl;
      first [ left; apply evolves_refl
            | right; exists message, k; by repeat split ]. }
  assert (aspec
      (match Js.get message "method" with
       | Some method =>
           if Js.truthy (Some method)
           then handleNotification E method
                  match Js.or (Js.get message "params") (Some (JObj [])) with
                  | Some params => params
                  | None => JObj []
                  end
           else skip
       | None => skip
       end) a
      (fun _ a' => evolves a a' \/
         exists message0 k0, Some message = Some message0 /\
           Js.get message0 "id" = Some (JNum k0) /\ removes k0 a a')) as Hnotif.
  { destruct (Js.get message "method") as [method|]; [|aspec_step; left; apply evolves_refl].
    destruct (Js.truthy (Some method)); [|aspec_step; left; apply evolves_refl].
    eapply aspec_conseq; [apply keeps_aspec, handleNotification_keeps|]. by left. }
  destruct message; try done; destruct (Js.get _ "id") as [[]|] eqn:Hid; auto.
Qed.

Lemma getThreadId_started_core cwd o a :
  aspec (getThreadId_started cwd o) a (fun _ a' =>
    evolves a a' \/ exists v t, o = Fulfilled v /\ binds cwd t a a').
Proof.
  unfold getThreadId_started, object_of.
  repeat aspec_step; simpl;
    first [ left; apply evolves_refl
          | right; eexists _, _; split; [reflexivity|];
            repeat split; by apply negb_false_iff ].
Qed.
End Special.

#[global] Hint Resolve write_keeps sendRpc_keeps sendNotification_keeps finishTurn_keeps
  update_turn_keeps handleNotification_keeps on_stderr_data_keeps readCodexContext_keeps
  buildTurnInput_keeps start_keeps ensureStarted_keeps ensureLoggedIn_keeps getThreadId_keeps
  runTurn_keeps sendCodexPrompt_keeps on_child_error_keeps on_child_spawn_keeps
  login_timed_out_keeps turn_timed_out_keeps : keeps.

(** ** What one step of the event loop does to the bookkeeping *)

Lemma aspec_exec {A} (m : M A) w Q :
  aspec m (codexApp w) Q -> Q (result m w) (codexApp (exec m w)).
Proof. intros Hm. by apply Hm. Qed.

Section Steps.
Context (E : env).

Lemma fire_timer_eq t w :
  fire_timer t w =
  match timers w !! t with
  | Some (Some cb) => run_callback cb (set_timers (<[t := None]> (timers w)) w)
  | _ => (Normal tt, w)
  end.
Proof.
  unfold fire_timer, mbind, M_bind, bind, the_world, update_world. simpl.
  by destruct (timers w !! t) as [[cb|]|].
Qed.

Lemma run_microtask_eq w :
  run_microtask E w =
  match microtasks w with
  | [] => (Normal tt, w)
  | (self, k, o) :: rest => run_async self (resume E k o) (set_microtasks rest w)
  end.
Proof.
  unfold run_microtask, mbind, M_bind, bind, the_world, update_world. simpl.
  by destruct (microtasks w) as [|[[self k] o] rest].
Qed.

Lemma step_core o w : step_kind w o (codexApp w) (codexApp (exec (step E o) w)).
Proof.
  destruct o as [prompt cwd| |n|n e|n|parsed|chunk|t|]; simpl.
  - apply StepEvolves. apply (aspec_exec _ w (fun _ a' => evolves (codexApp w) a')).
    apply keeps_aspec. keeps_go.
  - apply StepEvolves. apply (aspec_exec _ w (fun _ a' => evolves (codexApp w) a')).
    apply keeps_aspec. keeps_go.
  - apply StepEvolves. apply (aspec_exec _ w (fun _ a' => evolves (codexApp w) a')).
    apply keeps_aspec. auto with keeps.
  - apply StepEvolves. apply (aspec_exec _ w (fun _ a' => evolves (codexApp w) a')).
    apply keeps_aspec. auto with keeps.
  - apply (aspec_exec _ w (fun _ a' => step_kind w (OpChildClose n) (codexApp w) a')).
    unfold on_child_close. repeat aspec_step; try (apply StepEvolves, evolves_refl).
    eapply aspec_conseq; [apply reset_cleared|]. intros r a' [_ Hc]. by eapply StepClose.
  - apply (aspec_exec _ w (fun _ a' => step_kind w (OpStdoutLine parsed) (codexApp w) a')).
    repeat aspec_step; try (apply StepEvolves, evolves_refl).
    eapply aspec_conseq; [apply handleLine_core|].
    intros r a' [Hev|(message & k & -> & Hid & Hrem)];
      [by apply StepEvolves|by eapply StepResponse].
  - apply StepEvolves. apply (aspec_exec _ w (fun _ a' => evolves (codexApp w) a')).
    apply keeps_aspec. keeps_go.
  - unfold exec. rewrite fire_timer_eq.
    destruct (timers w !! t) as [[cb|]|] eqn:Ht; simpl;
      try (apply StepEvolves, evolves_refl).
    set (w1 := set_timers (<[t := None]> (timers w)) w).
    change (codexApp w) with (codexApp w1).
    destruct cb as [k method p|p|p]; simpl.
    + eapply StepRpcTimeout; [done|exact Ht|].
      apply (aspec_exec _ w1 (fun _ a' => removes k (codexApp w1) a')).
      eapply aspec_conseq; [apply rpc_timed_out_removes|]. by intros ? ? [].
    + apply StepEvolves.
      apply (aspec_exec _ w1 (fun _ a' => evolves (codexApp w1) a')), keeps_aspec.
      auto with keeps.
    + apply StepEvolves.
      apply (aspec_exec _ w1 (fun _ a' => evolves (codexApp w1) a')), keeps_aspec.
      auto with keeps.
  - unfold exec. rewrite run_microtask_eq.
    destruct (microtasks w) as [|[[self k] o] rest] eqn:Hq; simpl;
      [apply StepEvolves, evolves_refl|].
    set (w1 := set_microtasks rest w).
    change (codexApp w) with (codexApp w1).
    apply (aspec_exec _ w1 (fun _ a' => step_kind w OpMicrotask (codexApp w1) a')).
    apply aspec_run_async.
    assert ((exists cwd, k = KThreadStarted cwd) \/ forall cwd, k <> KThreadStarted cwd)
      as [[cwd ->]|Hk] by (destruct k; eauto; right; congruence).
    + simpl. eapply aspec_conseq; [apply getThreadId_started_core|].
      intros r a' [Hev|(v & t & -> & Hb)]; [by apply StepEvolves|by eapply StepThread].
    + eapply aspec_conseq; [by apply keeps_aspec, resume_keeps|].
      intros r a' Hev. by apply StepEvolves.
Qed.
End Steps.

(** ** Rejecting a list of waiters *)

Lemma app_blind_bind {A B} (m : M A) (k : A -> M B) :
  app_blind m -> (forall x, app_blind (k x)) -> app_blind (m ≫= k).
Proof.
  intros Hm Hk a w. unfold mbind, M_bind, bind. rewrite Hm.
  destruct (m w) as [[x|e] w']; simpl; [apply Hk|done].
Qed.

Lemma app_blind_settle p o : app_blind (settle p o).
Proof. intros a w. unfold settle. simpl. by destruct (promises w !! p) as [[|]|]. Qed.

Lemma app_blind_waiter_reject wt e : app_blind (waiter_reject wt e).
Proof.
  unfold waiter_reject, clearTimeout, reject, emit.
  repeat (apply app_blind_bind; [|intros ?]); try apply app_blind_settle; by intros a w.
Qed.

Lemma app_blind_reject_all l e : app_blind (reject_all l e).
Proof.
  induction l as [|wt l IH]; [by intros a w|].
  apply app_blind_bind; [apply app_blind_waiter_reject|intros _; apply IH].
Qed.

Lemma waiter_reject_world wt e w :
  exists w', waiter_reject wt e w = (Normal tt, w') /\
    codexApp w' = codexApp w /\
    trace w' = (trace w ++ reject_effects e wt)%list /\
    (forall p s, promises w !! p = Some (Settled s) -> promises w' !! p = Some (Settled s)) /\
    (forall rs, promises w !! w_promise wt = Some (Pending rs) ->
                promises w' !! w_promise wt = Some (Settled (Rejected e))) /\
    (forall p rs, p <> w_promise wt -> promises w !! p = Some (Pending rs) ->
                promises w' !! p = Some (Pending rs)).
Proof.
  unfold waiter_reject, clearTimeout, reject, emit, update_world, settle, reject_effects,
    mbind, M_bind, bind. simpl.
  destruct (promises w !! w_promise wt) as [[rs|s]|] eqn:Hp; simpl;
    eexists; (split; [reflexivity|]); simpl; rewrite <- ?app_assoc; simpl;
    repeat split; try done.
  - intros p s Hs. rewrite list_lookup_insert_ne; [done|].
    intros Heq. rewrite Heq in Hp. rewrite Hp in Hs. discriminate.
  - intros rs' _. apply list_lookup_insert_eq. by eapply lookup_lt_Some.
  - intros p rs' Hne Hq. by rewrite list_lookup_insert_ne.
Qed.

Lemma reject_all_world l e w :
  exists w', reject_all l e w = (Normal tt, w') /\
    codexApp w' = codexApp w /\
    trace w' = (trace w ++ flat_map (reject_effects e) l)%list /\
    (forall p s, promises w !! p = Some (Settled s) -> promises w' !! p = Some (Settled s)) /\
    (forall wt rs, In wt l -> promises w !! w_promise wt = Some (Pending rs) ->
                   promises w' !! w_promise wt = Some (Settled (Rejected e))).
Proof.
  revert w. induction l as [|wt l IH]; intros w.
  - exists w. simpl. rewrite app_nil_r. by repeat split.
  - destruct (waiter_reject_world wt e w) as (w1 & Hrun1 & Happ1 & Htr1 & Hset1 & Hrej1 & Hpen1).
    destruct (IH w1) as (w2 & Hrun2 & Happ2 & Htr2 & Hset2 & Hrej2).
    exists w2. unfold reject_all in *. simpl. unfold mbind, M_bind, bind. rewrite Hrun1, Hrun2.
    repeat split.
    + congruence.
    + rewrite Htr2, Htr1. by rewrite <- app_assoc.
    + auto.
    + intros wt' rs [->|Hin] Hp.
      * eapply Hset2, Hrej1, Hp.
      * destruct (decide (w_promise wt' = w_promise wt)) as [Heq|Hne].
        -- rewrite Heq in *. eapply Hset2, Hrej1, Hp.
        -- eapply Hrej2; [done|]. by apply Hpen1.
Qed.

(** ** [reset] in one equation *)

Lemma reject_all_app l1 l2 e w :
  reject_all (l1 ++ l2) e w = (reject_all l1 e;; reject_all l2 e) w.
Proof.
  revert w. induction l1 as [|wt l1 IH]; intros w; [done|].
  unfold reject_all in *. simpl. unfold mbind, M_bind, bind in *.
  destruct (waiter_reject wt e w) as [[[]|err] w1] eqn:Hw; [|done].
  apply IH.
Qed.

Lemma waiter_reject_blind wt e a w :
  waiter_reject wt e (set_codexApp a w) = (Normal tt, set_codexApp a (exec (waiter_reject wt e) w)).
Proof.
  rewrite app_blind_waiter_reject. unfold exec.
  destruct (waiter_reject_world wt e w) as (w1 & -> & _). done.
Qed.

Lemma reject_all_blind l e a w :
  reject_all l e (set_codexApp a w) = (Normal tt, set_codexApp a (exec (reject_all l e) w)).
Proof.
  rewrite app_blind_reject_all. unfold exec.
  destruct (reject_all_world l e w) as (w1 & -> & _). done.
Qed.

Lemma reject_all_normal l e w : reject_all l e w = (Normal tt, exec (reject_all l e) w).
Proof. unfold exec. destruct (reject_all_world l e w) as (w1 & -> & _). done. Qed.

Lemma exec_reject_all_app l1 l2 e w :
  exec (reject_all (l1 ++ l2) e) w = exec (reject_all l2 e) (exec (reject_all l1 e) w).
Proof.
  unfold exec at 1. rewrite reject_all_app. unfold mbind, M_bind, bind.
  by rewrite reject_all_normal.
Qed.

Lemma exec_reject_all_one wt e w : exec (reject_all [wt] e) w = exec (waiter_reject wt e) w.
Proof.
  unfold exec, reject_all. simpl. unfold mbind, M_bind, bind.
  destruct (waiter_reject_world wt e w) as (w1 & -> & _). done.
Qed.

Lemma exec_reject_all_nil e w : exec (reject_all [] e) w = w.
Proof. done. Qed.

Lemma set_codexApp_twice a b w : set_codexApp a (set_codexApp b w) = set_codexApp a w.
Proof. done. Qed.

Lemma set_codexApp_id w : set_codexApp (codexApp w) w = w.
Proof. by destruct w. Qed.

Section RunRules.
Context {B : Type} (k : unit -> M B).

Lemma run_update f a w :
  (update f ≫= k) (set_codexApp a w) = k tt (set_codexApp (f a) w).
Proof. done. Qed.

Lemma run_emit e a w :
  (emit e ≫= k) (set_codexApp a w) = k tt (set_codexApp a (set_trace (trace w ++ [e]) w)).
Proof. done. Qed.

Lemma run_skip w : (skip ≫= k) w = k tt w.
Proof. done. Qed.

Lemma run_for_each_reject l e a w :
  (for_each l (fun wt => waiter_reject wt e) ≫= k) (set_codexApp a w) =
  k tt (set_codexApp a (exec (reject_all l e) w)).
Proof.
  fold (reject_all l e). unfold mbind, M_bind, bind. by rewrite reject_all_blind.
Qed.

Lemma run_waiter_reject wt e a w :
  (waiter_reject wt e ≫= k) (set_codexApp a w) =
  k tt (set_codexApp a (exec (waiter_reject wt e) w)).
Proof. unfold mbind, M_bind, bind. by rewrite waiter_reject_blind. Qed.
End RunRules.

Lemma run_this {B} (k : CodexAppServer -> M B) a w :
  (this ≫= k) (set_codexApp a w) = k a (set_codexApp a w).
Proof. done. Qed.

Lemma run_assoc {A B C} (m : M A) (k1 : A -> M B) (k2 : B -> M C) w :
  ((m ≫= k1) ≫= k2) w = (m ≫= fun x => k1 x ≫= k2) w.
Proof. unfold mbind, M_bind, bind. by destruct (m w) as [[x|e] w']. Qed.

Ltac run_step :=
  first [ rewrite run_assoc | rewrite run_update | rewrite run_this | rewrite run_emit | rewrite run_skip
        | rewrite run_for_each_reject | rewrite run_waiter_reject ]; cbv beta.

Lemma set_codexApp_ext a a' w :
  a = a' -> (Normal tt, set_codexApp a w) = (Normal tt, set_codexApp a' w).
Proof. by intros ->. Qed.

Lemma reset_eq w :
  reset w =
  (Normal tt,
   set_codexApp (reset_app (codexApp w))
     (exec (reject_all (all_waiters (codexApp w)) exited) (close_rl w))).
Proof.
  unfold all_waiters, close_rl. rewrite !exec_reject_all_app.
  rewrite <- (set_codexApp_id w) at 1. generalize (codexApp w) as a. intros a.
  unfold reset. do 2 run_step. cbn [rl set_proc].
  destruct (rl a) as [r|]; repeat run_step;
    cbn [currentTurn pending set_pending set_seededThreads set_threadByCwd
           set_startupStderr set_rl set_proc];
    destruct (currentTurn a) as [t|] eqn:Hct; repeat run_step;
    cbn [loginWaiter set_currentTurn set_pending set_seededThreads set_threadByCwd
           set_startupStderr set_rl set_proc];
    destruct (loginWaiter a) as [lw|] eqn:Hlw; repeat run_step;
    simpl option_list; rewrite ?exec_reject_all_one, ?exec_reject_all_nil;
    unfold update, skip, ret; rewrite ?set_codexApp_twice;
    apply set_codexApp_ext; unfold reset_app; destruct a; simpl in *; by subst.
Qed.

Section Runs.
Context (E : env).

Lemma sendRpc_run method params ms w :
  let a := codexApp w in
  let p := List.length (promises w) in
  let t := List.length (timers w) in
  let id := nextId a in
  let w' := exec (sendRpc method params ms) w in
  result (sendRpc method params ms) w = Normal p /\
  codexApp w' =
    set_pending (JsMap.set id {| w_promise := p; w_timer := t |} (pending a))
      (set_nextId (id + 1) a) /\
  trace w' =
    (trace w ++
     ESetTimeout t (RpcTimedOut id method p) ms ::
     match proc a with
     | Some _ => [EWrite (JObj [("method", JStr method); ("id", JNum id); ("params", params)])]
     | None => [EReject p (Error "Codex app-server not running.")]
     end)%list /\
  timers w' = (timers w ++ [Some (RpcTimedOut id method p)])%list /\
  promises w' !! p =
    Some (match proc a with
          | Some _ => Pending []
          | None => Settled (Rejected (Error "Codex app-server not running."))
          end).
Proof.
  destruct w as [a q warned ps ts ms' cs callers tr].
  destruct a as [pr r n pend th sd ct st se lw].
  unfold result, exec, sendRpc, write, try_catch, setTimeout, reject, emit, settle, new_promise,
    update, update_world, this, the_world, throw, mbind, M_bind, bind, mret, M_ret, ret.
  destruct pr as [c|]; cbn.
  - rewrite <- app_assoc. repeat split; try done. by rewrite list_lookup_middle.
  - rewrite list_lookup_middle by done. cbn. rewrite <- app_assoc.
    repeat split; try done.
    rewrite list_lookup_insert_eq; [done|]. rewrite length_app. simpl. lia.
Qed.
End Runs.

(** ** Invariants along a run *)

Lemma steps_snoc E os o w : steps E (os ++ [o]) w = exec (step E o) (steps E os w).
Proof. unfold steps. by rewrite fold_left_app. Qed.

Lemma steps_app E os1 os2 w : steps E (os1 ++ os2) w = steps E os2 (steps E os1 w).
Proof. unfold steps. by rewrite fold_left_app. Qed.

Lemma reachable_ind E (P : world -> Prop) :
  P initial_world ->
  (forall w o, reachable E w -> P w -> P (exec (step E o) w)) ->
  forall w, reachable E w -> P w.
Proof.
  intros H0 Hstep w [os ->].
  induction os as [|o os IH] using rev_ind; [exact H0|].
  rewrite steps_snoc. apply Hstep; [by exists os|exact IH].
Qed.

Lemma reachable_step E w o : reachable E w -> reachable E (exec (step E o) w).
Proof. intros [os ->]. exists (os ++ [o])%list. by rewrite steps_snoc. Qed.

Lemma reachable_steps E w os : reachable E w -> reachable E (steps E os w).
Proof. intros [os0 ->]. exists (os0 ++ os)%list. by rewrite steps_app. Qed.

Section Invariants.
Context (E : env).

Lemma step_nextId o w : nextId (codexApp w) <= nextId (codexApp (exec (step E o) w)).
Proof.
  destruct (step_core E o w) as [[]|? ? _ _ (-> & _)|? ? ? ? _ _ (-> & _)|? _ (-> & _)
                                |? ? ? ? ? _ _ (-> & _)]; lia.
Qed.

Lemma steps_nextId os w : nextId (codexApp w) <= nextId (codexApp (steps E os w)).
Proof.
  induction os as [|o os IH] using rev_ind; [simpl; lia|].
  rewrite steps_snoc. pose proof (step_nextId o (steps E os w)). lia.
Qed.

Lemma step_well_numbered o w :
  well_numbered (codexApp w) -> well_numbered (codexApp (exec (step E o) w)).
Proof.
  intros Hw k Hk.
  destruct (step_core E o w) as [Hev|m k0 _ _ (Hn & _ & _ & Hp)|t k0 method p _ _ (Hn & _ & _ & Hp)
                                |n _ (_ & Hp & _)|self cwd v rest t _ _ (Hn & Hp & _)].
  - rewrite (ev_pending_new _ _ Hev) by done. apply Hw.
    pose proof (ev_nextId _ _ Hev). lia.
  - rewrite Hp. destruct (decide (k0 = k)) as [->|Hne]; [apply get_delete_eq|].
    rewrite get_delete_ne by done. apply Hw. lia.
  - rewrite Hp. destruct (decide (k0 = k)) as [->|Hne]; [apply get_delete_eq|].
    rewrite get_delete_ne by done. apply Hw. lia.
  - by rewrite Hp.
  - rewrite Hp. apply Hw. lia.
Qed.


Lemma reachable_well_numbered w : reachable E w -> well_numbered (codexApp w).
Proof.
  revert w. apply reachable_ind.
  - by intros k _.
  - intros w o _. apply step_well_numbered.
Qed.


(** A pending entry disappears only through a response carrying its
    identifier, its time-out, or the exit of the subprocess. *)
Lemma step_removal o w k entry :
  well_numbered (codexApp w) ->
  JsMap.get k (pending (codexApp w)) = Some entry ->
  JsMap.get k (pending (codexApp (exec (step E o) w))) = None ->
  (exists message, o = OpStdoutLine (Some message) /\ Js.get message "id" = Some (JNum k)) \/
  (exists t method p, o = OpTimer t /\ timers w !! t = Some (Some (RpcTimedOut k method p))) \/
  (exists n, o = OpChildClose n).
Proof.
  intros Hw Hk Hk'.
  assert (k < nextId (codexApp w)) as Hlt.
  { destruct (Z.lt_ge_cases k (nextId (codexApp w))) as [|Hge]; [done|].
    rewrite (Hw k Hge) in Hk. discriminate. }
  destruct (step_core E o w) as [Hev|m k0 -> Hid (_ & _ & _ & Hp)|t k0 method p -> Ht (_ & _ & _ & Hp)
                                |n -> _|self cwd v rest t _ _ (_ & Hp & _)].
  - rewrite (ev_pending_old _ _ Hev) in Hk' by done. congruence.
  - left. exists m. split; [done|].
    destruct (decide (k0 = k)) as [->|Hne]; [done|].
    rewrite Hp, get_delete_ne in Hk' by done. congruence.
  - right; left. exists t, method, p. split; [done|].
    destruct (decide (k0 = k)) as [->|Hne]; [done|].
    rewrite Hp, get_delete_ne in Hk' by done. congruence.
  - right; right. by exists n.
  - rewrite Hp in Hk'. congruence.
Qed.

(** Identifiers below a bound that are not pending stay not pending:
    a new entry always takes the current value of the counter. *)
Lemma steps_old_ids os w k :
  k < nextId (codexApp w) ->
  JsMap.get k (pending (codexApp w)) = None ->
  JsMap.get k (pending (codexApp (steps E os w))) = None.
Proof.
  intros Hlt Hk. induction os as [|o os IH] using rev_ind; [done|].
  rewrite steps_snoc. set (w1 := steps E os w) in *.
  assert (k < nextId (codexApp w1)) as Hlt1
    by (pose proof (steps_nextId os w); unfold w1; lia).
  destruct (step_core E o w1) as [Hev|m k0 _ _ (_ & _ & _ & Hp)|t k0 method p _ _ (_ & _ & _ & Hp)
                                 |n _ (_ & Hp & _)|self cwd v rest t _ _ (_ & Hp & _)].
  - by rewrite (ev_pending_old _ _ Hev).
  - rewrite Hp. destruct (decide (k0 = k)) as [->|Hne]; [apply get_delete_eq|].
    by rewrite get_delete_ne.
  - rewrite Hp. destruct (decide (k0 = k)) as [->|Hne]; [apply get_delete_eq|].
    by rewrite get_delete_ne.
  - by rewrite Hp.
  - by rewrite Hp.
Qed.

(** A seeded thread stays seeded until the subprocess exits. *)
Lemma step_seeded o w t :
  (forall n, o <> OpChildClose n) ->
  set_has t (seededThreads (codexApp w)) = true ->
  set_has t (seededThreads (codexApp (exec (step E o) w))) = true.
Proof.
  intros Ho Ht.
  destruct (step_core E o w) as [Hev|m k0 _ _ (_ & _ & Hp & _)|t' k0 method p _ _ (_ & _ & Hp & _)
                                |n -> _|self cwd v rest t' _ _ (_ & _ & Hp & _)].
  - by apply (ev_seeded _ _ Hev).
  - by rewrite Hp.
  - by rewrite Hp.
  - by destruct (Ho n).
  - by rewrite Hp.
Qed.

Lemma steps_seeded os w t :
  Forall (fun o => forall n, o <> OpChildClose n) os ->
  set_has t (seededThreads (codexApp w)) = true ->
  set_has t (seededThreads (codexApp (steps E os w))) = true.
Proof.
  intros Hos Ht. induction os as [|o os IH] using rev_ind; [done|].
  apply Forall_app in Hos as [Hos Ho]. apply Forall_cons_1 in Ho as [Ho _].
  rewrite steps_snoc. apply step_seeded; auto.
Qed.

End Invariants.

(** ** Responses and time-outs, step by step *)

Section Correlation.
Context (E : env).

Lemma handleLine_response message k entry w :
  Js.get message "id" = Some (JNum k) ->
  JsMap.get k (pending (codexApp w)) = Some entry ->
  handleLine E (Some message) w = settle_response message entry (remove_pending k w).
Proof.
  intros Hid Hk. destruct message; try discriminate.
  unfold handleLine. rewrite Hid.
  unfold mbind, M_bind, bind, this. simpl. by rewrite Hk.
Qed.

Lemma handleLine_unmatched message k w :
  Js.get message "id" = Some (JNum k) ->
  JsMap.get k (pending (codexApp w)) = None ->
  handleLine E (Some message) w = (Normal tt, w).
Proof.
  intros Hid Hk. destruct message; try discriminate.
  unfold handleLine. rewrite Hid.
  unfold mbind, M_bind, bind, this. simpl. by rewrite Hk.
Qed.

Lemma rpc_timed_out_run k method p w :
  rpc_timed_out k method p w =
  reject p (timeout_error method (codexApp w)) (remove_pending k w).
Proof.
  unfold rpc_timed_out, timeout_error, remove_pending, mbind, M_bind, bind, update, this. simpl.
  by destruct (_ && _).
Qed.

Lemma settle_response_app message entry w :
  codexApp (exec (settle_response message entry) w) = codexApp w.
Proof.
  unfold settle_response, exec.
  destruct (Js.truthy _).
  - unfold mbind, M_bind, bind, lift. destruct (ToString _) as [text|e]; [|done].
    destruct (runtime_only_waiter_reject entry (Error text) w) as (x & w' & -> & Hw). done.
  - destruct (runtime_only_waiter_resolve entry
      (Js.or (Js.get message "result") (Some (JObj []))) w) as (x & w' & -> & Hw). done.
Qed.
End Correlation.

(** ** The seed of a thread *)

Lemma runtime_only_warned b : runtime_only (update_world (set_codexContextWarningLogged b)).
Proof. by apply runtime_only_update_world. Qed.
#[global] Hint Resolve runtime_only_warned : runtime.

Section Seed.
Context (E : env).

Lemma readCodexContext_spec a :
  aspec (readCodexContext E) a (fun r a' => r = Normal (codex_context E) /\ a' = a).
Proof.
  unfold readCodexContext, codex_context.
  repeat aspec_step; done.
Qed.

Lemma buildTurnInput_spec prompt threadId a :
  aspec (buildTurnInput E prompt threadId) a (fun r a' =>
    if set_has threadId (seededThreads a)
    then r = Normal [text_item prompt] /\ a' = a
    else r = Normal [text_item (JStr (seed_text E (codex_context E))); text_item prompt] /\
         a' = set_seededThreads (set_add threadId (seededThreads a)) a).
Proof.
  unfold buildTurnInput. aspec_step.
  eapply aspec_conseq; [apply readCodexContext_spec|]. intros r a' [-> ->]. simpl.
  repeat aspec_step; simpl in *;
    destruct (set_has threadId (seededThreads a)); try discriminate; done.
Qed.
End Seed.

(** ** The scheduler

    [run] only visits reachable worlds, so what is proved of every
    reachable world holds of the concrete runs. *)

Lemma reachable_drain E n w : reachable E w -> reachable E (drain E n w).
Proof.
  revert w. induction n as [|n IH]; intros w Hw; simpl; [done|].
  destruct (microtasks w); [done|]. apply IH.
  by apply (reachable_step E w OpMicrotask).
Qed.

Lemma reachable_run E n os w : reachable E w -> reachable E (run E n os w).
Proof.
  revert w. induction os as [|o os IH]; intros w Hw; simpl; [done|].
  apply IH, reachable_drain, reachable_step, Hw.
Qed.

Lemma reachable_initial E : reachable E initial_world.
Proof. by exists []. Qed.

(** In the runs evaluated below the fuel is enough: the queue is empty
    after every event. *)
Example runs_are_quiescent :
  forallb (fun os => quiescent example_env fuel os initial_world)
    [ up_to_active_turn ++ [OpTimer 4];
      starting_ops;
      fifo_ops ++ [notification "turn/completed" (JObj [("turnId", JStr "U1")])];
      overlap_ops ++ [ response 5 (JObj [("turn", JObj [("id", JStr "U2")])]);
                       response 6 (JObj [("turn", JObj [("id", JStr "U3")])]) ];
      late_caller_ops ++ [OpTimer 0; OpEnsureStarted];
      [OpSendCodexPrompt (JStr "hello") "/work/a"; OpChildError 0 spawn_failure];
      [OpEnsureStarted; OpEnsureStarted; OpChildError 0 spawn_failure; OpEnsureStarted] ]%list
  = true /\
  quiescent example_env_no_key fuel
    [OpSendCodexPrompt (JStr "hello") "/work/a"; OpChildSpawn 0; response 1 (JObj []);
     response 2 (JObj [("requiresOpenaiAuth", JBool true)])]
    initial_world = true.
Proof. split; vm_compute; reflexivity. Qed.

Example scenario_first_turn :
  List.filter (fun e => match e with EWrite _ | ESpawn _ => true | _ => false end)
    (trace world_turn_requested) =
  [ ESpawn 0;
    EWrite (JObj [("method", JStr "initialize"); ("id", JNum 1); ("params", client_info)]);
    EWrite (JObj [("method", JStr "initialized"); ("params", JObj [])]);
    EWrite (JObj [("method", JStr "account/read"); ("id", JNum 2);
                  ("params", JObj [("refreshToken", JBool false)])]);
    EWrite (JObj [("method", JStr "thread/start"); ("id", JNum 3);
                  ("params", JObj [("cwd", JStr "/work/a"); ("approvalPolicy", JStr "never");
                                   ("sandbox", JStr "workspace-write")])]);
    EWrite (JObj [("method", JStr "turn/start"); ("id", JNum 4);
                  ("params",
                   JObj [("threadId", JStr "T1");
                         ("input", JArr [text_item (JStr default_system_message);
                                         text_item (JStr "summarize this file")])])]) ].
Proof. vm_compute. reflexivity. Qed.

(** ** Promises are never deallocated *)

Section GrowsRules.
Context {A B : Type}.

Lemma grows_ret (x : A) : grows (mret x).
Proof. by intros w. Qed.

Lemma grows_throw (e : error) : grows (throw (A := A) e).
Proof. by intros w. Qed.

Lemma grows_lift (c : completion A) : grows (lift c).
Proof. by intros w. Qed.

Lemma grows_bind (m : M A) (k : A -> M B) :
  grows m -> (forall x, grows (k x)) -> grows (m ≫= k).
Proof.
  intros Hm Hk w. unfold exec, mbind, M_bind, bind. specialize (Hm w). unfold exec in Hm.
  destruct (m w) as [[x|e] w1]; simpl in *; [|done].
  specialize (Hk x w1). unfold exec in Hk. lia.
Qed.

Lemma grows_try_catch (m : M A) (h : error -> M A) :
  grows m -> (forall e, grows (h e)) -> grows (try_catch m h).
Proof.
  intros Hm Hh w. unfold exec, try_catch. specialize (Hm w). unfold exec in Hm.
  destruct (m w) as [[x|e] w1]; simpl in *; [done|].
  specialize (Hh e w1). unfold exec in Hh. lia.
Qed.
End GrowsRules.

Lemma grows_this : grows this.
Proof. by intros w. Qed.

Lemma grows_the_world : grows the_world.
Proof. by intros w. Qed.

Lemma grows_update f : grows (update f).
Proof. by intros w. Qed.

Lemma grows_update_world f :
  (forall w, promises (f w) = promises w) -> grows (update_world f).
Proof. intros Hf w. unfold exec, update_world. simpl. by rewrite Hf. Qed.

Lemma grows_emit e : grows (emit e).
Proof. by apply grows_update_world. Qed.

Lemma grows_new_promise : grows new_promise.
Proof. intros w. unfold exec, new_promise. simpl. rewrite length_app. lia. Qed.

Lemma grows_settle p o : grows (settle p o).
Proof.
  intros w. unfold exec, settle.
  destruct (promises w !! p) as [[rs|s]|]; simpl; [|done..]. by rewrite length_insert.
Qed.

Lemma grows_on_settled p f : grows (on_settled p f).
Proof.
  intros w. unfold exec, on_settled.
  destruct (promises w !! p) as [[rs|s]|]; simpl; [|done..]. by rewrite length_insert.
Qed.

Create HintDb grows discriminated.
#[global] Hint Resolve grows_ret grows_throw grows_lift grows_this grows_the_world grows_update
  grows_emit grows_new_promise grows_settle grows_on_settled : grows.
#[global] Hint Extern 1 (grows (update_world _)) => apply grows_update_world; done : grows.

Ltac grows_step :=
  lazymatch goal with
  | |- grows (_ ≫= _) => apply grows_bind; [|intros ?]
  | |- grows (try_catch _ _) => apply grows_try_catch; [|intros ?]
  | |- grows (match ?x with _ => _ end) => destruct x
  | |- grows (let _ := _ in _) => cbv zeta
  | |- grows skip => apply grows_ret
  | |- grows _ => solve [eauto with grows]
  end.
Ltac grows_go := cbv beta; repeat grows_step.

Lemma grows_resolve p v : grows (resolve p v).
Proof. unfold resolve. grows_go. Qed.

Lemma grows_reject p e : grows (reject p e).
Proof. unfold reject. grows_go. Qed.

Lemma grows_setTimeout cb ms : grows (setTimeout cb ms).
Proof. unfold setTimeout. grows_go. Qed.

Lemma grows_clearTimeout t : grows (clearTimeout t).
Proof. unfold clearTimeout. grows_go. Qed.
#[global] Hint Resolve grows_resolve grows_reject grows_setTimeout grows_clearTimeout : grows.

Lemma grows_waiter_resolve wt v : grows (waiter_resolve wt v).
Proof. unfold waiter_resolve. grows_go. Qed.

Lemma grows_waiter_reject wt e : grows (waiter_reject wt e).
Proof. unfold waiter_reject. grows_go. Qed.

Lemma grows_for_each {A} (l : list A) f : (forall x, grows (f x)) -> grows (for_each l f).
Proof.
  intros Hf. induction l as [|x l IH]; simpl; [apply grows_ret|].
  apply grows_bind; [apply Hf|intros _; apply IH].
Qed.

#[global] Hint Extern 1 (grows (for_each _ _)) =>
  apply grows_for_each; intros ?; grows_go : grows.

Lemma grows_called p : grows (called p).
Proof. unfold called. grows_go. Qed.
#[global] Hint Resolve grows_waiter_resolve grows_waiter_reject grows_called : grows.

Lemma grows_run_async self body : grows body -> grows (run_async self body).
Proof.
  intros Hb w. unfold exec, run_async. specialize (Hb w). unfold exec in Hb.
  destruct (body w) as [[[v|p k]|e] w1]; simpl in *.
  - pose proof (grows_resolve self v w1). unfold exec in *. lia.
  - pose proof (grows_on_settled p (self, k) w1). unfold exec in *. lia.
  - pose proof (grows_reject self e w1). unfold exec in *. lia.
Qed.

Lemma grows_call_async body : grows body -> grows (call_async body).
Proof.
  intros Hb. unfold call_async. apply grows_bind; [apply grows_new_promise|intros self].
  apply grows_bind; [by apply grows_run_async|intros _; apply grows_ret].
Qed.
#[global] Hint Resolve grows_run_async grows_call_async : grows.

Ltac grows_async :=
  cbv beta;
  repeat first [ grows_step
               | apply grows_call_async
               | apply grows_run_async ].

Section GrowsBridge.
Context (E : env).

Lemma grows_reset : grows reset.
Proof. unfold reset. grows_async. Qed.

Lemma grows_write message : grows (write message).
Proof. unfold write. grows_async. Qed.
Hint Resolve grows_write : grows.

Lemma grows_sendNotification method params : grows (sendNotification method params).
Proof. apply grows_write. Qed.

Lemma grows_sendRpc method params ms : grows (sendRpc method params ms).
Proof. unfold sendRpc. grows_async. Qed.
Hint Resolve grows_sendNotification grows_sendRpc grows_reset : grows.

Lemma grows_rpc_timed_out id method p : grows (rpc_timed_out id method p).
Proof. unfold rpc_timed_out. grows_async. Qed.

Lemma grows_finishTurn : grows finishTurn.
Proof. unfold finishTurn. grows_async. Qed.

Lemma grows_update_turn f : grows (update_turn f).
Proof. unfold update_turn. grows_async. Qed.
Hint Resolve grows_rpc_timed_out grows_finishTurn grows_update_turn : grows.

Lemma grows_handleNotification method params : grows (handleNotification E method params).
Proof. unfold handleNotification. grows_async. Qed.
Hint Resolve grows_handleNotification : grows.

Lemma grows_handleLine parsed : grows (handleLine E parsed).
Proof. unfold handleLine. grows_async. Qed.

Lemma grows_on_stderr_data chunk : grows (on_stderr_data chunk).
Proof. unfold on_stderr_data. grows_async. Qed.

Lemma grows_start : grows start.
Proof. unfold start. grows_async. Qed.
Hint Resolve grows_start : grows.

Lemma grows_ensureStarted : grows ensureStarted.
Proof. unfold ensureStarted. grows_async. Qed.

Lemma grows_ensureLoggedIn : grows (ensureLoggedIn E).
Proof. unfold ensureLoggedIn. grows_async. Qed.
Hint Resolve grows_ensureStarted grows_ensureLoggedIn : grows.

Lemma grows_login_timed_out p : grows (login_timed_out p).
Proof. unfold login_timed_out. grows_async. Qed.

Lemma grows_turn_timed_out p : grows (turn_timed_out p).
Proof. unfold turn_timed_out. grows_async. Qed.

Lemma grows_on_child_error n e : grows (on_child_error n e).
Proof. unfold on_child_error. grows_async. Qed.

Lemma grows_on_child_spawn n : grows (on_child_spawn E n).
Proof. unfold on_child_spawn. grows_async. Qed.

Lemma grows_on_child_close n : grows (on_child_close n).
Proof. unfold on_child_close. grows_async. Qed.

Lemma grows_getThreadId cwd : grows (getThreadId E cwd).
Proof. unfold getThreadId. grows_async. Qed.

Lemma grows_runTurn prompt cwd : grows (runTurn prompt cwd).
Proof. unfold runTurn. grows_async. Qed.
Hint Resolve grows_getThreadId grows_runTurn : grows.

Lemma grows_sendCodexPrompt prompt cwd : grows (sendCodexPrompt prompt cwd).
Proof. unfold sendCodexPrompt, then_. grows_async. Qed.

Lemma grows_readCodexContext : grows (readCodexContext E).
Proof. unfold readCodexContext. grows_async. Qed.
Hint Resolve grows_readCodexContext : grows.

Lemma grows_buildTurnInput prompt threadId : grows (buildTurnInput E prompt threadId).
Proof. unfold buildTurnInput. grows_async. Qed.
Hint Resolve grows_buildTurnInput : grows.

Lemma grows_run_callback cb : grows (run_callback cb).
Proof.
  destruct cb; simpl; auto using grows_login_timed_out, grows_turn_timed_out with grows.
Qed.

Lemma grows_fire_timer t : grows (fire_timer t).
Proof. unfold fire_timer. grows_async. apply grows_run_callback. Qed.

Lemma grows_resume k o : grows (resume E k o).
Proof.
  destruct k; simpl;
    unfold ensureStarted_joined, ensureStarted_owner, start_initialized, start_logged_in,
      ensureLoggedIn_account_read, ensureLoggedIn_login_started, ensureLoggedIn_completed,
      getThreadId_started, runTurn_started, runTurn_thread, runTurn_turn_started, queue_then,
      queue_catch, object_of, Promise_resolve;
    grows_async.
Qed.

Lemma grows_step o : grows (step E o).
Proof.
  destruct o as [prompt cwd| |n|n e|n|parsed|chunk|t|]; simpl.
  - apply grows_bind; [|intros p; apply grows_called].
    apply grows_call_async, grows_sendCodexPrompt.
  - apply grows_bind; [|intros p; apply grows_called].
    apply grows_call_async, grows_ensureStarted.
  - apply grows_on_child_spawn.
  - apply grows_on_child_error.
  - apply grows_on_child_close.
  - apply grows_bind; [apply grows_this|intros a].
    destruct (rl a); [apply grows_handleLine|apply grows_ret].
  - apply grows_bind; [apply grows_this|intros a].
    destruct (proc a); [apply grows_on_stderr_data|apply grows_ret].
  - apply grows_fire_timer.
  - unfold run_microtask. apply grows_bind; [apply grows_the_world|intros w].
    destruct (microtasks w) as [|[[self k] o] rest]; [apply grows_ret|].
    apply grows_bind; [by apply grows_update_world|intros _].
    apply grows_run_async, grows_resume.
Qed.
End GrowsBridge.
(** ** A discipline of ownership along the code *)

#[global] Hint Resolve grows_write grows_sendNotification grows_sendRpc grows_reset
  grows_rpc_timed_out grows_finishTurn grows_update_turn grows_handleNotification
  grows_start grows_ensureStarted grows_ensureLoggedIn grows_getThreadId grows_runTurn
  grows_readCodexContext grows_buildTurnInput grows_run_callback : grows.

Lemma values_delete_subseteq {V} (k : Z) (m : list (Z * V)) :
  JsMap.values (JsMap.delete k m) ⊆ JsMap.values m.
Proof.
  induction m as [|[k' v] m IH]; simpl; [done|].
  destruct (decide (k = k')); simpl.
  - by apply list_subseteq_cons.
  - by apply list_subseteq_skip.
Qed.

Lemma values_set_subseteq {V} (k : Z) (v : V) (m : list (Z * V)) :
  JsMap.values (JsMap.set k v m) ⊆ v :: JsMap.values m.
Proof.
  induction m as [|[k' v'] m IH]; simpl; [done|].
  destruct (decide (k = k')); simpl.
  - by apply list_subseteq_skip, list_subseteq_cons.
  - intros x Hx. apply elem_of_cons in Hx as [->|Hx].
    + apply elem_of_cons. right. apply elem_of_cons. by left.
    + apply IH in Hx. apply elem_of_cons in Hx as [->|Hx].
      * apply elem_of_cons. by left.
      * apply elem_of_cons. right. apply elem_of_cons. by right.
Qed.

Lemma get_values {V} (k : Z) (v : V) (m : list (Z * V)) :
  JsMap.get k m = Some v -> v ∈ JsMap.values m.
Proof.
  induction m as [|[k' v'] m IH]; simpl; [done|].
  destruct (decide (k = k')); [intros [= ->]; apply elem_of_cons; by left|].
  intros Hv. apply elem_of_cons. right. by apply IH.
Qed.

Section Safe.
Context {free : promise -> Prop} {Inv past : world -> Prop} (D : discipline free Inv past).

Local Abbreviation safe := (safe Inv past).

Lemma past_after {A} (m : M A) w : grows m -> past w -> past (exec m w).
Proof. intros Hm. apply (d_past_grows _ _ _ D), Hm. Qed.

Lemma safe_past {A} (m : M A) (R : A -> Prop) w :
  grows m -> past w -> Inv (exec m w) /\ (past (exec m w) \/ forall x, result m w = Normal x -> R x).
Proof. intros Hm Hw. pose proof (past_after m w Hm Hw). split; [by apply (d_past _ _ _ D)|by left]. Qed.

Lemma safe_ret {A} (x : A) (R : A -> Prop) : R x -> safe (mret x) R.
Proof. intros HR w Hw. split; [done|]. right. by intros y [= <-]. Qed.

Lemma safe_throw {A} (e : error) (R : A -> Prop) : safe (throw e) R.
Proof. intros w Hw. split; [done|]. by right. Qed.

Lemma safe_lift {A} (c : completion A) : safe (lift c) (fun x => c = Normal x).
Proof. intros w Hw. split; [done|]. right. by intros x. Qed.

Lemma safe_conseq {A} (m : M A) (R R' : A -> Prop) :
  safe m R -> (forall x, R x -> R' x) -> safe m R'.
Proof.
  intros Hm HR w Hw. destruct (Hm w Hw) as [Hinv [Hpast|Hres]]; (split; [done|]); [by left|].
  right. intros x Hx. by apply HR, Hres.
Qed.

Lemma safe_bind {A B} (m : M A) (k : A -> M B) (R : A -> Prop) (R' : B -> Prop) :
  safe m R -> (forall x, grows (k x)) -> (forall x, R x -> safe (k x) R') -> safe (m ≫= k) R'.
Proof.
  intros Hm Hg Hk w Hw. specialize (Hm w Hw). unfold exec, result in *.
  unfold mbind, M_bind, bind. destruct (m w) as [[x|e] w1]; simpl in *.
  - destruct Hm as [Hinv [Hpast|Hres]].
    + apply (safe_past (k x) R' w1); [apply Hg|done].
    + apply (Hk x); [by apply Hres|done].
  - destruct Hm as [Hinv _]. split; [done|]. by right.
Qed.

Lemma safe_try_catch {A} (m : M A) (h : error -> M A) (R : A -> Prop) :
  safe m R -> (forall e, grows (h e)) -> (forall e, safe (h e) R) -> safe (try_catch m h) R.
Proof.
  intros Hm Hg Hh w Hw. specialize (Hm w Hw). unfold exec, result in *.
  unfold try_catch. destruct (m w) as [[x|e] w1]; simpl in *; [done|].
  destruct Hm as [Hinv _]. by apply (Hh e).
Qed.

Lemma safe_this : safe this (app_free free).
Proof.
  intros w Hw. split; [done|]. destruct (d_app _ _ _ D w Hw) as [Hp|Ha]; [by left|].
  right. by intros a [= <-].
Qed.

Lemma safe_the_world : safe the_world (fun w => timers_free free w /\ children_free free w).
Proof.
  intros w Hw. split; [done|].
  destruct (d_timers _ _ _ D w Hw) as [Hp|Ht]; [by left|].
  destruct (d_children _ _ _ D w Hw) as [Hp|Hc]; [by left|].
  right. by intros w' [= <-].
Qed.

Lemma safe_update f :
  (forall a, app_free free a -> app_free free (f a)) -> safe (update f) (fun _ => True).
Proof.
  intros Hf w Hw. destruct (d_app _ _ _ D w Hw) as [Hp|Ha].
  - apply (safe_past (update f)); [apply grows_update|done].
  - split; [|by right]. apply (d_set_app _ _ _ D); [done|by apply Hf].
Qed.

Lemma safe_update_sub f :
  (forall a, all_waiters (f a) ⊆ all_waiters a) -> safe (update f) (fun _ => True).
Proof.
  intros Hf. apply safe_update. intros a Ha. unfold app_free in *.
  rewrite Forall_forall in *. intros wt Hwt. by apply Ha, Hf.
Qed.

Lemma safe_update_with f (wt : waiter) :
  free (w_promise wt) -> (forall a, all_waiters (f a) ⊆ wt :: all_waiters a) ->
  safe (update f) (fun _ => True).
Proof.
  intros Hwt Hf. apply safe_update. intros a Ha. unfold app_free in *.
  rewrite Forall_forall in *. intros x Hx. apply Hf in Hx.
  apply elem_of_cons in Hx as [->|Hx]; [done|by apply Ha].
Qed.

Lemma safe_update_turn f :
  (forall t, turn_waiter (f t) = turn_waiter t) -> safe (update_turn f) (fun _ => True).
Proof.
  intros Hf. apply safe_update_sub. intros a. unfold all_waiters. simpl.
  destruct (currentTurn a) as [t|]; simpl; [by rewrite Hf|done].
Qed.

Lemma safe_update_world f :
  (forall w, same_runtime w (f w)) -> safe (update_world f) (fun _ => True).
Proof. intros Hf w Hw. split; [|by right]. by apply (d_same _ _ _ D w), Hw. Qed.

Lemma safe_emit e : safe (emit e) (fun _ => True).
Proof. by apply safe_update_world. Qed.

Lemma safe_new_promise : safe new_promise free.
Proof.
  intros w Hw. destruct (d_new_promise _ _ _ D w Hw) as [Hinv Hfree].
  split; [done|]. destruct Hfree as [Hp|Hfree]; [by left|]. right. by intros p [= <-].
Qed.

Lemma safe_settle p o : free p -> safe (settle p o) (fun _ => True).
Proof. intros Hp w Hw. split; [by apply (d_settle _ _ _ D)|by right]. Qed.

Lemma safe_on_settled p self k :
  free self -> kont_free free k -> safe (on_settled p (self, k)) (fun _ => True).
Proof. intros Hs Hk w Hw. split; [by apply (d_on_settled _ _ _ D)|by right]. Qed.

Lemma safe_resolve p v : free p -> safe (resolve p v) (fun _ => True).
Proof.
  intros Hp. eapply safe_bind; [apply safe_emit|intros; apply grows_settle|].
  intros _ _. by apply safe_settle.
Qed.

Lemma safe_reject p e : free p -> safe (reject p e) (fun _ => True).
Proof.
  intros Hp. eapply safe_bind; [apply safe_emit|intros; apply grows_settle|].
  intros _ _. by apply safe_settle.
Qed.

Lemma safe_add_timer cb :
  free (callback_promise cb) ->
  safe (update_world (fun w => set_timers (timers w ++ [Some cb]) w)) (fun _ => True).
Proof. intros Hcb w Hw. split; [by apply (d_add_timer _ _ _ D)|by right]. Qed.

Lemma safe_add_child p :
  free p ->
  safe (update_world
          (fun w => set_children (children w ++ [{| c_start := p; c_spawned := false |}]) w))
       (fun _ => True).
Proof. intros Hp w Hw. split; [by apply (d_add_child _ _ _ D)|by right]. Qed.

Lemma safe_spawned n p :
  free p ->
  safe (update_world
          (fun w => set_children
                      (<[n := {| c_start := p; c_spawned := true |}]> (children w)) w))
       (fun _ => True).
Proof. intros Hp w Hw. split; [by apply (d_spawned _ _ _ D)|by right]. Qed.

Lemma safe_setTimeout cb ms : free (callback_promise cb) -> safe (setTimeout cb ms) (fun _ => True).
Proof.
  intros Hcb. unfold setTimeout.
  eapply safe_bind; [apply safe_the_world|intros; grows_go|intros w _].
  eapply safe_bind; [by apply safe_add_timer|intros; grows_go|intros _ _].
  eapply safe_bind; [apply safe_emit|intros; grows_go|intros _ _]. by apply safe_ret.
Qed.

Lemma safe_clear_timer t :
  safe (update_world (fun w => set_timers (<[t := None]> (timers w)) w)) (fun _ => True).
Proof. intros w Hw. split; [by apply (d_clear_timer _ _ _ D)|by right]. Qed.

Lemma safe_clearTimeout t : safe (clearTimeout t) (fun _ => True).
Proof.
  unfold clearTimeout.
  eapply safe_bind; [apply safe_clear_timer|intros; grows_go|intros _ _; apply safe_emit].
Qed.

Lemma safe_waiter_resolve wt v : free (w_promise wt) -> safe (waiter_resolve wt v) (fun _ => True).
Proof.
  intros Hp. eapply safe_bind; [apply safe_clearTimeout|intros; grows_go|].
  intros _ _. by apply safe_resolve.
Qed.

Lemma safe_waiter_reject wt e : free (w_promise wt) -> safe (waiter_reject wt e) (fun _ => True).
Proof.
  intros Hp. eapply safe_bind; [apply safe_clearTimeout|intros; grows_go|].
  intros _ _. by apply safe_reject.
Qed.

Lemma safe_for_each {A} (l : list A) f :
  (forall x, grows (f x)) -> (forall x, x ∈ l -> safe (f x) (fun _ => True)) ->
  safe (for_each l f) (fun _ => True).
Proof.
  intros Hg Hf. induction l as [|x l IH]; simpl; [by apply safe_ret|].
  eapply safe_bind; [apply Hf, elem_of_cons; by left|intros; by apply grows_for_each|].
  intros _ _. apply IH. intros y Hy. apply Hf, elem_of_cons. by right.
Qed.

Lemma safe_run_async self body :
  free self -> safe body (async_free free) -> safe (run_async self body) (fun _ => True).
Proof.
  intros Hself Hb w Hw. specialize (Hb w Hw). unfold exec, result, run_async in *.
  destruct (body w) as [[[v|p k]|e] w1]; simpl in *; destruct Hb as [Hinv Hres].
  - by apply (safe_resolve self v Hself w1).
  - destruct Hres as [Hp|Hres].
    + apply (safe_past (on_settled p (self, k))); [apply grows_on_settled|done].
    + apply (safe_on_settled p self k Hself); [exact (Hres _ eq_refl)|done].
  - by apply (safe_reject self e Hself w1).
Qed.

Lemma safe_call_async body :
  grows body -> safe body (async_free free) -> safe (call_async body) (fun _ => True).
Proof.
  intros Hg Hb. unfold call_async.
  eapply safe_bind; [apply safe_new_promise|intros; grows_async|intros self Hself].
  eapply safe_bind; [by apply safe_run_async|intros; grows_go|intros _ _]. by apply safe_ret.
Qed.
End Safe.
Create HintDb safe discriminated.

Lemma subseteq_app3 {A} (l1 l2 l3 k1 k2 k3 : list A) :
  l1 ⊆ k1 -> l2 ⊆ k2 -> l3 ⊆ k3 -> (l1 ++ l2 ++ l3)%list ⊆ (k1 ++ k2 ++ k3)%list.
Proof.
  intros H1 H2 H3 x Hx. rewrite !elem_of_app in *.
  destruct Hx as [Hx|[Hx|Hx]]; [left; by apply H1|right; left; by apply H2|right; right; by apply H3].
Qed.

Lemma subseteq_cons_app3 {A} (x : A) (l1 l2 l3 k1 k2 k3 : list A) :
  l1 ⊆ x :: k1 -> l2 ⊆ x :: k2 -> l3 ⊆ x :: k3 -> (l1 ++ l2 ++ l3)%list ⊆ x :: (k1 ++ k2 ++ k3)%list.
Proof.
  intros H1 H2 H3 y Hy. rewrite elem_of_cons. rewrite !elem_of_app in *.
  destruct Hy as [Hy|[Hy|Hy]]; [apply H1 in Hy|apply H2 in Hy|apply H3 in Hy];
    apply elem_of_cons in Hy as [->|Hy]; auto.
Qed.

Lemma singleton_subseteq_cons {A} (x : A) (l : list A) : [x] ⊆ x :: l.
Proof. intros y Hy. apply list_elem_of_singleton in Hy as ->. apply elem_of_cons. by left. Qed.

(** The waiters of the bridge object after an assignment are among those
    before it. *)
Ltac waiters_sub :=
  intros ?; unfold all_waiters;
  apply subseteq_app3; simpl;
  first [ reflexivity | apply list_subseteq_nil | apply values_delete_subseteq ].

(** ... or the waiter [wt] just made. *)
Ltac waiters_with :=
  intros ?; unfold all_waiters;
  apply subseteq_cons_app3; simpl;
  first [ apply values_set_subseteq | apply singleton_subseteq_cons
        | apply list_subseteq_cons; reflexivity ].

Ltac free_goal :=
  first [ done
        | exact I
        | solve [ simpl; unfold kont_free; simpl; repeat constructor; eauto with safe ]
        | idtac ].

Ltac safe_step D :=
  cbv beta in *;
  lazymatch goal with
  | |- safe _ _ (mret _) _ => apply safe_ret; free_goal
  | |- safe _ _ (ret _) _ => apply safe_ret; free_goal
  | |- safe _ _ skip _ => apply safe_ret; free_goal
  | |- safe _ _ (throw _) _ => apply safe_throw
  | |- safe _ _ ((match _ with _ => _ end) ≫= _) _ =>
      apply (safe_bind D _ _ (fun _ => True)); [ |intros ?; grows_async|intros ? _]
  | |- safe _ _ (_ ≫= _) _ => eapply (safe_bind D); [ |intros ?; grows_async|intros ? ?]
  | |- safe _ _ (try_catch _ _) _ =>
      eapply safe_try_catch; [ |intros ?; grows_async|intros ?]
  | |- safe _ _ (on_settled _ (_, _)) _ => apply (safe_on_settled D); free_goal
  | |- safe _ _ (call_async _) _ => apply (safe_call_async D); [grows_async|]
  | |- safe _ _ (run_async _ _) _ => apply (safe_run_async D); [free_goal|]
  | |- safe _ _ (match ?x with _ => _ end) _ => destruct x eqn:?
  | |- safe _ _ (let _ := _ in _) _ => cbv zeta
  | |- safe _ _ _ _ => solve [eauto with safe]
  end.
Ltac safe_go D := repeat safe_step D.

Section SafeBridge.
Context (E : env) {free : promise -> Prop} {Inv past : world -> Prop} (D : discipline free Inv past).

Local Abbreviation safe := (safe Inv past).

Lemma app_free_get a k wt :
  app_free free a -> JsMap.get k (pending a) = Some wt -> free (w_promise wt).
Proof.
  unfold app_free, all_waiters. rewrite Forall_forall. intros Ha Hk. apply Ha.
  apply elem_of_app. left. by eapply get_values.
Qed.

Lemma app_free_values a wt :
  app_free free a -> wt ∈ JsMap.values (pending a) -> free (w_promise wt).
Proof.
  unfold app_free, all_waiters. rewrite Forall_forall. intros Ha Hk. apply Ha.
  apply elem_of_app. by left.
Qed.

Lemma app_free_turn a t :
  app_free free a -> currentTurn a = Some t -> free (w_promise (turn_waiter t)).
Proof.
  unfold app_free, all_waiters. rewrite Forall_forall. intros Ha Hk. apply Ha.
  apply elem_of_app. right. apply elem_of_app. left. rewrite Hk. simpl. apply elem_of_cons. by left.
Qed.

Lemma app_free_login a lw :
  app_free free a -> loginWaiter a = Some lw -> free (w_promise lw).
Proof.
  unfold app_free, all_waiters. rewrite Forall_forall. intros Ha Hk. apply Ha.
  apply elem_of_app. right. apply elem_of_app. right. rewrite Hk. simpl. apply elem_of_cons. by left.
Qed.

Lemma app_free_login_if (c : bool) a lw :
  app_free free a -> (if c then loginWaiter a else None) = Some lw -> free (w_promise lw).
Proof. destruct c; [apply app_free_login|done]. Qed.

Lemma world_free_child w n c :
  timers_free free w /\ children_free free w -> children w !! n = Some c -> free (c_start c).
Proof. intros [_ Hc]. apply Hc. Qed.

Lemma world_free_timer w t cb :
  timers_free free w /\ children_free free w -> timers w !! t = Some (Some cb) ->
  free (callback_promise cb).
Proof. intros [Ht _]. apply Ht. Qed.

Lemma kont_free_initialized p : kont_free free (KStartInitialized p) -> free p.
Proof. intros Hk. by inversion Hk. Qed.

Lemma kont_free_logged_in p : kont_free free (KStartLoggedIn p) -> free p.
Proof. intros Hk. by inversion Hk. Qed.

Hint Resolve app_free_get app_free_values app_free_turn app_free_login app_free_login_if
  world_free_child world_free_timer kont_free_initialized kont_free_logged_in : safe.
Hint Extern 1 (safe this _) => apply (safe_this D) : safe.
Hint Extern 1 (safe the_world _) => apply (safe_the_world D) : safe.
Hint Extern 1 (safe (emit _) _) => apply (safe_emit D) : safe.
Hint Extern 1 (safe new_promise _) => apply (safe_new_promise D) : safe.
Hint Extern 1 (safe (lift _) _) => apply safe_lift : safe.
Hint Extern 1 (safe (clearTimeout _) _) => apply (safe_clearTimeout D) : safe.
Hint Extern 1 (safe (settle _ _) _) => apply (safe_settle D) : safe.
Hint Extern 1 (safe (resolve _ _) _) => apply (safe_resolve D) : safe.
Hint Extern 1 (safe (reject _ _) _) => apply (safe_reject D) : safe.
Hint Extern 1 (safe (setTimeout _ _) _) => apply (safe_setTimeout D) : safe.
Hint Extern 1 (safe (waiter_resolve _ _) _) => apply (safe_waiter_resolve D) : safe.
Hint Extern 1 (safe (waiter_reject _ _) _) => apply (safe_waiter_reject D) : safe.
Hint Extern 1 (safe (update_turn _) _) => apply (safe_update_turn D); reflexivity : safe.
Hint Extern 1 (safe (update_world _) _) => apply (safe_update_world D); done : safe.
Hint Extern 2 (safe (update_world _) _) => apply (safe_add_child D) : safe.
Hint Extern 2 (safe (update_world _) _) => apply (safe_spawned D) : safe.
Hint Extern 2 (safe (update_world _) _) => apply (safe_clear_timer D) : safe.
Hint Extern 2 (safe (update _) _) => apply (safe_update_sub D); waiters_sub : safe.
Hint Extern 3 (safe (update _) _) =>
  eapply (safe_update_with D); [|solve [waiters_with]]; simpl; assumption : safe.
Hint Extern 1 (safe (for_each _ _) _) =>
  apply (safe_for_each D); [intros ?; grows_go|intros ? ?] : safe.

Lemma safe_reset : safe reset (fun _ => True).
Proof. unfold reset. safe_go D. Qed.
Hint Extern 1 (safe reset _) => apply safe_reset : safe.

Lemma safe_write message : safe (write message) (fun _ => True).
Proof. unfold write. safe_go D. Qed.
Hint Extern 1 (safe (write _) _) => apply safe_write : safe.
Hint Extern 1 (safe (sendNotification _ _) _) => apply safe_write : safe.

Lemma safe_sendRpc method params ms : safe (sendRpc method params ms) (fun _ => True).
Proof. unfold sendRpc. safe_go D. Qed.
Hint Extern 1 (safe (sendRpc _ _ _) _) => apply safe_sendRpc : safe.

Lemma safe_rpc_timed_out id method p : free p -> safe (rpc_timed_out id method p) (fun _ => True).
Proof. intros Hp. unfold rpc_timed_out. safe_go D. Qed.

Lemma safe_finishTurn : safe finishTurn (fun _ => True).
Proof. unfold finishTurn. safe_go D. Qed.
Hint Extern 1 (safe finishTurn _) => apply safe_finishTurn : safe.

Lemma safe_handleNotification method params : safe (handleNotification E method params) (fun _ => True).
Proof. unfold handleNotification. safe_go D. Qed.
Hint Extern 1 (safe (handleNotification _ _ _) _) => apply safe_handleNotification : safe.

Lemma safe_handleLine parsed : safe (handleLine E parsed) (fun _ => True).
Proof. unfold handleLine. safe_go D. Qed.

Lemma safe_on_stderr_data chunk : safe (on_stderr_data chunk) (fun _ => True).
Proof. unfold on_stderr_data. safe_go D. Qed.

Lemma safe_start : safe start free.
Proof. unfold start. safe_go D. Qed.
Hint Extern 1 (safe start _) => apply safe_start : safe.

Lemma safe_ensureStarted : safe ensureStarted (async_free free).
Proof. unfold ensureStarted. safe_go D. Qed.
Hint Extern 1 (safe ensureStarted _) => apply safe_ensureStarted : safe.

Lemma safe_ensureLoggedIn : safe (ensureLoggedIn E) (async_free free).
Proof. unfold ensureLoggedIn. safe_go D. Qed.
Hint Extern 1 (safe (ensureLoggedIn _) _) => apply safe_ensureLoggedIn : safe.

Lemma safe_login_timed_out p : free p -> safe (login_timed_out p) (fun _ => True).
Proof. intros Hp. unfold login_timed_out. safe_go D. Qed.

Lemma safe_turn_timed_out p : free p -> safe (turn_timed_out p) (fun _ => True).
Proof. intros Hp. unfold turn_timed_out. safe_go D. Qed.

Lemma safe_on_child_error n e : safe (on_child_error n e) (fun _ => True).
Proof. unfold on_child_error. safe_go D. Qed.

Lemma safe_on_child_spawn n : safe (on_child_spawn E n) (fun _ => True).
Proof. unfold on_child_spawn. safe_go D. Qed.

Lemma safe_on_child_close n : safe (on_child_close n) (fun _ => True).
Proof. unfold on_child_close. safe_go D. Qed.

Lemma safe_getThreadId cwd : safe (getThreadId E cwd) (async_free free).
Proof. unfold getThreadId. safe_go D. Qed.
Hint Extern 1 (safe (getThreadId _ _) _) => apply safe_getThreadId : safe.

Lemma safe_runTurn prompt cwd : safe (runTurn prompt cwd) (async_free free).
Proof. unfold runTurn. safe_go D. Qed.
Hint Extern 1 (safe (runTurn _ _) _) => apply safe_runTurn : safe.

Lemma safe_sendCodexPrompt prompt cwd : safe (sendCodexPrompt prompt cwd) (async_free free).
Proof. unfold sendCodexPrompt, then_. safe_go D. Qed.

Lemma safe_readCodexContext : safe (readCodexContext E) (fun _ => True).
Proof. unfold readCodexContext. safe_go D. Qed.
Hint Extern 1 (safe (readCodexContext _) _) => apply safe_readCodexContext : safe.

Lemma safe_buildTurnInput prompt threadId : safe (buildTurnInput E prompt threadId) (fun _ => True).
Proof. unfold buildTurnInput. safe_go D. Qed.
Hint Extern 1 (safe (buildTurnInput _ _ _) _) => apply safe_buildTurnInput : safe.

Lemma safe_run_callback cb : free (callback_promise cb) -> safe (run_callback cb) (fun _ => True).
Proof.
  destruct cb; simpl; intros Hp;
    [by apply safe_rpc_timed_out|by apply safe_turn_timed_out|by apply safe_login_timed_out].
Qed.

Hint Extern 1 (safe (run_callback _) _) => apply safe_run_callback : safe.

Lemma safe_fire_timer t : safe (fire_timer t) (fun _ => True).
Proof. unfold fire_timer. safe_go D. Qed.

Lemma safe_resume k o : kont_free free k -> safe (resume E k o) (async_free free).
Proof.
  intros Hk. destruct k; simpl;
    unfold ensureStarted_joined, ensureStarted_owner, start_initialized, start_logged_in,
      ensureLoggedIn_account_read, ensureLoggedIn_login_started, ensureLoggedIn_completed,
      getThreadId_started, runTurn_started, runTurn_thread, runTurn_turn_started, queue_then,
      queue_catch, object_of, Promise_resolve;
    safe_go D.
Qed.

(** The events: everything but a microtask. *)
Lemma safe_event o : o <> OpMicrotask -> safe (step E o) (fun _ => True).
Proof.
  destruct o as [prompt cwd| |n|n e|n|parsed|chunk|t|]; simpl; intros Ho; try done.
  - eapply (safe_bind D); [|intros ?; grows_go|intros p _; by apply (safe_update_world D)].
    apply (safe_call_async D); [apply grows_sendCodexPrompt|apply safe_sendCodexPrompt].
  - eapply (safe_bind D); [|intros ?; grows_go|intros p _; by apply (safe_update_world D)].
    apply (safe_call_async D); [apply grows_ensureStarted|apply safe_ensureStarted].
  - apply safe_on_child_spawn.
  - apply safe_on_child_error.
  - apply safe_on_child_close.
  - eapply (safe_bind D); [apply (safe_this D)| |intros a _].
    + intros a. destruct (rl a); [apply grows_handleLine|apply grows_ret].
    + destruct (rl a); [apply safe_handleLine|by apply safe_ret].
  - eapply (safe_bind D); [apply (safe_this D)| |intros a _].
    + intros a. destruct (proc a); [apply grows_on_stderr_data|apply grows_ret].
    + destruct (proc a); [apply safe_on_stderr_data|by apply safe_ret].
  - apply safe_fire_timer.
Qed.

(** A microtask whose activation settles a free promise. *)
Lemma safe_microtask w self k o rest :
  Inv w -> microtasks w = (self, k, o) :: rest -> free self -> kont_free free k ->
  Inv (exec (run_microtask E) w).
Proof.
  intros Hw Hq Hself Hk. unfold exec. rewrite run_microtask_eq, Hq.
  apply (safe_run_async D self (resume E k o) Hself (safe_resume k o Hk)).
  by apply (d_pop _ _ _ D w self k o rest).
Qed.

Lemma safe_step_any o w :
  Inv w ->
  (forall self k s rest, o = OpMicrotask -> microtasks w = (self, k, s) :: rest ->
     past w \/ (free self /\ kont_free free k)) ->
  Inv (exec (step E o) w).
Proof.
  intros Hw Hq.
  assert (o = OpMicrotask \/ o <> OpMicrotask) as [->|Ho] by (destruct o; auto; by right).
  - simpl. destruct (microtasks w) as [|[[self k] s] rest] eqn:Hm.
    + unfold exec. by rewrite run_microtask_eq, Hm.
    + destruct (Hq self k s rest eq_refl eq_refl) as [Hp|[Hself Hk]].
      * apply (d_past _ _ _ D), (d_past_grows _ _ _ D w); [|done].
        apply (grows_step E OpMicrotask).
      * by apply (safe_microtask w self k s rest).
  - by apply (safe_event o Ho w).
Qed.
End SafeBridge.
(** ** Every promise the world holds is allocated *)

Lemma elem_of_settled_reactions (x : frame * settled) o (rs : list frame) :
  x ∈ List.map (fun f => (f, o)) rs <-> exists f, x = (f, o) /\ f ∈ rs.
Proof.
  rewrite list_elem_of_In, in_map_iff. split.
  - intros (f & <- & Hf). exists f. by rewrite list_elem_of_In.
  - intros (f & -> & Hf). exists f. by rewrite <- list_elem_of_In.
Qed.

Section Handles.
Context (free : promise -> Prop).

Lemma handles_free_same w w' : same_runtime w w' -> handles_free free w -> handles_free free w'.
Proof.
  intros (Ha & _ & Ht & _ & Hc) [Happ Htimers Hchildren]. split.
  - by rewrite Ha.
  - intros t cb. rewrite Ht. apply Htimers.
  - intros n c. rewrite Hc. apply Hchildren.
Qed.

Lemma handles_free_set_promises w ps : handles_free free w -> handles_free free (set_promises ps w).
Proof. by intros []. Qed.

Lemma handles_free_set_microtasks w ms :
  handles_free free w -> handles_free free (set_microtasks ms w).
Proof. by intros []. Qed.

Lemma handles_free_set_app w a : handles_free free w -> app_free free a -> handles_free free (set_codexApp a w).
Proof. by intros []. Qed.

Lemma handles_free_add_timer w cb :
  handles_free free w -> free (callback_promise cb) ->
  handles_free free (set_timers (timers w ++ [Some cb]) w).
Proof.
  intros [Happ Htimers Hchildren] Hcb. split; [done| |done].
  intros t cb'. simpl. intros Ht. apply lookup_app_Some in Ht as [Ht|[_ Ht]]; [by eapply Htimers|].
  apply list_lookup_singleton_Some in Ht as [_ [= <-]]. done.
Qed.

Lemma handles_free_clear_timer w t :
  handles_free free w -> handles_free free (set_timers (<[t := None]> (timers w)) w).
Proof.
  intros [Happ Htimers Hchildren]. split; [done| |done].
  intros t' cb. simpl. intros Ht.
  apply list_lookup_insert_Some in Ht as [(_ & [=] & _)|[_ Ht]]. by eapply Htimers.
Qed.

Lemma handles_free_add_child w p :
  handles_free free w -> free p ->
  handles_free free (set_children (children w ++ [{| c_start := p; c_spawned := false |}]) w).
Proof.
  intros [Happ Htimers Hchildren] Hp. split; [done..|].
  intros n c. simpl. intros Hn. apply lookup_app_Some in Hn as [Hn|[_ Hn]]; [by eapply Hchildren|].
  apply list_lookup_singleton_Some in Hn as [_ <-]. done.
Qed.

Lemma handles_free_spawned w n p :
  handles_free free w -> free p ->
  handles_free free
    (set_children (<[n := {| c_start := p; c_spawned := true |}]> (children w)) w).
Proof.
  intros [Happ Htimers Hchildren] Hp. split; [done..|].
  intros n' c. simpl. intros Hn.
  apply list_lookup_insert_Some in Hn as [(_ & <- & _)|[_ Hn]]; [done|by eapply Hchildren].
Qed.
End Handles.

(** What [settle] and [on_settled] do to the promises and the queue. *)
Lemma settle_pending_world p o rs w :
  promises w !! p = Some (Pending rs) ->
  exec (settle p o) w =
  set_microtasks (microtasks w ++ List.map (fun f => (f, o)) rs)
    (set_promises (<[p := Settled o]> (promises w)) w).
Proof. intros Hp. unfold exec, settle. by rewrite Hp. Qed.

Lemma settle_settled_world p o w :
  (forall rs, promises w !! p <> Some (Pending rs)) -> exec (settle p o) w = w.
Proof.
  intros Hp. unfold exec, settle. destruct (promises w !! p) as [[rs|s]|]; [|done..].
  by destruct (Hp rs).
Qed.

Section Scoped.
Context (n : promise).

Lemma scoped_same w w' : same_runtime w w' -> scoped_at n w -> scoped_at n w'.
Proof.
  intros Hs [Hh Hr Hm]. pose proof Hs as (_ & Hp & _ & Hq & _). split.
  - by eapply handles_free_same.
  - intros p rs self k. rewrite Hp. apply Hr.
  - intros self k o. rewrite Hq. apply Hm.
Qed.

Lemma scoped_new_promise w :
  scoped_at n w -> scoped_at n (set_promises (promises w ++ [Pending []]) w).
Proof.
  intros [Hh Hr Hm]. split; [by apply handles_free_set_promises| |done].
  intros p rs self k. simpl. intros Hp Hin.
  apply lookup_app_Some in Hp as [Hp|[_ Hp]]; [by eapply Hr|].
  apply list_lookup_singleton_Some in Hp as [_ [= <-]]. by apply elem_of_nil in Hin.
Qed.

Lemma scoped_settle w p o : scoped_at n w -> scoped_at n (exec (settle p o) w).
Proof.
  intros [Hh Hr Hm]. destruct (promises w !! p) as [[rs|s]|] eqn:Hp.
  - rewrite (settle_pending_world p o rs w Hp). split.
    + by apply handles_free_set_microtasks, handles_free_set_promises.
    + intros q rs' self k. simpl. intros Hq.
      apply list_lookup_insert_Some in Hq as [(_ & [=] & _)|[_ Hq]]. by eapply Hr.
    + intros self k o'. simpl. intros Hin. apply elem_of_app in Hin as [Hin|Hin]; [by eapply Hm|].
      apply elem_of_settled_reactions in Hin as (f & [= <- <-] & Hf). by eapply Hr.
  - rewrite settle_settled_world; [done|]. intros rs. by rewrite Hp.
  - rewrite settle_settled_world; [done|]. intros rs. by rewrite Hp.
Qed.

Lemma scoped_on_settled w p self k :
  scoped_at n w -> self <> n -> kont_free (other n) k ->
  scoped_at n (exec (on_settled p (self, k)) w).
Proof.
  intros [Hh Hr Hm] Hself Hk. unfold exec, on_settled.
  destruct (promises w !! p) as [[rs|s]|] eqn:Hp; simpl; [| |done].
  - split; [by apply handles_free_set_promises| |done].
    intros q rs' self' k'. simpl. intros Hq Hin.
    apply list_lookup_insert_Some in Hq as [(_ & [= <-] & _)|[_ Hq]]; [|by eapply Hr].
    apply elem_of_app in Hin as [Hin|Hin]; [by eapply Hr|].
    apply list_elem_of_singleton in Hin as [= -> ->]. done.
  - split; [by apply handles_free_set_microtasks|done|].
    intros self' k' o. simpl. intros Hin. apply elem_of_app in Hin as [Hin|Hin]; [by eapply Hm|].
    apply list_elem_of_singleton in Hin as [= -> -> ->]. done.
Qed.

(** Worlds that hold [n] nowhere, or in which [n] is allocated. *)
Lemma scoped_discipline :
  discipline (other n) (fun w => beyond n w \/ scoped_at n w) (beyond n).
Proof.
  split.
  - intros w Hw. by left.
  - unfold beyond. intros w w' Hle Hw. lia.
  - intros w w' Hs [Hw|Hw]; [left|right; by eapply scoped_same].
    destruct Hs as (_ & Hp & _). unfold beyond. by rewrite Hp.
  - intros w [Hw|[[Ha _ _] _ _]]; [by left|by right].
  - intros w [Hw|[[_ Ht _] _ _]]; [by left|by right].
  - intros w [Hw|[[_ _ Hc] _ _]]; [by left|by right].
  - intros w [Hw|Hw].
    + assert (beyond n (set_promises (promises w ++ [Pending []]) w)) as Hb
        by (unfold beyond in *; simpl; rewrite length_app; simpl; lia).
      split; by left.
    + destruct (decide (List.length (promises w) = n)) as [Hn|Hn].
      * assert (beyond n (set_promises (promises w ++ [Pending []]) w)) as Hb
          by (unfold beyond in *; simpl; rewrite length_app; simpl; lia).
        split; by left.
      * split; [right; by apply scoped_new_promise|by right].
  - intros w p o [Hw|Hw] _; [left|right; by apply scoped_settle].
    pose proof (grows_settle p o w). unfold beyond in *. lia.
  - intros w p self k [Hw|Hw] Hself Hk; [left|right; by apply scoped_on_settled].
    pose proof (grows_on_settled p (self, k) w). unfold beyond in *. lia.
  - intros w a [Hw|[Hh Hr Hm]] Ha; [by left|right].
    split; [by apply handles_free_set_app|done..].
  - intros w cb [Hw|[Hh Hr Hm]] Hcb; [by left|right].
    split; [by apply handles_free_add_timer|done..].
  - intros w t [Hw|[Hh Hr Hm]]; [by left|right].
    split; [by apply handles_free_clear_timer|done..].
  - intros w p [Hw|[Hh Hr Hm]] Hp; [by left|right].
    split; [by apply handles_free_add_child|done..].
  - intros w c p [Hw|[Hh Hr Hm]] Hp; [by left|right].
    split; [by apply handles_free_spawned|done..].
  - intros w self k o rest [Hw|[Hh Hr Hm]] Hq _ _; [by left|right].
    split; [by apply handles_free_set_microtasks|done|].
    intros self' k' o' Hin. apply (Hm self' k' o'). rewrite Hq. by apply elem_of_cons; right.
Qed.
End Scoped.

Lemma initial_scoped n : scoped_at n initial_world.
Proof.
  split.
  - split; [by constructor|by intros t cb|by intros m c].
  - intros p rs self k Hp. destruct p as [|p]; simpl in Hp; [done|].
    by rewrite lookup_nil in Hp.
  - intros self k o Hin. by apply elem_of_nil in Hin.
Qed.

(** Every reachable world is well scoped: what it holds was allocated. *)
Lemma reachable_well_scoped E w : reachable E w -> well_scoped w.
Proof.
  intros Hw n. revert w Hw.
  assert (forall w, reachable E w -> beyond n w \/ scoped_at n w) as Hinv.
  { apply reachable_ind; [right; apply initial_scoped|].
    intros w o _ Hw. apply (safe_step_any E (scoped_discipline n) o w Hw).
    intros self k s rest _ Hq. destruct Hw as [Hw|[_ _ Hm]]; [by left|right].
    apply (Hm self k s). rewrite Hq. apply list_elem_of_here. }
  intros w Hw Hn. destruct (Hinv w Hw) as [Hb|Hs]; [|done]. unfold beyond in Hb. lia.
Qed.
(** ** The promise of a caller *)

Section Chain.
Context (C : promise).

Local Abbreviation P := (then_promise C).
Local Abbreviation Q := (catch_promise C).

Lemma chained_same h w w' : same_runtime w w' -> chained C h w -> chained C h w'.
Proof.
  intros Hs [Hh Hr Hm Ha Hcp Hcs Hap Has]. pose proof Hs as (_ & Hp & _ & Hq & _).
  split; rewrite ?Hp, ?Hq; try done. by eapply handles_free_same.
Qed.

Lemma chained_handles h w w' :
  promises w' = promises w -> microtasks w' = microtasks w ->
  handles_free (unowned C) w' -> chained C h w -> chained C h w'.
Proof.
  intros Hp Hq Hh' [Hh Hr Hm Ha Hcp Hcs Hap Has]. split; rewrite ?Hp, ?Hq; done.
Qed.

Lemma chained_new_promise h w :
  chained C h w ->
  chained C h (set_promises (promises w ++ [Pending []]) w) /\
  unowned C (List.length (promises w)).
Proof.
  intros [Hh Hr Hm Ha Hcp Hcs Hap Has].
  assert (forall q s, (q < List.length (promises w))%nat ->
            (promises w ++ [Pending []])%list !! q = Some s -> promises w !! q = Some s) as Hold.
  { intros q s Hq. by rewrite lookup_app_l. }
  assert (forall q s, promises w !! q = Some s ->
            (promises w ++ [Pending []])%list !! q = Some s) as Hnew.
  { intros q s Hq. by apply lookup_app_l_Some. }
  split; [split; simpl|unfold unowned, catch_promise in *; lia].
  - by apply handles_free_set_promises.
  - intros p rs self k Hp Hin. apply lookup_app_Some in Hp as [Hp|[_ Hp]]; [by eapply Hr|].
    apply list_lookup_singleton_Some in Hp as [_ [= <-]]. by apply elem_of_nil in Hin.
  - intros self k o Hin. destruct (Hm self k o Hin) as (Hk & HQ & HC).
    split; [done|]. split; intros Hs; [destruct (HQ Hs)|destruct (HC Hs)]; auto.
  - rewrite length_app. simpl. unfold catch_promise in *. lia.
  - intros rsq Hq. apply Hold in Hq; [|unfold catch_promise in *; lia].
    destruct (Hcp rsq Hq) as [(rs & HP & Hin)|(o & HP & Hin)]; [left|right]; eauto.
  - intros oq Hq. apply Hold in Hq; [|unfold catch_promise in *; lia]. destruct (Hcs oq Hq) as (o & HP & ->). eauto.
  - intros rsc Hc. apply Hold in Hc; [|unfold catch_promise in *; lia].
    destruct (Hap rsc Hc) as [(rs & HQ & Hin)|(o & HQ & Hin)]; [left|right]; eauto.
  - intros oc Hc. apply Hold in Hc; [|unfold catch_promise in *; lia]. auto.
Qed.

(** Settling a promise: in any way when it is not one of the chain; the
    promise of the [catch] with what the handler made of the outcome of
    the [then]; the caller's with the outcome of the [catch]. *)
Lemma chained_settle h w p o :
  chained C h w ->
  (p = Q -> exists o0, promises w !! P = Some (Settled o0) /\ o = Fulfilled (caught o0)) ->
  (p = C -> promises w !! Q = Some (Settled o)) ->
  chained C h (exec (settle p o) w).
Proof.
  intros Hc HpQ HpC. destruct (promises w !! p) as [[rs|s]|] eqn:Hp;
    [|rewrite settle_settled_world; [done|intros rs; by rewrite Hp]..].
  rewrite (settle_pending_world p o rs w Hp).
  destruct Hc as [Hh Hr Hm Ha Hcp Hcs Hap Has].
  assert (p < List.length (promises w))%nat as Hlt by (by eapply lookup_lt_Some).
  assert (forall q rs', <[p := Settled o]> (promises w) !! q = Some (Pending rs') ->
            q <> p /\ promises w !! q = Some (Pending rs')) as HL1.
  { intros q rs' Hq. apply list_lookup_insert_Some in Hq as [(_ & [=] & _)|[Hne Hq]]. auto. }
  assert (forall q o', <[p := Settled o]> (promises w) !! q = Some (Settled o') ->
            (q = p /\ o' = o) \/ promises w !! q = Some (Settled o')) as HL2.
  { intros q o' Hq. apply list_lookup_insert_Some in Hq as [(-> & [= ->] & _)|[Hne Hq]]; auto. }
  assert (forall q o', promises w !! q = Some (Settled o') ->
            <[p := Settled o]> (promises w) !! q = Some (Settled o')) as HL3.
  { intros q o' Hq. rewrite list_lookup_insert_ne; [done|]. intros ->. congruence. }
  assert (forall q rs', q <> p -> promises w !! q = Some (Pending rs') ->
            <[p := Settled o]> (promises w) !! q = Some (Pending rs')) as HL4.
  { intros q rs' Hne Hq. by rewrite list_lookup_insert_ne. }
  assert (<[p := Settled o]> (promises w) !! p = Some (Settled o)) as HL5
    by (by apply list_lookup_insert_eq).
  assert (forall x, x ∈ (h ++ microtasks w ++ List.map (fun f => (f, o)) rs)%list <->
            x ∈ (h ++ microtasks w)%list \/ exists f, x = (f, o) /\ f ∈ rs) as HM.
  { intros x. rewrite app_assoc, elem_of_app, elem_of_settled_reactions. done. }
  split; simpl.
  - by apply handles_free_set_microtasks, handles_free_set_promises.
  - intros q rs' self k Hq Hin. apply HL1 in Hq as [_ Hq]. by eapply Hr.
  - intros self k o' Hin. apply HM in Hin as [Hin|(f & [= <- <-] & Hf)].
    + destruct (Hm self k o' Hin) as (Hk & HQ & HC). split; [done|].
      split; intros Hs; [destruct (HQ Hs)|destruct (HC Hs)]; auto.
    + destruct (Hr p rs self k Hp Hf) as (Hk & HQ & HC). split; [done|].
      split; intros Hs; [destruct (HQ Hs) as [-> ->]|destruct (HC Hs) as [-> ->]]; auto.
  - by rewrite length_insert.
  - intros rsq Hq. apply HL1 in Hq as [Hne Hq].
    destruct (Hcp rsq Hq) as [(rs' & HP & Hin)|(o' & HP & Hin)].
    + destruct (decide (P = p)) as [Heq|Hne'].
      * right. exists o. rewrite Heq. split; [done|]. apply HM. right.
        exists (Q, KQueueCatch). split; [done|]. rewrite Heq in HP.
        assert (rs' = rs) as <- by congruence. done.
      * left. exists rs'. split; [by apply HL4|done].
    + right. exists o'. split; [by apply HL3|]. apply HM. by left.
  - intros oq Hq. apply HL2 in Hq as [[Heq ->]|Hq].
    + destruct (HpQ (eq_sym Heq)) as (o0 & HP & ->). exists o0. split; [by apply HL3|done].
    + destruct (Hcs oq Hq) as (o0 & HP & ->). exists o0. split; [by apply HL3|done].
  - intros rsc Hc. apply HL1 in Hc as [Hne Hc].
    destruct (Hap rsc Hc) as [(rs' & HQ & Hin)|(o' & HQ & Hin)].
    + destruct (decide (Q = p)) as [Heq|Hne'].
      * right. exists o. rewrite Heq. split; [done|]. apply HM. right.
        exists (C, KAdopt). split; [done|]. rewrite Heq in HQ.
        assert (rs' = rs) as <- by congruence. done.
      * left. exists rs'. split; [by apply HL4|done].
    + right. exists o'. split; [by apply HL3|]. apply HM. by left.
  - intros oc Hc. apply HL2 in Hc as [[Heq ->]|Hc].
    + apply HL3, HpC. done.
    + by apply HL3, Has.
Qed.

Lemma chained_on_settled h w p self k :
  chained C h w -> unowned C self -> kont_free (unowned C) k ->
  chained C h (exec (on_settled p (self, k)) w).
Proof.
  intros [Hh Hr Hm Ha Hcp Hcs Hap Has] [HsC HsQ] Hk. unfold exec, on_settled.
  destruct (promises w !! p) as [[rs|s]|] eqn:Hp; simpl; [| |done].
  - assert (p < List.length (promises w))%nat as Hlt by (by eapply lookup_lt_Some).
    set (ps := <[p := Pending (rs ++ [(self, k)])]> (promises w)).
    assert (forall q rs', ps !! q = Some (Pending rs') ->
              exists rs0, promises w !! q = Some (Pending rs0) /\
                forall f, f ∈ rs' -> f ∈ rs0 \/ (q = p /\ f = (self, k))) as HL1.
    { intros q rs' Hq. apply list_lookup_insert_Some in Hq as [(<- & [= <-] & _)|[Hne Hq]].
      - exists rs. split; [done|]. intros f Hf. apply elem_of_app in Hf as [Hf|Hf]; [by left|].
        apply list_elem_of_singleton in Hf. by right.
      - exists rs'. split; [done|]. by left. }
    assert (forall q o, ps !! q = Some (Settled o) -> promises w !! q = Some (Settled o)) as HL2.
    { intros q o Hq. by apply list_lookup_insert_Some in Hq as [(_ & [=] & _)|[_ Hq]]. }
    assert (forall q o, promises w !! q = Some (Settled o) -> ps !! q = Some (Settled o)) as HL3.
    { intros q o Hq. unfold ps. rewrite list_lookup_insert_ne; [done|]. intros ->. congruence. }
    assert (forall q rs0, promises w !! q = Some (Pending rs0) ->
              exists rs', ps !! q = Some (Pending rs') /\ forall f, f ∈ rs0 -> f ∈ rs') as HL4.
    { intros q rs0 Hq. destruct (decide (q = p)) as [->|Hne].
      - exists (rs ++ [(self, k)])%list. split; [by apply list_lookup_insert_eq|].
        intros f Hf. apply elem_of_app. left. congruence.
      - exists rs0. split; [|done]. unfold ps. by rewrite list_lookup_insert_ne. }
    split; simpl; fold ps.
    + by apply handles_free_set_promises.
    + intros q rs' self' k' Hq Hin. destruct (HL1 q rs' Hq) as (rs0 & Hq0 & Hsub).
      destruct (Hsub _ Hin) as [Hin0|[-> [= -> ->]]]; [by eapply Hr|].
      split; [done|]. split; intros ->; done.
    + intros self' k' o Hin. destruct (Hm self' k' o Hin) as (Hk' & HQ & HC). split; [done|].
      split; intros Hs; [destruct (HQ Hs)|destruct (HC Hs)]; auto.
    + unfold ps. by rewrite length_insert.
    + intros rsq Hq. destruct (HL1 _ _ Hq) as (rs0 & Hq0 & _).
      destruct (Hcp rs0 Hq0) as [(rs' & HP & Hin)|(o' & HP & Hin)].
      * left. destruct (HL4 _ _ HP) as (rs'' & HP' & Hsub). eauto.
      * right. eauto.
    + intros oq Hq. apply HL2 in Hq. destruct (Hcs oq Hq) as (o0 & HP & ->). eauto.
    + intros rsc Hc. destruct (HL1 _ _ Hc) as (rs0 & Hc0 & _).
      destruct (Hap rs0 Hc0) as [(rs' & HQ & Hin)|(o' & HQ & Hin)].
      * left. destruct (HL4 _ _ HQ) as (rs'' & HQ' & Hsub). eauto.
      * right. eauto.
    + intros oc Hc. apply HL2 in Hc. auto.
  - assert (forall x, x ∈ (h ++ microtasks w)%list ->
              x ∈ (h ++ microtasks w ++ [(self, k, s)])%list) as HM.
    { intros x Hx. rewrite app_assoc. apply elem_of_app. by left. }
    split; simpl; try done.
    + by apply handles_free_set_microtasks.
    + intros self' k' o Hin. rewrite app_assoc in Hin.
      apply elem_of_app in Hin as [Hin|Hin]; [by apply Hm|].
      apply list_elem_of_singleton in Hin as [= -> -> ->].
      split; [done|]. split; intros ->; done.
    + intros rsq Hq. destruct (Hcp rsq Hq) as [?|(o' & HP & Hin)]; [by left|right]. eauto.
    + intros rsc Hc. destruct (Hap rsc Hc) as [?|(o' & HQ & Hin)]; [by left|right]. eauto.
Qed.

(** The first microtask leaves the queue and runs. *)
Lemma chained_pop h w f rest :
  chained C h w -> microtasks w = f :: rest -> chained C (h ++ [f]) (set_microtasks rest w).
Proof.
  intros [Hh Hr Hm Ha Hcp Hcs Hap Has] Hq.
  assert (((h ++ [f]) ++ rest)%list = (h ++ microtasks w)%list) as Heq
    by (by rewrite <- app_assoc, Hq).
  split; simpl; rewrite ?Heq; try done. by apply handles_free_set_microtasks.
Qed.

(** It has run: it is dropped, provided it settled what it was to settle. *)
Lemma chained_drop h w self k o :
  chained C (h ++ [(self, k, o)]) w ->
  (self = Q -> exists oq, promises w !! Q = Some (Settled oq)) ->
  (self = C -> exists oc, promises w !! C = Some (Settled oc)) ->
  chained C h w.
Proof.
  intros [Hh Hr Hm Ha Hcp Hcs Hap Has] HsQ HsC.
  assert (forall x, x ∈ (h ++ microtasks w)%list -> x ∈ ((h ++ [(self, k, o)]) ++ microtasks w)%list)
    as Hsub.
  { intros x Hx. apply elem_of_app in Hx as [Hx|Hx]; rewrite !elem_of_app; auto. }
  assert (forall x, x ∈ ((h ++ [(self, k, o)]) ++ microtasks w)%list ->
            x ∈ (h ++ microtasks w)%list \/ x = (self, k, o)) as Hsplit.
  { intros x Hx. rewrite !elem_of_app in *. rewrite list_elem_of_singleton in Hx. tauto. }
  split; try done.
  - intros self' k' o' Hin. by apply Hm, Hsub.
  - intros rsq Hq. destruct (Hcp rsq Hq) as [?|(o' & HP & Hin)]; [by left|right].
    exists o'. split; [done|]. destruct (Hsplit _ Hin) as [?|[= <- _ _]]; [done|].
    destruct (HsQ eq_refl) as [oq Hoq]. congruence.
  - intros rsc Hc. destruct (Hap rsc Hc) as [?|(o' & HQ & Hin)]; [by left|right].
    exists o'. split; [done|]. destruct (Hsplit _ Hin) as [?|[= <- _ _]]; [done|].
    destruct (HsC eq_refl) as [oc Hoc]. congruence.
Qed.

Lemma chained_discipline h : discipline (unowned C) (chained C h) (fun _ => False).
Proof.
  split; try done.
  - intros w w'. apply chained_same.
  - intros w [[Ha _ _] _ _ _ _ _ _ _]. by right.
  - intros w [[_ Ht _] _ _ _ _ _ _ _]. by right.
  - intros w [[_ _ Hc] _ _ _ _ _ _ _]. by right.
  - intros w Hw. destruct (chained_new_promise h w Hw) as [Hw' Hp]. split; [done|by right].
  - intros w p o Hw [HpC HpQ]. by apply chained_settle.
  - intros w p self k. apply chained_on_settled.
  - intros w a Hw Ha. apply (chained_handles h w); [done..| |exact Hw].
    by apply handles_free_set_app; [apply (ch_handles _ _ _ Hw)|].
  - intros w cb Hw Hcb. apply (chained_handles h w); [done..| |exact Hw].
    by apply handles_free_add_timer; [apply (ch_handles _ _ _ Hw)|].
  - intros w t Hw. apply (chained_handles h w); [done..| |exact Hw].
    by apply handles_free_clear_timer, (ch_handles _ _ _ Hw).
  - intros w p Hw Hp. apply (chained_handles h w); [done..| |exact Hw].
    by apply handles_free_add_child; [apply (ch_handles _ _ _ Hw)|].
  - intros w n p Hw Hp. apply (chained_handles h w); [done..| |exact Hw].
    by apply handles_free_spawned; [apply (ch_handles _ _ _ Hw)|].
  - intros w self k o rest Hw Hq [HsC HsQ] Hk.
    apply (chained_drop h _ self k o); [by apply chained_pop|done..].
Qed.
End Chain.

Lemma settle_run p o w : settle p o w = (Normal tt, exec (settle p o) w).
Proof. unfold exec, settle. by destruct (promises w !! p) as [[rs|s]|]. Qed.

Lemma on_settled_run p f w : on_settled p f w = (Normal tt, exec (on_settled p f) w).
Proof. unfold exec, on_settled. by destruct (promises w !! p) as [[rs|s]|]. Qed.

Lemma resolve_run p v w :
  resolve p v w =
  (Normal tt, exec (settle p (Fulfilled v)) (set_trace (trace w ++ [EResolve p v]) w)).
Proof.
  unfold resolve, emit, update_world, mbind, M_bind, bind. simpl. by rewrite settle_run.
Qed.

Lemma settled_after p o w :
  (p < List.length (promises w))%nat ->
  exists s, promises (exec (settle p o) w) !! p = Some (Settled s).
Proof.
  intros Hp. destruct (promises w !! p) as [[rs|s]|] eqn:Hw.
  - rewrite (settle_pending_world p o rs w Hw). simpl. exists o. by apply list_lookup_insert_eq.
  - rewrite settle_settled_world; [by exists s|]. intros rs. by rewrite Hw.
  - apply lookup_ge_None in Hw. lia.
Qed.

(** The [catch] handler returns, whatever the outcome it is run on. *)
Lemma queue_catch_run o w :
  queue_catch o w = (Normal (Return (caught o)), exec (queue_catch o) w).
Proof.
  destruct o as [v|e]; [done|].
  unfold exec, queue_catch, Promise_resolve, new_promise, update_world,
    mbind, M_bind, bind, mret, M_ret, ret. simpl. rewrite settle_run. done.
Qed.

Section ChainSteps.
Context (E : env) (C : promise).

Local Abbreviation P := (then_promise C).
Local Abbreviation Q := (catch_promise C).

(** The [catch] handler of the submission runs: the promise of the
    [catch] is fulfilled with what it makes of the outcome of the turn. *)
Lemma chained_catch_microtask w k s rest :
  chained C [] w -> microtasks w = (Q, k, s) :: rest ->
  chained C [] (exec (run_microtask E) w).
Proof.
  intros Hw Hq.
  destruct (ch_microtasks _ _ _ Hw Q k s) as (_ & HQ & _); [rewrite Hq; apply list_elem_of_here|].
  destruct (HQ eq_refl) as [-> _].
  pose proof (chained_pop C [] w _ rest Hw Hq) as H0. simpl in H0.
  unfold exec. rewrite run_microtask_eq, Hq. unfold run_async. simpl resume.
  rewrite queue_catch_run.
  destruct (safe_resume E (chained_discipline C [(Q, KQueueCatch, s)]) KQueueCatch s
              (Forall_nil_2 _) _ H0) as [H1 _].
  simpl resume in H1. set (w1 := exec (queue_catch s) (set_microtasks rest w)) in *.
  rewrite resolve_run. simpl.
  set (w2 := set_trace (trace w1 ++ [EResolve Q (caught s)]) w1).
  assert (chained C [(Q, KQueueCatch, s)] w2) as H2 by (by apply (chained_same C _ w1)).
  apply (chained_drop C [] _ Q KQueueCatch s).
  - apply chained_settle; [done| |].
    + intros _. exists s. split; [|done].
      destruct (ch_microtasks _ _ _ H2 Q KQueueCatch s) as (_ & HQ2 & _); [apply list_elem_of_here|].
      by destruct (HQ2 eq_refl).
    + unfold catch_promise. intros Heq. exfalso. lia.
  - intros _. apply settled_after, (ch_allocated _ _ _ H2).
  - unfold catch_promise. intros Heq. exfalso. lia.
Qed.

(** The caller's promise adopts the outcome of the promise of the
    [catch]. *)
Lemma chained_adopt_microtask w k s rest :
  chained C [] w -> microtasks w = (C, k, s) :: rest ->
  chained C [] (exec (run_microtask E) w).
Proof.
  intros Hw Hq.
  destruct (ch_microtasks _ _ _ Hw C k s) as (_ & _ & HC); [rewrite Hq; apply list_elem_of_here|].
  destruct (HC eq_refl) as [-> HQ].
  destruct (ch_catch_settled _ _ _ Hw s HQ) as (o0 & HP & ->).
  pose proof (chained_pop C [] w _ rest Hw Hq) as H0. simpl in H0.
  unfold exec. rewrite run_microtask_eq, Hq. unfold run_async. simpl.
  rewrite resolve_run. simpl.
  set (w1 := set_microtasks rest w) in *.
  set (w2 := set_trace (trace w1 ++ [EResolve C (caught o0)]) w1).
  assert (chained C [(C, KAdopt, Fulfilled (caught o0))] w2) as H2
    by (by apply (chained_same C _ w1)).
  apply (chained_drop C [] _ C KAdopt (Fulfilled (caught o0))).
  - apply chained_settle; [done| |].
    + unfold catch_promise. intros Heq. exfalso. lia.
    + intros _. exact HQ.
  - unfold catch_promise. intros Heq. exfalso. lia.
  - intros _. apply settled_after. pose proof (ch_allocated _ _ _ H2) as Ha.
    unfold catch_promise in Ha. eapply Nat.lt_trans; [|exact Ha]. lia.
Qed.

(** The chain holds after every step. *)
Lemma chained_step o w : chained C [] w -> chained C [] (exec (step E o) w).
Proof.
  intros Hw.
  assert (o = OpMicrotask \/ o <> OpMicrotask) as [->|Ho] by (destruct o; auto; by right).
  - simpl. destruct (microtasks w) as [|[[self k] s] rest] eqn:Hq.
    + unfold exec. by rewrite run_microtask_eq, Hq.
    + destruct (decide (self = Q)) as [->|HsQ]; [by eapply chained_catch_microtask|].
      destruct (decide (self = C)) as [->|HsC]; [by eapply chained_adopt_microtask|].
      apply (safe_microtask E (chained_discipline C []) w self k s rest); [done..| |].
      * by split.
      * destruct (ch_microtasks _ _ _ Hw self k s) as (Hk & _); [|done].
        rewrite Hq. apply list_elem_of_here.
  - by apply (safe_event E (chained_discipline C []) o Ho w).
Qed.

Lemma chained_steps os w : chained C [] w -> chained C [] (steps E os w).
Proof.
  revert w. induction os as [|o os IH]; intros w Hw; [done|].
  simpl. apply IH. by apply chained_step.
Qed.

(** What the chain says of the caller's promise. *)
Lemma chained_never_rejected w e :
  chained C [] w -> promises w !! C <> Some (Settled (Rejected e)).
Proof.
  intros Hw Hc. apply (ch_adopt_settled _ _ _ Hw) in Hc.
  by destruct (ch_catch_settled _ _ _ Hw _ Hc) as (o & _ & ?).
Qed.

Lemma chained_outcome w o :
  chained C [] w -> promises w !! P = Some (Settled o) -> microtasks w = [] ->
  promises w !! Q = Some (Settled (Fulfilled (caught o))) /\
  promises w !! C = Some (Settled (Fulfilled (caught o))).
Proof.
  intros Hw HP Hq.
  assert (promises w !! Q = Some (Settled (Fulfilled (caught o)))) as HQ.
  { pose proof (ch_allocated _ _ _ Hw) as Ha. apply lookup_lt_is_Some in Ha as [[rsq|oq] HQ].
    - destruct (ch_catch_pending _ _ _ Hw rsq HQ) as [(rs & HP' & _)|(o' & _ & Hin)];
        [congruence|]. rewrite Hq in Hin. by apply elem_of_nil in Hin.
    - destruct (ch_catch_settled _ _ _ Hw oq HQ) as (o' & HP' & ->). congruence. }
  split; [done|].
  assert (C < List.length (promises w))%nat as Ha
    by (pose proof (ch_allocated _ _ _ Hw) as Ha; unfold catch_promise in Ha; lia).
  apply lookup_lt_is_Some in Ha as [[rsc|oc] HC].
  - destruct (ch_adopt_pending _ _ _ Hw rsc HC) as [(rs & HQ' & _)|(o' & _ & Hin)];
      [congruence|]. rewrite Hq in Hin. by apply elem_of_nil in Hin.
  - pose proof (ch_adopt_settled _ _ _ Hw oc HC). congruence.
Qed.
End ChainSteps.

Lemma on_settled_length p f w :
  List.length (promises (exec (on_settled p f) w)) = List.length (promises w).
Proof.
  unfold exec, on_settled. destruct (promises w !! p) as [[rs|s]|]; simpl; [|done..].
  by rewrite length_insert.
Qed.

(** What a submission does, one operation after the other: the caller's
    promise, the promise of the [then] with its reaction on the old
    queue, the promise of the [catch] with its reaction on that of the
    [then], the new queue, and the adoption by the caller's promise. *)
Lemma submit_world E prompt cwd w :
  let C := List.length (promises w) in
  exec (step E (OpSendCodexPrompt prompt cwd)) w =
  (let w1 := exec (on_settled (codexQueue w) (then_promise C, KQueueThen prompt cwd))
               (allocate (allocate w)) in
   let w2 := exec (on_settled (then_promise C) (catch_promise C, KQueueCatch)) (allocate w1) in
   let w3 := exec (on_settled (catch_promise C) (C, KAdopt))
               (set_codexQueue (catch_promise C) w2) in
   set_callers (callers w3 ++ [C]) w3).
Proof.
  cbv zeta. unfold exec at 1. simpl.
  unfold call_async, run_async, sendCodexPrompt, then_, new_promise, called, update_world,
    the_world, mbind, M_bind, bind, mret, M_ret, ret. simpl.
  repeat (rewrite on_settled_run; simpl).
  unfold allocate, then_promise, catch_promise. simpl.
  repeat (rewrite ?on_settled_length, ?length_app, ?Nat.add_1_r; simpl).
  done.
Qed.

Lemma on_settled_pending p f q rs w :
  promises w !! q = Some (Pending rs) ->
  exists rs', promises (exec (on_settled p f) w) !! q = Some (Pending rs').
Proof.
  intros Hq. unfold exec, on_settled.
  destruct (promises w !! p) as [[rs0|s]|] eqn:Hp; simpl; [|by exists rs..].
  destruct (decide (p = q)) as [->|Hne].
  - exists (rs0 ++ [f])%list. apply list_lookup_insert_eq. by eapply lookup_lt_Some.
  - exists rs. by rewrite list_lookup_insert_ne.
Qed.

Lemma on_settled_pending_world p f rs w :
  promises w !! p = Some (Pending rs) ->
  exec (on_settled p f) w = set_promises (<[p := Pending (rs ++ [f])]> (promises w)) w.
Proof. intros Hp. unfold exec, on_settled. by rewrite Hp. Qed.

Lemma kont_free_both C k :
  kont_free (other C) k -> kont_free (other (catch_promise C)) k -> kont_free (unowned C) k.
Proof.
  unfold kont_free. rewrite !Forall_forall. intros H1 H2 p Hp. split; [by apply H1|by apply H2].
Qed.

Lemma handles_free_both C w :
  handles_free (other C) w -> handles_free (other (catch_promise C)) w ->
  handles_free (unowned C) w.
Proof.
  intros [Ha Ht Hc] [Ha' Ht' Hc']. split.
  - unfold app_free in *. rewrite Forall_forall in *. intros wt Hwt.
    split; [by apply Ha|by apply Ha'].
  - intros t cb Hcb. split; [by eapply Ht|by eapply Ht'].
  - intros n c Hn. split; [by eapply Hc|by eapply Hc'].
Qed.

(** The chain is in place once the two reactions are registered. *)
Lemma chain_start C w rsC rsP :
  scoped_at C w -> scoped_at (catch_promise C) w ->
  promises w !! C = Some (Pending rsC) ->
  promises w !! then_promise C = Some (Pending rsP) ->
  promises w !! catch_promise C = Some (Pending []) ->
  chained C []
    (exec (on_settled (catch_promise C) (C, KAdopt))
       (set_codexQueue (catch_promise C)
          (exec (on_settled (then_promise C) (catch_promise C, KQueueCatch)) w))).
Proof.
  intros [Hh Hr Hm] [Hh' Hr' Hm'] HC HP HQ.
  assert (then_promise C <> catch_promise C) as HPQ by (unfold then_promise, catch_promise; lia).
  assert (C <> catch_promise C) as HCQ by (unfold catch_promise; lia).
  assert (C <> then_promise C) as HCP by (unfold then_promise; lia).
  rewrite (on_settled_pending_world _ _ rsP w HP).
  match goal with |- context [set_promises ?ps w] => set (ps2 := ps) end.
  assert (ps2 !! catch_promise C = Some (Pending [])) as HQ2
    by (unfold ps2; by rewrite list_lookup_insert_ne).
  rewrite (on_settled_pending_world (catch_promise C) (C, KAdopt) []
             (set_codexQueue (catch_promise C) (set_promises ps2 w)) HQ2). simpl.
  match goal with |- context [set_promises ?ps _] => set (ps3 := ps) end.
  assert (catch_promise C < List.length (promises w))%nat as HltQ by (by eapply lookup_lt_Some).
  assert (then_promise C < List.length (promises w))%nat as HltP by (by eapply lookup_lt_Some).
  assert (ps3 !! catch_promise C = Some (Pending [(C, KAdopt)])) as HQ3.
  { unfold ps3. apply list_lookup_insert_eq. unfold ps2. by rewrite length_insert. }
  assert (ps3 !! then_promise C = Some (Pending (rsP ++ [(catch_promise C, KQueueCatch)]))) as HP3.
  { unfold ps3. rewrite list_lookup_insert_ne by done. unfold ps2. by apply list_lookup_insert_eq. }
  assert (ps3 !! C = Some (Pending rsC)) as HC3.
  { unfold ps3, ps2. by rewrite !list_lookup_insert_ne. }
  assert (forall q s, q <> catch_promise C -> q <> then_promise C ->
            ps3 !! q = Some s -> promises w !! q = Some s) as Hold.
  { intros q s H1 H2. unfold ps3, ps2. by rewrite !list_lookup_insert_ne. }
  split; simpl.
  - apply handles_free_both; split; simpl; (apply Hh || apply Hh').
  - intros q rs self k Hq Hin.
    destruct (decide (q = catch_promise C)) as [->|HqQ].
    { assert (rs = [(C, KAdopt)]) as -> by congruence.
      apply list_elem_of_singleton in Hin as [= -> ->].
      split; [constructor|]. split; [done|]. by intros _. }
    destruct (decide (q = then_promise C)) as [->|HqP].
    { assert (rs = (rsP ++ [(catch_promise C, KQueueCatch)])%list) as -> by congruence.
      apply elem_of_app in Hin as [Hin|Hin].
      - destruct (Hr _ _ _ _ HP Hin) as [H1 H2]. destruct (Hr' _ _ _ _ HP Hin) as [H1' H2'].
        split; [by apply kont_free_both|]. split; intros ->; done.
      - apply list_elem_of_singleton in Hin as [= -> ->].
        split; [constructor|]. split; [by intros _|]. done. }
    apply Hold in Hq; [|done..].
    destruct (Hr _ _ _ _ Hq Hin) as [H1 H2]. destruct (Hr' _ _ _ _ Hq Hin) as [H1' H2'].
    split; [by apply kont_free_both|]. split; intros ->; done.
  - intros self k o Hin.
    destruct (Hm _ _ _ Hin) as [H1 H2]. destruct (Hm' _ _ _ Hin) as [H1' H2'].
    split; [by apply kont_free_both|]. split; intros ->; done.
  - unfold ps3, ps2. by rewrite !length_insert.
  - intros rsq _. left. eexists. split; [exact HP3|]. apply elem_of_app. right.
    apply list_elem_of_here.
  - intros oq Hq. congruence.
  - intros rsc _. left. eexists. split; [exact HQ3|]. apply list_elem_of_here.
  - intros oc Hc. congruence.
Qed.

Lemma scoped_allocate n w : scoped_at n w -> scoped_at n (allocate w).
Proof. apply scoped_new_promise. Qed.

(** A submission from a well scoped world puts the chain in place. *)
Lemma submit_chained E prompt cwd w :
  well_scoped w ->
  chained (List.length (promises w)) [] (exec (step E (OpSendCodexPrompt prompt cwd)) w).
Proof.
  intros Hw. rewrite submit_world. cbv zeta.
  set (C := List.length (promises w)).
  set (w1 := exec (on_settled (codexQueue w) (then_promise C, KQueueThen prompt cwd))
               (allocate (allocate w))).
  assert (forall n, (C <= n)%nat -> n <> then_promise C -> scoped_at n (allocate w1)) as Hs.
  { intros n Hn Hne. apply scoped_allocate, scoped_on_settled; [|done|constructor].
    by apply scoped_allocate, scoped_allocate, Hw. }
  assert (promises (allocate (allocate w)) !! C = Some (Pending [])) as HC0.
  { unfold allocate. simpl. rewrite <- app_assoc. by apply list_lookup_middle. }
  assert (promises (allocate (allocate w)) !! then_promise C = Some (Pending [])) as HP0.
  { unfold allocate. simpl. apply list_lookup_middle. rewrite length_app. simpl.
    unfold then_promise, C. lia. }
  destruct (on_settled_pending (codexQueue w) (then_promise C, KQueueThen prompt cwd) _ _ _ HC0)
    as [rsC HC1]. fold w1 in HC1.
  destruct (on_settled_pending (codexQueue w) (then_promise C, KQueueThen prompt cwd) _ _ _ HP0)
    as [rsP HP1]. fold w1 in HP1.
  assert (List.length (promises w1) = catch_promise C) as Hlen.
  { unfold w1. rewrite on_settled_length. unfold allocate. simpl. rewrite !length_app. simpl.
    unfold catch_promise, C. lia. }
  eapply chained_same; [|apply (chain_start C (allocate w1) rsC rsP)].
  - done.
  - apply Hs; [done|]. unfold then_promise. lia.
  - apply Hs; unfold catch_promise, then_promise; lia.
  - unfold allocate. simpl. by apply lookup_app_l_Some.
  - unfold allocate. simpl. by apply lookup_app_l_Some.
  - unfold allocate. simpl. by apply list_lookup_middle.
Qed.

(** * The claims *)

(** ** Seed-once *)

Lemma configured_document_context (E : env) : configured_document E (codex_context E).
Proof.
  unfold codex_context.
  destruct (String.eqb_spec (Js.trim (CODEX_CONTEXT_TEXT E)) "") as [Htext|Htext]; simpl.
  - destruct (String.eqb_spec (CODEX_CONTEXT_PATH E) "") as [Hpath|Hpath].
    + by apply DocumentNoPath.
    + destruct (readFileSync E (expandHome E (CODEX_CONTEXT_PATH E))) as [text|] eqn:Hfile.
      * by apply DocumentFile.
      * by apply DocumentUnreadable.
  - by apply DocumentText.
Qed.

Lemma configured_document_unique (E : env) (d d' : string) :
  configured_document E d -> configured_document E d' -> d = d'.
Proof. intros [] []; congruence. Qed.

Lemma seed_text_block (E : env) (document : string) :
  seed_text E document = seed_block (CODEX_SYSTEM_MESSAGE E) document.
Proof.
  unfold seed_text, seed_block, Js.join.
  by destruct (String.eqb_spec document "") as [->|Hne].
Qed.

(** C2 — Seed-once.  For a thread identifier that is not yet in
    [seededThreads], [buildTurnInput] returns two items: the seed block,
    which is the trimmed system guidance followed, when a reference
    document is configured, by a blank line, the heading and the document;
    and then the prompt.  It marks the thread: from then on, whatever the
    bridge does short of a subprocess exit, every call for the same thread
    returns the prompt item alone.  For a thread that is already seeded the
    call returns the prompt item alone.  A thread identifier that is an
    object is the same thread only as the same object. *)
Theorem seed_once (E : env) (prompt threadId : json) (w : world) :
  (set_has threadId (seededThreads (codexApp w)) = false ->
     (exists document,
        configured_document E document /\
        result (buildTurnInput E prompt threadId) w =
          Normal [text_item (JStr (seed_block (CODEX_SYSTEM_MESSAGE E) document));
                  text_item prompt]) /\
     seededThreads (codexApp (exec (buildTurnInput E prompt threadId) w)) =
       (seededThreads (codexApp w) ++ [threadId])%list /\
     forall os prompt',
       Forall (fun o => forall n, o <> OpChildClose n) os ->
       result (buildTurnInput E prompt' threadId)
         (steps E os (exec (buildTurnInput E prompt threadId) w)) =
       Normal [text_item prompt']) /\
  (set_has threadId (seededThreads (codexApp w)) = true ->
     result (buildTurnInput E prompt threadId) w = Normal [text_item prompt] /\
     seededThreads (codexApp (exec (buildTurnInput E prompt threadId) w)) =
       seededThreads (codexApp w)).
Proof.
  pose proof (aspec_exec _ w _ (buildTurnInput_spec E prompt threadId (codexApp w))) as Hfirst.
  cbv beta in Hfirst. split.
  - intros Hnew. rewrite Hnew in Hfirst. destruct Hfirst as [Hr Ha]. split; [|split].
    + exists (codex_context E). split; [apply configured_document_context|].
      by rewrite <- seed_text_block.
    + rewrite Ha. simpl. unfold set_add. by rewrite Hnew.
    + intros os prompt' Hos.
      set (w1 := steps E os (exec (buildTurnInput E prompt threadId) w)).
      assert (set_has threadId (seededThreads (codexApp w1)) = true) as Hseeded.
      { apply steps_seeded; [exact Hos|]. rewrite Ha. simpl. apply set_has_add_same. }
      pose proof (aspec_exec _ w1 _ (buildTurnInput_spec E prompt' threadId (codexApp w1)))
        as Hnext.
      cbv beta in Hnext. rewrite Hseeded in Hnext. apply Hnext.
  - intros Hold. rewrite Hold in Hfirst. destruct Hfirst as [Hr Ha]. split; [exact Hr|].
    by rewrite Ha.
Qed.

(** With a reference document configured, the first turn on thread [T1]
    carries the trimmed guidance, the heading and the trimmed document; a
    second call, after other events, carries the prompt alone, and so does
    a call in the example run, where [T1] was seeded by the first turn. *)
Lemma seed_once_witness :
  (result (buildTurnInput example_env_with_document (JStr "hello") (JStr "T1")) initial_world =
     Normal [text_item (JStr ("Answer briefly." ++ newline ++ newline ++
                              "Anki Card Spec (follow strictly):" ++ newline ++
                              "Prefer cloze deletions."));
             text_item (JStr "hello")] /\
   result (buildTurnInput example_env_with_document (JStr "again") (JStr "T1"))
     (steps example_env_with_document [OpStderrData "warming up"; OpTimer 7]
        (exec (buildTurnInput example_env_with_document (JStr "hello") (JStr "T1"))
           initial_world)) =
     Normal [text_item (JStr "again")]) /\
  result (buildTurnInput example_env (JStr "again") (JStr "T1")) world_active_turn =
    Normal [text_item (JStr "again")].
Proof.
  split.
  - destruct (seed_once example_env_with_document (JStr "hello") (JStr "T1") initial_world)
      as [Hfirst _].
    destruct (Hfirst eq_refl) as ((document & Hdoc & Hr) & _ & Hlater). split.
    + rewrite Hr.
      rewrite (configured_document_unique _ _ _ Hdoc
                 (DocumentText example_env_with_document ltac:(vm_compute; discriminate))).
      vm_compute. reflexivity.
    + apply Hlater. repeat constructor; discriminate.
  - destruct (seed_once example_env (JStr "again") (JStr "T1") world_active_turn) as [_ Hsecond].
    apply Hsecond. vm_compute. reflexivity.
Defined.

(** Thread identifiers that are objects: two answers to [thread/start]
    that read alike are two objects, hence two threads, and each gets its
    seed; the same object is seeded once. *)
Example seed_once_objects :
  let first := JObjAt 1 [("n", JNum 7)] in
  let second := JObjAt 2 [("n", JNum 7)] in
  let w1 := exec (buildTurnInput example_env (JStr "one") first) initial_world in
  result (buildTurnInput example_env (JStr "two") second) w1 =
    Normal [text_item (JStr default_system_message); text_item (JStr "two")] /\
  result (buildTurnInput example_env (JStr "two") first) w1 = Normal [text_item (JStr "two")].
Proof. split; vm_compute; reflexivity. Qed.

(** ** Crash reset *)

(** C4 — Crash reset.  From every state, [reset] completes normally;
    it rejects, in this order, the waiter of every pending request, the
    waiter of the active turn and the login waiter, each with the error
    "Codex app-server exited." (so every such promise that was pending is
    rejected with it); afterwards the pending table, [threadByCwd] and
    [seededThreads] are empty and [currentTurn] and [loginWaiter] are null.
    It is what the [close] handler of a spawned child runs. *)
Theorem crash_reset (w : world) :
  result reset w = Normal tt /\
  pending (codexApp (exec reset w)) = [] /\
  threadByCwd (codexApp (exec reset w)) = ∅ /\
  seededThreads (codexApp (exec reset w)) = [] /\
  currentTurn (codexApp (exec reset w)) = None /\
  loginWaiter (codexApp (exec reset w)) = None /\
  trace (exec reset w) =
    (trace w ++ match rl (codexApp w) with Some _ => [ERlClose] | None => [] end
       ++ flat_map (reject_effects exited) (all_waiters (codexApp w)))%list /\
  (forall wt rs,
      In wt (all_waiters (codexApp w)) ->
      promises w !! w_promise wt = Some (Pending rs) ->
      promises (exec reset w) !! w_promise wt = Some (Settled (Rejected exited))) /\
  (forall E n c,
      children w !! n = Some c -> c_spawned c = true ->
      step E (OpChildClose n) w = reset w).
Proof.
  unfold result, exec. rewrite reset_eq. simpl.
  destruct (reject_all_world (all_waiters (codexApp w)) exited (close_rl w))
    as (w' & Hrun & _ & Htrace & _ & Hrej).
  unfold exec. rewrite Hrun. simpl. repeat split; try done.
  - rewrite Htrace. unfold close_rl. destruct (rl (codexApp w)); simpl; [|done].
    by rewrite <- app_assoc.
  - intros wt rs Hin Hp. eapply Hrej; [exact Hin|].
    unfold close_rl. destruct (rl (codexApp w)); exact Hp.
  - intros E n c Hc Hs. simpl. unfold on_child_close, mbind, M_bind, bind, the_world.
    rewrite Hc, Hs, reset_eq. unfold exec. by rewrite Hrun.
Qed.

(** While request 4 ([turn/start]) is pending, the subprocess exits: its
    waiter is rejected. *)
Lemma crash_reset_witness :
  promises (exec reset world_turn_requested) !! 13%nat = Some (Settled (Rejected exited)) /\
  step example_env (OpChildClose 0) world_turn_requested = reset world_turn_requested.
Proof.
  destruct (crash_reset world_turn_requested)
    as (_ & _ & _ & _ & _ & _ & _ & Hrej & Hclose). split.
  - apply (Hrej {| w_promise := 13; w_timer := 3 |} [(4%nat, KRunTurnTurnStarted)]).
    + vm_compute. by left.
    + vm_compute. reflexivity.
  - apply (Hclose example_env 0%nat {| c_start := 6; c_spawned := true |}).
    + vm_compute. reflexivity.
    + reflexivity.
Defined.

(** ** Request correlation *)

Lemma waiter_resolve_world wt v w rs :
  promises w !! w_promise wt = Some (Pending rs) ->
  promises (exec (waiter_resolve wt v) w) !! w_promise wt = Some (Settled (Fulfilled v)).
Proof.
  intros Hp.
  unfold exec, waiter_resolve, clearTimeout, resolve, emit, update_world, settle,
    mbind, M_bind, bind. simpl. rewrite Hp. simpl.
  apply list_lookup_insert_eq. by eapply lookup_lt_Some.
Qed.

Lemma reject_world p e w rs :
  promises w !! p = Some (Pending rs) ->
  promises (exec (reject p e) w) !! p = Some (Settled (Rejected e)).
Proof.
  intros Hp.
  unfold exec, reject, emit, update_world, settle, mbind, M_bind, bind. simpl. rewrite Hp. simpl.
  apply list_lookup_insert_eq. by eapply lookup_lt_Some.
Qed.

(** The claim as stated fails: the pending entry of request 4 disappears
    when the subprocess exits, though no response carried its identifier
    and its time-out did not fire. *)
Lemma pending_removed_by_exit :
  ~ (forall o k entry,
        JsMap.get k (pending (codexApp world_turn_requested)) = Some entry ->
        JsMap.get k (pending (codexApp (exec (step example_env o) world_turn_requested))) = None ->
        (exists message, o = OpStdoutLine (Some message) /\ Js.get message "id" = Some (JNum k)) \/
        (exists t method p, o = OpTimer t /\
           timers world_turn_requested !! t = Some (Some (RpcTimedOut k method p)))).
Proof.
  intros Hclaim.
  destruct (Hclaim (OpChildClose 0) 4 {| w_promise := 13; w_timer := 3 |})
    as [(message & Ho & _)|(t & method & p & Ho & _)]; try discriminate.
  - vm_compute. reflexivity.
  - vm_compute. reflexivity.
Qed.

(** A response that carries the identifier of request 4 with an error
    payload whose message does not convert removes the entry without
    settling the waiter: the promise of the request stays pending, and its
    time-out stays armed. *)
Example response_error_without_text :
  let line := OpStdoutLine (Some (JObj [("id", JNum 4);
                                        ("error", JObj [("message", JObj [("toString", JNum 1)])])])) in
  JsMap.get 4 (pending (codexApp world_turn_requested)) =
    Some {| w_promise := 13; w_timer := 3 |} /\
  result (step example_env line) world_turn_requested = Thrown not_primitive /\
  JsMap.get 4 (pending (codexApp (exec (step example_env line) world_turn_requested))) = None /\
  promises (exec (step example_env line) world_turn_requested) !! 13%nat =
    Some (Pending [(4%nat, KRunTurnTurnStarted)]) /\
  timers (exec (step example_env line) world_turn_requested) !! 3%nat =
    Some (Some (RpcTimedOut 4 "turn/start" 13)).
Proof. repeat split; vm_compute; reflexivity. Qed.

(** C8 — Request correlation, amended.  In every reachable state:
    [sendRpc] allocates the current value of [nextId], which is greater
    than every pending identifier and is not pending, appends it to the
    table with the promise it returns and the time-out it arms for that
    very identifier and promise, and increments the counter, so every
    identifier allocated later is greater.  A pending entry disappears in
    one step only if that step is a response line carrying its identifier,
    the firing of a time-out armed for it, or the exit of the subprocess.
    Each of the three removes it: a response carrying the identifier of a
    pending entry first removes the entry and then settles its waiter,
    resolving it with the result (or [{}]) when the response has no truthy
    [error] and rejecting it with the message of the error payload
    otherwise (when that message does not convert, [new Error] throws and
    the waiter is left as it is); a time-out armed for an identifier, when
    it fires, first removes the entry and then rejects the promise with a
    time-out error; the exit of the subprocess empties the table and
    rejects every waiter with "Codex app-server exited.". *)
Theorem request_correlation (E : env) (w : world) (Hw : reachable E w) :
  (forall method params ms,
      let id := nextId (codexApp w) in
      let p := List.length (promises w) in
      let t := List.length (timers w) in
      let w1 := exec (sendRpc method params ms) w in
      (forall k, In k (JsMap.keys (pending (codexApp w))) -> k < id) /\
      JsMap.get id (pending (codexApp w)) = None /\
      result (sendRpc method params ms) w = Normal p /\
      JsMap.keys (pending (codexApp w1)) = (JsMap.keys (pending (codexApp w)) ++ [id])%list /\
      JsMap.get id (pending (codexApp w1)) = Some {| w_promise := p; w_timer := t |} /\
      timers w1 !! t = Some (Some (RpcTimedOut id method p)) /\
      nextId (codexApp w1) = id + 1 /\
      forall os, id < nextId (codexApp (steps E os w1))) /\
  (forall o k entry,
      JsMap.get k (pending (codexApp w)) = Some entry ->
      JsMap.get k (pending (codexApp (exec (step E o) w))) = None ->
      (exists message, o = OpStdoutLine (Some message) /\ Js.get message "id" = Some (JNum k)) \/
      (exists t method p, o = OpTimer t /\ timers w !! t = Some (Some (RpcTimedOut k method p))) \/
      (exists n, o = OpChildClose n)) /\
  (forall message k entry,
      Js.get message "id" = Some (JNum k) ->
      JsMap.get k (pending (codexApp w)) = Some entry ->
      let w' := exec (handleLine E (Some message)) w in
      let printed :=
        Js.to_string (Js.or_else (Js.get_opt (Js.get message "error") "message")
                        (JStr "Codex error")) in
      JsMap.get k (pending (codexApp w')) = None /\
      (Js.truthy (Js.get message "error") = false ->
         handleLine E (Some message) w =
           waiter_resolve entry (Js.or (Js.get message "result") (Some (JObj [])))
             (remove_pending k w) /\
         forall rs, promises w !! w_promise entry = Some (Pending rs) ->
           promises w' !! w_promise entry =
             Some (Settled (Fulfilled (Js.or (Js.get message "result") (Some (JObj [])))))) /\
      (forall text,
         Js.truthy (Js.get message "error") = true -> printed = Some text ->
         handleLine E (Some message) w = waiter_reject entry (Error text) (remove_pending k w) /\
         forall rs, promises w !! w_promise entry = Some (Pending rs) ->
           promises w' !! w_promise entry = Some (Settled (Rejected (Error text)))) /\
      (Js.truthy (Js.get message "error") = true -> printed = None ->
         handleLine E (Some message) w = (Thrown not_primitive, remove_pending k w))) /\
  (forall t k method p,
      timers w !! t = Some (Some (RpcTimedOut k method p)) ->
      let w' := exec (step E (OpTimer t)) w in
      step E (OpTimer t) w =
        reject p (timeout_error method (codexApp w)) (remove_pending k (disarm t w)) /\
      JsMap.get k (pending (codexApp w')) = None /\
      forall rs, promises w !! p = Some (Pending rs) ->
        promises w' !! p = Some (Settled (Rejected (timeout_error method (codexApp w))))) /\
  (forall n c,
      children w !! n = Some c -> c_spawned c = true ->
      let w' := exec (step E (OpChildClose n)) w in
      pending (codexApp w') = [] /\
      forall k entry rs,
        JsMap.get k (pending (codexApp w)) = Some entry ->
        promises w !! w_promise entry = Some (Pending rs) ->
        promises w' !! w_promise entry = Some (Settled (Rejected exited))).
Proof.
  pose proof (reachable_well_numbered E w Hw) as Hnum.
  split; [|split; [|split; [|split]]].
  - intros method params ms id p t w1.
    destruct (sendRpc_run method params ms w) as (Hr & Ha & _ & Ht & _).
    fold w1 in Ha, Ht. fold id p t in Hr, Ha, Ht.
    repeat split.
    + intros k Hin. destruct (Z.lt_ge_cases k id) as [|Hge]; [done|].
      apply Hnum in Hge. by apply get_None_keys in Hge.
    + apply Hnum. unfold id. lia.
    + exact Hr.
    + rewrite Ha. simpl. apply keys_set_fresh, Hnum. unfold id. lia.
    + rewrite Ha. simpl. apply get_set_eq.
    + rewrite Ht. by apply list_lookup_middle.
    + by rewrite Ha.
    + intros os. pose proof (steps_nextId E os w1) as Hmono.
      rewrite Ha in Hmono at 1. simpl in Hmono. lia.
  - intros o k entry. by apply step_removal.
  - intros message k entry Hid Hk w' printed.
    pose proof (handleLine_response E message k entry w Hid Hk) as Hrun.
    assert (JsMap.get k (pending (codexApp w')) = None) as Hgone.
    { unfold w', exec. rewrite Hrun.
      fold (exec (settle_response message entry) (remove_pending k w)).
      rewrite settle_response_app. simpl. apply get_delete_eq. }
    split; [exact Hgone|]. unfold w', exec. rewrite Hrun. unfold settle_response.
    split; [|split].
    + intros ->. split; [done|]. intros rs Hp.
      by apply (waiter_resolve_world entry _ (remove_pending k w) rs).
    + intros text -> Hprinted. unfold mbind, M_bind, bind, lift, ToString.
      fold printed. rewrite Hprinted. split; [done|]. intros rs Hp.
      destruct (waiter_reject_world entry (Error text) (remove_pending k w))
        as (w2 & -> & _ & _ & _ & Hrej & _). by apply (Hrej rs).
    + intros -> Hprinted. unfold mbind, M_bind, bind, lift, ToString.
      fold printed. by rewrite Hprinted.
  - intros t k method p Ht w'.
    assert (step E (OpTimer t) w =
            reject p (timeout_error method (codexApp w)) (remove_pending k (disarm t w))) as Hrun.
    { simpl. rewrite fire_timer_eq, Ht. simpl. by rewrite rpc_timed_out_run. }
    split; [exact Hrun|]. unfold w', exec. rewrite Hrun. split.
    + destruct (runtime_only_reject p (timeout_error method (codexApp w))
                  (remove_pending k (disarm t w))) as (x & w2 & -> & Hw2).
      simpl. rewrite Hw2. simpl. apply get_delete_eq.
    + intros rs Hp. by apply (reject_world p _ (remove_pending k (disarm t w)) rs).
  - intros n c Hc Hs w'.
    assert (step E (OpChildClose n) w = reset w) as Hrun.
    { simpl. unfold on_child_close, mbind, M_bind, bind, the_world. by rewrite Hc, Hs. }
    unfold w', exec. rewrite Hrun, reset_eq. simpl. split; [done|].
    intros k entry rs Hk Hp.
    destruct (reject_all_world (all_waiters (codexApp w)) exited (close_rl w))
      as (w2 & Hall & _ & _ & _ & Hrej).
    unfold exec. rewrite Hall. simpl. apply (Hrej entry rs).
    + unfold all_waiters. apply in_or_app. left. unfold JsMap.values.
      clear -Hk. induction (pending (codexApp w)) as [|[k' v] m IH]; [done|].
      simpl in *. destruct (decide (k = k')); [left; congruence|right; auto].
    + unfold close_rl. by destruct (rl (codexApp w)).
Qed.

(** With [turn/start] pending as request 4: the next request would be
    number 5, with its own time-out; the answer to request 4 removes its
    entry and fulfils its promise; so would its time-out (timer 3) and the
    exit of the subprocess, rejecting it. *)
Lemma request_correlation_witness :
  JsMap.keys (pending (codexApp (exec (sendRpc "thread/start" (JObj []) 10000)
                                   world_turn_requested))) = [4; 5] /\
  timers (exec (sendRpc "thread/start" (JObj []) 10000) world_turn_requested) !! 4%nat =
    Some (Some (RpcTimedOut 5 "thread/start" 14)) /\
  promises (exec (handleLine example_env (Some (JObj [("id", JNum 4); ("result", JObj [])])))
              world_turn_requested) !! 13%nat = Some (Settled (Fulfilled (Some (JObj [])))) /\
  promises (exec (step example_env (OpTimer 3)) world_turn_requested) !! 13%nat =
    Some (Settled (Rejected (Error "Codex app-server timeout on turn/start"))) /\
  promises (exec (step example_env (OpChildClose 0)) world_turn_requested) !! 13%nat =
    Some (Settled (Rejected exited)).
Proof.
  assert (reachable example_env world_turn_requested) as Hw
    by apply reachable_run, reachable_initial.
  destruct (request_correlation example_env world_turn_requested Hw)
    as (Halloc & _ & Hresp & Htime & Hexit).
  split; [|split; [|split; [|split]]].
  - destruct (Halloc "thread/start" (JObj []) 10000) as (_ & _ & _ & Hkeys & _). exact Hkeys.
  - destruct (Halloc "thread/start" (JObj []) 10000) as (_ & _ & _ & _ & _ & Htimer & _).
    exact Htimer.
  - destruct (Hresp (JObj [("id", JNum 4); ("result", JObj [])]) 4
                {| w_promise := 13; w_timer := 3 |}) as (_ & Hok & _);
      [vm_compute; reflexivity..|].
    destruct Hok as (_ & Hp); [vm_compute; reflexivity|].
    apply (Hp [(4%nat, KRunTurnTurnStarted)]). vm_compute. reflexivity.
  - destruct (Htime 3%nat 4 "turn/start" 13%nat) as (_ & _ & Hp); [vm_compute; reflexivity|].
    apply (Hp [(4%nat, KRunTurnTurnStarted)]). vm_compute. reflexivity.
  - destruct (Hexit 0%nat {| c_start := 6; c_spawned := true |}) as (_ & Hp);
      [vm_compute; reflexivity..|].
    apply (Hp 4 {| w_promise := 13; w_timer := 3 |} [(4%nat, KRunTurnTurnStarted)]);
      vm_compute; reflexivity.
Defined.

(** ** The counter across restarts *)

(** C10 — [reset] keeps [nextId].  In every reachable state the pending
    identifiers are below [nextId]; [reset] leaves [nextId] as it is, and
    whatever happens afterwards the counter only grows, so every request
    sent to a later subprocess carries an identifier that is at least the
    value at the reset; no identifier below that value is pending again,
    and a response line carrying one changes nothing. *)
Theorem nextId_survives_reset (E : env) (w : world) (Hw : reachable E w) :
  (forall k entry, JsMap.get k (pending (codexApp w)) = Some entry -> k < nextId (codexApp w)) /\
  nextId (codexApp (exec reset w)) = nextId (codexApp w) /\
  (forall os, nextId (codexApp w) <= nextId (codexApp (steps E os (exec reset w)))) /\
  (forall os k message,
      k < nextId (codexApp w) ->
      Js.get message "id" = Some (JNum k) ->
      JsMap.get k (pending (codexApp (steps E os (exec reset w)))) = None /\
      handleLine E (Some message) (steps E os (exec reset w)) =
        (Normal tt, steps E os (exec reset w))).
Proof.
  assert (codexApp (exec reset w) = reset_app (codexApp w)) as Hreset
    by (unfold exec; by rewrite reset_eq).
  assert (forall os k, k < nextId (codexApp w) ->
            JsMap.get k (pending (codexApp (steps E os (exec reset w)))) = None) as Hold.
  { intros os k Hk. apply steps_old_ids; by rewrite Hreset. }
  repeat split.
  - intros k entry Hk. destruct (Z.lt_ge_cases k (nextId (codexApp w))) as [|Hge]; [done|].
    rewrite (reachable_well_numbered E w Hw k Hge) in Hk. discriminate.
  - by rewrite Hreset.
  - intros os. pose proof (steps_nextId E os (exec reset w)) as Hmono.
    by rewrite Hreset in Hmono at 1.
  - by apply Hold.
  - apply handleLine_unmatched with (k := k); [done|]. by apply Hold.
Qed.

(** Request 4 was sent to the first subprocess.  After it exits and a
    second one is spawned, the counter continues at 5 and a late answer to
    request 4 is ignored. *)
Lemma nextId_survives_reset_witness :
  nextId (codexApp (exec reset world_turn_requested)) = 5 /\
  handleLine example_env (Some (JObj [("id", JNum 4); ("result", JObj [])]))
    (steps example_env [OpEnsureStarted; OpChildSpawn 1] (exec reset world_turn_requested)) =
  (Normal tt, steps example_env [OpEnsureStarted; OpChildSpawn 1] (exec reset world_turn_requested)).
Proof.
  assert (reachable example_env world_turn_requested) as Hw
    by apply reachable_run, reachable_initial.
  destruct (nextId_survives_reset example_env world_turn_requested Hw)
    as (_ & Hkeep & _ & Hlate). split.
  - rewrite Hkeep. vm_compute. reflexivity.
  - apply (Hlate [OpEnsureStarted; OpChildSpawn 1] 4); [vm_compute|]; reflexivity.
Defined.

(** ** Notification isolation *)

Section Isolation.
Context (E : env).

Lemma handleNotification_turn method params w t :
  consumed_by_login method (codexApp w) = false ->
  currentTurn (codexApp w) = Some t ->
  handleNotification E method params w =
  match summarizeCodexNotification method params with
  | Thrown e => (Thrown e, w)
  | Normal summary => (log_summary E summary;; deliver_to_turn method params) w
  end.
Proof.
  intros Hlogin Hturn. unfold handleNotification, consumed_by_login in *.
  unfold mbind at 1, M_bind at 1, bind at 1, this at 1. cbv beta iota.
  set (login := Js.strict_eq (Some method) (Some (JStr "account/login/completed"))) in *.
  destruct login, (loginWaiter (codexApp w)); try discriminate;
    rewrite Hturn; by destruct (summarizeCodexNotification method params).
Qed.

Lemma set_events_same t : set_events (events t ++ []) t = t.
Proof. destruct t. unfold set_events. simpl. by rewrite app_nil_r. Qed.

Lemma log_summary_run summary w t :
  currentTurn (codexApp w) = Some t ->
  result (log_summary E summary) w = Normal tt /\
  codexApp (exec (log_summary E summary) w) =
    set_currentTurn (Some (set_events (events t ++ logged summary) t)) (codexApp w) /\
  promises (exec (log_summary E summary) w) = promises w /\
  timers (exec (log_summary E summary) w) = timers w /\
  microtasks (exec (log_summary E summary) w) = microtasks w.
Proof.
  intros Hturn.
  assert (codexApp w = set_currentTurn (Some (set_events (events t ++ []) t)) (codexApp w)) as Hid.
  { rewrite set_events_same, <- Hturn. by destruct (codexApp w). }
  unfold log_summary, logged, result, exec.
  destruct summary as [s|]; [destruct (negb (s =? "")%string)|]; simpl; try done.
  unfold update_turn, update, mbind, M_bind, bind. simpl. rewrite Hturn.
  by destruct (CODEX_DEBUG E).
Qed.

Lemma deliver_to_turn_mismatch method params w t :
  currentTurn (codexApp w) = Some t ->
  Js.truthy (notification_turnId params) = true ->
  Js.truthy (turnId t) = true ->
  Js.strict_eq (notification_turnId params) (turnId t) = false ->
  deliver_to_turn method params w = (Normal tt, w).
Proof.
  intros Hturn Hnid Htid Hne.
  unfold deliver_to_turn, mbind, M_bind, bind, this. simpl.
  by rewrite Hturn, Hnid, Htid, Hne.
Qed.

Lemma handleNotification_login method params w lw :
  Js.strict_eq (Some method) (Some (JStr "account/login/completed")) = true ->
  loginWaiter (codexApp w) = Some lw ->
  currentTurn (codexApp (exec (handleNotification E method params) w)) = currentTurn (codexApp w).
Proof.
  intros Hm Hlw.
  apply (aspec_exec _ w (fun _ a' => currentTurn a' = currentTurn (codexApp w))).
  unfold handleNotification. do 2 aspec_step. rewrite Hm, Hlw.
  repeat aspec_step; done.
Qed.
End Isolation.

(** While turn [U1] is active, a [turn/completed] notification for turn
    [U2] arrives: its summary lands in the event log of turn [U1], so the
    state of the active turn is not left unchanged. *)
Lemma stale_notification_is_logged :
  turnId <$> currentTurn (codexApp world_active_turn) = Some (Some (JStr "U1")) /\
  notification_turnId (JObj [("turnId", JStr "U2")]) = Some (JStr "U2") /\
  events <$> currentTurn (codexApp world_active_turn) = Some [] /\
  events <$> currentTurn (codexApp
     (exec (handleNotification example_env (JStr "turn/completed") (JObj [("turnId", JStr "U2")]))
        world_active_turn)) = Some ["turn/completed"] /\
  currentTurn (codexApp
     (exec (handleNotification example_env (JStr "turn/completed") (JObj [("turnId", JStr "U2")]))
        world_active_turn)) <> currentTurn (codexApp world_active_turn).
Proof.
  repeat split; try (vm_compute; reflexivity).
  vm_compute. discriminate.
Qed.

(** C3 — Notification isolation, amended.  When the notification carries
    a truthy turn identifier, the active turn has a truthy turn identifier
    and the two differ, handling the notification leaves the turn active
    with the same identifier, accumulated output, diagnostics and waiter:
    nothing is appended to the output and the turn is not completed.  The
    event log is the one field that changes: the summary of the
    notification, when it has one, is appended to it, because the summary
    is pushed before the identifiers are compared.  The log stays as it is
    only when there is no summary ([summarizeCodexNotification] returns
    [null] or throws) or when the login flow consumes the notification.
    Unless the login flow consumes it, no promise is settled, no timer
    touched and no continuation queued, and the handler completes exactly
    when the summary does. *)
Theorem notification_isolation (E : env) (method params : json) (w : world) (t : turn) :
  currentTurn (codexApp w) = Some t ->
  Js.truthy (notification_turnId params) = true ->
  Js.truthy (turnId t) = true ->
  Js.strict_eq (notification_turnId params) (turnId t) = false ->
  let w' := exec (handleNotification E method params) w in
  (forall s,
      consumed_by_login method (codexApp w) = false ->
      summarizeCodexNotification method params = Normal (Some s) -> s <> "" ->
      currentTurn (codexApp w') = Some (set_events (events t ++ [s]) t) /\
      trace w' = (trace w ++ (if CODEX_DEBUG E then [ELog ("[codex] " ++ s)] else []))%list) /\
  (consumed_by_login method (codexApp w) = true \/
   summarizeCodexNotification method params = Normal None \/
   summarizeCodexNotification method params = Normal (Some "") \/
   (exists e, summarizeCodexNotification method params = Thrown e) ->
   currentTurn (codexApp w') = Some t) /\
  (consumed_by_login method (codexApp w) = false ->
     promises w' = promises w /\ timers w' = timers w /\ microtasks w' = microtasks w /\
     result (handleNotification E method params) w =
       match summarizeCodexNotification method params with
       | Normal _ => Normal tt
       | Thrown e => Thrown e
       end).
Proof.
  intros Hturn Hnid Htid Hne w'.
  assert (consumed_by_login method (codexApp w) = false ->
          currentTurn (codexApp w') = Some (set_events (events t ++ summary_of method params) t) /\
          trace w' =
            (trace w ++ match summary_of method params with
                        | [s] => if CODEX_DEBUG E then [ELog ("[codex] " ++ s)] else []
                        | _ => []
                        end)%list /\
          promises w' = promises w /\ timers w' = timers w /\ microtasks w' = microtasks w /\
          result (handleNotification E method params) w =
            match summarizeCodexNotification method params with
            | Normal _ => Normal tt
            | Thrown e => Thrown e
            end) as Hturn_path.
  { intros Hlogin. unfold w', exec, result, summary_of.
    rewrite (handleNotification_turn E method params w t) by done.
    destruct (summarizeCodexNotification method params) as [summary|e] eqn:Hsum.
    - destruct (log_summary_run E summary w t Hturn) as (Hr & Ha & Hp & Ht & Hm).
      assert (trace (exec (log_summary E summary) w) =
                (trace w ++ match logged summary with
                            | [s] => if CODEX_DEBUG E then [ELog ("[codex] " ++ s)] else []
                            | _ => []
                            end)%list) as Htr.
      { unfold log_summary, logged, exec. destruct summary as [s|]; simpl;
          [|by rewrite app_nil_r].
        destruct (negb (s =? "")%string); simpl; [|by rewrite app_nil_r].
        unfold update_turn, update, mbind, M_bind, bind. simpl.
        destruct (CODEX_DEBUG E); simpl; [done|by rewrite app_nil_r]. }
      unfold result, exec in *. unfold mbind, M_bind, bind.
      destruct (log_summary E summary w) as [r w1]. simpl in *. subst r.
      rewrite (deliver_to_turn_mismatch method params w1
                 (set_events (events t ++ logged summary) t)); try done.
      + simpl. by rewrite Ha.
      + by rewrite Ha.
    - simpl. rewrite set_events_same, app_nil_r. by repeat split. }
  split; [|split].
  - intros s Hlogin Hsum Hs. destruct (Hturn_path Hlogin) as (Ht & Htr & _).
    unfold summary_of, logged in Ht, Htr. rewrite Hsum in Ht, Htr.
    destruct (String.eqb_spec s "") as [|_]; [done|]. by split.
  - intros [Hlogin|Hnone].
    + unfold w'. unfold consumed_by_login in Hlogin. apply andb_prop in Hlogin as [Hm Hlw].
      destruct (loginWaiter (codexApp w)) as [lw|] eqn:Hlw'; [|discriminate].
      by rewrite (handleNotification_login E method params w lw).
    + destruct (consumed_by_login method (codexApp w)) eqn:Hlogin.
      * unfold w'. unfold consumed_by_login in Hlogin. apply andb_prop in Hlogin as [Hm Hlw].
        destruct (loginWaiter (codexApp w)) as [lw|] eqn:Hlw'; [|discriminate].
        by rewrite (handleNotification_login E method params w lw).
      * destruct (Hturn_path eq_refl) as (Ht & _). rewrite Ht. unfold summary_of.
        destruct Hnone as [->|[->|[e ->]]]; simpl; by rewrite set_events_same.
  - intros Hlogin. by destruct (Hturn_path Hlogin) as (_ & _ & ? & ? & ? & ?).
Qed.

(** Turn [U1] is active and an [item/...] notification for turn [U2]
    arrives with text: the output of the turn stays empty, the event log
    gains the summary. *)
Lemma notification_isolation_witness :
  currentTurn (codexApp
    (exec (handleNotification example_env (JStr "item/agentMessage/delta")
             (JObj [("turnId", JStr "U2"); ("delta", JObj [("text", JStr "stale text")])]))
       world_active_turn)) =
    Some {| turnId := Some (JStr "U1"); stdout := ""; stderr := "";
            events := ["item: stale text"];
            turn_waiter := {| w_promise := 14; w_timer := 4 |} |}.
Proof.
  destruct (notification_isolation example_env (JStr "item/agentMessage/delta")
              (JObj [("turnId", JStr "U2"); ("delta", JObj [("text", JStr "stale text")])])
              world_active_turn
              {| turnId := Some (JStr "U1"); stdout := ""; stderr := ""; events := [];
                 turn_waiter := {| w_promise := 14; w_timer := 4 |} |}) as (Hlogged & _);
    [vm_compute; reflexivity..|].
  destruct (Hlogged "item: stale text") as (Hturn & _);
    [vm_compute; reflexivity|vm_compute; reflexivity|discriminate|].
  exact Hturn.
Defined.

(** ** Thread bindings *)

Section Threads.
Context (E : env).

Lemma sendRpc_running method params ms w :
  proc (codexApp w) <> None ->
  result (sendRpc method params ms) w = Normal (List.length (promises w)) /\
  trace (exec (sendRpc method params ms) w) = (trace w ++ request_effects w method params ms)%list /\
  threadByCwd (codexApp (exec (sendRpc method params ms) w)) = threadByCwd (codexApp w) /\
  loginWaiter (codexApp (exec (sendRpc method params ms) w)) = loginWaiter (codexApp w).
Proof.
  intros Hproc. destruct (sendRpc_run method params ms w) as (Hr & Ha & Ht & _).
  rewrite Hr, Ha, Ht. destruct (proc (codexApp w)); done.
Qed.

Lemma bind_result {A B} (m : M A) (k : A -> M B) w x :
  result m w = Normal x -> (m ≫= k) w = k x (exec m w).
Proof.
  unfold result, exec, mbind, M_bind, bind. destruct (m w) as [r w']. simpl. by intros ->.
Qed.




End Threads.


(** The two requests of that run, and the two bindings. *)
Example thread_started_twice :
  quiescent example_env fuel
    (racing_ops ++ [ response 5 (JObj [("thread", JObj [("id", JStr "T2")])]);
                     response 6 (JObj [("thread", JObj [("id", JStr "T3")])]) ])
    initial_world = true /\
  (List.filter (fun e => match e with
                         | EWrite m => Js.strict_eq (Js.get m "method") (Some (JStr "thread/start"))
                         | _ => false
                         end)
     (List.skipn (List.length (trace world_active_turn))
        (trace (run example_env fuel racing_ops initial_world)))) =
  [ EWrite (JObj [("method", JStr "thread/start"); ("id", JNum 5);
                  ("params", JObj [("cwd", JStr "/work/b"); ("approvalPolicy", JStr "never");
                                   ("sandbox", JStr "workspace-write")])]);
    EWrite (JObj [("method", JStr "thread/start"); ("id", JNum 6);
                  ("params", JObj [("cwd", JStr "/work/b"); ("approvalPolicy", JStr "never");
                                   ("sandbox", JStr "workspace-write")])]) ] /\
  threadByCwd (codexApp world_first_thread_bound) !! "/work/b" = Some (JStr "T2") /\
  threadByCwd (codexApp (run example_env fuel
                           [ response 6 (JObj [("thread", JObj [("id", JStr "T3")])]) ]
                           world_first_thread_bound)) !! "/work/b" = Some (JStr "T3").
Proof. repeat split; vm_compute; reflexivity. Qed.



(** ** The login flow *)

Section Login.
Context (E : env).

Lemma ensureLoggedIn_run w :
  ensureLoggedIn E w =
  (Normal (Await (List.length (promises w)) KAccountRead),
   exec (sendRpc "account/read" (JObj [("refreshToken", JBool false)]) (CODEX_LOGIN_TIMEOUT_MS E)) w).
Proof.
  unfold ensureLoggedIn.
  destruct (sendRpc_run "account/read" (JObj [("refreshToken", JBool false)])
              (CODEX_LOGIN_TIMEOUT_MS E) w) as (Hr & _).
  by rewrite (bind_result _ _ _ _ Hr).
Qed.

Lemma account_read_no_login authInfo w :
  Js.truthy (Some authInfo) = true -> needs_login authInfo = false ->
  ensureLoggedIn_account_read E (Fulfilled (Some authInfo)) w = (Normal (Return undefined), w).
Proof.
  intros Hres Hneeds. unfold needs_login in Hneeds.
  unfold ensureLoggedIn_account_read, object_of, mbind, M_bind, bind, mret, M_ret, ret.
  destruct authInfo; try done; cbv beta iota;
    destruct (Js.truthy (Js.get _ "requiresOpenaiAuth")); try done;
    destruct (Js.truthy (Js.get _ "account")); done.
Qed.

Lemma account_read_no_credential authInfo w :
  Js.truthy (Some authInfo) = true -> needs_login authInfo = true -> credential E = None ->
  ensureLoggedIn_account_read E (Fulfilled (Some authInfo)) w = (Thrown missing_credential, w).
Proof.
  intros Hres Hneeds Hcred. unfold needs_login, credential in *.
  unfold ensureLoggedIn_account_read, object_of, mbind, M_bind, bind, mret, M_ret, ret.
  destruct authInfo; try done; cbv beta iota;
    destruct (Js.truthy (Js.get _ "requiresOpenaiAuth")); try done;
    destruct (Js.truthy (Js.get _ "account")); try done; cbv beta iota;
    destruct (OPENAI_API_KEY E) as [apiKey|]; try done;
    destruct (apiKey =? "")%string; done.
Qed.

Lemma account_read_login authInfo apiKey w :
  Js.truthy (Some authInfo) = true -> needs_login authInfo = true -> credential E = Some apiKey ->
  ensureLoggedIn_account_read E (Fulfilled (Some authInfo)) w =
  (Normal (Await (List.length (promises w)) KLoginStarted),
   exec (sendRpc "account/login/start" (login_start_params apiKey) (CODEX_LOGIN_TIMEOUT_MS E)) w).
Proof.
  intros Hres Hneeds Hcred. unfold needs_login, credential in *.
  destruct (sendRpc_run "account/login/start" (login_start_params apiKey)
              (CODEX_LOGIN_TIMEOUT_MS E) w) as (Hr & _).
  unfold ensureLoggedIn_account_read, object_of, login_start_params in *.
  unfold mbind at 1, M_bind at 1, bind at 1, mret, M_ret, ret.
  destruct authInfo; try done; cbv beta iota;
    destruct (Js.truthy (Js.get _ "requiresOpenaiAuth")); try done;
    destruct (Js.truthy (Js.get _ "account")); try done; cbv beta iota;
    destruct (OPENAI_API_KEY E) as [key|]; try done;
    destruct (key =? "")%string; try done;
    injection Hcred as ->; cbn [negb]; by rewrite (bind_result _ _ _ _ Hr).
Qed.

Lemma login_started_run v w :
  result (ensureLoggedIn_login_started E (Fulfilled v)) w =
    Normal (Await (List.length (promises w)) KLoginCompleted) /\
  loginWaiter (codexApp (exec (ensureLoggedIn_login_started E (Fulfilled v)) w)) =
    Some {| w_promise := List.length (promises w); w_timer := List.length (timers w) |} /\
  trace (exec (ensureLoggedIn_login_started E (Fulfilled v)) w) =
    (trace w ++ [ESetTimeout (List.length (timers w)) (LoginTimedOut (List.length (promises w)))
                   (CODEX_LOGIN_TIMEOUT_MS E)])%list.
Proof. done. Qed.

Lemma login_completed_run params lw w :
  loginWaiter (codexApp w) = Some lw ->
  handleNotification E (JStr "account/login/completed") params w =
  (if Js.truthy (Js.get params "success")
   then waiter_resolve lw (Some params)
   else
     text ← lift (ToString (Js.or_else (Js.get params "error") (JStr "Codex login failed.")));
     waiter_reject lw (Error text))
    (set_codexApp (set_loginWaiter None (codexApp w)) w).
Proof.
  intros Hlw. unfold handleNotification.
  unfold mbind at 1, M_bind at 1, bind at 1, this at 1. cbv beta iota.
  change (Js.strict_eq (Some (JStr "account/login/completed"))
            (Some (JStr "account/login/completed"))) with true.
  cbv beta iota. by rewrite Hlw.
Qed.
End Login.

(** C7 — Login flow.  [ensureLoggedIn] sends [account/read] with the
    login time-out and awaits the answer.  When the answer does not require
    authentication, or names an account, the flow returns without sending
    anything.  Otherwise, without a credential in the environment it throws
    the missing-credential error, again without sending anything; with a
    credential (and a running subprocess) it sends one request,
    [account/login/start] carrying the credential.  After the answer to
    that request it installs the login waiter with its time-out and awaits
    it, sending nothing; the [account/login/completed] notification clears
    the waiter slot and then resolves the waiter when [success] is truthy
    and otherwise rejects it with an error made of its [error] (when that
    does not convert, [new Error] throws and the waiter is left alone). *)
Theorem login_flow (E : env) (w : world) :
  ensureLoggedIn E w =
    (Normal (Await (List.length (promises w)) KAccountRead),
     exec (sendRpc "account/read" (JObj [("refreshToken", JBool false)])
             (CODEX_LOGIN_TIMEOUT_MS E)) w) /\
  (forall authInfo,
      Js.truthy (Some authInfo) = true ->
      (needs_login authInfo = false ->
         ensureLoggedIn_account_read E (Fulfilled (Some authInfo)) w =
           (Normal (Return undefined), w)) /\
      (needs_login authInfo = true -> credential E = None ->
         ensureLoggedIn_account_read E (Fulfilled (Some authInfo)) w =
           (Thrown missing_credential, w)) /\
      (forall apiKey,
          needs_login authInfo = true -> credential E = Some apiKey ->
          proc (codexApp w) <> None ->
          result (ensureLoggedIn_account_read E (Fulfilled (Some authInfo))) w =
            Normal (Await (List.length (promises w)) KLoginStarted) /\
          trace (exec (ensureLoggedIn_account_read E (Fulfilled (Some authInfo))) w) =
            (trace w ++ request_effects w "account/login/start" (login_start_params apiKey)
                          (CODEX_LOGIN_TIMEOUT_MS E))%list)) /\
  (forall v,
      result (ensureLoggedIn_login_started E (Fulfilled v)) w =
        Normal (Await (List.length (promises w)) KLoginCompleted) /\
      loginWaiter (codexApp (exec (ensureLoggedIn_login_started E (Fulfilled v)) w)) =
        Some {| w_promise := List.length (promises w); w_timer := List.length (timers w) |} /\
      trace (exec (ensureLoggedIn_login_started E (Fulfilled v)) w) =
        (trace w ++ [ESetTimeout (List.length (timers w))
                       (LoginTimedOut (List.length (promises w)))
                       (CODEX_LOGIN_TIMEOUT_MS E)])%list) /\
  (forall params lw,
      loginWaiter (codexApp w) = Some lw ->
      handleNotification E (JStr "account/login/completed") params w =
      (if Js.truthy (Js.get params "success")
       then waiter_resolve lw (Some params)
       else
         text ← lift (ToString (Js.or_else (Js.get params "error") (JStr "Codex login failed.")));
         waiter_reject lw (Error text))
        (set_codexApp (set_loginWaiter None (codexApp w)) w)).
Proof.
  split; [apply ensureLoggedIn_run|]. split; [|split].
  - intros authInfo Hres. split; [by apply account_read_no_login|].
    split; [by apply account_read_no_credential|].
    intros apiKey Hneeds Hcred Hproc.
    unfold result, exec. rewrite (account_read_login E authInfo apiKey w) by done. simpl.
    split; [done|].
    by destruct (sendRpc_running "account/login/start" (login_start_params apiKey)
                   (CODEX_LOGIN_TIMEOUT_MS E) w Hproc) as (_ & -> & _).
  - intros v. apply login_started_run.
  - intros params lw. apply login_completed_run.
Qed.

(** An answer naming an account ends the flow; an answer that requires
    authentication fails without a credential and, with one, sends
    [account/login/start] as request 3. *)
Lemma login_flow_witness :
  ensureLoggedIn_account_read example_env
    (Fulfilled (Some (JObj [("requiresOpenaiAuth", JBool true);
                            ("account", JObj [("type", JStr "apiKey")])])))
    world_account_read = (Normal (Return undefined), world_account_read) /\
  ensureLoggedIn_account_read example_env_no_key
    (Fulfilled (Some (JObj [("requiresOpenaiAuth", JBool true)])))
    world_account_read = (Thrown missing_credential, world_account_read) /\
  trace (exec (ensureLoggedIn_account_read example_env
                 (Fulfilled (Some (JObj [("requiresOpenaiAuth", JBool true)]))))
           world_account_read) =
    (trace world_account_read ++
     [ ESetTimeout 2 (RpcTimedOut 3 "account/login/start" 7) 30000;
       EWrite (JObj [("method", JStr "account/login/start"); ("id", JNum 3);
                     ("params", JObj [("type", JStr "apiKey"); ("apiKey", JStr "sk-example")])]) ])%list.
Proof.
  destruct (login_flow example_env world_account_read) as (_ & Hread & _).
  destruct (login_flow example_env_no_key world_account_read) as (_ & Hread' & _).
  split; [|split].
  - by apply (Hread (JObj [("requiresOpenaiAuth", JBool true);
                           ("account", JObj [("type", JStr "apiKey")])])).
  - by apply (Hread' (JObj [("requiresOpenaiAuth", JBool true)])).
  - destruct (Hread (JObj [("requiresOpenaiAuth", JBool true)]) eq_refl) as (_ & _ & Hlogin).
    destruct (Hlogin "sk-example" eq_refl eq_refl) as [_ ->]; [by vm_compute|].
    vm_compute. reflexivity.
Defined.

(** ** The boundary with the caller *)

(** The executable is missing: the promise returned to the caller
    (promise 1) is fulfilled, with a value of the shape of a result, and
    not rejected. *)
Lemma failure_resolves_caller :
  callers (run example_env fuel
             [OpSendCodexPrompt (JStr "hello") "/work/a"; OpChildError 0 spawn_failure]
             initial_world) = [1%nat] /\
  promises (run example_env fuel
              [OpSendCodexPrompt (JStr "hello") "/work/a"; OpChildError 0 spawn_failure]
              initial_world) !! 1%nat =
    Some (Settled (Fulfilled (Some (turn_payload "" "spawn codex ENOENT" [])))) /\
  forall e,
    promises (run example_env fuel
                [OpSendCodexPrompt (JStr "hello") "/work/a"; OpChildError 0 spawn_failure]
                initial_world) !! 1%nat <> Some (Settled (Rejected e)).
Proof.
  split; [|split]; [vm_compute; reflexivity..|].
  intros e. vm_compute. discriminate.
Qed.

(** C9 — Caller-boundary failure, amended.  A submission through
    [sendCodexPrompt], made in any reachable state, allocates the promise
    the caller holds, chains [() => codexApp.runTurn(prompt, cwd)] on the
    queue with [then], chains the [catch] handler on that, makes the
    result the new queue and has the caller's promise adopt it.
    Whatever happens afterwards, the caller's promise is never rejected.
    When the turn of the submission fails, that is when the promise of
    [codexQueue.then(() => codexApp.runTurn(prompt, cwd))] is rejected
    with an error [e], the caller's promise is fulfilled, once the
    microtasks have run, with
    [{ stdout: '', stderr: e.message || String(e), events: e.events || [] }]:
    a value of the shape of a result that carries the message in
    [stderr].  When the turn succeeds, the caller's promise is fulfilled
    with its result. *)
Theorem caller_boundary (E : env) (w : world) (prompt : json) (cwd : string)
    (Hw : reachable E w) :
  let caller := List.length (promises w) in
  let w1 := exec (step E (OpSendCodexPrompt prompt cwd)) w in
  w1 =
    (let queued := exec (on_settled (codexQueue w) (then_promise caller, KQueueThen prompt cwd))
                     (allocate (allocate w)) in
     let guarded := exec (on_settled (then_promise caller) (catch_promise caller, KQueueCatch))
                      (allocate queued) in
     let adopted := exec (on_settled (catch_promise caller) (caller, KAdopt))
                      (set_codexQueue (catch_promise caller) guarded) in
     set_callers (callers adopted ++ [caller]) adopted) /\
  forall os,
    let w' := steps E os w1 in
    (forall e, promises w' !! caller <> Some (Settled (Rejected e))) /\
    (forall e,
        promises w' !! then_promise caller = Some (Settled (Rejected e)) -> microtasks w' = [] ->
        promises w' !! caller = Some (Settled (Fulfilled (Some (error_payload e))))) /\
    (forall v,
        promises w' !! then_promise caller = Some (Settled (Fulfilled v)) -> microtasks w' = [] ->
        promises w' !! caller = Some (Settled (Fulfilled v))).
Proof.
  intros caller w1. split; [apply submit_world|]. intros os w'.
  assert (chained caller [] w') as Hc.
  { apply chained_steps, submit_chained. by eapply reachable_well_scoped. }
  split; [|split].
  - intros e. by apply (chained_never_rejected caller).
  - intros e HP Hq. by destruct (chained_outcome caller w' _ Hc HP Hq) as [_ ?].
  - intros v HP Hq. by destruct (chained_outcome caller w' _ Hc HP Hq) as [_ ?].
Qed.

(** The first submission of a bridge (promise 1 for the caller, promise 2
    for the [then]): the executable is missing, the turn is rejected with
    the error of the spawn, and the caller's promise is fulfilled with a
    value that carries its message. *)
Lemma caller_boundary_witness :
  let w' := steps example_env
              (repeat OpMicrotask 4 ++ [OpChildError 0 spawn_failure] ++ repeat OpMicrotask 5)
              (exec (step example_env (OpSendCodexPrompt (JStr "hello") "/work/a"))
                 initial_world) in
  promises w' !! 2%nat = Some (Settled (Rejected spawn_failure)) /\
  microtasks w' = [] /\
  promises w' !! 1%nat =
    Some (Settled (Fulfilled (Some (turn_payload "" "spawn codex ENOENT" [])))).
Proof.
  cbv zeta. split; [vm_compute; reflexivity|]. split; [vm_compute; reflexivity|].
  destruct (caller_boundary example_env initial_world (JStr "hello") "/work/a"
              (reachable_initial example_env)) as [_ Hos].
  destruct (Hos (repeat OpMicrotask 4 ++ [OpChildError 0 spawn_failure] ++ repeat OpMicrotask 5)%list)
    as (_ & Hrejected & _).
  apply (Hrejected spawn_failure); vm_compute; reflexivity.
Defined.

(** The other failures end the same way: a missing credential and a turn
    that times out. *)
Example login_failure_resolves_caller :
  promises (run example_env_no_key fuel
              [OpSendCodexPrompt (JStr "hello") "/work/a"; OpChildSpawn 0; response 1 (JObj []);
               response 2 (JObj [("requiresOpenaiAuth", JBool true)])]
              initial_world) !! 1%nat =
  Some (Settled (Fulfilled (Some (turn_payload ""
    "OPENAI_API_KEY is not set. Codex app-server requires authentication." [])))).
Proof. vm_compute. reflexivity. Qed.

Example turn_timeout_resolves_caller :
  promises (run example_env fuel (up_to_active_turn ++ [OpTimer 4]) initial_world) !! 1%nat =
  Some (Settled (Fulfilled (Some (turn_payload "" "Codex turn timed out." [])))).
Proof. vm_compute. reflexivity. Qed.

(** ** Serialization of turns *)

Example turns_in_submission_order :
  turn_starts (trace (run example_env fuel fifo_ops initial_world)) = [(4, Some (JStr "one"))] /\
  turn_starts (trace (run example_env fuel
                        (fifo_ops ++ [notification "turn/completed" (JObj [("turnId", JStr "U1")])])
                        initial_world)) =
    [(4, Some (JStr "one")); (5, Some (JStr "two"))].
Proof. split; vm_compute; reflexivity. Qed.

(** C1 — Serialization, where the code departs from it.  After the
    failure of a turn the [catch] handler replaces [codexQueue] by a fresh
    fulfilled promise while a later submission is still chained on the old
    one; the next submission starts at once.  Here the [turn/start] of the
    third prompt (request 6) is written while the [turn/start] of the second
    (request 5) is unanswered and the second submission is unsettled; when
    both answers arrive, the third submission ends on the guard "Codex turn
    already in progress.".  The failed first turn did not cancel the
    second. *)
Theorem turns_overlap_after_failure :
  callers (run example_env fuel overlap_ops initial_world) = [1; 15; 23]%nat /\
  turn_starts (trace (run example_env fuel overlap_ops initial_world)) =
    [(4, Some (JStr "summarize this file")); (5, Some (JStr "two")); (6, Some (JStr "three"))] /\
  JsMap.keys (pending (codexApp (run example_env fuel overlap_ops initial_world))) = [5; 6] /\
  promises (run example_env fuel overlap_ops initial_world) !! 1%nat =
    Some (Settled (Fulfilled (Some (turn_payload "" "Codex turn timed out." [])))) /\
  promises (run example_env fuel overlap_ops initial_world) !! 15%nat = Some (Pending []) /\
  promises (run example_env fuel overlap_ops initial_world) !! 23%nat = Some (Pending []) /\
  promises (run example_env fuel
              (overlap_ops ++ [ response 5 (JObj [("turn", JObj [("id", JStr "U2")])]);
                                response 6 (JObj [("turn", JObj [("id", JStr "U3")])]) ])
              initial_world) !! 23%nat =
    Some (Settled (Fulfilled (Some (turn_payload "" "Codex turn already in progress." [])))).
Proof. repeat split; vm_compute; reflexivity. Qed.

(** ** Start coalescing *)

(** Callers that arrive before the [spawn] event share the attempt: one
    spawn, one outcome; after the failure the next call spawns again. *)
Example start_coalesced_before_spawn :
  count_spawns (trace (run example_env fuel
                         [OpEnsureStarted; OpEnsureStarted; OpChildError 0 spawn_failure]
                         initial_world)) = 1%nat /\
  List.map (fun p => promises (run example_env fuel
                         [OpEnsureStarted; OpEnsureStarted; OpChildError 0 spawn_failure]
                         initial_world) !! p) [1; 3]%nat =
    [Some (Settled (Rejected spawn_failure)); Some (Settled (Rejected spawn_failure))] /\
  starting (codexApp (run example_env fuel
                        [OpEnsureStarted; OpEnsureStarted; OpChildError 0 spawn_failure]
                        initial_world)) = None /\
  count_spawns (trace (run example_env fuel
                         [OpEnsureStarted; OpEnsureStarted; OpChildError 0 spawn_failure;
                          OpEnsureStarted]
                         initial_world)) = 2%nat.
Proof. repeat split; vm_compute; reflexivity. Qed.

(** C6 — Start coalescing, where the code departs from it.  Once the
    child has emitted [spawn], [this.proc] is set and [ensureStarted]
    returns at its first test, although the attempt (promise 2, still in
    the [starting] slot) has neither initialized nor logged in: the second
    caller (promise 5) is told the subprocess is started while the first
    (promise 1) is still waiting.  When [initialize] then times out the
    first caller is rejected and the second stays fulfilled: the callers do
    not observe one outcome.  The slot is cleared, but the child is still in
    [this.proc], so a third caller (promise 6) returns at once and no new
    spawn happens. *)
Theorem late_callers_skip_the_attempt :
  callers (run example_env fuel late_caller_ops initial_world) = [1; 5]%nat /\
  starting (codexApp (run example_env fuel late_caller_ops initial_world)) = Some 2%nat /\
  promises (run example_env fuel late_caller_ops initial_world) !! 2%nat =
    Some (Pending [(1%nat, KEnsureStartedOwner)]) /\
  promises (run example_env fuel late_caller_ops initial_world) !! 1%nat = Some (Pending []) /\
  promises (run example_env fuel late_caller_ops initial_world) !! 5%nat =
    Some (Settled (Fulfilled undefined)) /\
  promises (run example_env fuel (late_caller_ops ++ [OpTimer 0]) initial_world) !! 1%nat =
    Some (Settled (Rejected (Error "Codex app-server timeout on initialize"))) /\
  promises (run example_env fuel (late_caller_ops ++ [OpTimer 0]) initial_world) !! 5%nat =
    Some (Settled (Fulfilled undefined)) /\
  starting (codexApp (run example_env fuel (late_caller_ops ++ [OpTimer 0]) initial_world)) = None /\
  callers (run example_env fuel (late_caller_ops ++ [OpTimer 0; OpEnsureStarted]) initial_world) =
    [1; 5; 6]%nat /\
  promises (run example_env fuel (late_caller_ops ++ [OpTimer 0; OpEnsureStarted]) initial_world)
    !! 6%nat = Some (Settled (Fulfilled undefined)) /\
  count_spawns (trace (run example_env fuel (late_caller_ops ++ [OpTimer 0; OpEnsureStarted])
                         initial_world)) = 1%nat.
Proof. repeat split; vm_compute; reflexivity. Qed.

(** * Further properties of the bridge *)

(** ** [reset] *)

(** X1: [reset] is idempotent.  On a bridge that was just reset a second
    [reset] completes and changes nothing: nothing is left to reject, no
    effect is produced. *)
Theorem reset_idempotent (w : world) :
  reset (exec reset w) = (Normal tt, exec reset w).
Proof.
  rewrite (reset_eq (exec reset w)).
  assert (codexApp (exec reset w) = reset_app (codexApp w)) as Happ
    by (unfold exec; by rewrite reset_eq).
  unfold close_rl, all_waiters. rewrite Happ. simpl.
  change (reset_app (reset_app (codexApp w))) with (reset_app (codexApp w)).
  rewrite <- Happ. unfold exec at 2. simpl. by rewrite set_codexApp_id.
Qed.

Lemma string_app_cons (c : ascii) (s t : string) : String c s ++ t = String c (s ++ t).
Proof. reflexivity. Qed.

Lemma string_app_nil_r (s : string) : s ++ "" = s.
Proof. induction s as [|c s IH]; [done|]. by rewrite string_app_cons, IH. Qed.

Lemma string_app_assoc (a b c : string) : (a ++ b) ++ c = a ++ (b ++ c).
Proof. induction a as [|x a IH]; [done|]. by rewrite !string_app_cons, IH. Qed.

(** ** The output of a turn *)

Section Items.
Context (E : env).

Lemma item_method_plain m :
  Js.starts_with "item/" m = true ->
  Js.strict_eq (Some (JStr m)) (Some (JStr "account/login/completed")) = false /\
  Js.strict_eq (Some (JStr m)) (Some (JStr "turn/completed")) = false.
Proof.
  intros Hm. simpl. split.
  - destruct (String.eqb_spec m "account/login/completed") as [->|]; [discriminate|done].
  - destruct (String.eqb_spec m "turn/completed") as [->|]; [discriminate|done].
Qed.

Lemma set_stdout_same t : set_stdout (stdout t ++ "") t = t.
Proof. destruct t. unfold set_stdout. simpl. by rewrite string_app_nil_r. Qed.

Lemma deliver_item m params text w t :
  Js.starts_with "item/" m = true ->
  currentTurn (codexApp w) = Some t ->
  for_turn params t = true ->
  extractTextFromParams params = Normal text ->
  deliver_to_turn (JStr m) params w =
  (Normal tt,
   set_codexApp (set_currentTurn (Some (set_stdout (stdout t ++ text) t)) (codexApp w)) w).
Proof.
  intros Hm Hturn Hfor Htext. destruct (item_method_plain m Hm) as (_ & Hdone).
  unfold for_turn in Hfor. apply negb_true_iff in Hfor.
  unfold deliver_to_turn. unfold mbind, M_bind, bind, this, lift. cbv beta iota.
  rewrite Hturn, Hfor, Hdone, Hm, Htext. cbv beta iota.
  destruct (String.eqb_spec text "") as [->|]; simpl.
  - rewrite set_stdout_same, <- Hturn.
    replace (set_currentTurn (currentTurn (codexApp w)) (codexApp w)) with (codexApp w)
      by (by destruct (codexApp w)).
    by rewrite set_codexApp_id.
  - unfold update_turn, update. by rewrite Hturn.
Qed.

Lemma item_notification m params text w t :
  Js.starts_with "item/" m = true ->
  currentTurn (codexApp w) = Some t ->
  for_turn params t = true ->
  extractTextFromParams params = Normal text ->
  exists w',
    handleNotification E (JStr m) params w = (Normal tt, w') /\
    codexApp w' =
      set_currentTurn
        (Some (set_stdout (stdout t ++ text)
                 (set_events (events t ++ summary_of (JStr m) params) t)))
        (codexApp w) /\
    promises w' = promises w /\ timers w' = timers w /\ microtasks w' = microtasks w.
Proof.
  intros Hm Hturn Hfor Htext. destruct (item_method_plain m Hm) as (Hlogin & Hdone).
  rewrite (handleNotification_turn E (JStr m) params w t);
    [|by unfold consumed_by_login; rewrite Hlogin|done].
  unfold summary_of.
  assert (summarizeCodexNotification (JStr m) params = Normal (Some (item_summary text)))
    as Hsum.
  { unfold summarizeCodexNotification. by rewrite Hdone, Hm, Htext. }
  rewrite Hsum.
  destruct (log_summary_run E (Some (item_summary text)) w t Hturn) as (Hr & Ha & Hp & Ht & Hq).
  unfold result, exec in *. unfold mbind, M_bind, bind.
  destruct (log_summary E (Some (item_summary text)) w) as [r w1]. simpl in *. subst r.
  rewrite (deliver_item m params text w1
             (set_events (events t ++ logged (Some (item_summary text))) t));
    [|done|by rewrite Ha|done|done].
  eexists. split; [done|]. simpl. rewrite Ha. by destruct (codexApp w).
Qed.

Lemma item_notification_throws m params e w t :
  Js.starts_with "item/" m = true ->
  currentTurn (codexApp w) = Some t ->
  extractTextFromParams params = Thrown e ->
  handleNotification E (JStr m) params w = (Thrown e, w).
Proof.
  intros Hm Hturn Htext. destruct (item_method_plain m Hm) as (Hlogin & Hdone).
  rewrite (handleNotification_turn E (JStr m) params w t);
    [|by unfold consumed_by_login; rewrite Hlogin|done].
  unfold summarizeCodexNotification. by rewrite Hdone, Hm, Htext.
Qed.
End Items.

Section ItemLines.
Context (E : env).

Lemma item_line_handled m params w :
  rl (codexApp w) <> None ->
  Js.starts_with "item/" m = true ->
  Js.truthy (Some params) = true ->
  step E (item_line (m, params)) w = handleNotification E (JStr m) params w.
Proof.
  intros Hrl Hm Hp.
  assert (negb (m =? "")%string = true) as Hne.
  { destruct (String.eqb_spec m "") as [->|]; [discriminate|done]. }
  unfold item_line, notification. simpl.
  unfold mbind, M_bind, bind, this. cbv beta iota.
  destruct (rl (codexApp w)); [|done].
  unfold handleLine. simpl. rewrite Hne. unfold Js.or. by rewrite Hp.
Qed.

Lemma item_line_step m params text w t :
  rl (codexApp w) <> None ->
  Js.starts_with "item/" m = true ->
  Js.truthy (Some params) = true ->
  currentTurn (codexApp w) = Some t ->
  for_turn params t = true ->
  extractTextFromParams params = Normal text ->
  let w' := exec (step E (item_line (m, params))) w in
  codexApp w' =
    set_currentTurn
      (Some (set_stdout (stdout t ++ text)
               (set_events (events t ++ summary_of (JStr m) params) t)))
      (codexApp w) /\
  promises w' = promises w /\ timers w' = timers w /\ microtasks w' = microtasks w.
Proof.
  intros Hrl Hm Hp Hturn Hfor Htext.
  destruct (item_notification E m params text w t Hm Hturn Hfor Htext) as (w1 & Hrun & Hrest).
  unfold exec. rewrite item_line_handled by done. by rewrite Hrun.
Qed.

End ItemLines.

Lemma join_cons_empty (x : string) (l : list string) :
  Js.join "" (x :: l) = x ++ Js.join "" l.
Proof.
  unfold Js.join. destruct l as [|y l]; simpl; [by rewrite string_app_nil_r|done].
Qed.

(** X2: output in arrival order.  While a turn is active and the
    subprocess is attached, a run of [item/...] notification lines whose
    texts convert and that pass the turn test appends their texts to the
    output of the turn and their summaries to its event log, both in arrival
    order; the identifier, the diagnostics and the waiter of the turn stay,
    and no promise, timer or microtask is touched.  A line whose text does
    not convert (a text block that is an object with a [toString] key) is
    not appended: the exception of [join] leaves the handler and the world
    is as it was. *)
Theorem output_in_arrival_order (E : env) (msgs : list (string * json)) (w : world) (t : turn) :
  rl (codexApp w) <> None ->
  currentTurn (codexApp w) = Some t ->
  (Forall (fun m => Js.starts_with "item/" (fst m) = true /\
                    Js.truthy (Some (snd m)) = true /\
                    for_turn (snd m) t = true /\
                    converts (snd m)) msgs ->
   currentTurn (codexApp (steps E (List.map item_line msgs) w)) =
     Some (set_stdout (stdout t ++ item_texts msgs)
             (set_events (events t ++ item_summaries msgs) t)) /\
   promises (steps E (List.map item_line msgs) w) = promises w /\
   timers (steps E (List.map item_line msgs) w) = timers w /\
   microtasks (steps E (List.map item_line msgs) w) = microtasks w) /\
  (forall m params,
     Js.starts_with "item/" m = true -> Js.truthy (Some params) = true ->
     ~ converts params ->
     step E (item_line (m, params)) w = (Thrown not_primitive, w)).
Proof.
  intros Hrl Hturn. split.
  - intros Hall. revert w t Hrl Hturn Hall.
    induction msgs as [|[m params] msgs IH]; intros w t Hrl Hturn Hall.
    + unfold item_texts, item_summaries. simpl. rewrite string_app_nil_r, app_nil_r.
      destruct t. by repeat split.
    + inversion Hall as [|? ? (Hm & Hp & Hfor & text & Htext) Hrest]; subst.
      change (steps E (List.map item_line ((m, params) :: msgs)) w)
        with (steps E (List.map item_line msgs) (exec (step E (item_line (m, params))) w)).
      cbn [fst snd] in Hm, Hp, Hfor, Htext.
      destruct (item_line_step E m params text w t Hrl Hm Hp Hturn Hfor Htext)
        as (Ha & Hps & Hts & Hqs).
      set (w1 := exec (step E (item_line (m, params))) w) in *.
      set (t1 := set_stdout (stdout t ++ text)
                   (set_events (events t ++ summary_of (JStr m) params) t)) in *.
      destruct (IH w1 t1) as (Hb & Hps' & Hts' & Hqs').
      * rewrite Ha. by destruct (codexApp w).
      * rewrite Ha. by destruct (codexApp w).
      * eapply Forall_impl; [exact Hrest|]. intros [m' p'] (? & ? & ? & ?). by repeat split.
      * rewrite Hb, Hps', Hts', Hqs'.
        repeat split; try done. f_equal. unfold t1, item_texts, item_summaries, item_text.
        cbn [List.map List.flat_map fst snd]. rewrite Htext, join_cons_empty.
        destruct t as [tid out err evs wt]. unfold set_stdout, set_events.
        cbn [stdout events turnId stderr turn_waiter].
        by rewrite string_app_assoc, <- app_assoc.
  - intros m params Hm Hp Hno.
    rewrite item_line_handled by done.
    destruct (extractTextFromParams params) as [text|e] eqn:Htext.
    + destruct Hno. by exists text.
    + assert (e = not_primitive) as ->.
      { unfold extractTextFromParams in Htext.
        repeat match type of Htext with
               | context [match ?x with _ => _ end] => destruct x; try discriminate
               | context [if ?x then _ else _] => destruct x; try discriminate
               end; congruence. }
      by apply (item_notification_throws E m params not_primitive w t).
Qed.

(** Two deltas for turn [U1], the second naming the turn: the output is
    their concatenation; a third whose text block has a [toString] key
    throws and is not appended. *)
Lemma output_in_arrival_order_witness :
  currentTurn (codexApp
    (steps example_env
       (List.map item_line
          [("item/agentMessage/delta", JObj [("delta", JObj [("text", JStr "Hel")])]);
           ("item/agentMessage/delta",
            JObj [("turnId", JStr "U1"); ("delta", JObj [("text", JStr "lo")])])])
       world_active_turn)) =
  Some {| turnId := Some (JStr "U1"); stdout := "Hello"; stderr := "";
          events := ["item: Hel"; "item: lo"];
          turn_waiter := {| w_promise := 14; w_timer := 4 |} |} /\
  step example_env
    (item_line ("item/completed",
                JObj [("item", JObj [("content",
                  JArr [JObj [("type", JStr "text");
                              ("text", JObj [("toString", JNum 1)])]])])]))
    world_active_turn = (Thrown not_primitive, world_active_turn).
Proof.
  destruct (output_in_arrival_order example_env
              [("item/agentMessage/delta", JObj [("delta", JObj [("text", JStr "Hel")])]);
               ("item/agentMessage/delta",
                JObj [("turnId", JStr "U1"); ("delta", JObj [("text", JStr "lo")])])]
              world_active_turn
              {| turnId := Some (JStr "U1"); stdout := ""; stderr := ""; events := [];
                 turn_waiter := {| w_promise := 14; w_timer := 4 |} |}) as (Hturn & Hthrow).
  - vm_compute. discriminate.
  - vm_compute. reflexivity.
  - split.
    + destruct Hturn as (Hturn & _).
      { repeat constructor; by eexists. }
      rewrite Hturn. vm_compute. reflexivity.
    + apply Hthrow; [reflexivity|reflexivity|].
      intros [text Htext]. vm_compute in Htext. discriminate.
Defined.

(** X3: completion of a turn.  A [turn/completed] notification that passes
    the turn test frees the turn slot, clears the time-out of the turn and
    resolves its promise with the trimmed output, the trimmed diagnostics
    and the event log, whose last entry is the summary of this very
    notification. *)
Theorem turn_completed_delivers (E : env) (params : json) (w : world) (t : turn) :
  currentTurn (codexApp w) = Some t ->
  for_turn params t = true ->
  let w' := exec (handleNotification E (JStr "turn/completed") params) w in
  result (handleNotification E (JStr "turn/completed") params) w = Normal tt /\
  currentTurn (codexApp w') = None /\
  trace w' =
    (trace w ++ (if CODEX_DEBUG E then [ELog "[codex] turn/completed"] else [])
       ++ [EClearTimeout (w_timer (turn_waiter t));
           EResolve (w_promise (turn_waiter t)) (completed_payload t)])%list /\
  timers w' = <[w_timer (turn_waiter t) := None]> (timers w) /\
  (forall rs, promises w !! w_promise (turn_waiter t) = Some (Pending rs) ->
     promises w' !! w_promise (turn_waiter t) = Some (Settled (Fulfilled (completed_payload t))) /\
     microtasks w' =
       (microtasks w ++ List.map (fun f => (f, Fulfilled (completed_payload t))) rs)%list).
Proof.
  intros Hturn Hfor.
  unfold result, exec.
  rewrite (handleNotification_turn E (JStr "turn/completed") params w t); [|done|done].
  change (summarizeCodexNotification (JStr "turn/completed") params)
    with (@Normal (option string) (Some "turn/completed")).
  cbv beta iota.
  unfold for_turn in Hfor. apply negb_true_iff in Hfor.
  unfold log_summary, deliver_to_turn, finishTurn, update_turn, update, waiter_resolve,
    clearTimeout, resolve, emit, update_world, this, mbind, M_bind, bind, skip, ret, settle.
  simpl. rewrite Hturn. simpl.
  destruct (CODEX_DEBUG E); simpl; rewrite Hfor; simpl;
    destruct (promises w !! w_promise (turn_waiter t)) as [[rs'|s]|] eqn:Hp; simpl;
    rewrite <- ?app_assoc; repeat split; try done.
  all: simplify_eq; try done.
  all: apply list_lookup_insert_eq; by eapply lookup_lt_Some.
Qed.

(** Turn [U1] completes: the promise of the turn (promise 14) carries the
    result, and after the event loop has run so does that of the caller
    (promise 1). *)
Lemma turn_completed_delivers_witness :
  promises (exec (handleNotification example_env (JStr "turn/completed")
                    (JObj [("turnId", JStr "U1")])) world_active_turn) !! 14%nat =
    Some (Settled (Fulfilled (Some (turn_payload "" "" ["turn/completed"])))) /\
  promises (run example_env fuel
              (up_to_active_turn ++
               [notification "item/agentMessage/delta" (JObj [("delta", JObj [("text", JStr " Hi ")])]);
                notification "turn/completed" (JObj [("turnId", JStr "U1")])])
              initial_world) !! 1%nat =
    Some (Settled (Fulfilled (Some (turn_payload "Hi" "" ["item: Hi"; "turn/completed"])))).
Proof.
  split; [|vm_compute; reflexivity].
  destruct (turn_completed_delivers example_env (JObj [("turnId", JStr "U1")]) world_active_turn
              {| turnId := Some (JStr "U1"); stdout := ""; stderr := ""; events := [];
                 turn_waiter := {| w_promise := 14; w_timer := 4 |} |})
    as (_ & _ & _ & _ & Hsettled); [vm_compute; reflexivity..|].
  destruct (Hsettled [(4%nat, KAdopt)]) as [Hp _]; [vm_compute; reflexivity|exact Hp].
Defined.

(** ** Lines that are not for the turn *)

Lemma delete_absent (k : Z) (m : list (Z * waiter)) :
  JsMap.get k m = None -> JsMap.delete k m = m.
Proof.
  induction m as [|[k' v] m IH]; simpl; [done|].
  destruct (decide (k = k')); [done|]. intros Hm. by rewrite IH.
Qed.

(** X4: a line with a numeric [id] is a response and nothing else.
    Whatever else the message carries (a [method], [params]), handling it
    changes the bridge in one way only: the entry under that identifier, if
    any, leaves the pending table.  The active turn, the login waiter, the
    thread bindings and the counter stay.  The handler completes normally,
    with one exception: when the line answers a pending request with an
    error payload whose message does not convert, [new Error] throws after
    the entry is removed and the waiter is left unsettled. *)
Theorem response_line_only_settles (E : env) (message : json) (k : Z) (w : world) :
  Js.get message "id" = Some (JNum k) ->
  let printed :=
    Js.to_string (Js.or_else (Js.get_opt (Js.get message "error") "message") (JStr "Codex error")) in
  codexApp (exec (handleLine E (Some message)) w) =
    set_pending (JsMap.delete k (pending (codexApp w))) (codexApp w) /\
  (JsMap.get k (pending (codexApp w)) = None ->
   handleLine E (Some message) w = (Normal tt, w)) /\
  (Js.truthy (Js.get message "error") = false \/ printed <> None ->
   result (handleLine E (Some message)) w = Normal tt) /\
  (forall entry,
     JsMap.get k (pending (codexApp w)) = Some entry ->
     Js.truthy (Js.get message "error") = true -> printed = None ->
     handleLine E (Some message) w = (Thrown not_primitive, remove_pending k w)).
Proof.
  intros Hid printed.
  assert (forall entry, JsMap.get k (pending (codexApp w)) = Some entry ->
            codexApp (exec (handleLine E (Some message)) w) =
              set_pending (JsMap.delete k (pending (codexApp w))) (codexApp w)) as Hhit.
  { intros entry Hk. unfold exec.
    rewrite (handleLine_response E message k entry w Hid Hk).
    pose proof (settle_response_app message entry (remove_pending k w)) as Happ.
    unfold exec in Happ. by rewrite Happ. }
  split; [|split; [|split]].
  - destruct (JsMap.get k (pending (codexApp w))) as [entry|] eqn:Hk; [by eapply Hhit|].
    unfold exec. rewrite (handleLine_unmatched E message k w Hid Hk). simpl.
    rewrite (delete_absent _ _ Hk). by destruct (codexApp w).
  - by apply handleLine_unmatched.
  - intros Hfine. unfold result.
    destruct (JsMap.get k (pending (codexApp w))) as [entry|] eqn:Hk;
      [|by rewrite (handleLine_unmatched E message k w Hid Hk)].
    rewrite (handleLine_response E message k entry w Hid Hk).
    unfold settle_response. destruct (Js.truthy (Js.get message "error")) eqn:Herr.
    + destruct Hfine as [|Hfine]; [done|].
      unfold mbind, M_bind, bind, lift, ToString. fold printed.
      destruct printed as [text|]; [|done].
      by destruct (runtime_only_waiter_reject entry (Error text) (remove_pending k w))
        as ([] & w' & -> & _).
    + by destruct (runtime_only_waiter_resolve entry
        (Js.or (Js.get message "result") (Some (JObj []))) (remove_pending k w))
        as ([] & w' & -> & _).
  - intros entry Hk Herr Hnone.
    rewrite (handleLine_response E message k entry w Hid Hk).
    unfold settle_response. rewrite Herr.
    unfold mbind, M_bind, bind, lift, ToString. fold printed. by rewrite Hnone.
Qed.

(** A server request that reuses the identifier of the pending
    [turn/start] (request 4) and names the method [turn/completed]: the
    entry is consumed and the active turn is untouched.  An error payload
    whose message has a [toString] key: the entry is consumed, the handler
    throws, and the promise of the request (promise 13) stays pending. *)
Lemma response_line_only_settles_witness :
  codexApp (exec (handleLine example_env
                    (Some (JObj [("id", JNum 4); ("method", JStr "turn/completed");
                                 ("params", JObj [])]))) world_turn_requested) =
    set_pending [] (codexApp world_turn_requested) /\
  handleLine example_env
    (Some (JObj [("id", JNum 4);
                 ("error", JObj [("message", JObj [("toString", JNum 1)])])]))
    world_turn_requested = (Thrown not_primitive, remove_pending 4 world_turn_requested) /\
  promises (remove_pending 4 world_turn_requested) !! 13%nat =
    Some (Pending [(4%nat, KRunTurnTurnStarted)]).
Proof.
  split; [|split].
  - destruct (response_line_only_settles example_env
                (JObj [("id", JNum 4); ("method", JStr "turn/completed"); ("params", JObj [])])
                4 world_turn_requested eq_refl) as (Happ & _).
    rewrite Happ. vm_compute. reflexivity.
  - destruct (response_line_only_settles example_env
                (JObj [("id", JNum 4);
                       ("error", JObj [("message", JObj [("toString", JNum 1)])])])
                4 world_turn_requested eq_refl) as (_ & _ & _ & Hthrow).
    apply (Hthrow {| w_promise := 13; w_timer := 3 |}); vm_compute; reflexivity.
  - vm_compute. reflexivity.
Defined.

Lemma notification_without_turn (E : env) (method params : json) (w : world) :
  currentTurn (codexApp w) = None ->
  consumed_by_login method (codexApp w) = false ->
  handleNotification E method params w = (Normal tt, w).
Proof.
  intros Hturn Hlogin. unfold consumed_by_login in Hlogin.
  unfold handleNotification, mbind, M_bind, bind, this. cbv beta iota.
  set (login := Js.strict_eq (Some method) (Some (JStr "account/login/completed"))) in *.
  destruct login, (loginWaiter (codexApp w)); try discriminate; by rewrite Hturn.
Qed.

(** X5: an idle bridge ignores stray lines.  With no active turn and no
    login awaited, a line from the subprocess changes nothing and does not
    throw, unless it parses to [null] or answers a pending request: an
    unparsable line, a response nobody waits for and a notification of any
    method are all dropped. *)
Theorem idle_bridge_ignores_lines (E : env) (parsed : option json) (w : world) :
  currentTurn (codexApp w) = None ->
  loginWaiter (codexApp w) = None ->
  parsed <> Some JNull ->
  (forall message k, parsed = Some message -> Js.get message "id" = Some (JNum k) ->
                     JsMap.get k (pending (codexApp w)) = None) ->
  handleLine E parsed w = (Normal tt, w).
Proof.
  intros Hturn Hlogin Hnull Hpending.
  destruct parsed as [message|]; [|done].
  assert (forall method params, handleNotification E method params w = (Normal tt, w)) as Hdrop.
  { intros method params. apply notification_without_turn; [done|].
    unfold consumed_by_login. rewrite Hlogin. apply andb_false_r. }
  destruct (Js.get message "id") as [[| |k| | |]|] eqn:Hid;
    try (destruct message; try done; unfold handleLine; rewrite Hid;
         destruct (Js.get _ "method") as [method|]; [|done];
         destruct (Js.truthy (Some method)); [apply Hdrop|done]).
  by apply (handleLine_unmatched E message k w Hid), (Hpending message k).
Qed.

(** Before any turn is active, a [turn/completed] notification and a
    response to request 9, which nobody sent, leave the world as it is. *)
Lemma idle_bridge_ignores_lines_witness :
  handleLine example_env
    (Some (JObj [("method", JStr "turn/completed"); ("params", JObj [("turnId", JStr "U0")])]))
    world_turn_requested = (Normal tt, world_turn_requested) /\
  handleLine example_env (Some (JObj [("id", JNum 9); ("result", JObj [])]))
    world_turn_requested = (Normal tt, world_turn_requested).
Proof.
  split; apply idle_bridge_ignores_lines; try (vm_compute; reflexivity); try discriminate.
  - intros message k [= <-]. discriminate.
  - intros message k [= <-] [= <-]. vm_compute. reflexivity.
Defined.

(** ** Time-outs *)

(** X6: a turn that times out.  When the time-out of the active turn
    fires, the turn slot is freed and the promise of the turn is rejected
    with "Codex turn timed out." and the events collected so far; the
    [catch] handler of the queue turns this error into a result with those
    events, an empty output and the message as diagnostics: the output
    collected so far is not reported. *)
Theorem turn_timeout_reports_events (E : env) (w : world) (t : turn) :
  currentTurn (codexApp w) = Some t ->
  timers w !! w_timer (turn_waiter t) = Some (Some (TurnTimedOut (w_promise (turn_waiter t)))) ->
  let w' := exec (step E (OpTimer (w_timer (turn_waiter t)))) w in
  currentTurn (codexApp w') = None /\
  timers w' !! w_timer (turn_waiter t) = Some None /\
  (forall rs, promises w !! w_promise (turn_waiter t) = Some (Pending rs) ->
     promises w' !! w_promise (turn_waiter t) = Some (Settled (Rejected (turn_timeout_error t)))) /\
  error_payload (turn_timeout_error t) = turn_payload "" "Codex turn timed out." (events t).
Proof.
  intros Hturn Htimer. simpl. unfold exec. rewrite fire_timer_eq, Htimer.
  unfold run_callback, turn_timed_out, reject, emit, update, update_world, settle, this,
    mbind, M_bind, bind. simpl. rewrite Hturn. simpl.
  destruct (promises w !! w_promise (turn_waiter t)) as [[rs'|s]|] eqn:Hp; simpl;
    repeat split; try done;
    try (apply list_lookup_insert_eq; by eapply lookup_lt_Some).
  intros rs _. apply list_lookup_insert_eq. by eapply lookup_lt_Some.
Qed.

(** Turn [U1] has logged one item when its time-out (timer 4) fires: the
    caller's promise is fulfilled with the events and no output. *)
Lemma turn_timeout_reports_events_witness :
  currentTurn (codexApp (exec (step example_env (OpTimer 4)) world_active_turn)) = None /\
  promises (run example_env fuel
              (up_to_active_turn ++
               [notification "item/agentMessage/delta" (JObj [("delta", JObj [("text", JStr "Hel")])]);
                OpTimer 4])
              initial_world) !! 1%nat =
    Some (Settled (Fulfilled (Some (turn_payload "" "Codex turn timed out." ["item: Hel"])))).
Proof.
  split; [|vm_compute; reflexivity].
  apply (turn_timeout_reports_events example_env world_active_turn
           {| turnId := Some (JStr "U1"); stdout := ""; stderr := ""; events := [];
              turn_waiter := {| w_promise := 14; w_timer := 4 |} |});
    vm_compute; reflexivity.
Defined.

Lemma reject_settled p e s w :
  promises w !! p = Some (Settled s) ->
  reject p e w = (Normal tt, set_trace (trace w ++ [EReject p e]) w).
Proof.
  intros Hp. unfold reject, emit, update_world, settle, mbind, M_bind, bind. simpl.
  by rewrite Hp.
Qed.

(** X7: a request sent while no subprocess is attached.  [sendRpc]
    still allocates an identifier, arms the time-out and stores the entry,
    then [write] throws inside the executor: the returned promise is
    rejected with "Codex app-server not running." and nothing is written.
    The entry stays in the table until the time-out fires; the time-out
    removes it and leaves the promise as it was rejected. *)
Theorem sendRpc_not_running (E : env) (method : string) (params : json) (ms : Z) (w : world) :
  proc (codexApp w) = None ->
  let p := List.length (promises w) in
  let t := List.length (timers w) in
  let id := nextId (codexApp w) in
  let w1 := exec (sendRpc method params ms) w in
  let w2 := exec (step E (OpTimer t)) w1 in
  result (sendRpc method params ms) w = Normal p /\
  promises w1 !! p = Some (Settled (Rejected not_running)) /\
  trace w1 = (trace w ++ [ESetTimeout t (RpcTimedOut id method p) ms; EReject p not_running])%list /\
  nextId (codexApp w1) = id + 1 /\
  JsMap.get id (pending (codexApp w1)) = Some {| w_promise := p; w_timer := t |} /\
  JsMap.get id (pending (codexApp w2)) = None /\
  promises w2 !! p = Some (Settled (Rejected not_running)).
Proof.
  intros Hproc. cbv zeta.
  destruct (sendRpc_run method params ms w) as (Hr & Ha & Htr & Hts & Hp).
  rewrite Hproc in Htr, Hp.
  set (w1 := exec (sendRpc method params ms) w) in *.
  assert (exec (step E (OpTimer (List.length (timers w)))) w1 =
          set_trace (trace w1 ++ [EReject (List.length (promises w))
                                    (timeout_error method (codexApp w1))])
            (remove_pending (nextId (codexApp w))
               (set_timers (<[List.length (timers w) := None]> (timers w1)) w1))) as Hfire.
  { simpl. unfold exec. rewrite fire_timer_eq, Hts, list_lookup_middle by done.
    unfold run_callback. rewrite rpc_timed_out_run.
    by rewrite reject_settled with (s := Rejected not_running). }
  repeat split; try done.
  - by rewrite Ha.
  - rewrite Ha. simpl. apply get_set_eq.
  - rewrite Hfire. simpl. apply get_delete_eq.
  - by rewrite Hfire.
Qed.

(** Right after the subprocess exited, a request is refused and request 5
    stays pending until its time-out (timer 5) fires. *)
Lemma sendRpc_not_running_witness :
  promises (exec (sendRpc "thread/start" (JObj []) 10000) (exec reset world_active_turn))
    !! 15%nat = Some (Settled (Rejected not_running)) /\
  JsMap.keys (pending (codexApp (exec (sendRpc "thread/start" (JObj []) 10000)
                                   (exec reset world_active_turn)))) = [5].
Proof.
  split; [|vm_compute; reflexivity].
  apply (sendRpc_not_running example_env "thread/start" (JObj []) 10000
           (exec reset world_active_turn)).
  vm_compute. reflexivity.
Defined.

(** X8: a login that times out.  When the time-out of the login waiter
    fires, the waiter slot is cleared and the promise the login flow awaits
    is rejected with "Codex login timed out.".  An
    [account/login/completed] notification that arrives afterwards, with no
    turn active, is dropped: it settles nothing. *)
Theorem login_timeout_then_late_completion (E : env) (w : world) (lw : waiter) (params : json) :
  loginWaiter (codexApp w) = Some lw ->
  currentTurn (codexApp w) = None ->
  timers w !! w_timer lw = Some (Some (LoginTimedOut (w_promise lw))) ->
  let w' := exec (step E (OpTimer (w_timer lw))) w in
  loginWaiter (codexApp w') = None /\
  (forall rs, promises w !! w_promise lw = Some (Pending rs) ->
     promises w' !! w_promise lw = Some (Settled (Rejected login_timeout_error))) /\
  handleNotification E (JStr "account/login/completed") params w' = (Normal tt, w').
Proof.
  intros Hlw Hturn Htimer. cbv zeta.
  assert (codexApp (exec (step E (OpTimer (w_timer lw))) w) =
          set_loginWaiter None (codexApp w) /\
          (forall rs, promises w !! w_promise lw = Some (Pending rs) ->
             promises (exec (step E (OpTimer (w_timer lw))) w) !! w_promise lw =
               Some (Settled (Rejected login_timeout_error)))) as [Happ Hrej].
  { simpl. unfold exec. rewrite fire_timer_eq, Htimer.
    unfold run_callback, login_timed_out, reject, emit, update, update_world, settle, this,
      mbind, M_bind, bind. simpl. rewrite Hlw. simpl.
    destruct (promises w !! w_promise lw) as [[rs'|s]|] eqn:Hp; simpl; split; try done.
    intros rs _. apply list_lookup_insert_eq. by eapply lookup_lt_Some. }
  repeat split; [by rewrite Happ|exact Hrej|].
  apply notification_without_turn; rewrite Happ; [done|].
  unfold consumed_by_login. apply andb_false_r.
Qed.

(** The login waiter (promise 8, timer 3) times out: the attempt fails for
    the caller of [ensureStarted] (promise 1), and a late completion
    changes nothing. *)
Lemma login_timeout_then_late_completion_witness :
  loginWaiter (codexApp (exec (step example_env (OpTimer 3)) world_awaiting_login)) = None /\
  handleNotification example_env (JStr "account/login/completed") (JObj [("success", JBool true)])
    (exec (step example_env (OpTimer 3)) world_awaiting_login) =
    (Normal tt, exec (step example_env (OpTimer 3)) world_awaiting_login) /\
  promises (run example_env fuel (awaiting_login_ops ++ [OpTimer 3]) initial_world) !! 1%nat =
    Some (Settled (Rejected login_timeout_error)).
Proof.
  destruct (login_timeout_then_late_completion example_env world_awaiting_login
              {| w_promise := 8; w_timer := 3 |} (JObj [("success", JBool true)]))
    as (Hslot & _ & Hlate); [vm_compute; reflexivity..|].
  split; [exact Hslot|]. split; [exact Hlate|]. vm_compute. reflexivity.
Defined.

(** ** Diagnostics *)

Lemma set_stderr_same t : set_stderr (stderr t ++ "") t = t.
Proof. destruct t as [tid out err evs wt]. unfold set_stderr. simpl. by rewrite string_app_nil_r. Qed.

(** X9: diagnostics in arrival order.  While a subprocess is attached,
    the chunks it writes to its standard error are appended, in arrival
    order, to [startupStderr] and, when a turn is active, to the
    diagnostics of that turn; nothing else in the world changes. *)
Theorem stderr_in_arrival_order (E : env) (chunks : list string) (w : world) :
  proc (codexApp w) <> None ->
  steps E (List.map OpStderrData chunks) w =
  set_codexApp
    (set_currentTurn
       ((fun t => set_stderr (stderr t ++ Js.join "" chunks) t) <$> currentTurn (codexApp w))
       (set_startupStderr (startupStderr (codexApp w) ++ Js.join "" chunks) (codexApp w)))
    w.
Proof.
  revert w. induction chunks as [|chunk chunks IH]; intros w Hproc.
  - unfold steps, Js.join. simpl. rewrite string_app_nil_r.
    destruct w as [a q warned ps ts ms cs callers tr].
    destruct a as [pr r n pend th sd ct st se lw].
    unfold set_codexApp, set_currentTurn, set_startupStderr. simpl. do 2 f_equal.
    destruct ct as [t|]; simpl; [|done]. by rewrite set_stderr_same.
  - change (steps E (List.map OpStderrData (chunk :: chunks)) w)
      with (steps E (List.map OpStderrData chunks) (exec (step E (OpStderrData chunk)) w)).
    assert (exec (step E (OpStderrData chunk)) w =
            set_codexApp
              (set_currentTurn
                 ((fun t => set_stderr (stderr t ++ chunk) t) <$> currentTurn (codexApp w))
                 (set_startupStderr (startupStderr (codexApp w) ++ chunk) (codexApp w))) w)
      as Hone.
    { simpl. unfold exec, mbind, M_bind, bind, this. cbv beta iota.
      destruct (proc (codexApp w)); [|done].
      unfold on_stderr_data, update_turn, update, mbind, M_bind, bind. by simpl. }
    rewrite Hone, IH; [|by destruct (codexApp w)].
    rewrite join_cons_empty.
    destruct w as [a q warned ps ts ms cs callers tr].
    destruct a as [pr r n pend th sd ct st se lw].
    unfold set_codexApp, set_currentTurn, set_startupStderr. simpl.
    rewrite string_app_assoc. do 2 f_equal.
    destruct ct as [[tid out err evs wt]|]; simpl; [|done].
    unfold set_stderr. simpl. by rewrite string_app_assoc.
Qed.

(** The subprocess complains on its standard error and never answers
    [initialize]: the time-out error quotes the complaint. *)
Lemma stderr_in_arrival_order_witness :
  startupStderr (codexApp
    (steps example_env (List.map OpStderrData ["codex: "; "bad config"])
       (run example_env fuel [OpEnsureStarted; OpChildSpawn 0] initial_world))) =
    "codex: bad config" /\
  promises (run example_env fuel
              [OpEnsureStarted; OpChildSpawn 0; OpStderrData "codex: "; OpStderrData "bad config";
               OpTimer 0] initial_world) !! 1%nat =
    Some (Settled (Rejected
      (Error "Codex app-server timeout on initialize. Stderr: codex: bad config"))).
Proof.
  split; [|vm_compute; reflexivity].
  rewrite (stderr_in_arrival_order example_env ["codex: "; "bad config"]
             (run example_env fuel [OpEnsureStarted; OpChildSpawn 0] initial_world)).
  - vm_compute. reflexivity.
  - vm_compute. discriminate.
Defined.

(** ** The warning about the reference document *)

Lemma warnings_emit e w :
  warnings (set_trace (trace w ++ [e]) w) =
  (warnings w ++ match e with EWarn s => [s] | _ => [] end)%list.
Proof. unfold warnings. simpl. rewrite flat_map_app. simpl. by rewrite app_nil_r. Qed.

Section QuietRules.
Context {A B : Type}.

Lemma quiet_ret (x : A) : quiet (mret x).
Proof. by intros w. Qed.

Lemma quiet_throw (e : error) : quiet (throw (A := A) e).
Proof. by intros w. Qed.

Lemma quiet_bind (m : M A) (k : A -> M B) :
  quiet m -> (forall x, quiet (k x)) -> quiet (m ≫= k).
Proof.
  intros Hm Hk w. unfold mbind, M_bind, bind. specialize (Hm w).
  destruct (m w) as [[x|e] w1]; simpl in *; [|done].
  destruct (Hk x w1) as [-> ->]. done.
Qed.

Lemma quiet_try_catch (m : M A) (h : error -> M A) :
  quiet m -> (forall e, quiet (h e)) -> quiet (try_catch m h).
Proof.
  intros Hm Hh w. unfold try_catch. specialize (Hm w).
  destruct (m w) as [[x|e] w1]; simpl in *; [done|].
  destruct (Hh e w1) as [-> ->]. done.
Qed.
End QuietRules.

Lemma quiet_this : quiet this.
Proof. by intros w. Qed.

Lemma quiet_the_world : quiet the_world.
Proof. by intros w. Qed.

Lemma quiet_update f : quiet (update f).
Proof. by intros w. Qed.

Lemma quiet_emit e : (forall s, e <> EWarn s) -> quiet (emit e).
Proof.
  intros He w. split; [done|]. unfold emit, update_world. simpl. rewrite warnings_emit.
  destruct e; try by rewrite app_nil_r. by destruct (He s).
Qed.

Lemma quiet_update_world f :
  (forall w, codexContextWarningLogged (f w) = codexContextWarningLogged w /\
             trace (f w) = trace w) ->
  quiet (update_world f).
Proof. intros Hf w. destruct (Hf w) as [Hflag Htr]. unfold warnings. simpl. by rewrite Hflag, Htr. Qed.

Create HintDb quiet discriminated.
#[global] Hint Resolve quiet_ret quiet_throw quiet_this quiet_the_world quiet_update : quiet.
#[global] Hint Extern 1 (quiet (emit _)) => apply quiet_emit; discriminate : quiet.
#[global] Hint Extern 1 (quiet (update_world _)) => apply quiet_update_world; done : quiet.

Ltac quiet_step :=
  lazymatch goal with
  | |- quiet (_ ≫= _) => apply quiet_bind; [|intros ?]
  | |- quiet (try_catch _ _) => apply quiet_try_catch; [|intros ?]
  | |- quiet (match ?x with _ => _ end) => destruct x
  | |- quiet (let _ := _ in _) => cbv zeta
  | |- quiet skip => apply quiet_ret
  | |- quiet _ => solve [eauto with quiet]
  end.
Ltac quiet_go := repeat quiet_step.

Lemma quiet_new_promise : quiet new_promise.
Proof. by intros w. Qed.

Lemma quiet_settle p o : quiet (settle p o).
Proof. intros w. unfold settle. by destruct (promises w !! p) as [[rs|s]|]. Qed.

Lemma quiet_on_settled p f : quiet (on_settled p f).
Proof. intros w. unfold on_settled. by destruct (promises w !! p) as [[rs|s]|]. Qed.
#[global] Hint Resolve quiet_new_promise quiet_settle quiet_on_settled : quiet.

Lemma quiet_resolve p v : quiet (resolve p v).
Proof. unfold resolve. quiet_go. Qed.

Lemma quiet_reject p e : quiet (reject p e).
Proof. unfold reject. quiet_go. Qed.

Lemma quiet_setTimeout cb ms : quiet (setTimeout cb ms).
Proof. unfold setTimeout. quiet_go. Qed.

Lemma quiet_clearTimeout t : quiet (clearTimeout t).
Proof. unfold clearTimeout. quiet_go. Qed.
#[global] Hint Resolve quiet_resolve quiet_reject quiet_setTimeout quiet_clearTimeout : quiet.

Lemma quiet_waiter_resolve wt v : quiet (waiter_resolve wt v).
Proof. unfold waiter_resolve. quiet_go. Qed.

Lemma quiet_waiter_reject wt e : quiet (waiter_reject wt e).
Proof. unfold waiter_reject. quiet_go. Qed.
#[global] Hint Resolve quiet_waiter_resolve quiet_waiter_reject : quiet.

Lemma quiet_for_each {A} (l : list A) f : (forall x, quiet (f x)) -> quiet (for_each l f).
Proof.
  intros Hf. induction l as [|x l IH]; simpl; [apply quiet_ret|].
  apply quiet_bind; [apply Hf|intros _; apply IH].
Qed.

Lemma quiet_called p : quiet (called p).
Proof. unfold called. quiet_go. Qed.
#[global] Hint Resolve quiet_called : quiet.

Lemma quiet_run_async self body : quiet body -> quiet (run_async self body).
Proof.
  intros Hb w. unfold run_async. specialize (Hb w).
  destruct (body w) as [[[v|p k]|e] w1]; simpl in *.
  - destruct (quiet_resolve self v w1) as [-> ->]. done.
  - destruct (quiet_on_settled p (self, k) w1) as [-> ->]. done.
  - destruct (quiet_reject self e w1) as [-> ->]. done.
Qed.

Lemma quiet_call_async body : quiet body -> quiet (call_async body).
Proof.
  intros Hb. unfold call_async. apply quiet_bind; [apply quiet_new_promise|intros self].
  apply quiet_bind; [by apply quiet_run_async|intros _; apply quiet_ret].
Qed.
#[global] Hint Resolve quiet_run_async quiet_call_async : quiet.

Ltac quiet_async :=
  repeat first [ quiet_step
               | apply quiet_call_async
               | apply quiet_run_async ].

Section QuietBridge.
Context (E : env).

Lemma quiet_reset : quiet reset.
Proof. unfold reset. quiet_async. all: apply quiet_for_each; intros ?; quiet_async. Qed.

Lemma quiet_write message : quiet (write message).
Proof. unfold write. quiet_async. Qed.
Hint Resolve quiet_write : quiet.

Lemma quiet_sendNotification method params : quiet (sendNotification method params).
Proof. apply quiet_write. Qed.

Lemma quiet_sendRpc method params ms : quiet (sendRpc method params ms).
Proof. unfold sendRpc. quiet_async. Qed.
Hint Resolve quiet_sendNotification quiet_sendRpc quiet_reset : quiet.

Lemma quiet_rpc_timed_out id method p : quiet (rpc_timed_out id method p).
Proof. unfold rpc_timed_out. quiet_async. Qed.

Lemma quiet_finishTurn : quiet finishTurn.
Proof. unfold finishTurn. quiet_async. Qed.

Lemma quiet_update_turn f : quiet (update_turn f).
Proof. unfold update_turn. quiet_async. Qed.
Hint Resolve quiet_rpc_timed_out quiet_finishTurn quiet_update_turn : quiet.

Lemma quiet_handleNotification method params : quiet (handleNotification E method params).
Proof. unfold handleNotification. quiet_async. Qed.
Hint Resolve quiet_handleNotification : quiet.

Lemma quiet_handleLine parsed : quiet (handleLine E parsed).
Proof. unfold handleLine. quiet_async. Qed.

Lemma quiet_on_stderr_data chunk : quiet (on_stderr_data chunk).
Proof. unfold on_stderr_data. quiet_async. Qed.

Lemma quiet_start : quiet start.
Proof. unfold start. quiet_async. Qed.
Hint Resolve quiet_start : quiet.

Lemma quiet_ensureStarted : quiet ensureStarted.
Proof. unfold ensureStarted. quiet_async. Qed.

Lemma quiet_ensureLoggedIn : quiet (ensureLoggedIn E).
Proof. unfold ensureLoggedIn. quiet_async. Qed.
Hint Resolve quiet_ensureStarted quiet_ensureLoggedIn : quiet.

Lemma quiet_login_timed_out p : quiet (login_timed_out p).
Proof. unfold login_timed_out. quiet_async. Qed.

Lemma quiet_turn_timed_out p : quiet (turn_timed_out p).
Proof. unfold turn_timed_out. quiet_async. Qed.

Lemma quiet_on_child_error n e : quiet (on_child_error n e).
Proof. unfold on_child_error. quiet_async. Qed.

Lemma quiet_on_child_spawn n : quiet (on_child_spawn E n).
Proof. unfold on_child_spawn. quiet_async. Qed.

Lemma quiet_on_child_close n : quiet (on_child_close n).
Proof. unfold on_child_close. quiet_async. Qed.

Lemma quiet_getThreadId cwd : quiet (getThreadId E cwd).
Proof. unfold getThreadId. quiet_async. Qed.

Lemma quiet_runTurn prompt cwd : quiet (runTurn prompt cwd).
Proof. unfold runTurn. quiet_async. Qed.
Hint Resolve quiet_getThreadId quiet_runTurn : quiet.

Lemma quiet_sendCodexPrompt prompt cwd : quiet (sendCodexPrompt prompt cwd).
Proof. unfold sendCodexPrompt, then_. quiet_async. Qed.

Lemma quiet_run_callback cb : quiet (run_callback cb).
Proof.
  destruct cb; simpl; auto using quiet_login_timed_out, quiet_turn_timed_out with quiet.
Qed.

Lemma quiet_fire_timer t : quiet (fire_timer t).
Proof. unfold fire_timer. quiet_async. apply quiet_run_callback. Qed.

(** Every resumption but the one that builds the input of a turn. *)
Lemma quiet_resume k o : (forall prompt, k <> KRunTurnThread prompt) -> quiet (resume E k o).
Proof.
  intros Hk. destruct k; simpl;
    unfold ensureStarted_joined, ensureStarted_owner, start_initialized, start_logged_in,
      ensureLoggedIn_account_read, ensureLoggedIn_login_started, ensureLoggedIn_completed,
      getThreadId_started, runTurn_started, runTurn_turn_started, queue_then, queue_catch,
      object_of, Promise_resolve;
    try (by destruct (Hk prompt)); quiet_async.
Qed.
End QuietBridge.

Section Tame.
Context (E : env).

Lemma warn_step_refl w : warn_step E w w.
Proof. by left. Qed.

Lemma warn_step_trans w1 w2 w3 : warn_step E w1 w2 -> warn_step E w2 w3 -> warn_step E w1 w3.
Proof.
  intros [[Hf Hw]|(Hf & Hf' & Hw)] [[Hg Hv]|(Hg & Hg' & Hv)].
  - left. by rewrite Hg, Hv.
  - right. by rewrite <- Hf, Hv, Hw.
  - right. by rewrite Hg, Hv.
  - congruence.
Qed.

Lemma tame_quiet {A} (m : M A) : quiet m -> tame E m.
Proof. intros Hm w. left. apply Hm. Qed.

Lemma tame_bind {A B} (m : M A) (k : A -> M B) :
  tame E m -> (forall x, tame E (k x)) -> tame E (m ≫= k).
Proof.
  intros Hm Hk w. unfold mbind, M_bind, bind. specialize (Hm w).
  destruct (m w) as [[x|e] w1]; simpl in *; [|done].
  eapply warn_step_trans; [exact Hm|apply Hk].
Qed.

Lemma tame_run_async self body : tame E body -> tame E (run_async self body).
Proof.
  intros Hb w. unfold run_async. specialize (Hb w).
  destruct (body w) as [[[v|p k]|e] w1]; simpl in *;
    (eapply warn_step_trans; [exact Hb|]); left.
  - apply quiet_resolve.
  - apply quiet_on_settled.
  - apply quiet_reject.
Qed.

Lemma tame_readCodexContext : tame E (readCodexContext E).
Proof.
  intros w. unfold readCodexContext.
  destruct (negb _); [by left|]. destruct (String.eqb _ _); [by left|].
  destruct (readFileSync E _); [by left|].
  unfold mbind, M_bind, bind, the_world. simpl.
  destruct (codexContextWarningLogged w) eqn:Hflag; simpl; [left; by rewrite Hflag|].
  right. repeat split; [done|]. apply warnings_emit.
Qed.

Lemma tame_buildTurnInput prompt threadId : tame E (buildTurnInput E prompt threadId).
Proof.
  unfold buildTurnInput. apply tame_bind; [apply tame_readCodexContext|intros context].
  apply tame_quiet. quiet_async.
Qed.

Lemma tame_resume k o : tame E (resume E k o).
Proof.
  assert ((exists prompt, k = KRunTurnThread prompt) \/ forall prompt, k <> KRunTurnThread prompt)
    as [[prompt ->]|Hk] by (destruct k; eauto; right; congruence).
  - simpl. unfold runTurn_thread. destruct o as [v|e]; [|apply tame_quiet; quiet_async].
    apply tame_bind; [apply tame_quiet; unfold object_of; quiet_async|intros threadId].
    apply tame_bind; [apply tame_buildTurnInput|intros input].
    apply tame_quiet. apply quiet_bind; [apply quiet_sendRpc|intros p; apply quiet_ret].
  - by apply tame_quiet, quiet_resume.
Qed.

Lemma tame_step o : tame E (step E o).
Proof.
  destruct o as [prompt cwd| |n|n e|n|parsed|chunk|t|]; simpl.
  - apply tame_quiet. apply quiet_bind; [|intros p; apply quiet_called].
    apply quiet_call_async, quiet_sendCodexPrompt.
  - apply tame_quiet. apply quiet_bind; [|intros p; apply quiet_called].
    apply quiet_call_async, quiet_ensureStarted.
  - apply tame_quiet, quiet_on_child_spawn.
  - apply tame_quiet, quiet_on_child_error.
  - apply tame_quiet, quiet_on_child_close.
  - apply tame_quiet. apply quiet_bind; [apply quiet_this|intros a].
    destruct (rl a); [apply quiet_handleLine|apply quiet_ret].
  - apply tame_quiet. apply quiet_bind; [apply quiet_this|intros a].
    destruct (proc a); [apply quiet_on_stderr_data|apply quiet_ret].
  - apply tame_quiet, quiet_fire_timer.
  - unfold run_microtask. intros w. unfold mbind, M_bind, bind, the_world, update_world. simpl.
    destruct (microtasks w) as [|[[self k] o] rest]; [by left|].
    apply (tame_run_async self (resume E k o) (tame_resume k o) (set_microtasks rest w)).
Qed.
End Tame.

(** X10: the warning about the reference document is logged once.
    Whatever the callers and the subprocess do, the bridge writes at most
    one warning, the one that names the missing reference document, and it
    has written it exactly when [codexContextWarningLogged] is set. *)
Theorem context_warning_at_most_once (E : env) (os : list op) :
  let w := steps E os initial_world in
  (codexContextWarningLogged w = false /\ warnings w = []) \/
  (codexContextWarningLogged w = true /\ warnings w = [context_warning E]).
Proof.
  induction os as [|o os IH] using rev_ind; [by left|].
  cbv zeta in *. rewrite steps_snoc.
  destruct (tame_step E o (steps E os initial_world)) as [[Hf Hw]|(Hf & Hf' & Hw)];
    fold (exec (step E o) (steps E os initial_world)) in *.
  - by rewrite Hf, Hw.
  - right. destruct IH as [[_ Hnone]|[Htrue _]]; [|congruence].
    by rewrite Hf', Hw, Hnone.
Qed.

(** In the example environment the reference document is missing: the
    first turn warns, a second turn on the same bridge does not. *)
Example context_warning_logged :
  warnings world_turn_requested = [context_warning example_env] /\
  warnings (run example_env fuel
              (fifo_ops ++ [notification "turn/completed" (JObj [("turnId", JStr "U1")])])
              initial_world) = [context_warning example_env].
Proof. split; vm_compute; reflexivity. Qed.

(** * Properties of the HTTP helpers *)

(** ** Strings as lists of code units *)

Lemma substring_all (s : string) : String.substring 0 (String.length s) s = s.
Proof. induction s as [|c s IH]; simpl; [done|by rewrite IH]. Qed.

Lemma split_first_app (c : ascii) (a b : string) :
  all_chars (fun x => negb (Ascii.eqb x c)) a = true ->
  split_first c (a ++ String c b) = Some (a, b).
Proof.
  induction a as [|x a IH]; intros Ha.
  - simpl. by rewrite Ascii.eqb_refl.
  - simpl in Ha. apply andb_prop in Ha as [Hx Ha]. rewrite string_app_cons. simpl.
    apply negb_true_iff in Hx. by rewrite Hx, IH.
Qed.

Lemma before_first_app (c : ascii) (a b : string) :
  all_chars (fun x => negb (Ascii.eqb x c)) a = true ->
  before_first c (a ++ String c b) = a.
Proof.
  induction a as [|x a IH]; intros Ha.
  - simpl. by rewrite Ascii.eqb_refl.
  - simpl in Ha. apply andb_prop in Ha as [Hx Ha]. rewrite string_app_cons. simpl.
    apply negb_true_iff in Hx. by rewrite Hx, IH.
Qed.

Lemma has_base64_flag_app (m : string) : has_base64_flag (m ++ ";base64") = true.
Proof.
  induction m as [|x m IH]; [done|].
  rewrite string_app_cons. cbn [has_base64_flag]. rewrite IH. apply orb_true_r.
Qed.

Lemma all_chars_weaken (P Q : ascii -> bool) (s : string) :
  (forall c, P c = true -> Q c = true) -> all_chars P s = true -> all_chars Q s = true.
Proof.
  intros HPQ. induction s as [|c s IH]; simpl; [done|].
  intros H. apply andb_prop in H as [Hc Hs]. by rewrite (HPQ c Hc), IH.
Qed.
Lemma chars_inj (a b : string) : chars a = chars b -> a = b.
Proof.
  intros Hab. rewrite <- (string_of_list_ascii_of_string a), <- (string_of_list_ascii_of_string b).
  by rewrite Hab.
Qed.

Lemma chars_app (a b : string) : chars (a ++ b) = (chars a ++ chars b)%list.
Proof. induction a as [|c a IH]; [done|]. rewrite string_app_cons. simpl. by rewrite IH. Qed.

Lemma chars_trim_start (s : string) : chars (Js.trim_start s) = drop_spaces (chars s).
Proof. induction s as [|c s IH]; simpl; [done|]. by destruct (Js.is_space c). Qed.

Lemma chars_rev_string (s : string) : chars (Js.rev_string s) = List.rev (chars s).
Proof. unfold Js.rev_string. apply list_ascii_of_string_of_list_ascii. Qed.

Lemma chars_trim (s : string) : chars (Js.trim s) = trimmed (chars s).
Proof.
  unfold Js.trim, trimmed.
  by rewrite chars_rev_string, chars_trim_start, chars_rev_string, chars_trim_start.
Qed.

Lemma chars_to_lower (s : string) : chars (to_lower s) = List.map lower_char (chars s).
Proof. induction s as [|c s IH]; simpl; [done|by rewrite IH]. Qed.

Lemma all_chars_forallb (P : ascii -> bool) (s : string) :
  all_chars P s = forallb P (chars s).
Proof. induction s as [|c s IH]; simpl; [done|by rewrite IH]. Qed.

Lemma drop_spaces_solid l : starts_solid (drop_spaces l).
Proof.
  induction l as [|c l IH]; simpl; [done|].
  destruct (Js.is_space c) eqn:Hc; [exact IH|exact Hc].
Qed.

Lemma drop_spaces_id l : starts_solid l -> drop_spaces l = l.
Proof. destruct l as [|c l]; simpl; [done|]. by intros ->. Qed.

Lemma drop_spaces_suffix l : exists pre, l = (pre ++ drop_spaces l)%list /\ forallb Js.is_space pre = true.
Proof.
  induction l as [|c l (pre & Hl & Hpre)]; simpl; [by exists []|].
  destruct (Js.is_space c) eqn:Hc.
  - exists (c :: pre). simpl. rewrite Hc, Hpre. split; [by rewrite <- Hl|done].
  - by exists [].
Qed.

(** Dropping the spaces at the end keeps the first element. *)
Lemma rev_drop_rev_solid l :
  starts_solid l -> starts_solid (List.rev (drop_spaces (List.rev l))).
Proof.
  intros Hl. destruct l as [|c l]; [done|]. simpl in Hl.
  destruct (drop_spaces_suffix (List.rev (c :: l))) as (pre & Hrev & Hpre).
  assert (List.rev (drop_spaces (List.rev (c :: l))) ++ List.rev pre = c :: l)%list as Hsplit.
  { rewrite <- rev_app_distr, <- Hrev. apply rev_involutive. }
  destruct (List.rev (drop_spaces (List.rev (c :: l)))) as [|x xs] eqn:Hx.
  - simpl in Hsplit. exfalso.
    assert (In c (List.rev pre)) as Hin by (rewrite Hsplit; by left).
    apply in_rev in Hin. rewrite forallb_forall in Hpre. apply Hpre in Hin. congruence.
  - simpl in Hsplit. injection Hsplit as -> _. exact Hl.
Qed.

Lemma trimmed_solid l : starts_solid (trimmed l).
Proof. apply rev_drop_rev_solid, drop_spaces_solid. Qed.

Lemma trimmed_rev_solid l : starts_solid (List.rev (trimmed l)).
Proof. unfold trimmed. rewrite rev_involutive. apply drop_spaces_solid. Qed.

Lemma trimmed_id l : starts_solid l -> starts_solid (List.rev l) -> trimmed l = l.
Proof.
  intros Hl Hr. unfold trimmed. rewrite (drop_spaces_id l Hl), (drop_spaces_id _ Hr).
  apply rev_involutive.
Qed.

Lemma trimmed_idem l : trimmed (trimmed l) = trimmed l.
Proof. apply trimmed_id; [apply trimmed_solid|apply trimmed_rev_solid]. Qed.

Lemma trim_idem (s : string) : Js.trim (Js.trim s) = Js.trim s.
Proof. apply chars_inj. by rewrite !chars_trim, trimmed_idem. Qed.

Lemma lower_char_space c : Js.is_space (lower_char c) = Js.is_space c.
Proof. by destruct c as [[] [] [] [] [] [] [] []]. Qed.

Lemma lower_char_idem c : lower_char (lower_char c) = lower_char c.
Proof. by destruct c as [[] [] [] [] [] [] [] []]. Qed.

Lemma lower_char_semicolon c : Ascii.eqb (lower_char c) ";" = Ascii.eqb c ";".
Proof. by destruct c as [[] [] [] [] [] [] [] []]. Qed.

Lemma drop_spaces_lower l :
  drop_spaces (List.map lower_char l) = List.map lower_char (drop_spaces l).
Proof.
  induction l as [|c l IH]; simpl; [done|].
  rewrite lower_char_space. by destruct (Js.is_space c).
Qed.

Lemma trimmed_lower l : trimmed (List.map lower_char l) = List.map lower_char (trimmed l).
Proof. unfold trimmed. by rewrite drop_spaces_lower, <- map_rev, drop_spaces_lower, map_rev. Qed.

Lemma trim_to_lower (s : string) : Js.trim (to_lower s) = to_lower (Js.trim s).
Proof. apply chars_inj. by rewrite chars_trim, !chars_to_lower, chars_trim, trimmed_lower. Qed.

Lemma to_lower_idem (s : string) : to_lower (to_lower s) = to_lower s.
Proof. induction s as [|c s IH]; simpl; [done|]. by rewrite lower_char_idem, IH. Qed.

Lemma before_first_to_lower (s : string) :
  before_first ";" (to_lower s) = to_lower (before_first ";" s).
Proof.
  induction s as [|c s IH]; simpl; [done|].
  rewrite lower_char_semicolon. destruct (Ascii.eqb c ";"); simpl; [done|by rewrite IH].
Qed.

Lemma before_first_none (c : ascii) (s : string) :
  all_chars (fun x => negb (Ascii.eqb x c)) s = true -> before_first c s = s.
Proof.
  induction s as [|x s IH]; simpl; [done|].
  intros H. apply andb_prop in H as [Hx Hs]. apply negb_true_iff in Hx. by rewrite Hx, IH.
Qed.

Lemma before_first_clean (c : ascii) (s : string) :
  all_chars (fun x => negb (Ascii.eqb x c)) (before_first c s) = true.
Proof.
  induction s as [|x s IH]; simpl; [done|].
  destruct (Ascii.eqb x c) eqn:Hx; simpl; [done|]. by rewrite Hx, IH.
Qed.

Lemma forallb_drop_spaces (P : ascii -> bool) l :
  forallb P l = true -> forallb P (drop_spaces l) = true.
Proof.
  induction l as [|c l IH]; simpl; [done|].
  intros H. apply andb_prop in H as [Hc Hl].
  destruct (Js.is_space c); [by apply IH|]. simpl. by rewrite Hc, Hl.
Qed.

Lemma forallb_rev (P : ascii -> bool) l : forallb P (List.rev l) = forallb P l.
Proof.
  induction l as [|c l IH]; simpl; [done|].
  rewrite forallb_app, IH. simpl. rewrite andb_true_r. apply andb_comm.
Qed.

Lemma all_chars_trim (P : ascii -> bool) (s : string) :
  all_chars P s = true -> all_chars P (Js.trim s) = true.
Proof.
  rewrite !all_chars_forallb, chars_trim. unfold trimmed. intros H.
  rewrite forallb_rev. apply forallb_drop_spaces. rewrite forallb_rev.
  by apply forallb_drop_spaces.
Qed.

Lemma starts_with_app (p x : string) : Js.starts_with p (p ++ x) = true.
Proof.
  unfold Js.starts_with. induction p as [|c p IH]; [by destruct x|].
  rewrite string_app_cons. simpl. by destruct (ascii_dec c c).
Qed.

Lemma starts_with_split (p s : string) :
  Js.starts_with p s = true -> exists x, s = p ++ x.
Proof.
  unfold Js.starts_with. revert s. induction p as [|c p IH]; intros s Hs.
  - by exists s.
  - destruct s as [|d s]; [done|]. simpl in Hs.
    destruct (ascii_dec c d) as [->|]; [|done].
    destruct (IH s Hs) as [x ->]. by exists x.
Qed.

(** ** Data URLs *)

Lemma match_data_url_app (meta payload : string) :
  all_chars (fun x => negb (Ascii.eqb x ",")) meta = true ->
  payload <> "" ->
  all_chars (fun c => negb (is_line_terminator c)) payload = true ->
  match_data_url ("data:" ++ meta ++ String "," payload) = Some (meta, payload).
Proof.
  intros Hmeta Hne Hpayload. unfold match_data_url.
  set (rest := meta ++ String "," payload).
  change ("data:" ++ rest)
    with (String "d" (String "a" (String "t" (String "a" (String ":" rest))))).
  assert (Js.starts_with "data:"
            (String "d" (String "a" (String "t" (String "a" (String ":" rest))))) = true) as ->.
  { unfold Js.starts_with. simpl. by destruct rest. }
  replace (String.substring 5 _ _) with (String.substring 0 (String.length rest) rest)
    by (simpl; by rewrite Nat.sub_0_r).
  rewrite substring_all. unfold rest. rewrite split_first_app by done.
  rewrite Hpayload. by destruct (String.eqb_spec payload "").
Qed.

(** X11: a base64 data URL parses back to its parts.  For a media type
    without [,] or [;], trimmed and not empty, and a payload that is not
    empty and has no line break, [parseDataUrlBase64] applied to
    [data:<type>;base64,<payload>] returns that type and that payload. *)
Theorem data_url_round_trip (mime payload : string) :
  all_chars (fun c => negb (Ascii.eqb c ",") && negb (Ascii.eqb c ";")) mime = true ->
  Js.trim mime = mime -> mime <> "" ->
  payload <> "" ->
  all_chars (fun c => negb (is_line_terminator c)) payload = true ->
  parseDataUrlBase64 (Some (JStr (data_url_of mime payload))) =
  Normal {| du_mimeType := Some mime; du_base64 := payload |}.
Proof.
  intros Hmime Htrim Hne Hpne Hpayload.
  assert (all_chars (fun x => negb (Ascii.eqb x ",")) (mime ++ ";base64") = true) as Hcomma.
  { clear -Hmime. induction mime as [|c m IH]; [done|].
    rewrite string_app_cons. simpl in *. apply andb_prop in Hmime as [Hc Hm].
    apply andb_prop in Hc as [-> _]. by rewrite IH. }
  assert (all_chars (fun x => negb (Ascii.eqb x ";")) mime = true) as Hsemi.
  { eapply all_chars_weaken; [|exact Hmime]. intros c Hc. by apply andb_prop in Hc as [_ ->]. }
  unfold parseDataUrlBase64, data_url_of.
  replace ("data:" ++ mime ++ ";base64," ++ payload)
    with ("data:" ++ (mime ++ ";base64") ++ String "," payload)
    by (by rewrite string_app_assoc).
  rewrite match_data_url_app by done.
  replace (String.eqb _ "") with false by (symmetry; by apply String.eqb_neq).
  rewrite has_base64_flag_app. cbn [negb].
  change (mime ++ ";base64") with (mime ++ String ";" "base64").
  rewrite before_first_app by done. rewrite Htrim.
  by destruct (String.eqb_spec mime "").
Qed.

Lemma data_url_round_trip_witness :
  parseDataUrlBase64 (Some (JStr "data:audio/webm;base64,SGVsbG8=")) =
  Normal {| du_mimeType := Some "audio/webm"; du_base64 := "SGVsbG8=" |}.
Proof.
  apply (data_url_round_trip "audio/webm" "SGVsbG8="); try (vm_compute; reflexivity);
    discriminate.
Defined.

Lemma split_first_some (c : ascii) (s a b : string) :
  split_first c s = Some (a, b) ->
  s = a ++ String c b /\ all_chars (fun x => negb (Ascii.eqb x c)) a = true.
Proof.
  revert a. induction s as [|x s IH]; intros a; simpl; [done|].
  destruct (Ascii.eqb_spec x c) as [->|Hx].
  - by intros [= <- <-].
  - destruct (split_first c s) as [[a' b']|]; [|done]. intros [= <- <-].
    destruct (IH a' eq_refl) as [-> Ha']. rewrite string_app_cons. simpl.
    split; [done|]. rewrite Ha'. by destruct (Ascii.eqb_spec x c).
Qed.

Lemma all_chars_before_first (P : ascii -> bool) (c : ascii) (s : string) :
  all_chars P s = true -> all_chars P (before_first c s) = true.
Proof.
  induction s as [|x s IH]; simpl; [done|].
  intros H. apply andb_prop in H as [Hx Hs].
  destruct (Ascii.eqb x c); simpl; [done|]. by rewrite Hx, IH.
Qed.

Lemma all_chars_and (P Q : ascii -> bool) (s : string) :
  all_chars P s = true -> all_chars Q s = true ->
  all_chars (fun c => P c && Q c) s = true.
Proof.
  induction s as [|x s IH]; simpl; [done|].
  intros HP HQ. apply andb_prop in HP as [-> HP]. apply andb_prop in HQ as [-> HQ]. by apply IH.
Qed.

Lemma match_data_url_some (s meta payload : string) :
  match_data_url s = Some (meta, payload) ->
  s = "data:" ++ meta ++ String "," payload /\
  all_chars (fun x => negb (Ascii.eqb x ",")) meta = true /\
  payload <> "" /\
  all_chars (fun c => negb (is_line_terminator c)) payload = true.
Proof.
  unfold match_data_url. destruct (Js.starts_with "data:" s) eqn:Hs; [|done].
  apply starts_with_split in Hs as [rest ->].
  change ("data:" ++ rest)
    with (String "d" (String "a" (String "t" (String "a" (String ":" rest))))).
  replace (String.substring 5 _ _) with (String.substring 0 (String.length rest) rest)
    by (simpl; by rewrite Nat.sub_0_r).
  rewrite substring_all.
  destruct (split_first "," rest) as [[a b]|] eqn:Hsplit; [|done].
  destruct (negb (String.eqb b "")) eqn:Hb; [|done].
  destruct (all_chars _ b) eqn:Hlines; [|done]. intros [= <- <-].
  apply split_first_some in Hsplit as [-> Ha].
  repeat split; try done. intros ->. discriminate.
Qed.

(** X12: what [parseDataUrlBase64] returns.  The payload is never
    empty; a media type, when one is returned, is not empty, is trimmed and
    has neither [,] nor [;]; and the input is either the payload itself,
    returned with no media type, or the payload behind a [data:] header
    that carries the [;base64] flag, with no line break in the payload. *)
Theorem data_url_parts (input : jsval) (r : data_url) :
  parseDataUrlBase64 input = Normal r ->
  du_base64 r <> "" /\
  (forall m, du_mimeType r = Some m ->
     m <> "" /\ Js.trim m = m /\
     all_chars (fun c => negb (Ascii.eqb c ",") && negb (Ascii.eqb c ";")) m = true) /\
  ((input = Some (JStr (du_base64 r)) /\ du_mimeType r = None) \/
   exists meta,
     input = Some (JStr ("data:" ++ meta ++ "," ++ du_base64 r)) /\
     has_base64_flag meta = true /\
     all_chars (fun c => negb (is_line_terminator c)) (du_base64 r) = true).
Proof.
  unfold parseDataUrlBase64. destruct input as [[| | |s| |]|]; try done.
  destruct (String.eqb_spec s "") as [|Hs]; [done|].
  destruct (match_data_url s) as [[meta payload]|] eqn:Hmatch.
  - apply match_data_url_some in Hmatch as (-> & Hcomma & Hne & Hlines).
    destruct (has_base64_flag meta) eqn:Hflag; [|done]. intros [= <-]. simpl.
    split; [done|]. split; [|right; by exists meta].
    intros m Hm. destruct (String.eqb_spec (Js.trim (before_first ";" meta)) "") as [|Hm'];
      [done|]. injection Hm as <-. split; [done|]. split; [apply trim_idem|].
    apply all_chars_trim, all_chars_and;
      [by apply all_chars_before_first|apply before_first_clean].
  - intros [= <-]. simpl. split; [done|]. split; [done|]. by left.
Qed.

Lemma data_url_parts_witness :
  "Audio/Ogg" <> "" /\ Js.trim "Audio/Ogg" = "Audio/Ogg" /\
  all_chars (fun c => negb (Ascii.eqb c ",") && negb (Ascii.eqb c ";")) "Audio/Ogg" = true.
Proof.
  destruct (data_url_parts (Some (JStr "data: Audio/Ogg ;x=1;BASE64,QUJD"))
              {| du_mimeType := Some "Audio/Ogg"; du_base64 := "QUJD" |})
    as (_ & Hmime & _); [vm_compute; reflexivity|].
  by apply Hmime.
Defined.

(** ** The mime type of an upload *)

Lemma string_or_empty_str (s : string) : string_or_empty (Some (JStr s)) = Normal s.
Proof.
  unfold string_or_empty, Js.or_else, ToString. simpl.
  by destruct (String.eqb_spec s "") as [->|].
Qed.

Lemma normalizeMimeType_str (s : string) : normalizeMimeType (Some (JStr s)) = Normal (mime_of s).
Proof. unfold normalizeMimeType. by rewrite string_or_empty_str. Qed.

Lemma extForMimeType_str (s : string) : extForMimeType (Some (JStr s)) = Normal (ext_of s).
Proof. unfold extForMimeType. by rewrite string_or_empty_str. Qed.

Lemma mime_of_cases (s : string) :
  let base := Js.trim (before_first ";" (to_lower (Js.trim s))) in
  mime_of s = if String.eqb base "" then "audio/webm" else base.
Proof.
  cbv zeta. unfold mime_of.
  destruct (String.eqb_spec (to_lower (Js.trim s)) "") as [->|]; done.
Qed.

Lemma mime_of_shape (s : string) :
  mime_of s <> "" /\
  all_chars (fun c => negb (Ascii.eqb c ";")) (mime_of s) = true /\
  Js.trim (mime_of s) = mime_of s /\
  to_lower (mime_of s) = mime_of s.
Proof.
  rewrite (mime_of_cases s). cbv zeta.
  set (x := Js.trim s).
  set (base := Js.trim (before_first ";" (to_lower x))).
  destruct (String.eqb_spec base "") as [Hempty|Hne]; [by repeat split|].
  repeat split; try done.
  - apply all_chars_trim, before_first_clean.
  - apply trim_idem.
  - unfold base. by rewrite <- trim_to_lower, <- before_first_to_lower, to_lower_idem.
Qed.

Lemma mime_of_idem (s : string) : mime_of (mime_of s) = mime_of s.
Proof.
  destruct (mime_of_shape s) as (Hne & Hclean & Htrim & Hlower).
  rewrite (mime_of_cases (mime_of s)). cbv zeta.
  rewrite Htrim, Hlower, before_first_none, Htrim by done.
  by destruct (String.eqb_spec (mime_of s) "").
Qed.

Lemma string_or_empty_throws (v : jsval) (e : error) :
  string_or_empty v = Thrown e ->
  e = not_primitive /\ exists x, v = Some x /\ Js.truthy v = true /\ Js.to_string x = None.
Proof.
  unfold string_or_empty, Js.or_else, ToString.
  destruct v as [x|]; [|discriminate].
  destruct (Js.truthy (Some x)) eqn:Hx; [|discriminate].
  destruct (Js.to_string x) eqn:Hp; [discriminate|].
  intros [= <-]. split; [done|]. by exists x.
Qed.

(** X13: [normalizeMimeType] is idempotent and never returns an empty
    type.  When it returns, the result is a non-empty, lower-case, trimmed
    string without a parameter separator, and normalizing that string
    again returns it.  It throws, at the conversion of line 183, exactly
    on a truthy value that does not convert to a string. *)
Theorem normalizeMimeType_idempotent (v : jsval) :
  match normalizeMimeType v with
  | Normal m =>
      m <> "" /\
      all_chars (fun c => negb (Ascii.eqb c ";")) m = true /\
      Js.trim m = m /\
      to_lower m = m /\
      normalizeMimeType (Some (JStr m)) = Normal m
  | Thrown e =>
      e = not_primitive /\
      exists x, v = Some x /\ Js.truthy v = true /\ Js.to_string x = None
  end /\
  (forall x, v = Some x -> Js.to_string x <> None -> exists m, normalizeMimeType v = Normal m) /\
  (Js.truthy v = false -> normalizeMimeType v = Normal "audio/webm").
Proof.
  split; [|split].
  - unfold normalizeMimeType at 1.
    destruct (string_or_empty v) as [printed|e] eqn:Hv;
      cbv beta iota delta [mbind completion_bind mret completion_ret].
    + destruct (mime_of_shape printed) as (Hne & Hclean & Htrim & Hlower).
      repeat split; try done. by rewrite normalizeMimeType_str, mime_of_idem.
    + by apply string_or_empty_throws.
  - intros x -> Hx. unfold normalizeMimeType, string_or_empty, Js.or_else, ToString.
    destruct (Js.truthy (Some x)); [|by eexists].
    destruct (Js.to_string x); [by eexists|done].
  - intros Hv. unfold normalizeMimeType, string_or_empty, Js.or_else.
    destruct v as [x|]; [rewrite Hv|]; reflexivity.
Qed.

(** A type in capitals with a parameter; an object with a [toString] key. *)
Example normalizeMimeType_example :
  normalizeMimeType (Some (JStr " Audio/WAV; rate=16000 ")) = Normal "audio/wav" /\
  normalizeMimeType (Some (JObj [("toString", JNum 1)])) = Thrown not_primitive /\
  normalizeMimeType (Some (JObj [("type", JStr "audio/wav")])) = Normal "[object object]".
Proof. repeat split; vm_compute; reflexivity. Qed.

Lemma drop_spaces_app c R S :
  Js.is_space c = false -> drop_spaces (R ++ c :: S) = (drop_spaces R ++ c :: S)%list.
Proof.
  intros Hc. induction R as [|x R IH]; simpl; [by rewrite Hc|].
  by destruct (Js.is_space x).
Qed.

Lemma trim_with_parameters (b p : string) :
  exists p', Js.trim (b ++ String ";" p) = Js.trim_start b ++ String ";" p'.
Proof.
  exists (string_of_list_ascii (List.rev (drop_spaces (List.rev (chars p))))).
  apply chars_inj.
  rewrite chars_trim, !chars_app. simpl.
  rewrite chars_trim_start, list_ascii_of_string_of_list_ascii.
  unfold trimmed. rewrite drop_spaces_app by done.
  rewrite rev_app_distr. simpl. rewrite <- app_assoc. simpl.
  rewrite drop_spaces_app by done. rewrite rev_app_distr. simpl.
  by rewrite rev_involutive, <- app_assoc.
Qed.

Lemma to_lower_app (a b : string) : to_lower (a ++ b) = to_lower a ++ to_lower b.
Proof. induction a as [|c a IH]; [done|]. rewrite string_app_cons. simpl. by rewrite IH. Qed.

Lemma all_chars_to_lower_semicolon (s : string) :
  all_chars (fun c => negb (Ascii.eqb c ";")) (to_lower s) =
  all_chars (fun c => negb (Ascii.eqb c ";")) s.
Proof. induction s as [|c s IH]; simpl; [done|]. by rewrite lower_char_semicolon, IH. Qed.

Lemma all_chars_trim_start (P : ascii -> bool) (s : string) :
  all_chars P s = true -> all_chars P (Js.trim_start s) = true.
Proof. rewrite !all_chars_forallb, chars_trim_start. apply forallb_drop_spaces. Qed.

Lemma trim_trim_start (s : string) : Js.trim (Js.trim_start s) = Js.trim s.
Proof.
  apply chars_inj. rewrite !chars_trim, chars_trim_start. unfold trimmed.
  by rewrite (drop_spaces_id (drop_spaces (chars s))) by apply drop_spaces_solid.
Qed.

Lemma mime_of_parameters (b p : string) :
  all_chars (fun c => negb (Ascii.eqb c ";")) b = true ->
  mime_of (b ++ String ";" p) = mime_of b.
Proof.
  intros Hb. rewrite !mime_of_cases. cbv zeta.
  destruct (trim_with_parameters b p) as [p' ->].
  rewrite to_lower_app. change (to_lower (String ";" p')) with (String ";" (to_lower p')).
  rewrite before_first_app
    by (rewrite all_chars_to_lower_semicolon; by apply all_chars_trim_start).
  rewrite before_first_none
    by (rewrite all_chars_to_lower_semicolon; by apply all_chars_trim).
  by rewrite !trim_to_lower, trim_trim_start, trim_idem.
Qed.

Lemma before_first_split (c : ascii) (s : string) :
  s = before_first c s \/ exists q, s = before_first c s ++ String c q.
Proof.
  induction s as [|x s IH]; simpl; [by left|].
  destruct (Ascii.eqb_spec x c) as [->|Hx].
  - right. by exists s.
  - destruct IH as [IH|[q IH]].
    + left. by rewrite <- IH.
    + right. exists q. rewrite string_app_cons. by rewrite <- IH.
Qed.

(** X14: the parameters of a mime type are ignored.  Every text
    normalizes to what its part before the first [;] normalizes to, so the
    content type and, through [extForMimeType], the file name of an upload
    depend on that part only: not on [codecs=...] or any other parameter,
    and not on the spaces around the [;].  On a text neither function
    throws. *)
Theorem mime_parameters_ignored (s : string) :
  normalizeMimeType (Some (JStr s)) = normalizeMimeType (Some (JStr (before_first ";" s))) /\
  (m ← normalizeMimeType (Some (JStr s)); extForMimeType (Some (JStr m))) =
    (m ← normalizeMimeType (Some (JStr (before_first ";" s))); extForMimeType (Some (JStr m))) /\
  exists m ext,
    normalizeMimeType (Some (JStr s)) = Normal m /\
    extForMimeType (Some (JStr m)) = Normal ext.
Proof.
  assert (normalizeMimeType (Some (JStr s)) =
          normalizeMimeType (Some (JStr (before_first ";" s)))) as Hsame.
  { rewrite !normalizeMimeType_str. f_equal.
    destruct (before_first_split ";" s) as [Hs|[q Hs]].
    - by rewrite <- Hs.
    - rewrite Hs at 1. apply mime_of_parameters, before_first_clean. }
  split; [exact Hsame|]. split; [by rewrite Hsame|].
  exists (mime_of s), (ext_of (mime_of s)).
  by rewrite normalizeMimeType_str, extForMimeType_str.
Qed.

(** A recording of a browser: the codec and the spaces are dropped. *)
Example mime_parameters_example :
  normalizeMimeType (Some (JStr " Audio/WebM ; codecs=opus")) = Normal "audio/webm" /\
  (m ← normalizeMimeType (Some (JStr " Audio/WebM ; codecs=opus"));
   extForMimeType (Some (JStr m))) = Normal "webm".
Proof. split; vm_compute; reflexivity. Qed.

(** ** Card candidates *)

Lemma requested_count_bounds (H : host) (n : jsval) (count : Z) :
  requested_count H n = Normal count -> 1 <= count <= 10.
Proof.
  unfold requested_count. destruct (to_number H n) as [number|e]; [|done].
  intros [= <-]. lia.
Qed.

Lemma map_indexed_length {A B} (f : nat -> A -> completion B) index l ys :
  map_indexed f index l = Normal ys -> List.length ys = List.length l.
Proof.
  revert index ys. induction l as [|x l IH]; intros index ys; simpl.
  - by intros [= <-].
  - destruct (f index x) as [y|e]; [|done].
    destruct (map_indexed f (S index) l) as [ys'|e] eqn:Hrest; [|done].
    intros [= <-]. simpl. by rewrite (IH _ _ Hrest).
Qed.

Lemma map_indexed_forall {A B} (f : nat -> A -> completion B) (P : B -> Prop) index l ys :
  (forall i x y, f i x = Normal y -> P y) ->
  map_indexed f index l = Normal ys -> Forall P ys.
Proof.
  intros Hf. revert index ys. induction l as [|x l IH]; intros index ys; simpl.
  - intros [= <-]. constructor.
  - destruct (f index x) as [y|e] eqn:Hy; [|done].
    destruct (map_indexed f (S index) l) as [ys'|e] eqn:Hrest; [|done].
    intros [= <-]. constructor; [by eapply Hf|by eapply IH].
Qed.

Lemma bind_normal {A B} (m : completion A) (k : A -> completion B) (y : B) :
  (m ≫= k) = Normal y -> exists x, m = Normal x /\ k x = Normal y.
Proof. destruct m as [x|e]; [|done]. intros Hy. by exists x. Qed.

Lemma card_tags_length (c : json) (l : list string) :
  card_tags c = Normal l -> (List.length l <= 12)%nat.
Proof.
  unfold card_tags. destruct (Js.get c "tags") as [[]|]; try (intros [= <-]; simpl; lia).
  intros Hl. apply bind_normal in Hl as (printed & _ & [= <-]).
  rewrite length_firstn. lia.
Qed.

Lemma normalize_card_tags index c y :
  normalize_card index c = Normal y -> (List.length (tags y) <= 12)%nat.
Proof.
  unfold normalize_card. intros Hy.
  assert (exists l, card_tags c = Normal l /\ tags y = l) as (l & Hl & ->).
  { destruct c; try discriminate;
      apply bind_normal in Hy as (? & _ & Hy); apply bind_normal in Hy as (? & _ & Hy);
      apply bind_normal in Hy as (? & _ & Hy); apply bind_normal in Hy as (? & _ & Hy);
      apply bind_normal in Hy as (? & _ & Hy); apply bind_normal in Hy as (l & Hl & Hy);
      injection Hy as <-; by exists l. }
  by eapply card_tags_length.
Qed.

Lemma present_some s : present s = true -> exists x, s = Some x /\ x <> "".
Proof.
  destruct s as [x|]; [|done]. simpl. intros Hx. exists x. split; [done|].
  intros ->. discriminate.
Qed.

(** X15: the card candidates handed to the client.  When
    [normalizeCardCandidates] returns, the list is not empty, holds at most
    as many candidates as were requested and never more than 10, and every
    candidate is usable: a cloze card has a non-empty cloze text, a basic
    card a non-empty front and back, and no card has more than 12 tags. *)
Theorem card_candidates_well_formed (H : host) (parsed : json) (requestedN : jsval)
    (cards : list card) :
  normalizeCardCandidates H parsed requestedN = Normal cards ->
  cards <> [] /\
  (exists count, requested_count H requestedN = Normal count /\
                 Z.of_nat (List.length cards) <= count <= 10) /\
  Forall well_formed cards.
Proof.
  unfold normalizeCardCandidates.
  set (given := match Js.get_opt (Some parsed) "cards" with
                | Some (JArrAt _ cs) => cs | _ => [] end).
  destruct (requested_count H requestedN) as [count|e] eqn:Hcount; [|done].
  cbv beta iota delta [mbind completion_bind].
  destruct (map_indexed normalize_card 0 _) as [mapped|e] eqn:Hmap; [|done].
  destruct (List.filter usable mapped) as [|c safe] eqn:Hsafe; [done|].
  intros [= <-]. split; [done|]. rewrite <- Hsafe.
  apply requested_count_bounds in Hcount as Hbounds.
  pose proof (map_indexed_length _ _ _ _ Hmap) as Hlen. rewrite length_firstn in Hlen.
  pose proof (filter_length_le usable mapped) as Hfilter.
  split; [exists count; split; [done|lia]|].
  apply Forall_forall. intros x Hx. apply list_elem_of_In, filter_In in Hx as [Hin Husable].
  assert (Forall (fun y => (List.length (tags y) <= 12)%nat) mapped) as Htags
    by (eapply map_indexed_forall; [apply normalize_card_tags|exact Hmap]).
  rewrite Forall_forall in Htags. split; [|by apply Htags, list_elem_of_In].
  unfold usable in Husable. destruct (card_type x).
  - apply andb_prop in Husable as [Hf Hb].
    destruct (present_some _ Hf) as (f & -> & ?), (present_some _ Hb) as (b & -> & ?).
    by exists f, b.
  - by apply present_some.
Qed.

(** Three candidates from the model, two requested: the first two are
    normalized, the second has no back and is dropped. *)
Lemma card_candidates_well_formed_witness :
  Forall well_formed
    [{| candidate_id := "cand_1"; card_type := Basic; front := Some "Q"; back := Some "A";
        cloze_text := None; rationale := ""; tags := ["7"] |}].
Proof.
  apply (card_candidates_well_formed example_host
           (JObj [("cards",
                   JArr [JObj [("front", JStr "Q"); ("back", JStr "A"); ("tags", JArr [JNum 7])];
                         JObj [("front", JStr "Q2")];
                         JObj [("card_type", JStr "cloze"); ("cloze_text", JStr "x")]])])
           (Some (JStr "2"))).
  vm_compute. reflexivity.
Defined.

(** A candidate whose front has a [toString] key ends the call with the
    exception of [String]. *)
Example card_candidates_throw :
  normalizeCardCandidates example_host
    (JObj [("cards", JArr [JObj [("front", JObj [("toString", JNum 1)]); ("back", JStr "A")]])])
    (Some (JNum 3)) = Thrown not_primitive.
Proof. vm_compute. reflexivity. Qed.

(** ** The feedback store *)

Lemma post_feedback_store uuid now body store :
  snd (post_feedback uuid now body store) =
  match accepted (uuid, now, body) with
  | Some item => remember item store
  | None => store
  end.
Proof.
  unfold post_feedback, accepted. simpl.
  destruct body; try done;
    (destruct (feedback_item uuid now _) as [item|e]; [|done]); by destruct (complete item).
Qed.

Lemma last_n_short {A} (n : nat) (l : list A) : (List.length l <= n)%nat -> last_n n l = l.
Proof. intros Hl. unfold last_n. by replace (List.length l - n)%nat with 0%nat by lia. Qed.

Lemma last_n_length {A} (n : nat) (l : list A) : (List.length (last_n n l) <= n)%nat.
Proof. unfold last_n. rewrite length_skipn. lia. Qed.

Lemma last_n_remember (item : feedback) (store rest : list feedback) :
  (List.length store <= 200)%nat ->
  last_n 200 (remember item store ++ rest) = last_n 200 (store ++ item :: rest).
Proof.
  intros Hlen. unfold remember, last_n.
  replace (store ++ item :: rest)%list with ((store ++ [item]) ++ rest)%list
    by (by rewrite <- app_assoc).
  destruct (Nat.ltb_spec 200 (List.length (store ++ [item]))) as [Hfull|]; [|done].
  rewrite length_app in Hfull. simpl in Hfull.
  destruct store as [|x store]; [simpl in *; lia|]. simpl.
  rewrite !length_app. simpl.
  replace (List.length store + 1 + List.length rest - 199)%nat
    with (S (List.length store + 1 + List.length rest - 200))%nat by (simpl in Hlen, Hfull; lia).
  done.
Qed.

Lemma remember_length (item : feedback) (store : list feedback) :
  (List.length store <= 200)%nat -> (List.length (remember item store) <= 200)%nat.
Proof.
  intros Hlen. unfold remember.
  destruct (Nat.ltb_spec 200 (List.length (store ++ [item]))) as [Hfull|]; [|done].
  rewrite length_app in Hfull. simpl in Hfull.
  destruct store as [|x store]; simpl in *; [lia|]. rewrite length_app. simpl. lia.
Qed.

Lemma feedback_run_from (requests : list (string * string * json)) (store : list feedback) :
  (List.length store <= 200)%nat ->
  feedback_run requests store = last_n 200 (store ++ omap accepted requests).
Proof.
  revert store. induction requests as [|[[uuid now] body] requests IH]; intros store Hlen.
  - simpl. rewrite app_nil_r. by rewrite last_n_short.
  - unfold feedback_run. simpl. fold (feedback_run requests).
    rewrite post_feedback_store.
    destruct (accepted (uuid, now, body)) as [item|] eqn:Hacc; simpl.
    + rewrite IH by (by apply remember_length). by apply last_n_remember.
    + by apply IH.
Qed.

(** X16: the feedback store keeps the last 200 accepted items.  After
    any sequence of feedback requests the store holds, in order, the items
    of the accepted requests, the oldest beyond 200 dropped; it never holds
    more than 200, and every item in it names a chosen candidate and
    carries a chosen card.  A request is accepted when its body is not
    [null], its fields convert and it names a candidate and a card; the
    others (refused with 400, or failed with 500 at a conversion) leave no
    trace. *)
Theorem feedback_store_keeps_last_200 (requests : list (string * string * json)) :
  feedback_run requests [] = last_n 200 (omap accepted requests) /\
  (List.length (feedback_run requests []) <= 200)%nat /\
  Forall (fun item => present (fb_chosenCandidateId item) = true /\
                      Js.truthy (Some (fb_chosenCard item)) = true)
    (feedback_run requests []).
Proof.
  assert (feedback_run requests [] = last_n 200 (omap accepted requests)) as Hrun
    by (rewrite feedback_run_from by (simpl; lia); done).
  split; [exact Hrun|]. rewrite Hrun. split; [apply last_n_length|].
  unfold last_n. apply Forall_forall. intros item Hin.
  apply (subseteq_drop _ _ item) in Hin.
  apply list_elem_of_omap in Hin as (r & _ & Hacc).
  unfold accepted in Hacc.
  destruct (snd r); try done;
    (destruct (feedback_item _ _ _) as [stored|e]; [|done]);
    destruct (complete stored) eqn:Hc; try done; injection Hacc as <-;
    by apply andb_prop in Hc.
Qed.

Example feedback_store_example :
  let accepted_body := JObj [("chosenCandidateId", JStr "cand_1"); ("chosenCard", JObj [])] in
  let failing_body :=
    JObj [("chosenCandidateId", JStr "cand_1"); ("chosenCard", JObj []);
          ("transcript", JObj [("toString", JNum 1)])] in
  List.map fb_id
    (feedback_run [("u1", "t1", accepted_body); ("u2", "t2", JObj []); ("u3", "t3", JNull);
                   ("u4", "t4", failing_body); ("u5", "t5", accepted_body)] []) =
    ["fb_u1"; "fb_u5"] /\
  post_feedback "u4" "t4" failing_body [] = (server_error not_primitive, []) /\
  fb_clipId <$> accepted ("u", "t", JObj [("chosenCandidateId", JStr "c"); ("chosenCard", JObj []);
                                          ("clipId", JNum (10 ^ 21))]) = Some (Some "1e+21") /\
  List.length (feedback_run (List.repeat ("u", "t", accepted_body) 205) []) = 200%nat.
Proof. repeat split; vm_compute; reflexivity. Qed.

(** ** Paths inside the workspace *)

Lemma within_trans (root dir target : string) :
  within root dir = true -> within dir target = true -> within root target = true.
Proof.
  unfold within. intros Hdir Htarget.
  apply orb_prop in Htarget as [Htarget|Htarget].
  - apply starts_with_split in Htarget as [x ->].
    apply orb_prop in Hdir as [Hdir|Hdir].
    + apply starts_with_split in Hdir as [y ->].
      rewrite (string_app_assoc ((root ++ "/") ++ y) "/" x),
        (string_app_assoc (root ++ "/") y ("/" ++ x)).
      by rewrite starts_with_app.
    + apply String.eqb_eq in Hdir as ->. by rewrite starts_with_app.
  - apply String.eqb_eq in Htarget as ->. exact Hdir.
Qed.

Lemma safeResolve_within (H : host) (baseDir targetPath : json) (base p : string) :
  ALLOW_OUTSIDE_WORKSPACE H = false ->
  path_resolve H [baseDir] = Normal base ->
  safeResolve H baseDir targetPath = Normal p ->
  within base p = true.
Proof.
  intros Hallow Hbase. unfold safeResolve. rewrite Hbase, Hallow.
  destruct (path_resolve H [JStr base; targetPath]) as [target|e]; [|done].
  destruct (within base target) eqn:Hw; [|done]. by intros [= <-].
Qed.

(** X17: the file endpoints stay inside the workspace.  Unless
    [ALLOW_OUTSIDE_WORKSPACE] is set, the path that [/api/file/read] reads
    and [/api/file/save] writes is the resolved workspace root or lies
    below it: the directory of the request passed the test of [safeResolve]
    against the root, the path passed it against the directory, and the two
    tests compose.  [path.resolve] is taken to leave the resolved directory
    as it is. *)
Theorem file_target_inside_root (E : env) (H : host) (body : json) (root dir p : string) :
  ALLOW_OUTSIDE_WORKSPACE H = false ->
  path_resolve H [JStr (WORKSPACE_ROOT H)] = Normal root ->
  resolveWorkspaceCwd E H (body_cwd H body) = Normal dir ->
  path_resolve H [JStr dir] = Normal dir ->
  file_target E H body = Normal (Some p) ->
  within root dir = true /\ within dir p = true /\ within root p = true.
Proof.
  intros Hallow Hroot Hdir Hstable Htarget.
  assert (within root dir = true) as Hin_root.
  { unfold resolveWorkspaceCwd in Hdir.
    destruct (expandHome_value E _) as [expanded|e]; [|done].
    by eapply safeResolve_within. }
  assert (within dir p = true) as Hin_dir.
  { unfold file_target in Htarget. rewrite Hdir in Htarget.
    destruct (Js.get body "path") as [filePath|] eqn:Hpath;
      [|destruct body; simpl in Htarget; congruence].
    destruct (negb (Js.truthy (Some filePath)));
      [destruct body; simpl in Htarget; congruence|].
    destruct (safeResolve H (JStr dir) filePath) as [q|e] eqn:Hq;
      [|destruct body; simpl in Htarget; congruence].
    assert (q = p) as <- by (destruct body; simpl in Htarget; congruence).
    by eapply safeResolve_within. }
  repeat split; try done. by eapply within_trans.
Qed.

(** A request for [notes/../cards/a.md] in the directory [/work/deck]
    reads [/work/deck/cards/a.md], inside the root [/work]. *)
Lemma file_target_inside_root_witness :
  within "/work" "/work/deck/cards/a.md" = true.
Proof.
  apply (file_target_inside_root example_env example_host
           (JObj [("path", JStr "notes/../cards/a.md"); ("cwd", JStr "/work/deck")])
           "/work" "/work/deck" "/work/deck/cards/a.md");
    vm_compute; reflexivity.
Defined.

(** The same request for [../../etc/passwd] is refused. *)
Example file_target_escape :
  file_target example_env example_host
    (JObj [("path", JStr "../../etc/passwd"); ("cwd", JStr "/work/deck")]) =
  Thrown escapes_root /\
  file_target example_env example_host
    (JObj [("path", JStr "a.md"); ("cwd", JStr "/work2")]) = Thrown escapes_root.
Proof. split; vm_compute; reflexivity. Qed.

(** ** The upload of a transcription request *)

Lemma ext_of_known (printed : string) :
  In (ext_of printed) ["wav"; "mp3"; "m4a"; "ogg"; "webm"; "bin"].
Proof.
  unfold ext_of. cbv zeta.
  repeat match goal with |- context [if ?b then _ else _] => destruct b end;
    simpl; auto 10.
Qed.

Lemma data_url_mime_present (input : jsval) (r : data_url) (m : string) :
  parseDataUrlBase64 input = Normal r -> du_mimeType r = Some m -> m <> "".
Proof.
  unfold parseDataUrlBase64. destruct input as [[| | |s| |]|]; try done.
  destruct (String.eqb s ""); [done|].
  destruct (match_data_url s) as [[meta payload]|]; [|by intros [= <-]].
  destruct (negb (has_base64_flag meta)); [done|]. intros [= <-]. simpl.
  destruct (String.eqb_spec (Js.trim (before_first ";" meta)) ""); [done|]. by intros [= <-].
Qed.

(** X18: what a transcription request uploads.  When
    [callOpenAITranscription] reaches [fetch], the server key is set, the
    audio is not empty and not above [VOICE_POC_MAX_AUDIO_BYTES], and the
    file is named [clip.] plus one of six extensions, chosen from the
    normalized media type: a non-empty, lower-case type without
    parameters.  The type of the file is that media type, unless it holds a
    character outside U+0020-U+007E: [Blob] then leaves the type empty.  A
    media type carried by the data URL decides both, whatever [mimeType]
    the request gives beside it. *)
Theorem transcription_upload_shape (E : env) (H : host)
    (audioBase64 mimeType language prompt : jsval) (u : upload) :
  transcription_upload E H audioBase64 mimeType language prompt = Normal u ->
  server_api_key E <> "" /\
  up_bytes u <> [] /\
  (forall limit, VOICE_POC_MAX_AUDIO_BYTES H = Some limit ->
                 Z.of_nat (List.length (up_bytes u)) <= limit) /\
  exists m,
    m <> "" /\
    all_chars (fun c => negb (Ascii.eqb c ";")) m = true /\
    to_lower m = m /\
    up_type u = (if all_chars printable m then m else "") /\
    up_filename u = "clip." ++ ext_of m /\
    In (ext_of m) ["wav"; "mp3"; "m4a"; "ogg"; "webm"; "bin"] /\
    (forall parsed mime,
        parseDataUrlBase64 audioBase64 = Normal parsed -> du_mimeType parsed = Some mime ->
        m = mime_of mime).
Proof.
  unfold transcription_upload, requireOpenAIKey, decodeBase64Audio.
  destruct (String.eqb_spec (server_api_key E) "") as [|Hkey]; [done|].
  destruct (parseDataUrlBase64 audioBase64) as [parsed|e] eqn:Hparse; [|done].
  destruct (Nat.eqb_spec (List.length (Buffer_from_base64 H (du_base64 parsed))) 0)
    as [|Hlen]; [done|].
  destruct (match VOICE_POC_MAX_AUDIO_BYTES H with Some _ => _ | None => _ end) eqn:Hlimit;
    [done|].
  cbv beta iota delta [mbind completion_bind]. cbn [au_mimeType au_bytes].
  set (given := Js.or (Js.or (JStr <$> du_mimeType parsed) mimeType) (Some (JStr "audio/webm"))).
  intros Hu.
  assert (exists printed, normalizeMimeType given = Normal (mime_of printed) /\
            (forall mime, du_mimeType parsed = Some mime -> mime_of printed = mime_of mime))
    as (printed & Hnorm & Hfrom).
  { unfold normalizeMimeType in *.
    destruct (string_or_empty given) as [printed|e] eqn:Hprinted; [|done].
    exists printed. split; [done|]. intros mime Hmime.
    pose proof (data_url_mime_present _ _ _ Hparse Hmime) as Hmne.
    assert (given = Some (JStr mime)) as Hgiven.
    { unfold given. rewrite Hmime. unfold Js.or. simpl.
      destruct (String.eqb_spec mime "") as [|_]; [done|]. simpl.
      by destruct (String.eqb_spec mime ""). }
    rewrite Hgiven, string_or_empty_str in Hprinted. by injection Hprinted as <-. }
  rewrite Hnorm in Hu. rewrite extForMimeType_str in Hu.
  destruct (text_field "language" language) as [language_field|e]; [|done].
  destruct (text_field "prompt" prompt) as [prompt_field|e]; [|done].
  injection Hu as <-. simpl.
  destruct (mime_of_shape printed) as (Hne & Hclean & _ & Hlower).
  split; [done|]. split; [intros Hnil; by rewrite Hnil in Hlen|].
  split; [intros limit Hsome; rewrite Hsome in Hlimit; lia|].
  exists (mime_of printed). repeat split; try done.
  - unfold Blob_type. by rewrite Hlower.
  - apply ext_of_known.
  - intros parsed' mime [= <-] Hmime. by apply Hfrom.
Qed.

(** A WebM recording sent as a data URL, with a misleading [mimeType]
    beside it: the type of the data URL wins.  A type with a tabulator in
    it names the file by its text and leaves the type of the file empty. *)
Lemma transcription_upload_shape_witness :
  (exists m,
     up_type {| up_fields := [("model", "whisper-1"); ("language", "en")];
                up_bytes := ["H"; "e"; "l"; "l"; "o"]%char;
                up_type := "audio/webm"; up_filename := "clip.webm" |} =
       (if all_chars printable m then m else "") /\
     m = mime_of "Audio/WebM") /\
  transcription_upload example_env example_host
    (Some (JStr "SGVsbG8=")) (Some (JStr ("audio/" ++ String (ascii_of_nat 9) "wav"))) None None =
  Normal {| up_fields := [("model", "whisper-1")];
            up_bytes := ["H"; "e"; "l"; "l"; "o"]%char;
            up_type := ""; up_filename := "clip.wav" |}.
Proof.
  split; [|vm_compute; reflexivity].
  destruct (transcription_upload_shape example_env example_host
              (Some (JStr "data:Audio/WebM;codecs=opus;base64,SGVsbG8="))
              (Some (JStr "audio/wav")) (Some (JStr "en")) None
              {| up_fields := [("model", "whisper-1"); ("language", "en")];
                 up_bytes := ["H"; "e"; "l"; "l"; "o"]%char;
                 up_type := "audio/webm"; up_filename := "clip.webm" |})
    as (_ & _ & _ & m & _ & _ & _ & Htype & _ & _ & Hfrom_url); [vm_compute; reflexivity|].
  exists m. split; [exact Htype|].
  apply (Hfrom_url {| du_mimeType := Some "Audio/WebM"; du_base64 := "SGVsbG8=" |});
    vm_compute; reflexivity.
Defined.

(** ** The language-server relay *)

Lemma string_length_app (a b : string) :
  String.length (a ++ b) = (String.length a + String.length b)%nat.
Proof. induction a as [|c a IH]; [done|]. rewrite string_app_cons. simpl. by rewrite IH. Qed.

Lemma take_drop_chars (n : nat) (s : string) : s = take_chars n s ++ drop_chars n s.
Proof.
  revert s. induction n as [|n IH]; intros s; [by destruct s|].
  destruct s as [|c s]; [done|]. simpl. rewrite string_app_cons. by rewrite <- IH.
Qed.

Lemma drop_chars_add (n m : nat) (s : string) :
  drop_chars (n + m) s = drop_chars m (drop_chars n s).
Proof.
  revert s. induction n as [|n IH]; intros s; [done|].
  destruct s as [|c s]; simpl; [by destruct m|]. apply IH.
Qed.

Lemma drop_chars_app (p x : string) : drop_chars (String.length p) (p ++ x) = x.
Proof. induction p as [|c p IH]; [done|]. rewrite string_app_cons. simpl. exact IH. Qed.

Lemma index_of_some (p s : string) (h : nat) :
  index_of p s = Some h -> exists rest, drop_chars h s = p ++ rest.
Proof.
  revert h. induction s as [|c s IH]; intros h; cbn [index_of].
  - destruct (Js.starts_with p "") eqn:Hp; [|done]. intros [= <-].
    by apply starts_with_split in Hp.
  - destruct (Js.starts_with p (String c s)) eqn:Hp.
    + intros [= <-]. by apply starts_with_split in Hp.
    + destruct (index_of p s) as [h'|]; [|done]. simpl. intros [= <-]. by apply IH.
Qed.

Lemma after_prefix_fold_app (p a b : string) :
  after_prefix_fold p a <> None -> after_prefix_fold p (a ++ b) <> None.
Proof.
  revert a. induction p as [|x p IH]; intros a; [done|].
  destruct a as [|y a]; [done|]. rewrite string_app_cons. simpl.
  destruct (Ascii.eqb x (fold_char y)); [apply IH|done].
Qed.

Lemma includes_fold_app_l (p a b : string) :
  includes_fold p (a ++ b) = false -> includes_fold p a = false.
Proof.
  induction a as [|c a IH].
  - simpl. destruct p; [|done]. by destruct b.
  - rewrite string_app_cons. cbn [includes_fold]. intros H.
    apply orb_false_elim in H as [Hhere Hrest]. rewrite (IH Hrest), orb_false_r.
    pose proof (after_prefix_fold_app p (String c a) b) as Happ.
    rewrite string_app_cons in Happ.
    destruct (after_prefix_fold p (String c a)); [|done].
    destruct (after_prefix_fold p (String c (a ++ b))); [done|]. by destruct Happ.
Qed.

Lemma includes_fold_app_r (p a b : string) :
  includes_fold p (a ++ b) = false -> includes_fold p b = false.
Proof.
  induction a as [|c a IH]; [done|].
  rewrite string_app_cons. cbn [includes_fold]. intros H.
  apply orb_false_elim in H as [_ Hrest]. by apply IH.
Qed.

Lemma relay_quiet (fuel : nat) (buffer : string) :
  includes_fold content_length_pattern buffer = false ->
  (String.length buffer < fuel)%nat ->
  exists pre rest, relay fuel buffer = Some ([], rest) /\ buffer = pre ++ rest.
Proof.
  revert buffer. induction fuel as [|fuel IH]; intros buffer Hclean Hlen; [lia|].
  simpl. destruct (index_of CRLF2 buffer) as [h|] eqn:Hindex.
  - pose proof (take_drop_chars h buffer) as Hsplit.
    assert (includes_fold content_length_pattern (take_chars h buffer) = false) as ->
      by (rewrite Hsplit in Hclean; by apply includes_fold_app_l in Hclean).
    pose proof (take_drop_chars (h + 4) buffer) as Hsplit4.
    destruct (index_of_some _ _ _ Hindex) as [after Hafter].
    destruct (IH (drop_chars (h + 4) buffer)) as (pre & rest & Hrun & Hrest).
    + rewrite Hsplit4 in Hclean. by apply includes_fold_app_r in Hclean.
    + assert (String.length buffer =
              String.length (take_chars h buffer) + (4 + String.length after))%nat as Hl.
      { rewrite Hsplit at 1. rewrite string_length_app, Hafter, string_length_app. done. }
      rewrite drop_chars_add, Hafter.
      change 4%nat with (String.length CRLF2) at 1. rewrite drop_chars_app.
      simpl in Hl. lia.
    + exists (take_chars (h + 4) buffer ++ pre), rest. split; [exact Hrun|].
      rewrite string_app_assoc, <- Hrest. exact Hsplit4.
  - by exists "", buffer.
Qed.

Lemma relay_more_fuel (fuel fuel' : nat) (buffer : string) r :
  relay fuel buffer = Some r -> (fuel <= fuel')%nat -> relay fuel' buffer = Some r.
Proof.
  revert fuel' buffer r. induction fuel as [|fuel IH]; intros fuel' buffer r; [done|].
  destruct fuel' as [|fuel']; [lia|]. simpl. intros Hrun Hle.
  destruct (index_of CRLF2 buffer) as [h|]; [|done].
  destruct (includes_fold _ _).
  - destruct (relay fuel buffer) as [[sent remaining]|] eqn:Hinner; [|done].
    by rewrite (IH fuel' buffer _ Hinner) by lia.
  - apply IH; [done|lia].
Qed.

Lemma relay_chunks_quiet (fuel : nat) (chunks : list string) (buffer : string) :
  includes_fold content_length_pattern (buffer ++ Js.join "" chunks) = false ->
  (String.length (buffer ++ Js.join "" chunks) < fuel)%nat ->
  exists rest, relay_chunks fuel buffer chunks = Some ([], rest).
Proof.
  revert buffer. induction chunks as [|chunk chunks IH]; intros buffer Hclean Hlen.
  - by exists buffer.
  - rewrite join_cons_empty, <- string_app_assoc in Hclean, Hlen.
    rewrite string_length_app in Hlen.
    destruct (relay_quiet fuel (buffer ++ chunk)) as (pre & rest & Hrun & Hrest).
    + by apply includes_fold_app_l in Hclean.
    + lia.
    + simpl. rewrite Hrun.
      destruct (IH rest) as [rest' Hrest'].
      * rewrite Hrest, string_app_assoc in Hclean. by apply includes_fold_app_r in Hclean.
      * rewrite string_length_app. rewrite Hrest, string_length_app in Hlen. lia.
      * rewrite Hrest'. by exists rest'.
Qed.

(** X19: the relay forwards nothing from a well-behaved language
    server.  The header pattern asks for a backslash and a letter [d] after
    [Content-Length: ]; as long as the stream holds no such text, however
    it is cut into chunks, every header block is discarded, the handler
    returns after each chunk and no message is sent to the WebSocket. *)
Theorem relay_forwards_nothing (chunks : list string) :
  includes_fold content_length_pattern (Js.join "" chunks) = false ->
  exists rest,
    relay_chunks (S (String.length (Js.join "" chunks))) "" chunks = Some ([], rest).
Proof.
  intros Hclean. apply relay_chunks_quiet; [exact Hclean|].
  change ("" ++ Js.join "" chunks) with (Js.join "" chunks). lia.
Qed.

(** Two well-formed messages of the language server, split across three
    chunks: neither is forwarded. *)
Lemma relay_forwards_nothing_witness :
  exists rest,
    relay_chunks 64 ""
      [ "Content-Length: 2"; CRLF2 ++ "{}" ++ "Content-Length: 3" ++ CRLF2; "{x}" ] =
    Some ([], rest).
Proof.
  destruct (relay_forwards_nothing
              [ "Content-Length: 2"; CRLF2 ++ "{}" ++ "Content-Length: 3" ++ CRLF2; "{x}" ])
    as [rest Hrest]; [vm_compute; reflexivity|].
  exists rest. exact Hrest.
Defined.

(** X20: a header that does match hangs the handler.  When the first
    header block of the buffer holds [Content-Length: ], a backslash and a
    [d], the captured length is not a number, the buffer is never consumed
    and the loop sends empty messages without end: no number of
    iterations is enough for the handler to return. *)
Theorem relay_hangs_on_matching_header (buffer : string) (headerEnd : nat) :
  index_of CRLF2 buffer = Some headerEnd ->
  includes_fold content_length_pattern (take_chars headerEnd buffer) = true ->
  forall fuel, relay fuel buffer = None.
Proof.
  intros Hindex Hmatch fuel. induction fuel as [|fuel IH]; [done|].
  simpl. by rewrite Hindex, Hmatch, IH.
Qed.

(** Such a header, followed by a body. *)
Lemma relay_hangs_on_matching_header_witness :
  relay 1000 ("Content-Length: " ++ String (ascii_of_nat 92) "d" ++ CRLF2 ++ "{}") = None.
Proof.
  apply (relay_hangs_on_matching_header _ 18); vm_compute; reflexivity.
Defined.
